(** * Layered graph layout (rank, levels, ordering, coordinates, edge paths)

    A shallow embedding of the layout pipeline of the call-graph view:
    the generic directed [Graph] container, [rankVertices],
    [ranksToLevels] (with its local [handleEdge]), [positionNodes] and
    [makeEdgePaths], followed by the properties proved about them.

    Conventions of the embedding.
    - A JavaScript [Map] or [Set] is an insertion-ordered association
      list or list ([JsMap], [JsSet]): the code iterates them, and the
      order of iteration is the order of insertion.
    - [LevelNode] objects are shared and mutated, so they live in a node
      store (a list indexed by reference); rows, chains and the position
      map hold references.
    - Ranks are row numbers and are integers ([Z]).  Coordinates are
      multiples of 1/4 far below 2^53, where double arithmetic is exact,
      and are rationals ([Q]) compared with [==].
    - A [throw] is the outcome [Throws]; running out of the recursion
      budget of the model is the separate outcome [OutOfFuel]. *)

From Stdlib Require Import ZArith QArith Lia Lqa Sorted.
From stdpp Require Import base option list sets.

Set Warnings "-clear-no-such-hyp".

(** ** Insertion-ordered maps and sets *)

Module JsMap.
Section defs.
Context {K A : Type} `{EqDecision K}.

Fixpoint get (m : list (K * A)) (k : K) : option A :=
  match m with
  | [] => None
  | (k', a) :: m' => if decide (k' = k) then Some a else get m' k
  end.

Definition has (m : list (K * A)) (k : K) : bool :=
  match get m k with Some _ => true | None => false end.

(** [Map.prototype.set]: an existing key keeps its place, a new key goes
    to the end. *)
Fixpoint set (m : list (K * A)) (k : K) (a : A) : list (K * A) :=
  match m with
  | [] => [(k, a)]
  | (k', a') :: m' =>
      if decide (k' = k) then (k, a) :: m' else (k', a') :: set m' k a
  end.

Definition keys (m : list (K * A)) : list K := m.*1.
End defs.
End JsMap.

Module JsSet.
Section defs.
Context {K : Type} `{EqDecision K}.

Definition has (s : list K) (k : K) : bool := bool_decide (k ∈ s).

(** [Set.prototype.add]: adding a member again changes nothing. *)
Definition add (s : list K) (k : K) : list K :=
  if has s k then s else s ++ [k].
End defs.
End JsSet.

(** Modelled from the spec: the helpers [getOrInsert] and [getOrElse] of
    the utilities module, which is not part of the sources at hand.
    [getOrInsert] stores the fallback under a missing key and returns the
    stored value, [getOrElse] returns the fallback without storing it. *)
Definition getOrInsert {K A} `{EqDecision K}
    (m : list (K * A)) (k : K) (fallback : A) : A * list (K * A) :=
  match JsMap.get m k with
  | Some a => (a, m)
  | None => (fallback, JsMap.set m k fallback)
  end.

Definition getOrElse {K A} `{EqDecision K}
    (m : list (K * A)) (k : K) (fallback : A) : A :=
  match JsMap.get m k with Some a => a | None => fallback end.

(** ** Generic directed graph *)

Class Edge (V E : Type) := { from : E → V; to : E → V }.

Section graph.
Context {V E : Type} `{EqDecision V, EqDecision E, Edge V E}.

Record Graph := mkGraph {
  vertices : list V;
  edges : list E;
  edgesEnteringVertex : list (V * list E);
  edgesLeavingVertex : list (V * list E)
}.

Definition emptyGraph : Graph := mkGraph [] [] [] [].

Definition addVertex (g : Graph) (v : V) : Graph :=
  mkGraph (JsSet.add (vertices g) v) (edges g)
          (edgesEnteringVertex g) (edgesLeavingVertex g).

Definition addEdge (g : Graph) (e : E) : Graph :=
  let g := addVertex g (from e) in
  let g := addVertex g (to e) in
  let edges' := JsSet.add (edges g) e in
  let '(inEdges, entering) := getOrInsert (edgesEnteringVertex g) (to e) [] in
  let entering := JsMap.set entering (to e) (JsSet.add inEdges e) in
  let '(outEdges, leaving) := getOrInsert (edgesLeavingVertex g) (from e) [] in
  let leaving := JsMap.set leaving (from e) (JsSet.add outEdges e) in
  mkGraph (vertices g) edges' entering leaving.

Definition getEdges (g : Graph) : list E := edges g.
Definition getVertices (g : Graph) : list V := vertices g.
Definition getEdgesLeaving (g : Graph) (v : V) : list E :=
  default [] (JsMap.get (edgesLeavingVertex g) v).
Definition getEdgesEntering (g : Graph) (v : V) : list E :=
  default [] (JsMap.get (edgesEnteringVertex g) v).

(** The fields of the class are private: the graphs a caller can hold
    are those grown from the empty one by [addVertex] and [addEdge]. *)
Inductive built : Graph → Prop :=
| built_empty : built emptyGraph
| built_addVertex g v : built g → built (addVertex g v)
| built_addEdge g e : built g → built (addEdge g e).

(** ** Rank assignment *)

Record RankState := mkRankState {
  ranks : list (V * Z);
  visited : list V
}.

(** The [for ... of graph.getEdgesEntering(v)] loop of [getRank], with
    the recursive call abstracted as [rec]. *)
Fixpoint maxParentRankLoop (rec : V → RankState → option (Z * RankState))
    (entering : list E) (maxParentRank : Z) (st : RankState)
    : option (Z * RankState) :=
  match entering with
  | [] => Some (maxParentRank, st)
  | enteringEdge :: rest =>
      match rec (from enteringEdge) st with
      | None => None
      | Some (r, st) => maxParentRankLoop rec rest (Z.max r maxParentRank) st
      end
  end.

(** [None] means the budget [fuel] of nested calls was exhausted. *)
Fixpoint getRank (g : Graph) (fuel : nat) (v : V) (st : RankState)
    : option (Z * RankState) :=
  match fuel with
  | O => None
  | S fuel =>
      if JsSet.has (visited st) v then
        match JsMap.get (ranks st) v with
        | Some r => Some (r, st)
        | None => Some (-1, st)%Z
        end
      else
        let st := mkRankState (ranks st) (JsSet.add (visited st) v) in
        match maxParentRankLoop (getRank g fuel) (getEdgesEntering g v) (-1) st with
        | None => None
        | Some (maxParentRank, st) =>
            let vRank := (maxParentRank + 1)%Z in
            Some (vRank, mkRankState (JsMap.set (ranks st) v vRank) (visited st))
        end
  end.

(** [itForEach(graph.getVertices(), getRank)] *)
Fixpoint forEachVertex (f : V → RankState → option (Z * RankState))
    (vs : list V) (st : RankState) : option RankState :=
  match vs with
  | [] => Some st
  | v :: vs =>
      match f v st with
      | None => None
      | Some (_, st) => forEachVertex f vs st
      end
  end.

Definition rankVertices (g : Graph) : option (list (V * Z)) :=
  ranks <$> forEachVertex (getRank g (S (length (getVertices g))))
              (getVertices g) (mkRankState [] []).

(** ** Paths of the graph

    [walk g u v n]: the edges of [g] lead from [u] to [v] in [n] steps.
    A source is a vertex that no edge enters. *)
Inductive walk (g : Graph) (u : V) : V → nat → Prop :=
| walk_refl : walk g u u 0
| walk_step e n :
    walk g u (from e) n → e ∈ edges g → walk g u (to e) (S n).

Definition acyclic (g : Graph) : Prop := ∀ v n, walk g v v n → n = 0.

Definition isSource (g : Graph) (v : V) : Prop := getEdgesEntering g v = [].

(** ** Invariants of the ranking

    A vertex is on the stack while it is visited and not yet ranked.
    [rankEquation g m v r]: in the rank map [m], [r] is 0 if [v] is a
    source and else one more than the largest rank of the origin of an
    edge entering [v]. *)
Definition onStack (st : RankState) (v : V) : Prop :=
  v ∈ visited st ∧ JsMap.get (ranks st) v = None.

Definition rankEquation (g : Graph) (m : list (V * Z)) (v : V) (r : Z) : Prop :=
  (∀ e, e ∈ getEdgesEntering g v →
        ∃ r', JsMap.get m (from e) = Some r' ∧ (r' + 1 ≤ r)%Z)
  ∧ (isSource g v ∧ r = 0%Z
     ∨ ∃ e, e ∈ getEdgesEntering g v ∧ JsMap.get m (from e) = Some (r - 1)%Z).

Record rankInv (g : Graph) (st : RankState) : Prop := mkRankInv {
  inv_visited : ∀ v r, JsMap.get (ranks st) v = Some r → v ∈ visited st;
  inv_nonneg : ∀ v r, JsMap.get (ranks st) v = Some r → (0 ≤ r)%Z;
  inv_equation : ∀ v r, JsMap.get (ranks st) v = Some r → rankEquation g (ranks st) v r
}.

(** The invariant that holds on every graph, cyclic or not: ranked
    vertices are visited vertices of the graph, each ranked once, with a
    rank below the number of ranked vertices; the origin of every edge
    into a ranked vertex is visited; the ends of an edge that is not a
    self-loop never have the same rank; and a vertex of rank above 0 has
    an entering edge whose origin has the rank just below. *)
Record rankInvAny (g : Graph) (st : RankState) : Prop := mkRankInvAny {
  any_ranked_visited : ∀ v r, JsMap.get (ranks st) v = Some r → v ∈ visited st;
  any_visited_vertex : ∀ v, v ∈ visited st → v ∈ vertices g;
  any_keys_nodup : NoDup (JsMap.keys (ranks st));
  any_bound : ∀ v r, JsMap.get (ranks st) v = Some r →
                (0 ≤ r < Z.of_nat (length (ranks st)))%Z;
  any_origin_visited : ∀ e, e ∈ edges g →
                is_Some (JsMap.get (ranks st) (to e)) → from e ∈ visited st;
  any_edge : ∀ e ru rv, e ∈ edges g → from e ≠ to e →
                JsMap.get (ranks st) (from e) = Some ru →
                JsMap.get (ranks st) (to e) = Some rv → ru ≠ rv;
  any_tight : ∀ v r, JsMap.get (ranks st) v = Some r →
                r = 0%Z
                ∨ ∃ e, e ∈ edges g ∧ to e = v
                       ∧ JsMap.get (ranks st) (from e) = Some (r - 1)%Z
}.

(** What a call of [getRank], or a run of its loop, that answered [r]
    did to the state: it only added visited vertices and ranks; the
    vertices it ranked were not visited before and have rank at most
    [r]; and the vertices it left on the stack were there before. *)
Definition rankStep (st st' : RankState) (r : Z) : Prop :=
  (∀ w, w ∈ visited st → w ∈ visited st')
  ∧ (∀ w rw, JsMap.get (ranks st) w = Some rw → JsMap.get (ranks st') w = Some rw)
  ∧ (∀ w rw, JsMap.get (ranks st') w = Some rw → JsMap.get (ranks st) w = None →
       (w ∉ visited st) ∧ (rw ≤ r)%Z)
  ∧ (∀ w, w ∈ visited st' → JsMap.get (ranks st') w = None → w ∈ visited st).

Definition unvisitedCount (g : Graph) (st : RankState) : nat :=
  length (filter (λ w, w ∉ visited st) (vertices g)).
End graph.

Arguments Graph V E : clear implicits.
Arguments RankState V : clear implicits.

(** ** Geometry

    Modelled from the spec: [Vec2] and [Rect] of the math module, which is
    not part of the sources at hand.  A rectangle is an origin and an
    extent; [left] and [top] are the coordinates of the origin, [width]
    and [height] those of the extent. *)

Module Vec2.
Record t := mk { x : Q; y : Q }.
Definition plus (a b : t) : t := mk (x a + x b) (y a + y b).
Definition times (a : t) (k : Q) : t := mk (x a * k) (y a * k).
End Vec2.

Module Rect.
Record t := mk { origin : Vec2.t; size : Vec2.t }.
Definition left (r : t) : Q := Vec2.x (origin r).
Definition top (r : t) : Q := Vec2.y (origin r).
Definition width (r : t) : Q := Vec2.x (size r).
Definition height (r : t) : Q := Vec2.y (size r).
End Rect.

(** The constants of [positionNodes]. *)
Definition width : Q := 230 / 2.
Definition height : Q := 50 / 2.
Definition verticalSpacing : Q := 90 / 2.
Definition horizontalSpacing : Q := 50 / 2.

(** ** Level nodes and the node store *)

Section layout.
Context {V E : Type} `{EqDecision V, EqDecision E, Edge V E}.

(** A [LevelNode] object.  [parents] and [children] hold references
    into the node store; [vertex = None] is JavaScript's [null]. *)
Record LevelNode := mkLevelNode {
  parents : list nat;
  children : list nat;
  vertex : option V;
  index : nat
}.

(** The errors thrown, by message: "Missing level node or self cycle",
    "Vertex with no rank", "Found sideways edge: from -> to", "Missing
    level node" and "Failed to find position for endpoint ...", the
    endpoint being [None] when it is [undefined]. *)
Inductive Error :=
| MissingLevelNodeOrSelfCycle
| VertexWithNoRank
| FoundSidewaysEdge (from to : V)
| MissingLevelNode
| FailedToFindPosition (endpoint : option nat).

Inductive outcome (A : Type) :=
| Returns (a : A)
| Throws (e : Error)
| OutOfFuel.
Global Arguments Returns {A} a.
Global Arguments Throws {A} e.
Global Arguments OutOfFuel {A}.

Definition outcome_bind {A B} (f : A → outcome B) (m : outcome A) : outcome B :=
  match m with
  | Returns a => f a
  | Throws e => Throws e
  | OutOfFuel => OutOfFuel
  end.
Global Instance outcome_mbind : MBind outcome := @outcome_bind.
Global Instance outcome_mret : MRet outcome := @Returns.

Definition pushParent (n p : nat) (ns : list LevelNode) : list LevelNode :=
  alter (λ nd, mkLevelNode (parents nd ++ [p]) (children nd) (vertex nd) (index nd)) n ns.
Definition pushChild (n c : nat) (ns : list LevelNode) : list LevelNode :=
  alter (λ nd, mkLevelNode (parents nd) (children nd ++ [c]) (vertex nd) (index nd)) n ns.
Definition setIndex (n i : nat) (ns : list LevelNode) : list LevelNode :=
  alter (λ nd, mkLevelNode (parents nd) (children nd) (vertex nd) i) n ns.

Fixpoint reindexFrom (i : nat) (level : list nat) (ns : list LevelNode)
    : list LevelNode :=
  match level with
  | [] => ns
  | n :: level => reindexFrom (S i) level (setIndex n i ns)
  end.

Definition reindexLevel (level : list nat) (ns : list LevelNode) : list LevelNode :=
  reindexFrom 0 level ns.

(** ** Level construction *)

(** What [handleEdge] reads and writes: the node objects and the rows
    under construction. *)
Record LevelStore := mkStore {
  nodes : list LevelNode;
  rankToLevel : list (Z * list nat)
}.

(** [getOrInsert(rankToLevel, rank, makeEmpty).push(levelNode)] *)
Definition pushToLevel (rank : Z) (levelNode : nat)
    (rtl : list (Z * list nat)) : list (Z * list nat) :=
  let '(levelNodeList, rtl) := getOrInsert rtl rank [] in
  JsMap.set rtl rank (levelNodeList ++ [levelNode]).

Record Builder := mkBuilder {
  store : LevelStore;
  vertexToLevelNode : list (V * nat);
  minRank : Z;
  maxRank : Z
}.

(** Body of [for (let [vertex, rank] of ranks)]. *)
Definition addRankedVertex (b : Builder) (entry : V * Z) : Builder :=
  let '(vertex, rank) := entry in
  let levelNode := length (nodes (store b)) in
  mkBuilder
    (mkStore (nodes (store b) ++ [mkLevelNode [] [] (Some vertex) 0])
             (pushToLevel rank levelNode (rankToLevel (store b))))
    (JsMap.set (vertexToLevelNode b) vertex levelNode)
    (Z.min (minRank b) rank)
    (Z.max (maxRank b) rank).

Definition initialBuilder : Builder := mkBuilder (mkStore [] []) [] 0 0.

(** The loop [for (let rank = fromRank + 1; rank < toRank; rank++)] of
    [handleEdge], run [count] more times from [rank]. *)
Fixpoint insertVirtualNodes (count : nat) (rank : Z) (parent : nat)
    (levelNodesForEdge : list nat) (s : LevelStore)
    : nat * list nat * LevelStore :=
  match count with
  | O => (parent, levelNodesForEdge, s)
  | S count =>
      let levelNode := length (nodes s) in
      let ns := nodes s ++ [mkLevelNode [parent] [] None 0] in
      let ns := pushChild parent levelNode ns in
      let rtl := pushToLevel rank levelNode (rankToLevel s) in
      insertVirtualNodes count (rank + 1) levelNode
        (levelNodesForEdge ++ [levelNode]) (mkStore ns rtl)
  end.

Section handleEdge.
Variable ranks : list (V * Z).
Variable v2n : list (V * nat).

Fixpoint handleEdge (fuel : nat) (from to : V) (s : LevelStore)
    : outcome (list nat * LevelStore) :=
  match fuel with
  | O => OutOfFuel
  | S fuel =>
      if decide (from = to) then
        match JsMap.get v2n from with
        | None => Throws MissingLevelNodeOrSelfCycle
        | Some node => Returns ([node], s)
        end
      else
        match JsMap.get ranks from, JsMap.get ranks to with
        | Some fromRank, Some toRank =>
            if decide (toRank = fromRank) then
              Throws (FoundSidewaysEdge from to)
            else if decide (toRank < fromRank)%Z then
              '(nodes, s) ← handleEdge fuel to from s;
              Returns (reverse nodes, s)
            else
              match JsMap.get v2n from, JsMap.get v2n to with
              | Some fromLevelNode, Some toLevelNode =>
                  let '(parent, levelNodesForEdge, s) :=
                    insertVirtualNodes (Z.to_nat (toRank - (fromRank + 1)))
                      (fromRank + 1) fromLevelNode [fromLevelNode] s in
                  let ns := pushParent toLevelNode parent (nodes s) in
                  let ns := pushChild parent toLevelNode ns in
                  Returns (levelNodesForEdge ++ [toLevelNode],
                           mkStore ns (rankToLevel s))
              | _, _ => Throws MissingLevelNode
              end
        | _, _ => Throws VertexWithNoRank
        end
  end.

(** [itForEach(edges, e => edgeToLevelNodes.set(e, handleEdge(e.from, e.to)))];
    the recursion of [handleEdge] is given a budget of two nested calls. *)
Fixpoint handleEdges (es : list E) (s : LevelStore)
    (edgeToLevelNodes : list (E * list nat))
    : outcome (LevelStore * list (E * list nat)) :=
  match es with
  | [] => Returns (s, edgeToLevelNodes)
  | e :: es =>
      '(chain, s) ← handleEdge 2 (from e) (to e) s;
      handleEdges es s (JsMap.set edgeToLevelNodes e chain)
  end.
End handleEdge.

(** [for (let rank = minRank; rank <= maxRank; rank++)], run [count]
    more times from [rank]. *)
Fixpoint collectLevels (count : nat) (rank : Z) (rtl : list (Z * list nat))
    (ns : list LevelNode) (levels : list (list nat))
    : list LevelNode * list (list nat) :=
  match count with
  | O => (ns, levels)
  | S count =>
      let level := getOrElse rtl rank [] in
      collectLevels count (rank + 1) rtl (reindexLevel level ns) (levels ++ [level])
  end.

(** ** Crossing minimization *)

Definition indexOf (ns : list LevelNode) (n : nat) : nat :=
  match ns !! n with Some nd => index nd | None => O end.

(** [l.reduce((accum, p) => accum + p.index, 0)] *)
Definition sumIndex (ns : list LevelNode) (l : list nat) : nat :=
  foldl (λ accum p, accum + indexOf ns p) 0 l.

(** [sumIndex / l.length]; the quotient 0/0 of an empty list is NaN,
    here [None]. *)
Definition meanIndex (ns : list LevelNode) (l : list nat) : option Q :=
  match l with
  | [] => None
  | _ => Some (inject_Z (Z.of_nat (sumIndex ns l)) / inject_Z (Z.of_nat (length l)))%Q
  end.

Definition levelNodeParentWeight (ns : list LevelNode) (n : nat) : option Q :=
  match ns !! n with Some nd => meanIndex ns (parents nd) | None => None end.
Definition levelNodeChildWeight (ns : list LevelNode) (n : nat) : option Q :=
  match ns !! n with Some nd => meanIndex ns (children nd) | None => None end.

(** [sortBy] belongs to the utilities module, which is not part of the
    sources at hand; it is a parameter of the embedding, and [stableSortBy]
    below is its model from the specification.  It receives the key
    function and the row and returns the row as it is after the in-place
    sort.  A weight is a quotient of small integers, which doubles order
    as the rationals do. *)
Variable sortBy : (nat → option Q) → list nat → list nat.

(** [sortBy(levels[i], weight); reindexLevel(levels[i])] *)
Definition sortLevel (weight : list LevelNode → nat → option Q)
    (st : list LevelNode * list (list nat)) (i : nat)
    : list LevelNode * list (list nat) :=
  let '(ns, levels) := st in
  match levels !! i with
  | None => st
  | Some level =>
      let level := sortBy (weight ns) level in
      (reindexLevel level ns, <[i := level]> levels)
  end.

Definition crossingPass (st : list LevelNode * list (list nat))
    : list LevelNode * list (list nat) :=
  let st := foldl (sortLevel levelNodeParentWeight) st (seq 0 (length st.2)) in
  foldl (sortLevel levelNodeChildWeight) st (reverse (seq 0 (length st.2))).

Definition minimizeCrossings (st : list LevelNode * list (list nat))
    : list LevelNode * list (list nat) :=
  Nat.iter 4 crossingPass st.

(** The passes in the words of the specification: a row is sorted by
    weight and its column indices are reassigned; a sweep does so row
    after row; a full pass sweeps from the top by parent weight and then
    from the bottom by child weight. *)
Definition sortAndReindex (weight : list LevelNode → nat → option Q)
    (ns : list LevelNode) (row : list nat) : list LevelNode * list nat :=
  let row := sortBy (weight ns) row in
  (reindexLevel row ns, row).

Fixpoint sweep (weight : list LevelNode → nat → option Q)
    (ns : list LevelNode) (rows : list (list nat))
    : list LevelNode * list (list nat) :=
  match rows with
  | [] => (ns, [])
  | row :: rows =>
      let '(ns, row) := sortAndReindex weight ns row in
      let '(ns, rows) := sweep weight ns rows in
      (ns, row :: rows)
  end.

Definition sweepTopToBottom (weight : list LevelNode → nat → option Q)
    (st : list LevelNode * list (list nat)) : list LevelNode * list (list nat) :=
  sweep weight st.1 st.2.

Definition sweepBottomToTop (weight : list LevelNode → nat → option Q)
    (st : list LevelNode * list (list nat)) : list LevelNode * list (list nat) :=
  let '(ns, rows) := sweep weight st.1 (reverse st.2) in
  (ns, reverse rows).

Definition fullPass (st : list LevelNode * list (list nat))
    : list LevelNode * list (list nat) :=
  sweepBottomToTop levelNodeChildWeight (sweepTopToBottom levelNodeParentWeight st).



(** The node objects are part of the result: [levels] and the chains of
    [edgeToLevelNodes] refer to them. *)
Record LevelResult := mkLevelResult {
  levelNodes : list LevelNode;
  levels : list (list nat);
  edgeToLevelNodes : list (E * list nat)
}.

Definition ranksToLevels (ranks : list (V * Z)) (edges : list E)
    : outcome LevelResult :=
  let b := foldl addRankedVertex initialBuilder ranks in
  '(s, edgeToLevelNodes) ←
    handleEdges ranks (vertexToLevelNode b) edges (store b) [];
  let '(ns, levels) :=
    collectLevels (Z.to_nat (maxRank b - minRank b + 1)) (minRank b)
      (rankToLevel s) (nodes s) [] in
  let '(ns, levels) := minimizeCrossings (ns, levels) in
  Returns (mkLevelResult ns levels edgeToLevelNodes).

(** ** Vocabulary for the level structure

    [isReal ns n v]: node [n] wraps vertex [v]; [isVirtual ns n]: it
    wraps none.  [linked ns a b]: [b] is among the children of [a] and
    [a] among the parents of [b].  [inRow] and [inLevel] say in which
    row a node sits, during construction (by rank) and in the result
    (by position, the first row being that of the least rank). *)
Definition isReal (ns : list LevelNode) (n : nat) (v : V) : Prop :=
  ∃ nd, ns !! n = Some nd ∧ vertex nd = Some v.

Definition isVirtual (ns : list LevelNode) (n : nat) : Prop :=
  ∃ nd, ns !! n = Some nd ∧ vertex nd = None.

Definition linked (ns : list LevelNode) (a b : nat) : Prop :=
  ∃ na nb, ns !! a = Some na ∧ ns !! b = Some nb
           ∧ b ∈ children na ∧ a ∈ parents nb.

Definition linkedChain (ns : list LevelNode) (chain : list nat) : Prop :=
  ∀ i a b, chain !! i = Some a → chain !! S i = Some b → linked ns a b.

Definition inRow (rtl : list (Z * list nat)) (r : Z) (n : nat) : Prop :=
  ∃ row, JsMap.get rtl r = Some row ∧ n ∈ row.

(** The least rank as [ranksToLevels] computes it, starting from 0. *)
Definition minRankOf (ranks : list (V * Z)) : Z := foldl Z.min 0%Z (ranks.*2).
Definition maxRankOf (ranks : list (V * Z)) : Z := foldl Z.max 0%Z (ranks.*2).

Definition inLevel (levels : list (list nat)) (least : Z) (r : Z) (n : nat) : Prop :=
  (least ≤ r)%Z ∧ ∃ row, levels !! Z.to_nat (r - least) = Some row ∧ n ∈ row.

(** A chain from [u] at rank [ru] down to [v] at rank [rv]: one node per
    rank, real at both ends, virtual in between, consecutive nodes
    linked. *)
Definition chainSpec (ns : list LevelNode) (rowOf : Z → nat → Prop)
    (u : V) (ru : Z) (v : V) (rv : Z) (chain : list nat) : Prop :=
  Z.of_nat (length chain) = (rv - ru + 1)%Z
  ∧ (∃ nu, head chain = Some nu ∧ isReal ns nu u ∧ rowOf ru nu)
  ∧ (∃ nv, last chain = Some nv ∧ isReal ns nv v ∧ rowOf rv nv)
  ∧ (∀ i n, 0 < i → S i < length chain → chain !! i = Some n →
            isVirtual ns n ∧ rowOf (ru + Z.of_nat i)%Z n)
  ∧ linkedChain ns chain.

(** The chain recorded for an edge from [u] to [v]: it runs from the
    lower rank to the higher one, read backwards for a back edge. *)
Definition chainBetween (ns : list LevelNode) (rowOf : Z → nat → Prop)
    (ranks : list (V * Z)) (u v : V) (chain : list nat) : Prop :=
  ∃ ru rv, JsMap.get ranks u = Some ru ∧ JsMap.get ranks v = Some rv
    ∧ if decide (ru ≤ rv)%Z then chainSpec ns rowOf u ru v rv chain
      else chainSpec ns rowOf v rv u ru (reverse chain).

(** Every ranked vertex has its node, a real node in the row of its rank. *)
Definition v2nOK (ranks : list (V * Z)) (v2n : list (V * nat)) (s : LevelStore) : Prop :=
  (∀ v n, JsMap.get v2n v = Some n →
     isReal (nodes s) n v
     ∧ ∃ r, JsMap.get ranks v = Some r ∧ inRow (rankToLevel s) r n)
  ∧ (∀ v r, JsMap.get ranks v = Some r → is_Some (JsMap.get v2n v)).

(** An edge that [handleEdge] can place: both ends are ranked, and it is
    a self-loop or its ends have different ranks. *)
Definition placeable (ranks : list (V * Z)) (u v : V) : Prop :=
  ∃ ru rv, JsMap.get ranks u = Some ru ∧ JsMap.get ranks v = Some rv
           ∧ (u = v ∨ ru ≠ rv).

(** A sideways edge: its two ends are different vertices of one rank. *)
Definition sideways (ranks : list (V * Z)) (e : E) : Prop :=
  from e ≠ to e ∧ is_Some (JsMap.get ranks (from e))
  ∧ JsMap.get ranks (from e) = JsMap.get ranks (to e).

(** The error that [handleEdge] throws for an edge from [u] to [v] it
    cannot place, by the order of its tests: a self-loop whose vertex
    has no node; then an end without rank; then ends of one rank. *)
Definition edgeError (ranks : list (V * Z)) (u v : V) : Error :=
  if decide (u = v) then MissingLevelNodeOrSelfCycle
  else match JsMap.get ranks u, JsMap.get ranks v with
       | Some _, Some _ => FoundSidewaysEdge u v
       | _, _ => VertexWithNoRank
       end.

(** The nodes of the rows under construction, and the invariant of the
    rows: they hold every node object of the store once, under ranks
    between [lo] and [hi]. *)
Definition rowNodes (rtl : list (Z * list nat)) : list nat := concat (rtl.*2).

Definition storeInv (lo hi : Z) (s : LevelStore) : Prop :=
  rowNodes (rankToLevel s) ≡ₚ seq 0 (length (nodes s))
  ∧ NoDup (JsMap.keys (rankToLevel s))
  ∧ ∀ k, k ∈ JsMap.keys (rankToLevel s) → (lo ≤ k ≤ hi)%Z.

(** [linkedTo ns ns' p c]: the store [ns'] is [ns] after [c] was pushed
    onto the children of [p] and [p] onto the parents of [c]. *)
Definition linkedTo (ns ns' : list LevelNode) (p c : nat) : Prop :=
  ∀ n, ns' !! n
       = (λ nd, mkLevelNode (if decide (n = c) then parents nd ++ [p] else parents nd)
                            (if decide (n = p) then children nd ++ [c] else children nd)
                            (vertex nd) (index nd)) <$> ns !! n.

(** The links of the store mirror each other, refer to nodes of the
    store, and join a node to a node of the next row. *)
Definition linksOK (s : LevelStore) : Prop :=
  (∀ a b na nb, nodes s !! a = Some na → nodes s !! b = Some nb →
     (b ∈ children na ↔ a ∈ parents nb))
  ∧ (∀ a na b, nodes s !! a = Some na → b ∈ children na →
       b < length (nodes s)
       ∧ ∃ r, inRow (rankToLevel s) r a ∧ inRow (rankToLevel s) (r + 1) b)
  ∧ (∀ b nb a, nodes s !! b = Some nb → a ∈ parents nb →
       a < length (nodes s)
       ∧ ∃ r, inRow (rankToLevel s) r a ∧ inRow (rankToLevel s) (r + 1) b).

(** A virtual node has one parent and one child; the node [open], the
    end of the chain under construction, has no child yet. *)
Definition degOK (open : option nat) (ns : list LevelNode) : Prop :=
  ∀ n nd, ns !! n = Some nd → vertex nd = None →
    length (parents nd) = 1
    ∧ length (children nd) = if decide (open = Some n) then 0 else 1.

(** A real node is the node of its vertex. *)
Definition realOK (v2n : list (V * nat)) (ns : list LevelNode) : Prop :=
  ∀ n nd v, ns !! n = Some nd → vertex nd = Some v → JsMap.get v2n v = Some n.

(** Sorting and reindexing touch the [index] field only. *)
Definition indexOnly (ns ns' : list LevelNode) : Prop :=
  length ns' = length ns
  ∧ ∀ n nd, ns !! n = Some nd →
      ∃ nd', ns' !! n = Some nd' ∧ vertex nd' = vertex nd
             ∧ parents nd' = parents nd ∧ children nd' = children nd.

(** Node objects only ever gain parents and children. *)
Definition nodeExt (ns ns' : list LevelNode) : Prop :=
  ∀ n nd, ns !! n = Some nd →
    ∃ nd', ns' !! n = Some nd' ∧ vertex nd' = vertex nd
           ∧ parents nd ⊆ parents nd' ∧ children nd ⊆ children nd'.



Definition columnsOK (st : list LevelNode * list (list nat)) : Prop :=
  NoDup (concat st.2)
  ∧ (∀ n, n ∈ concat st.2 → n < length st.1)
  ∧ ∀ i row j n, st.2 !! i = Some row → row !! j = Some n → indexOf st.1 n = j.


(** ** Coordinate assignment *)

Local Open Scope Q_scope.

(** [node.vertex] used as a condition.  Vertices are objects, so the
    condition fails exactly for the [null] of a virtual node. *)
Definition hasVertex (ns : list LevelNode) (node : nat) : bool :=
  match ns !! node with
  | Some nd => match vertex nd with Some _ => true | None => false end
  | None => false
  end.

Definition maxCount (levels : list (list nat)) : nat :=
  foldl (λ max cur, Nat.max max (length cur)) 0%nat levels.

Definition totalWidth (levels : list (list nat)) : Q :=
  inject_Z (Z.of_nat (maxCount levels)) * width
  + inject_Z (Z.of_nat (maxCount levels) - 1) * horizontalSpacing.

Definition levelWidthStep (ns : list LevelNode) (levelWidth : Q) (node : nat) : Q :=
  let levelWidth :=
    if Qlt_le_dec 0 levelWidth then levelWidth + horizontalSpacing else levelWidth in
  if hasVertex ns node then levelWidth + width else levelWidth + horizontalSpacing.

Definition levelWidth (ns : list LevelNode) (level : list nat) : Q :=
  foldl (levelWidthStep ns) 0 level.

(** Body of the second [for (let node of level)] of [positionNodes]. *)
Definition placeNode (ns : list LevelNode) (y : Q)
    (st : Q * list (nat * Rect.t)) (node : nat) : Q * list (nat * Rect.t) :=
  let '(x, positions) := st in
  if hasVertex ns node then
    let positions :=
      JsMap.set positions node (Rect.mk (Vec2.mk x y) (Vec2.mk width height)) in
    let x := x + width in
    (x + horizontalSpacing, positions)
  else
    let positions :=
      JsMap.set positions node
        (Rect.mk (Vec2.mk (x + horizontalSpacing / 2) (y + height / 2)) (Vec2.mk 0 0)) in
    let x := x + horizontalSpacing in
    (x + horizontalSpacing, positions).

Definition placeLevel (ns : list LevelNode) (total : Q)
    (st : Q * list (nat * Rect.t)) (level : list nat) : Q * list (nat * Rect.t) :=
  let '(y, positions) := st in
  let x := total / 2 - levelWidth ns level / 2 in
  let '(_, positions) := foldl (placeNode ns y) (x, positions) level in
  (y + (height + verticalSpacing), positions).

Definition positionNodes (ns : list LevelNode) (levels : list (list nat))
    : list (nat * Rect.t) :=
  (foldl (placeLevel ns (totalWidth levels)) (0, []) levels).2.

(** The width a node takes in its row, and the distance that [placeNode]
    advances over a list of nodes: each node's width and one spacing. *)
Definition nodeWidth (ns : list LevelNode) (node : nat) : Q :=
  if hasVertex ns node then width else horizontalSpacing.

Definition slotsWidth (ns : list LevelNode) (l : list nat) : Q :=
  foldr (λ node acc, nodeWidth ns node + horizontalSpacing + acc) 0 l.

(** Where the rectangle of a node starts and how wide it is, given the
    left end of the node's slot. *)
Definition slotRect (ns : list LevelNode) (node : nat) (slot : Q) (rect : Rect.t) : Prop :=
  if hasVertex ns node then Rect.left rect == slot ∧ Rect.width rect == width
  else Rect.left rect == slot + horizontalSpacing / 2 ∧ Rect.width rect == 0.

(** How the rectangle of a node lies in a row whose top is at [y]: a
    real node fills the row's height; a virtual node is an empty rectangle
    half way down. *)
Definition rowRect (ns : list LevelNode) (node : nat) (y : Q) (rect : Rect.t) : Prop :=
  if hasVertex ns node then
    Rect.top rect == y ∧ Rect.width rect == width ∧ Rect.height rect == height
  else
    Rect.top rect == y + height / 2 ∧ Rect.width rect == 0 ∧ Rect.height rect == 0.

(** The occupied width of the widest row of the structure, in the words
    of the specification. *)
Definition widestLevelWidth (ns : list LevelNode) (levels : list (list nat)) : Q :=
  foldr (λ level acc,
           if Qlt_le_dec acc (levelWidth ns level) then levelWidth ns level else acc)
        0 levels.

(** ** Edge routing *)

(** The path is kept as its list of drawing commands: [MoveTo p] is the
    text "M x y " and [SmoothTo mid p] the text "S mx my x y ". *)
Inductive PathCommand :=
| MoveTo (p : Vec2.t)
| SmoothTo (midpoint p : Vec2.t).

(** [new Vec2(rect.left() + rect.width() / 2, rect.top())] *)
Definition topCenter (r : Rect.t) : Vec2.t :=
  Vec2.mk (Rect.left r + Rect.width r / 2) (Rect.top r).

(** The anchors computed by one turn of the loop over a chain. *)
Definition segmentAnchors (fromRect toRect : Rect.t) : Vec2.t * Vec2.t :=
  let fromAnchor := topCenter fromRect in
  let toAnchor := topCenter toRect in
  if Qlt_le_dec (Rect.top fromRect) (Rect.top toRect) then
    (Vec2.plus fromAnchor (Vec2.mk 0 (Rect.height fromRect)), toAnchor)
  else
    (fromAnchor, Vec2.plus toAnchor (Vec2.mk 0 (Rect.height toRect))).

(** [for (let i = 1; i < nodeList.length; i++)], with [from] the node of
    the previous turn and [rest] the nodes still to visit. *)
Fixpoint extendPath (positions : list (nat * Rect.t)) (from : nat)
    (rest : list nat) (path : list PathCommand) : outcome (list PathCommand) :=
  match rest with
  | [] => Returns path
  | to :: rest =>
      match JsMap.get positions from, JsMap.get positions to with
      | None, _ => Throws (FailedToFindPosition (Some from))
      | _, None => Throws (FailedToFindPosition (Some to))
      | Some fromRect, Some toRect =>
          let '(fromAnchor, toAnchor) := segmentAnchors fromRect toRect in
          let midpoint := Vec2.times (Vec2.plus fromAnchor toAnchor) (1 / 2) in
          extendPath positions to rest (path ++ [SmoothTo midpoint toAnchor])
      end
  end.

(** Body of [for (let [edge, nodeList] of edgeToLevelNodes)]; an empty
    [nodeList] makes [from] undefined, which has no position. *)
Definition edgePath (positions : list (nat * Rect.t)) (nodeList : list nat)
    : outcome (list PathCommand) :=
  match nodeList with
  | [] => Throws (FailedToFindPosition None)
  | from :: rest =>
      match JsMap.get positions from with
      | None => Throws (FailedToFindPosition (Some from))
      | Some fromRect =>
          let fromAnchor := topCenter fromRect in
          let fromAnchor := Vec2.plus fromAnchor (Vec2.mk 0 (Rect.height fromRect)) in
          extendPath positions from rest [MoveTo fromAnchor]
      end
  end.

Fixpoint makeEdgePathsFrom (positions : list (nat * Rect.t))
    (edgeToLevelNodes : list (E * list nat))
    (edgePaths : list (E * list PathCommand))
    : outcome (list (E * list PathCommand)) :=
  match edgeToLevelNodes with
  | [] => Returns edgePaths
  | (edge, nodeList) :: rest =>
      path ← edgePath positions nodeList;
      makeEdgePathsFrom positions rest (JsMap.set edgePaths edge path)
  end.

Definition makeEdgePaths (edgeToLevelNodes : list (E * list nat))
    (positions : list (nat * Rect.t)) : outcome (list (E * list PathCommand)) :=
  makeEdgePathsFrom positions edgeToLevelNodes [].

Local Close Scope Q_scope.

(** ** The pipeline

    The module runs the four stages in sequence on its graph. *)
Record Layout := mkLayout {
  layoutRanks : list (V * Z);
  levelResult : LevelResult;
  nodePositions : list (nat * Rect.t);
  edgePaths : list (E * list PathCommand)
}.

Definition layoutGraph (graph : Graph V E) : outcome Layout :=
  match rankVertices graph with
  | None => OutOfFuel
  | Some ranks =>
      levelResult ← ranksToLevels ranks (getEdges graph);
      let positions := positionNodes (levelNodes levelResult) (levels levelResult) in
      edgePaths ← makeEdgePaths (edgeToLevelNodes levelResult) positions;
      Returns (mkLayout ranks levelResult positions edgePaths)
  end.

(** ** The view

    [CallGraphView.render] draws one group for every row, with one
    element for every real node of the row and [null] (here [None]) for
    a virtual node, and then one path element for every edge of the graph.
    Of a node's element the model keeps what the layout decides, the
    translation and the size of the rectangle, and the vertex whose name
    is the label; of a path element, its [d] attribute.  The error is
    "Failed to retrieve position for node ...". *)
Record NodeElement := mkNodeElement {
  translateX : Q;
  translateY : Q;
  rectWidth : Q;
  rectHeight : Q;
  label : V
}.

Inductive RenderError := FailedToRetrievePosition (node : nat).

(** Body of [level.map(node => ...)]. *)
Definition renderNode (ns : list LevelNode) (positions : list (nat * Rect.t))
    (node : nat) : RenderError + option NodeElement :=
  match ns !! node ≫= vertex with
  | None => inr None
  | Some v =>
      match JsMap.get positions node with
      | None => inl (FailedToRetrievePosition node)
      | Some pos =>
          inr (Some (mkNodeElement (Rect.left pos) (Rect.top pos)
                                   (Rect.width pos) (Rect.height pos) v))
      end
  end.

Fixpoint renderLevel (ns : list LevelNode) (positions : list (nat * Rect.t))
    (level : list nat) : RenderError + list (option NodeElement) :=
  match level with
  | [] => inr []
  | node :: level =>
      match renderNode ns positions node with
      | inl err => inl err
      | inr element =>
          match renderLevel ns positions level with
          | inl err => inl err
          | inr elements => inr (element :: elements)
          end
      end
  end.

Fixpoint renderLevels (ns : list LevelNode) (positions : list (nat * Rect.t))
    (levels : list (list nat)) : RenderError + list (list (option NodeElement)) :=
  match levels with
  | [] => inr []
  | level :: levels =>
      match renderLevel ns positions level with
      | inl err => inl err
      | inr group =>
          match renderLevels ns positions levels with
          | inl err => inl err
          | inr groups => inr (group :: groups)
          end
      end
  end.

(** [itMap(graph.getEdges(), e => edgePaths.get(e) || '')] *)
Definition renderPaths (edges : list E) (edgePaths : list (E * list PathCommand))
    : list (list PathCommand) :=
  (λ e, default [] (JsMap.get edgePaths e)) <$> edges.

Record View := mkView {
  groups : list (list (option NodeElement));
  paths : list (list PathCommand)
}.

Definition render (graph : Graph V E) (layout : Layout) : RenderError + View :=
  match renderLevels (levelNodes (levelResult layout)) (nodePositions layout)
                     (levels (levelResult layout)) with
  | inl err => inl err
  | inr groups =>
      inr (mkView groups (renderPaths (getEdges graph) (edgePaths layout)))
  end.

(** The vertices drawn, in the order of their elements. *)
Definition drawnVertices (groups : list (list (option NodeElement))) : list V :=
  label <$> omap id (concat groups).
End layout.

Arguments NodeElement V : clear implicits.
Arguments View V : clear implicits.
Arguments LevelNode V : clear implicits.
Arguments LevelStore V : clear implicits.
Arguments Builder V : clear implicits.
Arguments Error V : clear implicits.
Arguments outcome V : clear implicits.
Arguments LevelResult V E : clear implicits.
Arguments Layout V E : clear implicits.

(** ** The earlier variant of the geometry

    [positionNodes] and [makeEdgePaths] as they were before virtual
    nodes were given a narrower slot and paths became curves: every node
    takes a slot of the node width, and a path is a sequence of straight
    segments. *)
Module Part001.
Section defs.
Context {V : Type}.
Local Open Scope Q_scope.

(** [count * width + (count - 1) * horizontalSpacing] *)
Definition levelWidth (level : list nat) : Q :=
  inject_Z (Z.of_nat (length level)) * width
  + inject_Z (Z.of_nat (length level) - 1) * horizontalSpacing.

(** Body of [for (let node of level)]. *)
Definition placeNode (ns : list (LevelNode V)) (y : Q)
    (st : Q * list (nat * Rect.t)) (node : nat) : Q * list (nat * Rect.t) :=
  let '(x, positions) := st in
  let positions :=
    if hasVertex ns node then
      JsMap.set positions node (Rect.mk (Vec2.mk x y) (Vec2.mk width height))
    else
      JsMap.set positions node
        (Rect.mk (Vec2.mk (x + width / 2) (y + height / 2)) (Vec2.mk 0 0)) in
  (x + (width + horizontalSpacing), positions).

Definition placeLevel (ns : list (LevelNode V)) (total : Q)
    (st : Q * list (nat * Rect.t)) (level : list nat) : Q * list (nat * Rect.t) :=
  let '(y, positions) := st in
  let x := total / 2 - levelWidth level / 2 in
  let '(_, positions) := foldl (placeNode ns y) (x, positions) level in
  (y + (height + verticalSpacing), positions).

Definition positionNodes (ns : list (LevelNode V)) (levels : list (list nat))
    : list (nat * Rect.t) :=
  (foldl (placeLevel ns (totalWidth levels)) (0, []) levels).2.

(** One turn of the loop over a chain adds the text
    "M fromAnchor.x fromAnchor.y L toAnchor.x toAnchor.y". *)
Inductive Segment := MoveLine (fromAnchor toAnchor : Vec2.t).

(** [new Rect()], of the math module, is a parameter. *)
Variable defaultRect : Rect.t.

Fixpoint extendPath (positions : list (nat * Rect.t)) (from : nat)
    (rest : list nat) (path : list Segment) : list Segment :=
  match rest with
  | [] => path
  | to :: rest =>
      let fromRect := default defaultRect (JsMap.get positions from) in
      let toRect := default defaultRect (JsMap.get positions to) in
      let '(fromAnchor, toAnchor) := segmentAnchors fromRect toRect in
      extendPath positions to rest (path ++ [MoveLine fromAnchor toAnchor])
  end.

(** Body of [for (let [edge, nodeList] of edgeToLevelNodes)]; with an
    empty [nodeList] the loop does not run. *)
Definition edgePath (positions : list (nat * Rect.t)) (nodeList : list nat)
    : list Segment :=
  match nodeList with
  | [] => []
  | from :: rest => extendPath positions from rest []
  end.

Definition makeEdgePaths {E : Type} `{EqDecision E}
    (edgeToLevelNodes : list (E * list nat)) (positions : list (nat * Rect.t))
    : list (E * list Segment) :=
  foldl (λ edgePaths '(edge, nodeList),
           JsMap.set edgePaths edge (edgePath positions nodeList))
        [] edgeToLevelNodes.
End defs.

(** Level construction of the earlier variant.  Its node objects have
    the fields [parents], [vertex] and [index] only: the [children]
    field of the record stays empty. *)
Section levels.
Context {V E : Type} `{EqDecision V, EqDecision E, Edge V E}.

(** The loop [for (let rank = fromRank + 1; rank < toRank; rank++)] of
    [handleEdge], run [count] more times from [rank]: the new node has
    no parent, and [parent] is not reassigned. *)
Fixpoint insertVirtualNodes (count : nat) (rank : Z)
    (levelNodesForEdge : list nat) (s : LevelStore V)
    : list nat * LevelStore V :=
  match count with
  | O => (levelNodesForEdge, s)
  | S count =>
      let levelNode := length (nodes s) in
      let ns := nodes s ++ [mkLevelNode [] [] None 0] in
      let rtl := pushToLevel rank levelNode (rankToLevel s) in
      insertVirtualNodes count (rank + 1)
        (levelNodesForEdge ++ [levelNode]) (mkStore ns rtl)
  end.

Section handleEdge.
Variable ranks : list (V * Z).
Variable v2n : list (V * nat).

(** The [console.log] before the sideways-edge error is not modelled. *)
Fixpoint handleEdge (fuel : nat) (from to : V) (s : LevelStore V)
    : outcome V (list nat * LevelStore V) :=
  match fuel with
  | O => OutOfFuel
  | S fuel =>
      if decide (from = to) then
        match JsMap.get v2n from with
        | None => Throws MissingLevelNodeOrSelfCycle
        | Some node => Returns ([node], s)
        end
      else
        match JsMap.get ranks from, JsMap.get ranks to with
        | Some fromRank, Some toRank =>
            if decide (toRank = fromRank) then
              Throws (FoundSidewaysEdge from to)
            else if decide (toRank < fromRank)%Z then
              '(nodes, s) ← handleEdge fuel to from s;
              Returns (reverse nodes, s)
            else
              match JsMap.get v2n from, JsMap.get v2n to with
              | Some fromLevelNode, Some toLevelNode =>
                  let parent := fromLevelNode in
                  let '(levelNodesForEdge, s) :=
                    insertVirtualNodes (Z.to_nat (toRank - (fromRank + 1)))
                      (fromRank + 1) [fromLevelNode] s in
                  let ns := pushParent toLevelNode parent (nodes s) in
                  Returns (levelNodesForEdge ++ [toLevelNode],
                           mkStore ns (rankToLevel s))
              | _, _ => Throws MissingLevelNode
              end
        | _, _ => Throws VertexWithNoRank
        end
  end.

(** [itForEach(edges, e => edgeToLevelNodes.set(e, handleEdge(e.from, e.to)))];
    the recursion of [handleEdge] is given a budget of two nested calls. *)
Fixpoint handleEdges (es : list E) (s : LevelStore V)
    (edgeToLevelNodes : list (E * list nat))
    : outcome V (LevelStore V * list (E * list nat)) :=
  match es with
  | [] => Returns (s, edgeToLevelNodes)
  | e :: es =>
      '(chain, s) ← handleEdge 2 (from e) (to e) s;
      handleEdges es s (JsMap.set edgeToLevelNodes e chain)
  end.
End handleEdge.

Variable sortBy : (nat → option Q) → list nat → list nat.

(** The rows are sorted once, from the first to the last, by the mean
    index of the parents. *)
Definition ranksToLevels (ranks : list (V * Z)) (edges : list E)
    : outcome V (LevelResult V E) :=
  let b := foldl addRankedVertex initialBuilder ranks in
  '(s, edgeToLevelNodes) ←
    handleEdges ranks (vertexToLevelNode b) edges (store b) [];
  let '(ns, levels) :=
    collectLevels (Z.to_nat (maxRank b - minRank b + 1)) (minRank b)
      (rankToLevel s) (nodes s) [] in
  let '(ns, levels) :=
    foldl (sortLevel sortBy levelNodeParentWeight) (ns, levels)
      (seq 0 (length levels)) in
  Returns (mkLevelResult ns levels edgeToLevelNodes).

(** The [parents] of the level structure: a virtual node has none, and a
    parent is the node of a vertex that an edge of [edges] joins to the
    vertex of the node, the parent's vertex having the smaller rank. *)
Definition parentsOK (ranks : list (V * Z)) (edges : list E)
    (ns : list (LevelNode V)) : Prop :=
  ∀ n nd, ns !! n = Some nd →
    (vertex nd = None → parents nd = [])
    ∧ ∀ p, p ∈ parents nd →
        ∃ u v ru rv e,
          isReal ns p u ∧ vertex nd = Some v
          ∧ JsMap.get ranks u = Some ru ∧ JsMap.get ranks v = Some rv
          ∧ (ru < rv)%Z
          ∧ e ∈ edges
          ∧ (from e = u ∧ to e = v ∨ from e = v ∧ to e = u).
End levels.
End Part001.

(** ** A concrete instance

    Vertices are numbered, and an edge object is its identity together
    with its two endpoints, so that parallel edges are distinct objects. *)
Record CallGraphEdge := mkEdge { edgeId : nat; edgeFrom : nat; edgeTo : nat }.
Global Instance CallGraphEdge_eq_dec : EqDecision CallGraphEdge.
Proof. solve_decision. Defined.
Global Instance CallGraphEdge_Edge : Edge nat CallGraphEdge :=
  {| from := edgeFrom; to := edgeTo |}.

Definition graphOf (es : list CallGraphEdge) : Graph nat CallGraphEdge :=
  foldl addEdge emptyGraph es.

(** ** The sort

    Modelled from the spec: [sortBy] of the utilities module, which is not
    part of the sources at hand.  The specification has each row stably
    sorted by weight, the weight of a node without parents (or children)
    being undefined and ignored.  So the elements whose key is undefined
    keep their places, and the others are sorted by key into the places
    they occupy, by an insertion sort that keeps elements of equal key in
    their order. *)
Definition keyLt (a b : option Q) : bool :=
  match a, b with
  | Some a, Some b => if Qlt_le_dec a b then true else false
  | _, _ => false
  end.

Fixpoint insertBy (key : nat → option Q) (x : nat) (l : list nat) : list nat :=
  match l with
  | [] => [x]
  | y :: l' => if keyLt (key y) (key x) then y :: insertBy key x l' else x :: l
  end.

Definition insertionSortBy (key : nat → option Q) (l : list nat) : list nat :=
  foldr (insertBy key) [] l.

Definition hasKey (key : nat → option Q) (x : nat) : bool :=
  match key x with Some _ => true | None => false end.

(** Put the elements of [sorted] into the places of [l] whose element has
    a key, in order. *)
Fixpoint refill (key : nat → option Q) (l sorted : list nat) : list nat :=
  match l with
  | [] => []
  | x :: l' =>
      if hasKey key x then
        match sorted with
        | y :: sorted' => y :: refill key l' sorted'
        | [] => x :: refill key l' []
        end
      else x :: refill key l' sorted
  end.

Definition stableSortBy (key : nat → option Q) (l : list nat) : list nat :=
  refill key l (insertionSortBy key (filter (λ x, hasKey key x) l)).

(** What a stable sort by key that ignores undefined keys does, in the
    words of the specification: the same elements; those without a key
    where they were; those with a key in non-decreasing order of key; and
    those of any one key in the order they had. *)
Definition keyLe (key : nat → option Q) (x y : nat) : Prop :=
  match key x, key y with
  | Some a, Some b => (a <= b)%Q
  | _, _ => False
  end.

Definition keyIs (key : nat → option Q) (k : Q) (x : nat) : bool :=
  match key x with Some q => Qeq_bool q k | None => false end.

Definition stablySortedBy (key : nat → option Q) (l l' : list nat) : Prop :=
  l' ≡ₚ l
  ∧ (∀ i x, l !! i = Some x → key x = None → l' !! i = Some x)
  ∧ StronglySorted (keyLe key) (filter (λ x, hasKey key x) l')
  ∧ (∀ k, filter (λ x, keyIs key k x) l' = filter (λ x, keyIs key k x) l).




(** * Properties *)

(** ** Maps and sets *)

Section JsMap_facts.
Context {K A : Type} `{EqDecision K}.
Implicit Types (m : list (K * A)) (k : K) (a : A).

Lemma JsMap_get_set m k a k' :
  JsMap.get (JsMap.set m k a) k' = if decide (k = k') then Some a else JsMap.get m k'.
Proof.
  induction m as [|[k0 a0] m IH]; simpl.
  - destruct (decide (k = k')); done.
  - destruct (decide (k0 = k)) as [->|Hne]; simpl.
    + destruct (decide (k = k')); done.
    + destruct (decide (k0 = k')) as [->|]; [|done].
      by rewrite decide_False by done.
Qed.

Lemma JsMap_get_set_eq m k a : JsMap.get (JsMap.set m k a) k = Some a.
Proof. rewrite JsMap_get_set. by rewrite decide_True. Qed.

Lemma JsMap_get_set_ne m k a k' :
  k ≠ k' → JsMap.get (JsMap.set m k a) k' = JsMap.get m k'.
Proof. intros. rewrite JsMap_get_set. by rewrite decide_False. Qed.

Lemma JsMap_get_Some_elem m k a : JsMap.get m k = Some a → (k, a) ∈ m.
Proof.
  induction m as [|[k0 a0] m IH]; simpl; [done|].
  destruct (decide (k0 = k)) as [->|]; intros ?; simplify_eq.
  - apply elem_of_cons; auto.
  - apply elem_of_cons; auto.
Qed.

Lemma JsMap_get_None_keys m k : JsMap.get m k = None ↔ k ∉ JsMap.keys m.
Proof.
  unfold JsMap.keys. induction m as [|[k0 a0] m IH]; simpl.
  - split; [intros _; apply not_elem_of_nil|done].
  - rewrite not_elem_of_cons. destruct (decide (k0 = k)) as [->|]; [naive_solver|].
    rewrite IH. naive_solver.
Qed.

Lemma JsMap_elem_get m k a :
  NoDup (JsMap.keys m) → (k, a) ∈ m → JsMap.get m k = Some a.
Proof.
  unfold JsMap.keys. induction m as [|[k0 a0] m IH]; simpl.
  - intros _ Hin. by apply elem_of_nil in Hin.
  - intros [Hnotin Hnd]%NoDup_cons [Heq|Hin]%elem_of_cons.
    + simplify_eq. by rewrite decide_True.
    + destruct (decide (k0 = k)) as [->|]; [|by apply IH].
      exfalso. apply Hnotin. apply list_elem_of_fmap. by exists (k, a).
Qed.

Lemma JsMap_keys_set m k a :
  JsMap.keys (JsMap.set m k a)
  = if JsMap.has m k then JsMap.keys m else JsMap.keys m ++ [k].
Proof.
  unfold JsMap.keys, JsMap.has. induction m as [|[k0 a0] m IH]; csimpl; [done|].
  destruct (decide (k0 = k)) as [->|]; csimpl; [done|].
  rewrite IH. by destruct (JsMap.get m k).
Qed.
End JsMap_facts.

Section JsSet_facts.
Context {K : Type} `{EqDecision K}.
Implicit Types (s : list K) (k : K).

Lemma JsSet_has_true s k : JsSet.has s k = true ↔ k ∈ s.
Proof. unfold JsSet.has. by rewrite bool_decide_eq_true. Qed.

Lemma JsSet_has_false s k : JsSet.has s k = false ↔ k ∉ s.
Proof. unfold JsSet.has. by rewrite bool_decide_eq_false. Qed.

Lemma JsSet_elem_of_add s k x : x ∈ JsSet.add s k ↔ x ∈ s ∨ x = k.
Proof.
  unfold JsSet.add. destruct (JsSet.has s k) eqn:Hk.
  - apply JsSet_has_true in Hk. naive_solver.
  - rewrite elem_of_app, list_elem_of_singleton. done.
Qed.
End JsSet_facts.

(** ** The graph container keeps its indices in step with its edges *)

Section graph_facts.
Context {V E : Type} `{EqDecision V, EqDecision E, Edge V E}.
Implicit Types (g : Graph V E) (v : V) (e : E).

Lemma getEdgesEntering_addEdge g e v :
  getEdgesEntering (addEdge g e) v
  = if decide (to e = v) then JsSet.add (getEdgesEntering g v) e
    else getEdgesEntering g v.
Proof.
  unfold getEdgesEntering, addEdge, getOrInsert; simpl.
  destruct (JsMap.get (edgesEnteringVertex g) (to e)) as [es|] eqn:Hes;
    destruct (JsMap.get (edgesLeavingVertex g) (from e)); simpl;
    rewrite !JsMap_get_set; destruct (decide (to e = v)) as [<-|]; simpl;
    rewrite ?Hes; done.
Qed.

Lemma getEdgesEntering_addVertex g v' v :
  getEdgesEntering (addVertex g v') v = getEdgesEntering g v.
Proof. done. Qed.

Lemma edges_addEdge g e : edges (addEdge g e) = JsSet.add (edges g) e.
Proof.
  unfold addEdge, getOrInsert; simpl.
  destruct (JsMap.get (edgesEnteringVertex g) (to e));
    destruct (JsMap.get (edgesLeavingVertex g) (from e)); done.
Qed.

Lemma vertices_addEdge g e :
  vertices (addEdge g e) = JsSet.add (JsSet.add (vertices g) (from e)) (to e).
Proof.
  unfold addEdge, getOrInsert; simpl.
  destruct (JsMap.get (edgesEnteringVertex g) (to e));
    destruct (JsMap.get (edgesLeavingVertex g) (from e)); done.
Qed.

(** The entering index lists exactly the inserted edges, by target. *)
Lemma built_entering g :
  built g → ∀ e v, e ∈ getEdgesEntering g v ↔ e ∈ edges g ∧ to e = v.
Proof.
  induction 1 as [|g v' _ IH|g e' _ IH]; intros e v.
  - unfold getEdgesEntering; simpl. rewrite elem_of_nil. naive_solver.
  - rewrite getEdgesEntering_addVertex. apply IH.
  - rewrite getEdgesEntering_addEdge, edges_addEdge, JsSet_elem_of_add.
    destruct (decide (to e' = v)) as [<-|Hne].
    + rewrite JsSet_elem_of_add, IH. naive_solver.
    + rewrite IH. naive_solver.
Qed.

(** Adding an edge adds its endpoints. *)
Lemma built_endpoints g :
  built g → ∀ e, e ∈ edges g → from e ∈ vertices g ∧ to e ∈ vertices g.
Proof.
  induction 1 as [|g v' _ IH|g e' _ IH]; intros e.
  - simpl. by rewrite elem_of_nil.
  - simpl. intros [??]%IH. rewrite !JsSet_elem_of_add. auto.
  - rewrite edges_addEdge, vertices_addEdge, !JsSet_elem_of_add.
    intros [[??]%IH| ->]; auto.
Qed.
End graph_facts.

(** ** Rank assignment *)

Section filter_facts.
Context {A : Type}.
Implicit Types (l : list A).

Lemma filter_length_mono (P Q : A → Prop)
    `{!∀ x, Decision (P x), !∀ x, Decision (Q x)} l :
  (∀ x, P x → Q x) → length (filter P l) ≤ length (filter Q l).
Proof.
  intros HPQ. induction l as [|a l IH]; [done|].
  rewrite !filter_cons. destruct (decide (P a)) as [HP|HP].
  - rewrite decide_True by auto. simpl. lia.
  - destruct (decide (Q a)); simpl; lia.
Qed.

Lemma filter_length_lt (P Q : A → Prop)
    `{!∀ x, Decision (P x), !∀ x, Decision (Q x)} l x :
  (∀ x, P x → Q x) → x ∈ l → Q x → ¬ P x →
  length (filter P l) < length (filter Q l).
Proof.
  intros HPQ Hx HQ HP. induction l as [|a l IH]; [by apply elem_of_nil in Hx|].
  rewrite !filter_cons. apply elem_of_cons in Hx as [<-|Hx].
  - rewrite decide_False, decide_True by done. simpl.
    pose proof (filter_length_mono P Q l HPQ). lia.
  - specialize (IH Hx). destruct (decide (P a)) as [HPa|HPa].
    + rewrite decide_True by auto. simpl. lia.
    + destruct (decide (Q a)); simpl; lia.
Qed.
End filter_facts.

Section rank_facts.
Context {V E : Type} `{EqDecision V, EqDecision E, Edge V E}.
Variable g : Graph V E.
Hypothesis Hbuilt : built g.
Implicit Types (v w : V) (e : E) (st : RankState V).

Lemma walk_cons e w n :
  e ∈ edges g → walk g (to e) w n → walk g (from e) w (S n).
Proof.
  intros He. induction 1 as [|e' n' _ IH He'].
  - apply (walk_step g (from e) e 0); [constructor|done].
  - by apply walk_step.
Qed.

(** *** Termination: every nested call marks a vertex not yet visited *)

Lemma unvisitedCount_mono st st' :
  (∀ w, w ∈ visited st → w ∈ visited st') →
  unvisitedCount g st' ≤ unvisitedCount g st.
Proof. intros Hsub. apply filter_length_mono. naive_solver. Qed.

Lemma maxParentRankLoop_terminates rec fuel es :
  (∀ v st, v ∈ vertices g → unvisitedCount g st < fuel →
     ∃ r st', rec v st = Some (r, st') ∧ ∀ w, w ∈ visited st → w ∈ visited st') →
  (∀ e, e ∈ es → from e ∈ vertices g) →
  ∀ mx st, unvisitedCount g st < fuel →
  ∃ mx' st', maxParentRankLoop rec es mx st = Some (mx', st')
             ∧ ∀ w, w ∈ visited st → w ∈ visited st'.
Proof.
  intros Hrec. induction es as [|e es IH]; intros Hes mx st Hfuel; simpl.
  - eauto.
  - destruct (Hrec (from e) st) as (r & st1 & -> & Hmono); [|done|].
    { apply Hes, elem_of_cons; auto. }
    destruct (IH (λ e' He', Hes e' (list_elem_of_further _ _ _ He'))
                (Z.max r mx) st1) as (mx' & st' & -> & Hmono').
    { pose proof (unvisitedCount_mono st st1 Hmono). lia. }
    eauto 10.
Qed.

Lemma getRank_terminates fuel v st :
  v ∈ vertices g → unvisitedCount g st < fuel →
  ∃ r st', getRank g fuel v st = Some (r, st')
           ∧ ∀ w, w ∈ visited st → w ∈ visited st'.
Proof.
  revert v st. induction fuel as [|fuel IH]; intros v st Hv Hfuel; [lia|].
  simpl. destruct (JsSet.has (visited st) v) eqn:Hvis.
  - destruct (JsMap.get (ranks st) v); eauto.
  - apply JsSet_has_false in Hvis.
    destruct (maxParentRankLoop_terminates (getRank g fuel) fuel
                (getEdgesEntering g v) IH) with
      (mx := (-1)%Z) (st := mkRankState (ranks st) (JsSet.add (visited st) v))
      as (mx' & st' & -> & Hmono).
    + intros e [He _]%(built_entering g Hbuilt).
      by apply (built_endpoints g Hbuilt).
    + assert (unvisitedCount g (mkRankState (ranks st) (JsSet.add (visited st) v))
              < unvisitedCount g st); [|lia].
      apply (filter_length_lt _ _ _ v); simpl; [|done|done|].
      * intros x Hx Hx'. apply Hx. apply JsSet_elem_of_add. auto.
      * intros Hx. apply Hx. apply JsSet_elem_of_add. auto.
    + eexists _, _. split; [done|]. simpl. intros w Hw. apply Hmono. simpl.
      apply JsSet_elem_of_add. auto.
Qed.

Lemma forEachVertex_terminates fuel vs :
  (∀ v, v ∈ vs → v ∈ vertices g) → length (vertices g) < fuel →
  ∀ st, ∃ st', forEachVertex (getRank g fuel) vs st = Some st'.
Proof.
  intros Hvs Hfuel. induction vs as [|v vs IH]; intros st; simpl; [eauto|].
  destruct (getRank_terminates fuel v st) as (r & st1 & -> & _).
  - apply Hvs, elem_of_cons; auto.
  - unfold unvisitedCount. pose proof (length_filter (λ w, w ∉ visited st) (vertices g)). lia.
  - apply IH. intros v' Hv'. apply Hvs, elem_of_cons; auto.
Qed.

Lemma rankVertices_terminates : ∃ m, rankVertices g = Some m.
Proof.
  unfold rankVertices, getVertices.
  destruct (forEachVertex_terminates (S (length (vertices g))) (vertices g))
    with (st := @mkRankState V [] []) as [st' ->]; [done|lia|].
  simpl. eauto.
Qed.
End rank_facts.

Section rank_correct.
Context {V E : Type} `{EqDecision V, EqDecision E, Edge V E}.
Variable g : Graph V E.
Hypothesis Hbuilt : built g.
Hypothesis Hacyclic : acyclic g.
Implicit Types (v w : V) (e : E) (st : RankState V) (m : list (V * Z)).

(** Ranking a vertex that had no rank leaves the equations of the
    ranked vertices alone: they mention ranked vertices only. *)
Lemma rankEquation_set m v x w r :
  JsMap.get m v = None → rankEquation g m w r →
  rankEquation g (JsMap.set m v x) w r.
Proof.
  intros Hv [Hall Hmax]. split.
  - intros e He. destruct (Hall e He) as (r' & Hr' & ?). exists r'. split; [|done].
    rewrite JsMap_get_set_ne; [done|congruence].
  - destruct Hmax as [?|(e & He & Hr')]; [by left|right].
    exists e. split; [done|]. rewrite JsMap_get_set_ne; [done|congruence].
Qed.

Lemma maxParentRankLoop_correct rec v es :
  (∀ e st r st', e ∈ es → rankInv g st →
     (∀ w, onStack st w → ∃ n, walk g (from e) w (S n)) →
     rec (from e) st = Some (r, st') →
     rankInv g st' ∧ (∀ w, onStack st' w ↔ onStack st w)
     ∧ (∀ w rw, JsMap.get (ranks st) w = Some rw → JsMap.get (ranks st') w = Some rw)
     ∧ JsMap.get (ranks st') (from e) = Some r) →
  (∀ e, e ∈ es → e ∈ edges g ∧ to e = v) →
  ∀ mx st mx' st',
    rankInv g st →
    (∀ w, onStack st w → w = v ∨ ∃ n, walk g v w (S n)) →
    maxParentRankLoop rec es mx st = Some (mx', st') →
    rankInv g st' ∧ (∀ w, onStack st' w ↔ onStack st w)
    ∧ (∀ w rw, JsMap.get (ranks st) w = Some rw → JsMap.get (ranks st') w = Some rw)
    ∧ (∀ e, e ∈ es → ∃ r, JsMap.get (ranks st') (from e) = Some r ∧ (r ≤ mx')%Z)
    ∧ (mx ≤ mx')%Z
    ∧ (mx' = mx ∨ ∃ e, e ∈ es ∧ JsMap.get (ranks st') (from e) = Some mx').
Proof.
  induction es as [|e es IH]; intros Hrec Hes mx st mx' st' Hinv Hstack; simpl.
  - intros [= <- <-]. split_and!; auto; try lia.
    intros e He. by apply elem_of_nil in He.
  - destruct (rec (from e) st) as [[r st1]|] eqn:Hcall; [|done]. intros Hloop.
    destruct (Hes e) as [He Hto]; [apply elem_of_cons; auto|].
    destruct (Hrec e st r st1) as (Hinv1 & Hstack1 & Hpres1 & Hr);
      [apply elem_of_cons; auto|done| |done|].
    { intros w [->|[n Hw]]%Hstack.
      - exists 0. rewrite <- Hto. apply walk_step; [constructor|done].
      - exists (S n). apply (walk_cons g); [done|]. by rewrite Hto. }
    destruct (IH (λ e' st r st' He', Hrec e' st r st' (list_elem_of_further _ _ _ He'))
                (λ e' He', Hes e' (list_elem_of_further _ _ _ He'))
                (Z.max r mx) st1 mx' st' Hinv1)
      as (Hinv' & Hstack' & Hpres' & Hall & Hle & Hmax); [|done|].
    { intros w Hw. apply Hstack. by apply Hstack1. }
    split; [done|]. split; [intros w; by rewrite Hstack'|].
    split; [auto|]. split; [|split; [lia|]].
    + intros e' [->|He']%elem_of_cons; [|by apply Hall].
      exists r. split; [by apply Hpres'|lia].
    + destruct Hmax as [->|(e' & He' & Hr')].
      * destruct (Z.max_spec r mx) as [[_ ->]|[_ ->]]; [by left|].
        right. exists e. split; [apply elem_of_cons; auto|by apply Hpres'].
      * right. exists e'. split; [apply elem_of_cons; auto|done].
Qed.

Lemma getRank_correct fuel v st r st' :
  rankInv g st →
  (∀ w, onStack st w → ∃ n, walk g v w (S n)) →
  getRank g fuel v st = Some (r, st') →
  rankInv g st' ∧ (∀ w, onStack st' w ↔ onStack st w)
  ∧ (∀ w rw, JsMap.get (ranks st) w = Some rw → JsMap.get (ranks st') w = Some rw)
  ∧ JsMap.get (ranks st') v = Some r.
Proof.
  revert v st r st'. induction fuel as [|fuel IH]; intros v st r st' Hinv Hstack; [done|].
  simpl. destruct (JsSet.has (visited st) v) eqn:Hvis.
  - apply JsSet_has_true in Hvis.
    destruct (JsMap.get (ranks st) v) as [r0|] eqn:Hr0; intros [= <- <-]; [done|].
    destruct (Hstack v) as [n Hn]; [done|]. by apply Hacyclic in Hn.
  - apply JsSet_has_false in Hvis.
    assert (JsMap.get (ranks st) v = None) as Hunranked.
    { destruct (JsMap.get (ranks st) v) eqn:Hr0; [|done].
      exfalso. eauto using inv_visited. }
    set (st1 := mkRankState (ranks st) (JsSet.add (visited st) v)).
    destruct (maxParentRankLoop (getRank g fuel) (getEdgesEntering g v) (-1) st1)
      as [[mx' st2]|] eqn:Hloop; [|done].
    intros [= <- <-].
    assert (rankInv g st1) as Hinv1.
    { destruct Hinv as [Hv Hn He]. split; simpl; [|done|done].
      intros w rw Hw. apply JsSet_elem_of_add. eauto. }
    assert (∀ w, onStack st1 w ↔ onStack st w ∨ w = v) as Hstack1.
    { intros w. unfold onStack; simpl. rewrite JsSet_elem_of_add.
      split; [naive_solver|]. intros [[??]| ->]; auto. }
    destruct (maxParentRankLoop_correct (getRank g fuel) v (getEdgesEntering g v))
      with (mx := (-1)%Z) (st := st1) (mx' := mx') (st' := st2)
      as (Hinv2 & Hstack2 & Hpres2 & Hall & Hle & Hmax); [| |done| |done|].
    { intros e s r s' _. apply IH. }
    { intros e He. by apply (built_entering g Hbuilt). }
    { intros w [Hw| ->]%Hstack1; auto. }
    assert (onStack st2 v) as [Hv2 Hnone2] by (apply Hstack2, Hstack1; auto).
    split; [|split; [|split]]; simpl.
    + split; simpl.
      * intros w rw. rewrite JsMap_get_set. case_decide as Hw; [by subst|].
        apply (inv_visited g st2 Hinv2).
      * intros w rw. rewrite JsMap_get_set. case_decide as Hw.
        -- intros [= <-]. lia.
        -- apply (inv_nonneg g st2 Hinv2).
      * intros w rw. rewrite JsMap_get_set. case_decide as Hw.
        -- intros [= <-]. subst w. split.
           ++ intros e He. destruct (Hall e He) as (r' & Hr' & ?).
              exists r'. split; [|lia]. rewrite JsMap_get_set_ne; [done|congruence].
           ++ destruct Hmax as [->|(e & He & Hr')].
              ** destruct (getEdgesEntering g v) as [|e es] eqn:Hes; [by left|].
                 destruct (Hall e) as (r' & Hr' & ?); [apply elem_of_cons; auto|].
                 pose proof (inv_nonneg g st2 Hinv2 _ _ Hr'). lia.
              ** right. exists e. split; [done|].
                 rewrite JsMap_get_set_ne by congruence.
                 rewrite Hr'. f_equal. lia.
        -- intros Hw'. apply rankEquation_set; [done|].
           by apply (inv_equation g st2 Hinv2).
    + intros w. unfold onStack at 1; simpl. rewrite JsMap_get_set.
      case_decide as Hw.
      * subst w. split; [intros [_ [=]]|intros [? _]; done].
      * change (onStack st2 w ↔ onStack st w). rewrite Hstack2, Hstack1. naive_solver.
    + intros w rw Hw. rewrite JsMap_get_set_ne; [|congruence].
      by apply Hpres2.
    + apply JsMap_get_set_eq.
Qed.

Lemma forEachVertex_correct fuel vs :
  ∀ st st', rankInv g st → (∀ w, ¬ onStack st w) →
    forEachVertex (getRank g fuel) vs st = Some st' →
    rankInv g st' ∧ (∀ w, ¬ onStack st' w)
    ∧ (∀ w rw, JsMap.get (ranks st) w = Some rw → JsMap.get (ranks st') w = Some rw)
    ∧ ∀ v, v ∈ vs → is_Some (JsMap.get (ranks st') v).
Proof.
  induction vs as [|v vs IH]; intros st st' Hinv Hstack; simpl.
  - intros [= <-]. split_and!; auto. intros v Hv. by apply elem_of_nil in Hv.
  - destruct (getRank g fuel v st) as [[r st1]|] eqn:Hcall; [|done]. intros Hrest.
    destruct (getRank_correct fuel v st r st1) as (Hinv1 & Hstack1 & Hpres1 & Hr);
      [done| |done|].
    { intros w Hw. by apply Hstack in Hw. }
    destruct (IH st1 st' Hinv1) as (Hinv' & Hstack' & Hpres' & Hall); [|done|].
    { intros w Hw. apply (Hstack w). by apply Hstack1. }
    split_and!; auto.
    intros v' [->|Hv']%elem_of_cons; [|by apply Hall].
    exists r. by apply Hpres'.
Qed.

(** On an acyclic graph the ranking returns a map that ranks every
    vertex and satisfies the rank equation everywhere. *)
Lemma rankVertices_equation :
  ∃ m, rankVertices g = Some m
       ∧ (∀ v, v ∈ vertices g → is_Some (JsMap.get m v))
       ∧ (∀ v r, JsMap.get m v = Some r → (0 ≤ r)%Z ∧ rankEquation g m v r).
Proof.
  destruct (rankVertices_terminates g Hbuilt) as [m Hm]. exists m. split; [done|].
  unfold rankVertices, getVertices in Hm.
  destruct (forEachVertex _ _ _) as [st'|] eqn:Hrun; [|done].
  simpl in Hm. injection Hm as <-.
  apply forEachVertex_correct in Hrun as (Hinv & _ & _ & Hall).
  - split; [done|]. intros v r Hr. split.
    + by apply (inv_nonneg g st' Hinv v).
    + by apply (inv_equation g st' Hinv).
  - split; simpl; done.
  - intros w [Hw _]. simpl in Hw. by apply elem_of_nil in Hw.
Qed.

(** *** The rank equation characterises the longest path *)

Lemma rank_walk_le m :
  (∀ v r, JsMap.get m v = Some r → rankEquation g m v r) →
  ∀ u v n, walk g u v n →
  ∀ rv, JsMap.get m v = Some rv →
  ∃ ru, JsMap.get m u = Some ru ∧ (ru + Z.of_nat n ≤ rv)%Z.
Proof.
  intros Heq u v n. induction 1 as [|e n _ IH He]; intros rv Hrv.
  - exists rv. split; [done|lia].
  - destruct (Heq _ _ Hrv) as [Hall _].
    destruct (Hall e) as (r' & Hr' & ?).
    { by apply (built_entering g Hbuilt). }
    destruct (IH _ Hr') as (ru & Hru & ?). exists ru. split; [done|lia].
Qed.

Lemma rank_walk_attained m :
  (∀ v r, JsMap.get m v = Some r → (0 ≤ r)%Z ∧ rankEquation g m v r) →
  ∀ k v r, Z.to_nat r = k → JsMap.get m v = Some r →
  ∃ u, isSource g u ∧ walk g u v k.
Proof.
  intros Heq. induction k as [|k IH]; intros v r Hk Hr.
  - destruct (Heq _ _ Hr) as [Hnn [Hall [[Hsrc _]|(e & He & Hr')]]].
    + exists v. split; [done|constructor].
    + destruct (Heq _ _ Hr') as [? _]. lia.
  - destruct (Heq _ _ Hr) as [Hnn [Hall [[_ ->]|(e & He & Hr')]]]; [done|].
    destruct (IH (from e) (r - 1)%Z) as (u & Hsrc & Hwalk); [lia|done|].
    apply (built_entering g Hbuilt) in He as [He <-].
    exists u. split; [done|]. by apply walk_step.
Qed.
End rank_correct.

(** ** Level construction *)

Section JsMap_more.
Context {K A : Type} `{EqDecision K}.
Implicit Types (m : list (K * A)) (k : K) (a : A).

Lemma JsMap_get_app m1 m2 k :
  JsMap.get (m1 ++ m2) k
  = match JsMap.get m1 k with Some a => Some a | None => JsMap.get m2 k end.
Proof.
  induction m1 as [|[k0 a0] m1 IH]; simpl; [done|].
  by destruct (decide (k0 = k)).
Qed.
End JsMap_more.

Section level_facts.
Context {V E : Type} `{EqDecision V, EqDecision E, Edge V E}.
Implicit Types (ns : list (LevelNode V)) (rtl : list (Z * list nat))
  (s : LevelStore V) (n a b : nat) (r : Z) (chain : list nat).

(** *** Extension of the node store *)

Lemma nodeExt_refl ns : nodeExt ns ns.
Proof. intros n nd Hn. exists nd. done. Qed.

Lemma nodeExt_trans ns1 ns2 ns3 : nodeExt ns1 ns2 → nodeExt ns2 ns3 → nodeExt ns1 ns3.
Proof.
  intros H12 H23 n nd Hn.
  destruct (H12 n nd Hn) as (nd2 & Hn2 & Hv2 & Hp2 & Hc2).
  destruct (H23 n nd2 Hn2) as (nd3 & Hn3 & Hv3 & Hp3 & Hc3).
  exists nd3. split_and!; [done|congruence|set_solver|set_solver].
Qed.

Lemma nodeExt_app ns nd : nodeExt ns (ns ++ [nd]).
Proof. intros n nd' Hn. exists nd'. by rewrite (lookup_app_l_Some _ _ _ _ Hn). Qed.

Lemma nodeExt_alter (f : LevelNode V → LevelNode V) ns n :
  (∀ nd, vertex (f nd) = vertex nd ∧ parents nd ⊆ parents (f nd)
         ∧ children nd ⊆ children (f nd)) →
  nodeExt ns (alter f n ns).
Proof.
  intros Hf n' nd Hn'. destruct (decide (n = n')) as [<-|Hne].
  - exists (f nd). rewrite list_lookup_alter_eq, Hn'. split; [done|apply Hf].
  - exists nd. by rewrite list_lookup_alter_ne.
Qed.

Lemma nodeExt_pushParent ns n p : nodeExt ns (pushParent n p ns).
Proof. apply nodeExt_alter. intros nd; simpl. set_solver. Qed.

Lemma nodeExt_pushChild ns n c : nodeExt ns (pushChild n c ns).
Proof. apply nodeExt_alter. intros nd; simpl. set_solver. Qed.

Lemma nodeExt_setIndex ns n i : nodeExt ns (setIndex n i ns).
Proof. apply nodeExt_alter. intros nd; simpl. set_solver. Qed.

Lemma nodeExt_reindexFrom level : ∀ i ns, nodeExt ns (reindexFrom i level ns).
Proof.
  induction level as [|n level IH]; intros i ns; simpl; [apply nodeExt_refl|].
  eapply nodeExt_trans; [apply nodeExt_setIndex|apply IH].
Qed.

Lemma nodeExt_length ns ns' : nodeExt ns ns' → length ns ≤ length ns'.
Proof.
  intros Hext. destruct ns as [|nd ns _] using rev_ind; [simpl; lia|].
  destruct (Hext (length ns) nd) as (nd' & Hn' & _).
  - by rewrite lookup_app_r, Nat.sub_diag by lia.
  - apply lookup_lt_Some in Hn'. rewrite length_app; simpl. lia.
Qed.

Lemma isReal_ext ns ns' n v : nodeExt ns ns' → isReal ns n v → isReal ns' n v.
Proof.
  intros Hext (nd & Hn & Hv). destruct (Hext n nd Hn) as (nd' & ? & ? & _).
  exists nd'. split; [done|congruence].
Qed.

Lemma isVirtual_ext ns ns' n : nodeExt ns ns' → isVirtual ns n → isVirtual ns' n.
Proof.
  intros Hext (nd & Hn & Hv). destruct (Hext n nd Hn) as (nd' & ? & ? & _).
  exists nd'. split; [done|congruence].
Qed.

Lemma linked_ext ns ns' a b : nodeExt ns ns' → linked ns a b → linked ns' a b.
Proof.
  intros Hext (na & nb & Ha & Hb & Hc & Hp).
  destruct (Hext a na Ha) as (na' & ? & _ & _ & Hca).
  destruct (Hext b nb Hb) as (nb' & ? & _ & Hpb & _).
  exists na', nb'. split_and!; [done|done|set_solver|set_solver].
Qed.

Lemma linkedChain_ext ns ns' chain :
  nodeExt ns ns' → linkedChain ns chain → linkedChain ns' chain.
Proof. intros Hext Hl i a b Ha Hb. eapply linked_ext; [done|]. by eapply Hl. Qed.

Lemma linkedChain_snoc ns chain p b :
  linkedChain ns chain → last chain = Some p → linked ns p b →
  linkedChain ns (chain ++ [b]).
Proof.
  intros Hl Hlast Hpb i a' b' Ha' Hb'.
  destruct (decide (S i < length chain)) as [Hlt|Hge].
  - rewrite lookup_app_l in Ha', Hb' by lia. by eapply Hl.
  - assert (S i = length chain) as Hi.
    { apply lookup_lt_Some in Hb'. rewrite length_app in Hb'; simpl in Hb'. lia. }
    rewrite lookup_app_r, Hi, Nat.sub_diag in Hb' by lia. simpl in Hb'.
    rewrite lookup_app_l in Ha' by lia.
    rewrite last_lookup in Hlast. rewrite <- Hi in Hlast. simpl in Hlast.
    by simplify_eq.
Qed.

Lemma linkedChain_cons ns a b chain :
  linked ns a b → linkedChain ns (b :: chain) → linkedChain ns (a :: b :: chain).
Proof.
  intros Hab Hl [|i] a' b' Ha' Hb'; simpl in *; [by simplify_eq|].
  by eapply Hl.
Qed.

(** *** Rows under construction *)

Lemma inRow_pushToLevel rtl r n r' n' :
  inRow (pushToLevel r n rtl) r' n' ↔ inRow rtl r' n' ∨ (r' = r ∧ n' = n).
Proof.
  unfold inRow, pushToLevel, getOrInsert.
  destruct (JsMap.get rtl r) as [row|] eqn:Hrow.
  - setoid_rewrite JsMap_get_set. destruct (decide (r = r')) as [<-|Hne].
    + split.
      * intros (row' & [= <-] & [?| ->%list_elem_of_singleton]%elem_of_app); eauto.
      * intros [(row' & ? & ?)|[_ ->]]; simplify_eq;
          (eexists; split; [done|]); apply elem_of_app; auto.
        right. by apply list_elem_of_singleton.
    + naive_solver.
  - repeat setoid_rewrite JsMap_get_set.
    destruct (decide (r = r')) as [<-|Hne].
    + split.
      * intros (row' & [= <-] & ->%list_elem_of_singleton). auto.
      * intros [(row' & ? & ?)|[_ ->]]; [congruence|].
        eexists; split; [done|]. by apply list_elem_of_singleton.
    + rewrite JsMap_get_set_ne by done. naive_solver.
Qed.

(** *** Inserting the virtual nodes of an edge *)

Lemma lookup_pushChild_new ns p nd :
  p < length ns →
  ∃ np, pushChild p (length ns) (ns ++ [nd]) !! p = Some np
        ∧ length ns ∈ children np.
Proof.
  intros Hp. destruct (lookup_lt_is_Some_2 ns p Hp) as [np Hnp].
  eexists. unfold pushChild. rewrite list_lookup_alter_eq, lookup_app_l, Hnp by done.
  split; [done|]. simpl. apply elem_of_app. right. by apply list_elem_of_singleton.
Qed.

Lemma insertVirtualNodes_spec count :
  ∀ rank parent acc s parent' acc' s',
    insertVirtualNodes count rank parent acc s = (parent', acc', s') →
    parent < length (nodes s) →
    ∃ vs, acc' = acc ++ vs ∧ length vs = count
          ∧ last (parent :: vs) = Some parent'
          ∧ parent' < length (nodes s')
          ∧ (∀ i n, vs !! i = Some n →
               isVirtual (nodes s') n
               ∧ inRow (rankToLevel s') (rank + Z.of_nat i)%Z n)
          ∧ linkedChain (nodes s') (parent :: vs)
          ∧ nodeExt (nodes s) (nodes s')
          ∧ (∀ r n, inRow (rankToLevel s) r n → inRow (rankToLevel s') r n).
Proof.
  induction count as [|count IH]; intros rank parent acc s parent' acc' s'; simpl.
  - intros [= <- <- <-] Hp. exists []. rewrite app_nil_r.
    split_and!; auto using nodeExt_refl.
    + intros i n Hi. done.
    + intros [|i] a b Ha Hb; done.
  - intros Hrun Hp.
    set (n0 := length (nodes s)) in *.
    set (nd0 := mkLevelNode [parent] [] None 0) in *.
    set (ns1 := pushChild parent n0 (nodes s ++ [nd0])) in *.
    apply IH in Hrun as (vs & -> & Hlen & Hlast & Hp' & Hvirt & Hlink & Hext & Hrows);
      simpl in *.
    2:{ unfold ns1, pushChild. rewrite length_alter, length_app; simpl. lia. }
    assert (ns1 !! n0 = Some nd0) as Hn0.
    { unfold ns1, pushChild. rewrite list_lookup_alter_ne by (unfold n0; lia).
      unfold n0. by rewrite lookup_app_r, Nat.sub_diag by lia. }
    exists (n0 :: vs). rewrite <- app_assoc. simpl.
    split_and!; [done|by rewrite Hlen|done|done| | | |].
    + intros [|i] n Hi; simpl in Hi.
      * simplify_eq. split.
        -- eapply isVirtual_ext; [done|]. by exists nd0.
        -- apply Hrows. rewrite Z.add_0_r. apply inRow_pushToLevel. auto.
      * destruct (Hvirt i n Hi) as [? Hrow]. split; [done|].
        by replace (rank + Z.of_nat (S i))%Z with (rank + 1 + Z.of_nat i)%Z by lia.
    + apply linkedChain_cons; [|done]. eapply linked_ext; [done|].
      destruct (lookup_pushChild_new (nodes s) parent nd0 Hp) as (np & Hnp & Hc).
      exists np, nd0. split_and!; [done|done|done|].
      simpl. by apply list_elem_of_singleton.
    + eapply nodeExt_trans; [|done]. eapply nodeExt_trans; [apply nodeExt_app|].
      apply nodeExt_pushChild.
    + intros r n Hr. apply Hrows. apply inRow_pushToLevel. auto.
Qed.
End level_facts.

Section level_build.
Context {V E : Type} `{EqDecision V, EqDecision E, Edge V E}.
Implicit Types (ns : list (LevelNode V)) (rtl : list (Z * list nat))
  (s : LevelStore V) (n a b : nat) (r : Z) (chain : list nat)
  (ranks : list (V * Z)) (v2n : list (V * nat)).

(** *** Ranks lie between the least and the greatest rank *)

Lemma foldl_min_le (l : list Z) : ∀ z : Z,
  (foldl Z.min z l ≤ z)%Z ∧ ∀ x : Z, x ∈ l → (foldl Z.min z l ≤ x)%Z.
Proof.
  induction l as [|y l IH]; intros z; simpl.
  - split; [lia|]. intros x Hx. by apply elem_of_nil in Hx.
  - destruct (IH (Z.min z y)) as [Ha Hall]. split; [lia|].
    intros x [->|Hx]%elem_of_cons; [lia|auto].
Qed.

Lemma foldl_max_ge (l : list Z) : ∀ z : Z,
  (z ≤ foldl Z.max z l)%Z ∧ ∀ x : Z, x ∈ l → (x ≤ foldl Z.max z l)%Z.
Proof.
  induction l as [|y l IH]; intros z; simpl.
  - split; [lia|]. intros x Hx. by apply elem_of_nil in Hx.
  - destruct (IH (Z.max z y)) as [Ha Hall]. split; [lia|].
    intros x [->|Hx]%elem_of_cons; [lia|auto].
Qed.

Lemma rank_bounds ranks v r :
  JsMap.get ranks v = Some r →
  (minRankOf ranks ≤ r ≤ maxRankOf ranks)%Z
  ∧ (minRankOf ranks ≤ 0 ≤ maxRankOf ranks)%Z.
Proof.
  intros Hr%JsMap_get_Some_elem.
  assert (r ∈ ranks.*2) as Hin.
  { apply list_elem_of_fmap. by exists (v, r). }
  unfold minRankOf, maxRankOf.
  destruct (foldl_min_le (ranks.*2) 0%Z) as [? Hmin].
  destruct (foldl_max_ge (ranks.*2) 0%Z) as [? Hmax].
  split; [split; auto|lia].
Qed.

Lemma chainSpec_mono ns ns' (rowOf rowOf' : Z → nat → Prop) u ru v rv chain :
  nodeExt ns ns' → (∀ r n, (ru ≤ r ≤ rv)%Z → rowOf r n → rowOf' r n) →
  chainSpec ns rowOf u ru v rv chain → chainSpec ns' rowOf' u ru v rv chain.
Proof.
  intros Hext Hrow (Hlen & (nu & Hhd & ? & ?) & (nv & ? & ? & ?) & Hmid & Hlink).
  assert (ru ≤ rv)%Z by (destruct chain; simpl in *; [done|lia]).
  split_and!; [done| | | |by eapply linkedChain_ext].
  - exists nu. split_and!; [done|by eapply isReal_ext|apply Hrow; [lia|done]].
  - exists nv. split_and!; [done|by eapply isReal_ext|apply Hrow; [lia|done]].
  - intros i n Hi Hi' Hn. destruct (Hmid i n Hi Hi' Hn).
    split; [by eapply isVirtual_ext|]. apply Hrow; [lia|done].
Qed.

Lemma chainBetween_mono ns ns' (rowOf rowOf' : Z → nat → Prop) ranks u v chain :
  nodeExt ns ns' →
  (∀ r n, (minRankOf ranks ≤ r ≤ maxRankOf ranks)%Z → rowOf r n → rowOf' r n) →
  chainBetween ns rowOf ranks u v chain → chainBetween ns' rowOf' ranks u v chain.
Proof.
  intros Hext Hrow (ru & rv & Hru & Hrv & Hc). exists ru, rv. split_and!; [done..|].
  destruct (rank_bounds ranks u ru Hru) as [? _].
  destruct (rank_bounds ranks v rv Hrv) as [? _].
  destruct (decide (ru ≤ rv)%Z); (eapply chainSpec_mono; [done| |done]);
    intros r' n' ?; apply Hrow; lia.
Qed.

Lemma v2nOK_mono ranks v2n s s' :
  nodeExt (nodes s) (nodes s') →
  (∀ r n, inRow (rankToLevel s) r n → inRow (rankToLevel s') r n) →
  v2nOK ranks v2n s → v2nOK ranks v2n s'.
Proof.
  intros Hext Hrow [H1 H2]. split; [|done].
  intros v n Hn. destruct (H1 v n Hn) as (? & r & ? & ?).
  split; [by eapply isReal_ext|]. eauto.
Qed.

(** *** One node per ranked vertex *)

Lemma addRankedVertex_init ranks :
  NoDup (JsMap.keys ranks) →
  let b := foldl addRankedVertex initialBuilder ranks in
  v2nOK ranks (vertexToLevelNode b) (store b)
  ∧ minRank b = minRankOf ranks ∧ maxRank b = maxRankOf ranks.
Proof.
  unfold JsMap.keys, minRankOf, maxRankOf.
  induction ranks as [|[v0 r0] l IH] using rev_ind; intros Hnd; simpl.
  - split; [|done]. split; [|done]. intros v n Hn. done.
  - rewrite fmap_app in Hnd. apply NoDup_app in Hnd as (Hnd & Hfresh & _).
    assert (JsMap.get l v0 = None) as Hv0.
    { apply JsMap_get_None_keys. intros Hin. apply (Hfresh v0 Hin).
      simpl. apply list_elem_of_singleton. done. }
    destruct (IH Hnd) as ([Hok1 Hok2] & Hmin & Hmax).
    rewrite !foldl_app, fmap_app, !foldl_app; simpl.
    set (b := foldl addRankedVertex initialBuilder l) in *.
    split; [|by rewrite Hmin, Hmax].
    split; simpl.
    + intros v n. rewrite JsMap_get_set. case_decide as Hv.
      * intros [= <-]. subst v. split.
        -- eexists. rewrite lookup_app_r, Nat.sub_diag by lia. done.
        -- exists r0. rewrite JsMap_get_app, Hv0; simpl. rewrite decide_True by done.
           split; [done|]. apply inRow_pushToLevel. auto.
      * intros Hn. destruct (Hok1 v n Hn) as (Hreal & r & Hr & Hrow). split.
        -- eapply isReal_ext; [apply nodeExt_app|done].
        -- exists r. rewrite JsMap_get_app, Hr. split; [done|].
           apply inRow_pushToLevel. auto.
    + intros v r. rewrite JsMap_get_app, JsMap_get_set.
      destruct (JsMap.get l v) as [r'|] eqn:Hr'.
      * intros _. case_decide; [done|]. by eapply Hok2.
      * simpl. case_decide; [done|]. intros [=].
Qed.

(** *** Handling one edge *)

Lemma linked_push ns p c :
  p < length ns → c < length ns →
  linked (pushChild p c (pushParent c p ns)) p c.
Proof.
  intros Hp Hc.
  destruct (lookup_lt_is_Some_2 ns c Hc) as [nc Hnc].
  assert (∃ nc2, pushParent c p ns !! c = Some nc2 ∧ p ∈ parents nc2) as (nc2 & Hnc2 & Hpar).
  { eexists. unfold pushParent. rewrite list_lookup_alter_eq, Hnc. split; [done|].
    simpl. apply elem_of_app. right. by apply list_elem_of_singleton. }
  destruct (nodeExt_pushChild (pushParent c p ns) p c c nc2 Hnc2)
    as (nc3 & Hnc3 & _ & Hsub & _).
  destruct (lookup_lt_is_Some_2 (pushParent c p ns) p) as [np Hnp].
  { unfold pushParent. by rewrite length_alter. }
  eexists _, nc3. split_and!; [|done| |by apply Hsub].
  - unfold pushChild at 1. rewrite list_lookup_alter_eq, Hnp. done.
  - simpl. apply elem_of_app. right. by apply list_elem_of_singleton.
Qed.

Lemma isReal_lt ns n v : isReal ns n v → n < length ns.
Proof. intros (nd & Hn & _). by eapply lookup_lt_Some. Qed.

Lemma handleEdge_forward ranks v2n fuel u v s ru rv :
  v2nOK ranks v2n s → u ≠ v →
  JsMap.get ranks u = Some ru → JsMap.get ranks v = Some rv → (ru < rv)%Z →
  ∃ chain s', handleEdge ranks v2n (S fuel) u v s = Returns (chain, s')
    ∧ chainSpec (nodes s') (inRow (rankToLevel s')) u ru v rv chain
    ∧ nodeExt (nodes s) (nodes s')
    ∧ (∀ r n, inRow (rankToLevel s) r n → inRow (rankToLevel s') r n).
Proof.
  intros [Hok1 Hok2] Huv Hru Hrv Hlt. simpl.
  rewrite decide_False by done. rewrite Hru, Hrv.
  rewrite decide_False by lia. rewrite decide_False by lia.
  destruct (Hok2 u ru Hru) as [nu Hnu]. destruct (Hok2 v rv Hrv) as [nv Hnv].
  rewrite Hnu, Hnv.
  destruct (Hok1 u nu Hnu) as (Hrealu & ru' & Hru' & Hrowu).
  destruct (Hok1 v nv Hnv) as (Hrealv & rv' & Hrv' & Hrowv).
  simplify_eq.
  destruct (insertVirtualNodes _ _ _ _ _) as [[parent' acc'] s1] eqn:Hrun.
  apply insertVirtualNodes_spec in Hrun
    as (vs & -> & Hlen & Hlast & Hp' & Hvirt & Hlink & Hext & Hrows);
    [|by eapply isReal_lt].
  eexists _, _. split; [done|]. simpl.
  set (ns3 := pushChild parent' nv (pushParent nv parent' (nodes s1))).
  assert (nodeExt (nodes s1) ns3) as Hext3.
  { eapply nodeExt_trans; [apply nodeExt_pushParent|apply nodeExt_pushChild]. }
  assert (nodeExt (nodes s) ns3) as Hext' by (by eapply nodeExt_trans).
  split_and!; [|done|done].
  change (nu :: vs ++ [nv]) with ((nu :: vs) ++ [nv]).
  split_and!.
  - rewrite length_app; simpl. lia.
  - exists nu. split_and!; [done|by apply (isReal_ext (nodes s))|auto].
  - exists nv. rewrite last_snoc.
    split_and!; [done|by apply (isReal_ext (nodes s))|auto].
  - intros i n Hi Hi' Hn. rewrite length_app in Hi'; simpl in Hi'.
    rewrite lookup_app_l in Hn by (simpl; lia).
    destruct i as [|i]; [lia|]. simpl in Hn.
    destruct (Hvirt i n Hn) as [Hv Hrow].
    split; [by apply (isVirtual_ext (nodes s1))|].
    replace (ru + Z.of_nat (S i))%Z with (ru + 1 + Z.of_nat i)%Z by lia. auto.
  - apply (linkedChain_snoc _ _ parent');
      [by apply (linkedChain_ext (nodes s1))|done|].
    apply linked_push; [done|].
    eapply Nat.lt_le_trans; [by eapply isReal_lt|by apply nodeExt_length].
Qed.

Lemma chainSpec_self ns (rowOf : Z → nat → Prop) u r n :
  isReal ns n u → rowOf r n → chainSpec ns rowOf u r u r [n].
Proof.
  intros Hreal Hrow. split_and!; simpl.
  - lia.
  - exists n. done.
  - exists n. done.
  - intros i n' Hi Hi'. lia.
  - intros i a b Ha Hb. done.
Qed.

Lemma handleEdge_returns ranks v2n fuel u v s chain s' :
  v2nOK ranks v2n s →
  handleEdge ranks v2n fuel u v s = Returns (chain, s') →
  chainBetween (nodes s') (inRow (rankToLevel s')) ranks u v chain
  ∧ nodeExt (nodes s) (nodes s')
  ∧ (∀ r n, inRow (rankToLevel s) r n → inRow (rankToLevel s') r n).
Proof.
  intros Hok. destruct fuel as [|fuel]; [done|].
  destruct (decide (u = v)) as [<-|Huv].
  - simpl. rewrite decide_True by done.
    destruct (JsMap.get v2n u) as [nu|] eqn:Hnu; [|done]. intros [= <- <-].
    destruct Hok as [Hok1 _]. destruct (Hok1 u nu Hnu) as (Hreal & r & Hr & Hrow).
    split_and!; [|apply nodeExt_refl|done].
    exists r, r. split_and!; [done..|]. rewrite decide_True by lia.
    by apply chainSpec_self.
  - destruct (JsMap.get ranks u) as [ru|] eqn:Hru,
      (JsMap.get ranks v) as [rv|] eqn:Hrv;
      try (simpl; rewrite decide_False, Hru, ?Hrv by done; done).
    destruct (Z.lt_trichotomy ru rv) as [Hlt|[->|Hgt]].
    + destruct (handleEdge_forward ranks v2n fuel u v s ru rv)
        as (chain0 & s0 & Hrun & Hspec & Hext & Hrows); [done..|].
      rewrite Hrun. intros [= <- <-]. split_and!; [|done..].
      exists ru, rv. split_and!; [done..|]. by rewrite decide_True by lia.
    + simpl. rewrite decide_False, Hru, Hrv by done. by rewrite decide_True.
    + simpl. rewrite decide_False, Hru, Hrv by done.
      rewrite decide_False by lia. rewrite decide_True by lia.
      destruct fuel as [|fuel]; [done|].
      destruct (handleEdge_forward ranks v2n fuel v u s rv ru)
        as (chain0 & s0 & Hrun & Hspec & Hext & Hrows); [done..|].
      rewrite Hrun. simpl. intros [= <- <-]. split_and!; [|done..].
      exists ru, rv. split_and!; [done..|]. rewrite decide_False by lia.
      by rewrite reverse_involutive.
Qed.

Lemma handleEdge_back ranks v2n fuel u v s ru rv :
  JsMap.get ranks u = Some ru → JsMap.get ranks v = Some rv → (rv < ru)%Z →
  handleEdge ranks v2n (S fuel) u v s
  = '(nodes, s') ← handleEdge ranks v2n fuel v u s; Returns (reverse nodes, s').
Proof.
  intros Hru Hrv Hlt. cbn [handleEdge].
  rewrite decide_False by (intros ->; rewrite Hru in Hrv; injection Hrv; lia).
  rewrite Hru, Hrv. rewrite decide_False by lia. by rewrite decide_True by lia.
Qed.

Lemma handleEdge_sideways ranks v2n fuel u v s r :
  u ≠ v → JsMap.get ranks u = Some r → JsMap.get ranks v = Some r →
  handleEdge ranks v2n (S fuel) u v s = Throws (FoundSidewaysEdge u v).
Proof.
  intros Huv Hru Hrv. cbn [handleEdge].
  rewrite decide_False by done. rewrite Hru, Hrv. by rewrite decide_True.
Qed.

Lemma handleEdge_forward_fuel ranks v2n fuel u v s ru rv :
  u ≠ v → JsMap.get ranks u = Some ru → JsMap.get ranks v = Some rv → (ru < rv)%Z →
  handleEdge ranks v2n (S fuel) u v s ≠ OutOfFuel.
Proof.
  intros Huv Hru Hrv Hlt. simpl.
  rewrite decide_False by done. rewrite Hru, Hrv.
  rewrite decide_False by lia. rewrite decide_False by lia.
  destruct (JsMap.get v2n u), (JsMap.get v2n v); try done.
  by destruct (insertVirtualNodes _ _ _ _ _) as [[??]?].
Qed.

(** The recursion for a back edge is one call deep: two nested calls
    are always enough. *)
Lemma handleEdge_fuel ranks v2n fuel u v s :
  handleEdge ranks v2n (S (S fuel)) u v s ≠ OutOfFuel.
Proof.
  destruct (decide (u = v)) as [<-|Huv].
  { simpl. rewrite decide_True by done. by destruct (JsMap.get v2n u). }
  destruct (JsMap.get ranks u) as [ru|] eqn:Hru,
    (JsMap.get ranks v) as [rv|] eqn:Hrv;
    try (simpl; rewrite decide_False, Hru, ?Hrv by done; done).
  destruct (Z.lt_trichotomy ru rv) as [Hlt|[->|Hgt]].
  - by eapply handleEdge_forward_fuel.
  - by erewrite handleEdge_sideways.
  - erewrite handleEdge_back by done.
    pose proof (handleEdge_forward_fuel ranks v2n fuel v u s rv ru) as Hfwd.
    destruct (handleEdge ranks v2n (S fuel) v u s) as [[??]| |]; try done.
    by apply Hfwd.
Qed.

(** A placeable edge is placed. *)
Lemma handleEdge_placeable ranks v2n fuel u v s :
  v2nOK ranks v2n s → placeable ranks u v →
  ∃ chain s', handleEdge ranks v2n (S (S fuel)) u v s = Returns (chain, s')
              ∧ v2nOK ranks v2n s'.
Proof.
  intros Hok (ru & rv & Hru & Hrv & Hplace).
  destruct (decide (u = v)) as [<-|Huv].
  { destruct Hok as [Hok1 Hok2]. destruct (Hok2 u ru Hru) as [n Hn].
    exists [n], s. simpl. rewrite decide_True by done. by rewrite Hn. }
  destruct Hplace as [?|Hne]; [done|].
  destruct (Z.lt_trichotomy ru rv) as [Hlt|[->|Hgt]]; [| done |].
  - destruct (handleEdge_forward ranks v2n (S fuel) u v s ru rv)
      as (chain & s' & Hrun & _ & Hext & Hrows); [done..|].
    exists chain, s'. split; [done|]. by eapply v2nOK_mono.
  - destruct (handleEdge_forward ranks v2n fuel v u s rv ru)
      as (chain & s' & Hrun & _ & Hext & Hrows); [done..|].
    exists (reverse chain), s'. erewrite handleEdge_back by done.
    rewrite Hrun. split; [done|]. by eapply v2nOK_mono.
Qed.

(** *** Handling all edges *)

Lemma handleEdges_returns ranks v2n es :
  ∀ s (m : list (E * list nat)) s' m',
    v2nOK ranks v2n s →
    (∀ e c, JsMap.get m e = Some c →
       chainBetween (nodes s) (inRow (rankToLevel s)) ranks (from e) (to e) c) →
    handleEdges ranks v2n es s m = Returns (s', m') →
    nodeExt (nodes s) (nodes s')
    ∧ (∀ r n, inRow (rankToLevel s) r n → inRow (rankToLevel s') r n)
    ∧ (∀ e c, JsMap.get m' e = Some c →
         chainBetween (nodes s') (inRow (rankToLevel s')) ranks (from e) (to e) c)
    ∧ (∀ e, e ∈ es ∨ is_Some (JsMap.get m e) → is_Some (JsMap.get m' e)).
Proof.
  induction es as [|e es IH]; intros s m s' m' Hok Hm; cbn [handleEdges].
  - intros [= <- <-]. split_and!; [apply nodeExt_refl|done|done|].
    intros e [He|?]; [by apply elem_of_nil in He|done].
  - destruct (handleEdge ranks v2n 2 (from e) (to e) s) as [[chain s1]| |] eqn:Hrun;
      cbn [mbind outcome_mbind outcome_bind]; [|done..].
    apply handleEdge_returns in Hrun as (Hchain & Hext & Hrows); [|done].
    intros Hrest. apply IH in Hrest as (Hext' & Hrows' & Hm' & Hdom).
    + split_and!; [by eapply nodeExt_trans|auto|done|].
      intros e' [[->|He']%elem_of_cons|[c Hc]]; apply Hdom.
      * right. rewrite JsMap_get_set_eq. eauto.
      * by left.
      * right. rewrite JsMap_get_set. case_decide; eauto.
    + by eapply v2nOK_mono.
    + intros e' c. rewrite JsMap_get_set. case_decide as He'.
      * intros [= <-]. by subst e'.
      * intros Hc.
        apply (chainBetween_mono (nodes s) _ (inRow (rankToLevel s)));
          [done|auto|by apply Hm].
Qed.

(** With two nested calls allowed, handling the edges never runs out
    of budget. *)
Lemma handleEdges_fuel ranks v2n es :
  ∀ s (m : list (E * list nat)), handleEdges ranks v2n es s m ≠ OutOfFuel.
Proof.
  induction es as [|e es IH]; intros s m; cbn [handleEdges]; [done|].
  pose proof (handleEdge_fuel ranks v2n 0 (from e) (to e) s) as Hfuel.
  destruct (handleEdge ranks v2n 2 (from e) (to e) s) as [[chain s1]| |];
    cbn [mbind outcome_mbind outcome_bind]; [apply IH|done|done].
Qed.

(** A sideways edge makes the handling of the edges throw; the error
    is that of the first edge that cannot be placed. *)
Lemma handleEdges_sideways_throws ranks v2n es e r :
  e ∈ es → from e ≠ to e →
  JsMap.get ranks (from e) = Some r → JsMap.get ranks (to e) = Some r →
  ∀ s (m : list (E * list nat)), ∃ err, handleEdges ranks v2n es s m = Throws err.
Proof.
  intros He Hne Hru Hrv. induction es as [|e' es IH]; intros s m.
  { by apply elem_of_nil in He. }
  cbn [handleEdges].
  pose proof (handleEdge_fuel ranks v2n 0 (from e') (to e') s) as Hfuel.
  destruct (handleEdge ranks v2n 2 (from e') (to e') s) as [[chain s1]|err|] eqn:Hrun;
    cbn [mbind outcome_mbind outcome_bind]; [|by eauto|done].
  apply elem_of_cons in He as [<-|He]; [|by apply IH].
  by erewrite handleEdge_sideways in Hrun.
Qed.

Lemma handleEdges_first_sideways ranks v2n pre e post r :
  (∀ e', e' ∈ pre → placeable ranks (from e') (to e')) →
  from e ≠ to e →
  JsMap.get ranks (from e) = Some r → JsMap.get ranks (to e) = Some r →
  ∀ s (m : list (E * list nat)), v2nOK ranks v2n s →
    handleEdges ranks v2n (pre ++ e :: post) s m
    = Throws (FoundSidewaysEdge (from e) (to e)).
Proof.
  intros Hpre Hne Hru Hrv. induction pre as [|e' pre IH]; intros s m Hok.
  - cbn [app handleEdges]. by erewrite handleEdge_sideways.
  - cbn [app handleEdges].
    destruct (handleEdge_placeable ranks v2n 0 (from e') (to e') s)
      as (chain & s' & -> & Hok'); [done|apply Hpre, elem_of_cons; auto|].
    cbn [mbind outcome_mbind outcome_bind]. apply IH; [|done].
    intros e'' He''. apply Hpre, elem_of_cons. auto.
Qed.

(** *** Reindexing and collecting the rows *)

Lemma indexOnly_refl ns : indexOnly ns ns.
Proof. split; [done|]. intros n nd Hn. by exists nd. Qed.

Lemma indexOnly_trans ns1 ns2 ns3 :
  indexOnly ns1 ns2 → indexOnly ns2 ns3 → indexOnly ns1 ns3.
Proof.
  intros [Hl12 H12] [Hl23 H23]. split; [congruence|]. intros n nd Hn.
  destruct (H12 n nd Hn) as (nd2 & Hn2 & ? & ? & ?).
  destruct (H23 n nd2 Hn2) as (nd3 & Hn3 & ? & ? & ?).
  exists nd3. split_and!; congruence.
Qed.

Lemma indexOnly_setIndex ns n i : indexOnly ns (setIndex n i ns).
Proof.
  unfold setIndex. split; [apply length_alter|]. intros n' nd Hn'.
  destruct (decide (n = n')) as [<-|Hne].
  - eexists. rewrite list_lookup_alter_eq, Hn'. done.
  - exists nd. by rewrite list_lookup_alter_ne.
Qed.

Lemma indexOnly_reindexFrom level : ∀ i ns, indexOnly ns (reindexFrom i level ns).
Proof.
  induction level as [|n level IH]; intros i ns; simpl; [apply indexOnly_refl|].
  eapply indexOnly_trans; [apply indexOnly_setIndex|apply IH].
Qed.

Lemma indexOnly_nodeExt ns ns' : indexOnly ns ns' → nodeExt ns ns'.
Proof.
  intros [_ Hio] n nd Hn. destruct (Hio n nd Hn) as (nd' & ? & ? & Hp & Hc).
  exists nd'. rewrite Hp, Hc. done.
Qed.

Lemma collectLevels_spec count :
  ∀ rank rtl ns levels ns' levels',
    collectLevels count rank rtl ns levels = (ns', levels') →
    indexOnly ns ns'
    ∧ levels' = levels
        ++ ((λ i, getOrElse rtl (rank + Z.of_nat i)%Z []) <$> seq 0 count).
Proof.
  induction count as [|count IH]; intros rank rtl ns levels ns' levels'; simpl.
  - intros [= <- <-]. split; [apply indexOnly_refl|by rewrite app_nil_r].
  - intros (Hio & ->)%IH. split.
    + eapply indexOnly_trans; [apply indexOnly_reindexFrom|done].
    + rewrite <- app_assoc. simpl. rewrite Z.add_0_r. do 2 f_equal.
      rewrite <- fmap_S_seq, <- list_fmap_compose. apply list_fmap_ext.
      intros _ i _. simpl. f_equal. lia.
Qed.

Lemma collectLevels_inLevel rtl ns levels ns' least most r n :
  collectLevels (Z.to_nat (most - least + 1)) least rtl ns [] = (ns', levels) →
  (least ≤ r ≤ most)%Z → inRow rtl r n → inLevel levels least r n.
Proof.
  intros [_ ->]%collectLevels_spec Hr (row & Hrow & Hn). simpl.
  split; [lia|]. exists row. split; [|done].
  rewrite list_lookup_fmap, lookup_seq_lt by lia. simpl.
  replace (least + Z.of_nat (Z.to_nat (r - least)))%Z with r by lia.
  unfold getOrElse. by rewrite Hrow.
Qed.
End level_build.

(** ** Crossing minimization keeps every row's members *)

Section passes.
Context {V : Type}.
Variable sortBy : (nat → option Q) → list nat → list nat.
Hypothesis sortBy_perm : ∀ key l, sortBy key l ≡ₚ l.
Implicit Types (ns : list (LevelNode V)) (levels : list (list nat))
  (st : list (LevelNode V) * list (list nat)).

Lemma sortLevel_rows weight st i :
  indexOnly st.1 (sortLevel sortBy weight st i).1
  ∧ Forall2 (≡ₚ) st.2 (sortLevel sortBy weight st i).2.
Proof.
  destruct st as [ns levels]. unfold sortLevel.
  destruct (levels !! i) as [level|] eqn:Hlevel; simpl.
  - split; [apply indexOnly_reindexFrom|].
    rewrite <- (list_insert_id levels i level) at 1 by done.
    apply Forall2_insert; [done|].
    by symmetry.
  - split; [apply indexOnly_refl|]. done.
Qed.

Lemma foldl_sortLevel_rows weight (idxs : list nat) : ∀ st,
  indexOnly st.1 (foldl (sortLevel sortBy weight) st idxs).1
  ∧ Forall2 (≡ₚ) st.2 (foldl (sortLevel sortBy weight) st idxs).2.
Proof.
  induction idxs as [|i idxs IH]; intros st; simpl.
  - split; [apply indexOnly_refl|]. done.
  - destruct (sortLevel_rows weight st i) as [Hio Hrows].
    destruct (IH (sortLevel sortBy weight st i)) as [Hio' Hrows'].
    split; [by eapply indexOnly_trans|]. by etrans.
Qed.

Lemma crossingPass_rows st :
  indexOnly st.1 (crossingPass sortBy st).1
  ∧ Forall2 (≡ₚ) st.2 (crossingPass sortBy st).2.
Proof.
  unfold crossingPass.
  destruct (foldl_sortLevel_rows levelNodeParentWeight (seq 0 (length st.2)) st)
    as [Hio Hrows].
  set (st1 := foldl (sortLevel sortBy levelNodeParentWeight) st _) in *.
  destruct (foldl_sortLevel_rows levelNodeChildWeight
              (reverse (seq 0 (length st1.2))) st1) as [Hio' Hrows'].
  split; [by eapply indexOnly_trans|]. by etrans.
Qed.

Lemma minimizeCrossings_rows st :
  indexOnly st.1 (minimizeCrossings sortBy st).1
  ∧ Forall2 (≡ₚ) st.2 (minimizeCrossings sortBy st).2.
Proof.
  unfold minimizeCrossings. generalize 4. intros k.
  induction k as [|k [Hio Hrows]]; simpl.
  - split; [apply indexOnly_refl|]. done.
  - destruct (crossingPass_rows (Nat.iter k (crossingPass sortBy) st)) as [Hio' Hrows'].
    split; [by eapply indexOnly_trans|]. by etrans.
Qed.

Lemma inLevel_perm levels levels' least r n :
  Forall2 (≡ₚ) levels levels' → inLevel levels least r n → inLevel levels' least r n.
Proof.
  intros Hrows [Hr (row & Hrow & Hn)]. split; [done|].
  destruct (Forall2_lookup_l _ _ _ _ _ Hrows Hrow) as (row' & Hrow' & Hperm).
  exists row'. split; [done|]. by rewrite <- Hperm.
Qed.
End passes.

(** ** The chains recorded by level construction *)

Section levels_result.
Context {V E : Type} `{EqDecision V, EqDecision E, Edge V E}.
Variable sortBy : (nat → option Q) → list nat → list nat.
Hypothesis sortBy_perm : ∀ key l, sortBy key l ≡ₚ l.

Lemma ranksToLevels_chains (ranks : list (V * Z)) (edges : list E) res :
  NoDup (JsMap.keys ranks) →
  ranksToLevels sortBy ranks edges = Returns res →
  ∀ e, e ∈ edges →
    ∃ chain, JsMap.get (edgeToLevelNodes res) e = Some chain
      ∧ chainBetween (levelNodes res) (inLevel (levels res) (minRankOf ranks))
          ranks (from e) (to e) chain.
Proof.
  intros Hnd. unfold ranksToLevels.
  destruct (addRankedVertex_init ranks Hnd) as (Hok & Hmin & Hmax).
  set (b := foldl addRankedVertex initialBuilder ranks) in *.
  destruct (handleEdges ranks (vertexToLevelNode b) edges (store b) [])
    as [[s m]| |] eqn:Hedges; cbn [mbind outcome_mbind outcome_bind]; [|done..].
  apply handleEdges_returns in Hedges as (Hext & Hrows & Hm & Hdom); [|done|done].
  destruct (collectLevels _ _ _ _ _) as [ns1 levels1] eqn:Hcollect.
  pose proof (minimizeCrossings_rows sortBy sortBy_perm (ns1, levels1)) as [Hio Hperm].
  destruct (minimizeCrossings sortBy (ns1, levels1)) as [ns2 levels2].
  simpl in Hio, Hperm. intros [= <-] e He. simpl.
  destruct (Hdom e) as [chain Hchain]; [by left|].
  exists chain. split; [done|].
  apply (chainBetween_mono (nodes s) _ (inRow (rankToLevel s))); [| |by apply Hm].
  - apply collectLevels_spec in Hcollect as [Hio1 _].
    apply indexOnly_nodeExt. by eapply indexOnly_trans.
  - intros r n Hr Hrow. eapply inLevel_perm; [done|].
    rewrite Hmin, Hmax in Hcollect.
    by eapply collectLevels_inLevel.
Qed.
End levels_result.

(** ** The sort is a stable sort that ignores undefined keys *)

Section sort_facts.
Implicit Types (key : nat → option Q) (l sorted : list nat) (x y : nat).

Lemma insertBy_perm key x l : insertBy key x l ≡ₚ x :: l.
Proof.
  induction l as [|y l IH]; simpl; [done|].
  destruct (keyLt (key y) (key x)); [|done].
  rewrite IH. apply Permutation_swap.
Qed.

Lemma insertionSortBy_perm key l : insertionSortBy key l ≡ₚ l.
Proof.
  unfold insertionSortBy. induction l as [|x l IH]; simpl; [done|].
  by rewrite insertBy_perm, IH.
Qed.

Lemma keyLe_trans key : Transitive (keyLe key).
Proof.
  intros x y z. unfold keyLe.
  destruct (key x), (key y), (key z); try done. apply Qle_trans.
Qed.

Lemma keyLt_false_keyLe key x y :
  hasKey key x → hasKey key y → keyLt (key y) (key x) = false → keyLe key x y.
Proof.
  unfold hasKey, keyLt, keyLe. destruct (key x), (key y); try done.
  intros _ _. by destruct (Qlt_le_dec _ _).
Qed.

Lemma keyLt_true_keyLe key x y : keyLt (key y) (key x) = true → keyLe key y x.
Proof.
  unfold keyLt, keyLe. destruct (key x), (key y); try done.
  destruct (Qlt_le_dec _ _); [|done]. intros _. by apply Qlt_le_weak.
Qed.

Lemma insertBy_sorted key x l :
  hasKey key x → Forall (λ y, hasKey key y) l →
  Sorted (keyLe key) l → Sorted (keyLe key) (insertBy key x l).
Proof.
  intros Hx. induction l as [|y l IH]; intros Hall Hsorted; simpl.
  - repeat constructor.
  - apply Forall_cons in Hall as [Hy Hall].
    apply Sorted_inv in Hsorted as [Hsorted Hhd].
    destruct (keyLt (key y) (key x)) eqn:Hlt.
    + constructor; [by apply IH|].
      destruct l as [|z l]; simpl.
      * constructor. by apply keyLt_true_keyLe.
      * destruct (keyLt (key z) (key x)); constructor.
        -- by apply HdRel_inv in Hhd.
        -- by apply keyLt_true_keyLe.
    + constructor; [by constructor|]. constructor. by apply keyLt_false_keyLe.
Qed.

Lemma insertionSortBy_sorted key l :
  Forall (λ y, hasKey key y) l → StronglySorted (keyLe key) (insertionSortBy key l).
Proof.
  intros Hall. apply Sorted_StronglySorted; [apply keyLe_trans|].
  unfold insertionSortBy. induction Hall as [|x l Hx Hall IH]; simpl; [constructor|].
  apply insertBy_sorted; [done| |done].
  by rewrite (insertionSortBy_perm key l).
Qed.

Lemma insertBy_stable key k x l :
  filter (λ y, keyIs key k y) (insertBy key x l)
  = filter (λ y, keyIs key k y) (x :: l).
Proof.
  induction l as [|y l IH]; simpl; [done|].
  destruct (keyLt (key y) (key x)) eqn:Hlt; [|done].
  rewrite (filter_cons _ y), IH, !filter_cons.
  destruct (decide (keyIs key k y)) as [Hy|Hy]; [|done].
  destruct (decide (keyIs key k x)) as [Hx|Hx]; [exfalso|done].
  unfold keyIs, keyLt in *. destruct (key x) as [qx|], (key y) as [qy|]; try done.
  destruct (Qlt_le_dec qy qx); [|done].
  apply Is_true_true, Qeq_bool_iff in Hy. apply Is_true_true, Qeq_bool_iff in Hx. lra.
Qed.

Lemma insertionSortBy_stable key k l :
  filter (λ y, keyIs key k y) (insertionSortBy key l) = filter (λ y, keyIs key k y) l.
Proof.
  unfold insertionSortBy. induction l as [|x l IH]; simpl; [done|].
  by rewrite insertBy_stable, !filter_cons, IH.
Qed.

Lemma refill_perm key l : ∀ sorted,
  length sorted = length (filter (λ x, hasKey key x) l) →
  refill key l sorted ≡ₚ sorted ++ filter (λ x, ¬ hasKey key x) l.
Proof.
  induction l as [|x l IH]; intros sorted; simpl.
  - destruct sorted; [done|]. done.
  - rewrite !filter_cons. destruct (hasKey key x) eqn:Hx; simpl.
    + destruct sorted as [|y sorted]; [done|]. simpl. intros [= Hlen].
      by rewrite IH.
    + intros Hlen. rewrite IH by done. apply Permutation_middle.
Qed.

Lemma refill_undefined key l : ∀ sorted i x,
  l !! i = Some x → key x = None → refill key l sorted !! i = Some x.
Proof.
  induction l as [|y l IH]; intros sorted i x Hi Hx; [done|]. simpl.
  destruct i as [|i]; simpl in Hi.
  - injection Hi as ->. unfold hasKey. by rewrite Hx.
  - destruct (hasKey key y); [destruct sorted|]; simpl; by apply IH.
Qed.

Lemma refill_filter key (P : nat → bool) l : ∀ sorted,
  (∀ x, P x → hasKey key x) →
  length sorted = length (filter (λ x, hasKey key x) l) →
  filter (λ x, P x) (refill key l sorted) = filter (λ x, P x) sorted.
Proof.
  intros sorted HP. revert sorted.
  induction l as [|x l IH]; intros sorted; simpl.
  - by destruct sorted.
  - rewrite filter_cons. destruct (hasKey key x) eqn:Hx; simpl.
    + destruct sorted as [|y sorted]; [done|]. simpl. intros [= Hlen].
      by rewrite !filter_cons, IH.
    + intros Hlen. rewrite filter_cons_False; [by apply IH|].
      intros HPx%HP. by rewrite Hx in HPx.
Qed.

Lemma filter_filter_sub (P Q : nat → bool) l :
  (∀ x, P x → Q x) →
  filter (λ x, P x) (filter (λ x, Q x) l) = filter (λ x, P x) l.
Proof.
  intros HPQ. induction l as [|x l IH]; [done|].
  rewrite (filter_cons (λ x, Is_true (Q x))).
  destruct (decide (Q x)) as [HQ|HQ]; rewrite !filter_cons, IH; [done|].
  rewrite decide_False; [done|]. intros HP. by apply HQ, HPQ.
Qed.

Lemma Forall_filter_self (P : nat → bool) l : Forall (λ x, P x) (filter (λ x, P x) l).
Proof.
  induction l as [|x l IH]; [constructor|].
  rewrite filter_cons. destruct (decide (P x)); [by constructor|done].
Qed.

Lemma filter_all (P : nat → bool) l : Forall (λ x, P x) l → filter (λ x, P x) l = l.
Proof.
  induction 1 as [|x l Hx _ IH]; [done|]. by rewrite filter_cons_True, IH.
Qed.

Lemma keyIs_hasKey key k x : keyIs key k x → hasKey key x.
Proof. unfold keyIs, hasKey. by destruct (key x). Qed.

Lemma stableSortBy_spec key l : stablySortedBy key l (stableSortBy key l).
Proof.
  unfold stableSortBy.
  set (defined := filter (λ x, hasKey key x) l).
  assert (length (insertionSortBy key defined) = length defined) as Hlen.
  { by rewrite (insertionSortBy_perm key defined). }
  assert (Forall (λ x, hasKey key x) (insertionSortBy key defined)) as Hall.
  { rewrite (insertionSortBy_perm key defined). apply Forall_filter_self. }
  split_and!.
  - rewrite refill_perm by done. rewrite (insertionSortBy_perm key defined).
    apply filter_app_complement.
  - intros i x. apply refill_undefined.
  - rewrite (refill_filter key (hasKey key)) by done.
    rewrite filter_all by done.
    apply insertionSortBy_sorted, Forall_filter_self.
  - intros k. rewrite (refill_filter key (keyIs key k)) by (done || apply keyIs_hasKey).
    rewrite insertionSortBy_stable. apply filter_filter_sub, keyIs_hasKey.
Qed.

Lemma stableSortBy_perm key l : stableSortBy key l ≡ₚ l.
Proof. apply stableSortBy_spec. Qed.
End sort_facts.

(** ** The passes, row by row *)

Section sweeps.
Context {V : Type}.
Variable sortBy : (nat → option Q) → list nat → list nat.
Implicit Types (ns : list (LevelNode V)) (row : list nat)
  (rows done : list (list nat))
  (weight : list (LevelNode V) → nat → option Q).

Lemma sortLevel_middle weight ns done row rows :
  sortLevel sortBy weight (ns, done ++ row :: rows) (length done)
  = ((sortAndReindex sortBy weight ns row).1,
     done ++ (sortAndReindex sortBy weight ns row).2 :: rows).
Proof.
  unfold sortLevel, sortAndReindex. rewrite list_lookup_middle by done. simpl.
  f_equal. rewrite insert_app_r_alt by lia. by rewrite Nat.sub_diag.
Qed.

(** The loop [for (let i = 0; i < levels.length; i++)] visits the rows
    from the first to the last. *)
Lemma foldl_sortLevel_down weight rows : ∀ ns done,
  foldl (sortLevel sortBy weight) (ns, done ++ rows) (seq (length done) (length rows))
  = ((sweep sortBy weight ns rows).1, done ++ (sweep sortBy weight ns rows).2).
Proof.
  induction rows as [|row rows IH]; intros ns done.
  - done.
  - cbn [length seq foldl sweep]. rewrite sortLevel_middle.
    unfold sortAndReindex. cbn [fst snd].
    set (row' := sortBy (weight ns) row). set (ns' := reindexLevel row' ns).
    rewrite (cons_middle row' done rows), app_assoc.
    replace (S (length done)) with (length (done ++ [row']))
      by (rewrite length_app; simpl; lia).
    rewrite IH. destruct (sweep sortBy weight ns' rows) as [ns'' rows''].
    cbn [fst snd]. by rewrite <- app_assoc.
Qed.

(** The loop [for (let i = levels.length - 1; i >= 0; i--)] visits them
    from the last to the first. *)
Lemma foldl_sortLevel_up weight rows : ∀ ns done,
  foldl (sortLevel sortBy weight) (ns, rows ++ done) (reverse (seq 0 (length rows)))
  = ((sweep sortBy weight ns (reverse rows)).1,
     reverse (sweep sortBy weight ns (reverse rows)).2 ++ done).
Proof.
  induction rows as [|row rows IH] using rev_ind; intros ns done.
  - done.
  - rewrite length_app, Nat.add_1_r, seq_S, !reverse_snoc.
    cbn [foldl sweep plus]. rewrite <- app_assoc. cbn [app].
    rewrite sortLevel_middle. unfold sortAndReindex. cbn [fst snd].
    set (row' := sortBy (weight ns) row). set (ns' := reindexLevel row' ns).
    rewrite IH. destruct (sweep sortBy weight ns' (reverse rows)) as [ns'' rows''].
    cbn [fst snd]. by rewrite reverse_cons, <- app_assoc.
Qed.

Lemma sweep_length weight rows : ∀ ns,
  length (sweep sortBy weight ns rows).2 = length rows.
Proof.
  induction rows as [|row rows IH]; intros ns; simpl; [done|].
  specialize (IH (reindexLevel (sortBy (weight ns) row) ns)).
  destruct (sweep sortBy weight _ rows). simpl in *. by rewrite IH.
Qed.

Lemma crossingPass_fullPass (st : list (LevelNode V) * list (list nat)) :
  crossingPass sortBy st = fullPass sortBy st.
Proof.
  destruct st as [ns rows]. unfold crossingPass, fullPass.
  pose proof (foldl_sortLevel_down levelNodeParentWeight rows ns []) as Hdown.
  simpl in Hdown. cbn [snd]. rewrite Hdown.
  unfold sweepTopToBottom; cbn [fst snd].
  destruct (sweep sortBy levelNodeParentWeight ns rows) as [ns1 rows1]. cbn [fst snd].
  pose proof (foldl_sortLevel_up levelNodeChildWeight rows1 ns1 []) as Hup.
  rewrite app_nil_r in Hup. rewrite Hup. unfold sweepBottomToTop; cbn [fst snd].
  destruct (sweep sortBy levelNodeChildWeight ns1 (reverse rows1)) as [ns2 rows2].
  cbn [fst snd]. by rewrite app_nil_r.
Qed.

Lemma minimizeCrossings_fullPass (st : list (LevelNode V) * list (list nat)) :
  minimizeCrossings sortBy st
  = fullPass sortBy (fullPass sortBy (fullPass sortBy (fullPass sortBy st))).
Proof.
  unfold minimizeCrossings. cbn [Nat.iter nat_rect]. by rewrite !crossingPass_fullPass.
Qed.

(** In a sweep every row is sorted by the weights of the store as it is
    when the row's turn comes, a store that differs in indices only. *)
Lemma sweep_lookup weight rows : ∀ ns i row,
  rows !! i = Some row →
  ∃ ns', indexOnly ns ns'
         ∧ (sweep sortBy weight ns rows).2 !! i = Some (sortBy (weight ns') row).
Proof.
  induction rows as [|row0 rows IH]; intros ns i row Hrow; [done|]. simpl.
  set (ns1 := reindexLevel (sortBy (weight ns) row0) ns).
  specialize (IH ns1). destruct (sweep sortBy weight ns1 rows) as [ns2 rows2].
  destruct i as [|i]; simpl in *.
  - injection Hrow as <-. exists ns. split; [apply indexOnly_refl|done].
  - destruct (IH i row Hrow) as (ns' & Hio & Hlookup). exists ns'. split; [|done].
    eapply indexOnly_trans; [apply indexOnly_reindexFrom|done].
Qed.

Lemma sweepBottomToTop_lookup weight ns rows i row :
  rows !! i = Some row →
  ∃ ns', indexOnly ns ns'
         ∧ (sweepBottomToTop sortBy weight (ns, rows)).2 !! i
           = Some (sortBy (weight ns') row).
Proof.
  intros Hrow. pose proof (lookup_lt_Some _ _ _ Hrow) as Hi.
  destruct (sweep_lookup weight (reverse rows) ns (length rows - S i) row)
    as (ns' & Hio & Hlookup).
  { rewrite reverse_lookup by lia.
    by replace (length rows - S (length rows - S i)) with i by lia. }
  exists ns'. split; [done|]. unfold sweepBottomToTop. cbn [fst snd].
  pose proof (sweep_length weight (reverse rows) ns) as Hlen.
  rewrite length_reverse in Hlen.
  destruct (sweep sortBy weight ns (reverse rows)) as [ns2 rows2]. cbn [fst snd] in *.
  rewrite reverse_lookup by lia. by rewrite Hlen.
Qed.

(** *** Reindexing numbers a row from 0 *)

Lemma indexOf_setIndex ns n i m :
  indexOf (setIndex n i ns) m
  = if decide (n = m ∧ n < length ns) then i else indexOf ns m.
Proof.
  unfold indexOf, setIndex. destruct (decide (n = m)) as [<-|Hne].
  - rewrite list_lookup_alter_eq. destruct (ns !! n) as [nd|] eqn:Hn; simpl.
    + rewrite decide_True; [done|]. split; [done|]. by eapply lookup_lt_Some.
    + rewrite decide_False; [done|]. intros [_ Hlt].
      apply lookup_ge_None in Hn. lia.
  - rewrite list_lookup_alter_ne by done. rewrite decide_False; [done|]. naive_solver.
Qed.

Lemma indexOf_reindexFrom_other row : ∀ i ns m,
  m ∉ row → indexOf (reindexFrom i row ns) m = indexOf ns m.
Proof.
  induction row as [|n row IH]; intros i ns m Hm; simpl; [done|].
  apply not_elem_of_cons in Hm as [Hne Hm].
  rewrite IH by done. rewrite indexOf_setIndex. rewrite decide_False; [done|].
  naive_solver.
Qed.

Lemma indexOf_reindexFrom row : ∀ i ns j n,
  NoDup row → (∀ m, m ∈ row → m < length ns) → row !! j = Some n →
  indexOf (reindexFrom i row ns) n = i + j.
Proof.
  induction row as [|n0 row IH]; intros i ns j n Hnd Hvalid Hn; [done|]. simpl.
  apply NoDup_cons in Hnd as [Hn0 Hnd]. destruct j as [|j]; simpl in Hn.
  - injection Hn as <-. rewrite indexOf_reindexFrom_other by done.
    rewrite indexOf_setIndex. rewrite decide_True; [lia|].
    split; [done|]. apply Hvalid, elem_of_cons. auto.
  - rewrite (IH (S i) _ j n); [lia|done| |done].
    intros m Hm. unfold setIndex. rewrite length_alter.
    apply Hvalid, elem_of_cons. auto.
Qed.
End sweeps.

(** ** The turns of a pass *)


Lemma elem_of_concat_row (rows : list (list nat)) i row n :
  rows !! i = Some row → n ∈ row → n ∈ concat rows.
Proof.
  revert i. induction rows as [|r rows IH]; intros [|i] Hi Hn; simpl in *; try done.
  - injection Hi as ->. apply elem_of_app. auto.
  - apply elem_of_app. right. by eapply IH.
Qed.

Lemma NoDup_concat_row (rows : list (list nat)) i row :
  NoDup (concat rows) → rows !! i = Some row → NoDup row.
Proof.
  revert i. induction rows as [|r rows IH]; intros [|i]; simpl; try done.
  - intros (Hnd & _ & _)%NoDup_app [= ->]. done.
  - intros (_ & _ & Hnd)%NoDup_app Hi. by eapply IH.
Qed.

Lemma NoDup_concat_disjoint (rows : list (list nat)) i k r1 r2 n :
  NoDup (concat rows) → rows !! i = Some r1 → rows !! k = Some r2 → i ≠ k →
  n ∈ r1 → n ∈ r2 → False.
Proof.
  revert i k. induction rows as [|r rows IH]; intros [|i] [|k]; simpl; try done.
  - intros (_ & Hdisj & _)%NoDup_app [= ->] Hk _ H1 H2.
    apply (Hdisj n H1). by eapply elem_of_concat_row.
  - intros (_ & Hdisj & _)%NoDup_app Hi [= ->] _ H1 H2.
    apply (Hdisj n H2). by eapply elem_of_concat_row.
  - intros (_ & _ & Hnd)%NoDup_app Hi Hk Hne H1 H2.
    apply (IH i k); [done|done|done|lia|done|done].
Qed.

Section turns.
Context {V : Type}.
Variable sortBy : (nat → option Q) → list nat → list nat.
Hypothesis sortBy_perm : ∀ key l, sortBy key l ≡ₚ l.
Implicit Types (ns : list (LevelNode V)) (rows : list (list nat))
  (st : list (LevelNode V) * list (list nat))
  (weight : list (LevelNode V) → nat → option Q).












End turns.

(** ** Instances used in the examples *)

(** A numbering of the vertices that grows along every edge rules out
    cycles. *)
Lemma acyclic_of_order {V E : Type} `{EqDecision V, EqDecision E, Edge V E}
    (g : Graph V E) (f : V → nat) :
  (∀ e, e ∈ edges g → f (from e) < f (to e)) → acyclic g.
Proof.
  intros Hf.
  assert (∀ u v n, walk g u v n → f u + n ≤ f v) as Hwalk.
  { intros u v n. induction 1 as [|e n _ IH He]; [lia|]. specialize (Hf e He). lia. }
  intros v n Hn. apply Hwalk in Hn. lia.
Qed.

Lemma built_graphOf es : built (graphOf es).
Proof.
  unfold graphOf. generalize (built_empty (V:=nat) (E:=CallGraphEdge)).
  generalize (emptyGraph (V:=nat) (E:=CallGraphEdge)).
  induction es as [|e es IH]; intros g Hg; simpl; [done|].
  apply IH. by constructor.
Qed.

(** ** Outcomes of the stages *)

Section outcomes.
Context {V E : Type} `{EqDecision V, EqDecision E, Edge V E}.
Variable sortBy : (nat → option Q) → list nat → list nat.

Lemma ranksToLevels_throws (ranks : list (V * Z)) (edges : list E) err :
  handleEdges ranks
    (vertexToLevelNode (foldl addRankedVertex initialBuilder ranks)) edges
    (store (foldl addRankedVertex initialBuilder ranks)) [] = Throws err →
  ranksToLevels sortBy ranks edges = Throws err.
Proof. unfold ranksToLevels. by intros ->. Qed.

Lemma first_split {A : Type} (P : A → Prop) `{!∀ x, Decision (P x)} (l : list A) x :
  x ∈ l → P x →
  ∃ pre y post, l = pre ++ y :: post ∧ P y ∧ ∀ z, z ∈ pre → ¬ P z.
Proof.
  intros Hx HPx. induction l as [|a l IH]; [by apply elem_of_nil in Hx|].
  destruct (decide (P a)) as [Ha|Ha].
  - exists [], a, l. split_and!; [done|done|]. intros z Hz. by apply elem_of_nil in Hz.
  - apply elem_of_cons in Hx as [->|Hx]; [done|].
    destruct (IH Hx) as (pre & y & post & -> & Hy & Hpre).
    exists (a :: pre), y, post. split_and!; [done|done|].
    intros z [->|Hz]%elem_of_cons; auto.
Qed.

(** When every edge has ranked ends, the first edge that cannot be placed
    is the first sideways edge. *)
Lemma ranksToLevels_first_sideways (ranks : list (V * Z)) (edges : list E) e :
  NoDup (JsMap.keys ranks) →
  (∀ e', e' ∈ edges →
     is_Some (JsMap.get ranks (from e')) ∧ is_Some (JsMap.get ranks (to e'))) →
  e ∈ edges → sideways ranks e →
  ∃ pre e' post, edges = pre ++ e' :: post ∧ sideways ranks e'
    ∧ (∀ z, z ∈ pre → ¬ sideways ranks z)
    ∧ ranksToLevels sortBy ranks edges = Throws (FoundSidewaysEdge (from e') (to e')).
Proof.
  intros Hnd Hranked He Hside.
  destruct (first_split (sideways ranks) edges e He Hside)
    as (pre & e' & post & -> & Hside' & Hpre).
  exists pre, e', post. split_and!; [done..|].
  apply ranksToLevels_throws.
  destruct (addRankedVertex_init ranks Hnd) as (Hok & _).
  destruct Hside' as (Hne & [r Hr] & Heq).
  apply handleEdges_first_sideways with r; [|done|done|congruence|done].
  intros z Hz.
  destruct (Hranked z) as [[ru Hru] [rv Hrv]]; [apply elem_of_app; auto|].
  exists ru, rv. split_and!; [done..|].
  destruct (decide (from z = to z)); [by left|right].
  intros ->. apply (Hpre z Hz). split_and!; [done|by eexists|congruence].
Qed.

Lemma ranksToLevels_fuel (ranks : list (V * Z)) (edges : list E) :
  ranksToLevels sortBy ranks edges ≠ OutOfFuel.
Proof.
  unfold ranksToLevels.
  pose proof (handleEdges_fuel ranks
    (vertexToLevelNode (foldl addRankedVertex initialBuilder ranks)) edges
    (store (foldl addRankedVertex initialBuilder ranks)) []) as Hfuel.
  destruct (handleEdges _ _ _ _ _) as [[s m]| |];
    cbn [mbind outcome_mbind outcome_bind]; [|done..].
  destruct (collectLevels _ _ _ _ _) as [ns1 levels1].
  by destruct (minimizeCrossings sortBy (ns1, levels1)).
Qed.

Lemma extendPath_fuel positions (rest : list nat) :
  ∀ from (path : list PathCommand),
    extendPath (V:=V) positions from rest path ≠ OutOfFuel.
Proof.
  induction rest as [|to rest IH]; intros from path; simpl; [done|].
  destruct (JsMap.get positions from) as [fromRect|]; [|done].
  destruct (JsMap.get positions to) as [toRect|]; [|done].
  destruct (segmentAnchors fromRect toRect). apply IH.
Qed.

Lemma makeEdgePathsFrom_fuel positions (e2n : list (E * list nat)) :
  ∀ paths, makeEdgePathsFrom (V:=V) positions e2n paths ≠ OutOfFuel.
Proof.
  induction e2n as [|[e nodeList] e2n IH]; intros paths; simpl; [done|].
  assert (edgePath (V:=V) positions nodeList ≠ OutOfFuel) as Hpath.
  { destruct nodeList as [|from rest]; simpl; [done|].
    destruct (JsMap.get positions from); [apply extendPath_fuel|done]. }
  destruct (edgePath positions nodeList); simpl; [apply IH|done|done].
Qed.
End outcomes.

(** ** Coordinate assignment *)

Section positions.
Context {V : Type}.
Implicit Types (ns : list (LevelNode V)) (row : list nat)
  (levels : list (list nat)) (pos : list (nat * Rect.t)).
Local Open Scope Q_scope.

Ltac qunfold :=
  unfold nodeWidth, width, height, horizontalSpacing, verticalSpacing, Qdiv in *;
  change (/ 2) with (1 # 2) in *.

Lemma nodeWidth_bounds ns n :
  horizontalSpacing <= nodeWidth ns n <= width ∧ 0 < nodeWidth ns n.
Proof. unfold nodeWidth. destruct (hasVertex ns n); qunfold; lra. Qed.

Lemma slotsWidth_nonneg ns row : 0 <= slotsWidth ns row.
Proof.
  induction row as [|n row IH]; simpl; [lra|].
  pose proof (nodeWidth_bounds ns n). qunfold. lra.
Qed.

Lemma foldl_levelWidthStep ns row : ∀ acc,
  0 < acc → foldl (levelWidthStep ns) acc row == acc + slotsWidth ns row.
Proof.
  induction row as [|n row IH]; intros acc Hacc; simpl; [lra|].
  pose proof (nodeWidth_bounds ns n) as Hn.
  assert (levelWidthStep ns acc n == acc + horizontalSpacing + nodeWidth ns n) as Hstep.
  { unfold levelWidthStep, nodeWidth.
    destruct (Qlt_le_dec 0 acc); [|lra]. destruct (hasVertex ns n); lra. }
  assert (0 < horizontalSpacing) by (qunfold; lra).
  pose proof (IH (levelWidthStep ns acc n)) as Hfold. lra.
Qed.

(** The occupied width of a row: the widths of its nodes and one spacing
    between neighbours. *)
Lemma levelWidth_cons ns n row :
  levelWidth ns (n :: row) == nodeWidth ns n + slotsWidth ns row.
Proof.
  unfold levelWidth. simpl. pose proof (nodeWidth_bounds ns n) as Hn.
  assert (levelWidthStep ns 0 n == nodeWidth ns n) as Hstep.
  { unfold levelWidthStep, nodeWidth.
    destruct (Qlt_le_dec 0 0); [lra|]. destruct (hasVertex ns n); lra. }
  pose proof (foldl_levelWidthStep ns row (levelWidthStep ns 0 n)) as Hfold.
  lra.
Qed.

Lemma levelWidth_slots ns row :
  row ≠ [] → levelWidth ns row + horizontalSpacing == slotsWidth ns row.
Proof.
  destruct row as [|n row]; [done|]. intros _. rewrite levelWidth_cons. simpl. lra.
Qed.

Lemma slotRect_proper ns n slot slot' rect :
  slot == slot' → slotRect ns n slot rect → slotRect ns n slot' rect.
Proof.
  unfold slotRect. intros Heq. destruct (hasVertex ns n); intros [? ?]; split; lra.
Qed.

Lemma slotsWidth_cons ns n row :
  slotsWidth ns (n :: row) == nodeWidth ns n + horizontalSpacing + slotsWidth ns row.
Proof. reflexivity. Qed.

Lemma placeNode_fold ns y row : ∀ x pos,
  NoDup row →
  (foldl (placeNode ns y) (x, pos) row).1 == x + slotsWidth ns row
  ∧ (∀ m, m ∉ row →
       JsMap.get (foldl (placeNode ns y) (x, pos) row).2 m = JsMap.get pos m)
  ∧ (∀ j n, row !! j = Some n →
       ∃ rect, JsMap.get (foldl (placeNode ns y) (x, pos) row).2 n = Some rect
               ∧ slotRect ns n (x + slotsWidth ns (take j row)) rect).
Proof.
  induction row as [|n row IH]; intros x pos Hnd.
  - split_and!; [cbn; lra|done|]. intros j n Hn. done.
  - apply NoDup_cons in Hnd as [Hn Hnd]. cbn [foldl].
    destruct (placeNode ns y (x, pos) n) as [x1 pos1] eqn:Hplace.
    destruct (IH x1 pos1 Hnd) as (Hx & Hother & Hslots).
    assert (x1 == x + nodeWidth ns n + horizontalSpacing
            ∧ (∀ m, m ≠ n → JsMap.get pos1 m = JsMap.get pos m)
            ∧ ∃ rect, JsMap.get pos1 n = Some rect ∧ slotRect ns n x rect)
      as (Hx1 & Hpos1 & rect & Hrect & Hslot).
    { unfold placeNode, nodeWidth, slotRect in *.
      destruct (hasVertex ns n); injection Hplace as <- <-.
      - split_and!; [lra|by intros m ?; rewrite JsMap_get_set_ne|].
        eexists. rewrite JsMap_get_set_eq. split; [done|].
        unfold Rect.left, Rect.width; cbn [Rect.origin Rect.size Vec2.x Vec2.y].
        split; lra.
      - split_and!; [lra|by intros m ?; rewrite JsMap_get_set_ne|].
        eexists. rewrite JsMap_get_set_eq. split; [done|].
        unfold Rect.left, Rect.width; cbn [Rect.origin Rect.size Vec2.x Vec2.y].
        split; lra. }
    split_and!.
    + pose proof (slotsWidth_cons ns n row). lra.
    + intros m [Hm Hm']%not_elem_of_cons. rewrite Hother by done. by apply Hpos1.
    + intros [|j] n' Hn'; cbn [lookup list_lookup] in Hn'.
      * injection Hn' as <-. exists rect. rewrite Hother by done.
        split; [done|]. eapply slotRect_proper; [|done]. cbn. lra.
      * destruct (Hslots j n' Hn') as (rect' & Hrect' & Hslot').
        exists rect'. split; [done|]. eapply slotRect_proper; [|done].
        cbn [take]. pose proof (slotsWidth_cons ns n (take j row)). lra.
Qed.

Lemma placeLevel_fold ns total levels : ∀ y pos,
  NoDup (concat levels) →
  (∀ m, m ∉ concat levels →
     JsMap.get (foldl (placeLevel ns total) (y, pos) levels).2 m = JsMap.get pos m)
  ∧ (∀ i row j n, levels !! i = Some row → row !! j = Some n →
       ∃ rect, JsMap.get (foldl (placeLevel ns total) (y, pos) levels).2 n = Some rect
               ∧ slotRect ns n
                   (total / 2 - levelWidth ns row / 2 + slotsWidth ns (take j row))
                   rect).
Proof.
  induction levels as [|row0 levels IH]; intros y pos Hnd; simpl.
  - split; [done|]. intros i row j n Hi. done.
  - apply NoDup_app in Hnd as (Hnd0 & Hdisj & Hnd).
    destruct (placeNode_fold ns y row0 (total / 2 - levelWidth ns row0 / 2) pos Hnd0)
      as (_ & Hother0 & Hslots0).
    unfold placeLevel at 2.
    destruct (foldl (placeNode ns y) _ row0) as [x1 pos1].
    destruct (IH (y + (height + verticalSpacing)) pos1 Hnd) as (Hother & Hslots).
    simpl in Hother0, Hslots0. split.
    + intros m [Hm0 Hm]%not_elem_of_app. rewrite Hother by done. by apply Hother0.
    + intros [|i] row j n Hrow Hn; simpl in Hrow.
      * injection Hrow as <-. destruct (Hslots0 j n Hn) as (rect & Hrect & Hslot).
        exists rect. split; [|done]. rewrite Hother; [done|].
        apply Hdisj. by eapply list_elem_of_lookup_2.
      * by eapply Hslots.
Qed.

Lemma maxCount_ge levels row : row ∈ levels → (length row ≤ maxCount levels)%nat.
Proof.
  unfold maxCount.
  assert (∀ acc, (acc ≤ foldl (λ max cur, Nat.max max (length cur)) acc levels)%nat
                 ∧ (row ∈ levels →
                    (length row ≤ foldl (λ max cur, Nat.max max (length cur)) acc levels)%nat))
    as Hgen; [|apply Hgen].
  induction levels as [|row0 levels IH]; intros acc; simpl.
  - split; [lia|]. intros Hin. by apply elem_of_nil in Hin.
  - destruct (IH (Nat.max acc (length row0))) as [Hacc Hin]. split; [lia|].
    intros [->|Hrow]%elem_of_cons; [lia|auto].
Qed.

Lemma slotsWidth_le ns row :
  slotsWidth ns row
  <= inject_Z (Z.of_nat (length row)) * (width + horizontalSpacing).
Proof.
  induction row as [|n row IH].
  - change (0 <= 0 * (width + horizontalSpacing)). lra.
  - cbn [length]. rewrite Nat2Z.inj_succ. unfold Z.succ. rewrite inject_Z_plus.
    change (inject_Z 1) with 1.
    pose proof (slotsWidth_cons ns n row). pose proof (nodeWidth_bounds ns n). lra.
Qed.

Lemma levelWidth_le_totalWidth ns levels row :
  row ∈ levels → row ≠ [] → levelWidth ns row <= totalWidth levels.
Proof.
  intros Hin Hne. pose proof (levelWidth_slots ns row Hne) as Hw.
  pose proof (slotsWidth_le ns row) as Hle.
  pose proof (maxCount_ge levels row Hin) as Hmax.
  unfold totalWidth, Z.sub. rewrite inject_Z_plus, inject_Z_opp.
  change (inject_Z 1) with 1.
  assert (inject_Z (Z.of_nat (length row)) <= inject_Z (Z.of_nat (maxCount levels))) as Hc.
  { rewrite <- Zle_Qle. lia. }
  qunfold. nra.
Qed.
End positions.

(** ** Edge routing *)

Section paths.
Context {V : Type}.
Implicit Types (positions : list (nat * Rect.t)) (path : list (PathCommand)).

Lemma extendPath_prefix positions (rest : list nat) :
  ∀ from path path',
    extendPath (V:=V) positions from rest path = Returns path' →
    ∃ added, path' = path ++ added.
Proof.
  induction rest as [|to rest IH]; intros from path path'; simpl.
  - intros [= <-]. exists []. by rewrite app_nil_r.
  - destruct (JsMap.get positions from) as [fromRect|]; [|done].
    destruct (JsMap.get positions to) as [toRect|]; [|done].
    destruct (segmentAnchors fromRect toRect) as [fromAnchor toAnchor].
    intros (added & ->)%IH. eexists. by rewrite <- app_assoc.
Qed.
End paths.

(** * The claims *)

(** C1. For every edge from u to v with rank(u) <= rank(v) that level
    construction handled, self-loops included, the recorded chain has
    rank(v) - rank(u) + 1 nodes: the first is the real node of u, the last
    the real node of v, every node in between is virtual and sits in the
    row of its position, one per row strictly between the two ranks, and
    consecutive nodes are linked as parent and child.  For a self-loop the
    chain is the single node of u. *)
Theorem forward_edge_chain {V E : Type} `{EqDecision V, EqDecision E, Edge V E}
    (sortBy : (nat → option Q) → list nat → list nat)
    (ranks : list (V * Z)) (edges : list E) (res : LevelResult V E)
    (e : E) (ru rv : Z) :
  (∀ key l, sortBy key l ≡ₚ l) →
  NoDup (JsMap.keys ranks) →
  ranksToLevels sortBy ranks edges = Returns res →
  e ∈ edges →
  JsMap.get ranks (from e) = Some ru → JsMap.get ranks (to e) = Some rv →
  (ru ≤ rv)%Z →
  ∃ chain, JsMap.get (edgeToLevelNodes res) e = Some chain
    ∧ Z.of_nat (length chain) = (rv - ru + 1)%Z
    ∧ (∃ nu, head chain = Some nu ∧ isReal (levelNodes res) nu (from e)
             ∧ inLevel (levels res) (minRankOf ranks) ru nu)
    ∧ (∃ nv, last chain = Some nv ∧ isReal (levelNodes res) nv (to e)
             ∧ inLevel (levels res) (minRankOf ranks) rv nv)
    ∧ (∀ i n, 0 < i → S i < length chain → chain !! i = Some n →
         isVirtual (levelNodes res) n
         ∧ inLevel (levels res) (minRankOf ranks) (ru + Z.of_nat i)%Z n)
    ∧ (∀ i a b, chain !! i = Some a → chain !! S i = Some b →
         linked (levelNodes res) a b)
    ∧ (from e = to e → ∃ nu, chain = [nu] ∧ isReal (levelNodes res) nu (from e)).
Proof.
  intros Hperm Hnd Hrun He Hru Hrv Hle.
  destruct (ranksToLevels_chains sortBy Hperm ranks edges res Hnd Hrun e He)
    as (chain & Hchain & ru' & rv' & Hru' & Hrv' & Hspec).
  simplify_eq. rewrite decide_True in Hspec by done.
  destruct Hspec as (Hlen & Hhead & Hlast & Hmid & Hlink).
  exists chain. split_and!; try done.
  intros Hself. rewrite Hself, Hrv in Hru. injection Hru as ->.
  destruct Hhead as (nu & Hnu & Hreal & _).
  destruct chain as [|n [|n' chain]]; simpl in *; [done| |lia].
  exists n. by simplify_eq.
Qed.

Lemma forward_edge_chain_witness :
  let ranks := [(0, 0%Z); (1, 1%Z); (2, 2%Z); (3, 3%Z)] in
  let edges := [mkEdge 0 0 1; mkEdge 1 1 2; mkEdge 2 2 3; mkEdge 3 0 3; mkEdge 4 1 1] in
  let e := mkEdge 3 0 3 in
  ∃ res, ranksToLevels stableSortBy ranks edges = Returns res
    ∧ ∃ chain, JsMap.get (edgeToLevelNodes res) e = Some chain
        ∧ Z.of_nat (length chain) = (3 - 0 + 1)%Z
        ∧ (∃ nu, head chain = Some nu ∧ isReal (levelNodes res) nu (from e)
                 ∧ inLevel (levels res) (minRankOf ranks) 0 nu)
        ∧ (∃ nv, last chain = Some nv ∧ isReal (levelNodes res) nv (to e)
                 ∧ inLevel (levels res) (minRankOf ranks) 3 nv)
        ∧ (∀ i n, 0 < i → S i < length chain → chain !! i = Some n →
             isVirtual (levelNodes res) n
             ∧ inLevel (levels res) (minRankOf ranks) (0 + Z.of_nat i)%Z n)
        ∧ (∀ i a b, chain !! i = Some a → chain !! S i = Some b →
             linked (levelNodes res) a b)
        ∧ (from e = to e → ∃ nu, chain = [nu] ∧ isReal (levelNodes res) nu (from e)).
Proof.
  intros ranks edges e.
  eexists. split; [vm_compute; reflexivity|].
  apply (forward_edge_chain stableSortBy ranks edges _ e 0 3).
  - apply stableSortBy_perm.
  - compute_done.
  - vm_compute. reflexivity.
  - compute_done.
  - reflexivity.
  - reflexivity.
  - lia.
Defined.

(** C2. [rankVertices] gives every vertex of an acyclic graph the length
    of the longest path that reaches it from a source: a path of that
    length from a source exists, and no path into the vertex is longer.
    A vertex with no entering edge gets rank 0; any other vertex gets one
    more than the largest rank among the origins of its entering edges. *)
Theorem rankVertices_longest_path {V E : Type} `{EqDecision V, EqDecision E, Edge V E}
    (g : Graph V E) :
  built g → acyclic g →
  ∃ ranks, rankVertices g = Some ranks
    ∧ ∀ v, v ∈ vertices g →
        ∃ r, JsMap.get ranks v = Some r ∧ (0 ≤ r)%Z
          ∧ (∃ u, isSource g u ∧ walk g u v (Z.to_nat r))
          ∧ (∀ u n, walk g u v n → (Z.of_nat n ≤ r)%Z)
          ∧ (isSource g v → r = 0%Z)
          ∧ (¬ isSource g v →
               (∃ e, e ∈ getEdgesEntering g v
                     ∧ JsMap.get ranks (from e) = Some (r - 1)%Z)
               ∧ ∀ e, e ∈ getEdgesEntering g v →
                   ∃ r', JsMap.get ranks (from e) = Some r' ∧ (r' ≤ r - 1)%Z).
Proof.
  intros Hbuilt Hacyclic.
  destruct (rankVertices_equation g Hbuilt Hacyclic) as (m & Hm & Hall & Heq).
  exists m. split; [done|]. intros v Hv. destruct (Hall v Hv) as [r Hr].
  destruct (Heq v r Hr) as [Hnn [Hpred Hmax]].
  exists r. split_and!; [done|done| | | |].
  - by apply (rank_walk_attained g Hbuilt m Heq (Z.to_nat r) v r).
  - intros u n Hwalk.
    destruct (rank_walk_le g Hbuilt m (λ v r Hr, proj2 (Heq v r Hr)) u v n Hwalk r Hr)
      as (ru & Hru & ?).
    destruct (Heq u ru Hru) as [? _]. lia.
  - intros Hsrc. destruct Hmax as [[_ ->]|(e & He & _)]; [done|].
    unfold isSource in Hsrc. rewrite Hsrc in He. by apply elem_of_nil in He.
  - intros Hsrc. destruct Hmax as [[? _]|Hmax]; [done|]. split; [done|].
    intros e He. destruct (Hpred e He) as (r' & ? & ?). exists r'. split; [done|lia].
Qed.

Lemma rankVertices_longest_path_witness :
  let g := graphOf [mkEdge 0 0 1; mkEdge 1 0 2; mkEdge 2 1 3; mkEdge 3 2 3; mkEdge 4 0 3] in
  ∃ ranks, rankVertices g = Some ranks
    ∧ ∀ v, v ∈ vertices g →
        ∃ r, JsMap.get ranks v = Some r ∧ (0 ≤ r)%Z
          ∧ (∃ u, isSource g u ∧ walk g u v (Z.to_nat r))
          ∧ (∀ u n, walk g u v n → (Z.of_nat n ≤ r)%Z)
          ∧ (isSource g v → r = 0%Z)
          ∧ (¬ isSource g v →
               (∃ e, e ∈ getEdgesEntering g v
                     ∧ JsMap.get ranks (from e) = Some (r - 1)%Z)
               ∧ ∀ e, e ∈ getEdgesEntering g v →
                   ∃ r', JsMap.get ranks (from e) = Some r' ∧ (r' ≤ r - 1)%Z).
Proof.
  intros g. apply (rankVertices_longest_path g).
  - apply built_graphOf.
  - apply (acyclic_of_order g (λ v, v)). intros e He.
    vm_compute in He. apply list_elem_of_In in He. simpl in He.
    repeat (destruct He as [<-|He]; [simpl; lia|]). done.
Defined.

(** C3. On an acyclic graph, the rank map of [rankVertices] grows by at
    least one along every edge: rank(v) >= rank(u) + 1 for every edge
    from u to v. *)
Theorem rankVertices_edge_increases {V E : Type} `{EqDecision V, EqDecision E, Edge V E}
    (g : Graph V E) :
  built g → acyclic g →
  ∃ ranks, rankVertices g = Some ranks
    ∧ ∀ e, e ∈ edges g →
        ∃ ru rv, JsMap.get ranks (from e) = Some ru
                 ∧ JsMap.get ranks (to e) = Some rv
                 ∧ (rv >= ru + 1)%Z ∧ (rv > ru)%Z.
Proof.
  intros Hbuilt Hacyclic.
  destruct (rankVertices_equation g Hbuilt Hacyclic) as (m & Hm & Hall & Heq).
  exists m. split; [done|]. intros e He.
  destruct (built_endpoints g Hbuilt e He) as [_ Hto].
  destruct (Hall _ Hto) as [rv Hrv]. destruct (Heq _ _ Hrv) as [_ [Hpred _]].
  destruct (Hpred e) as (ru & Hru & ?).
  { by apply (built_entering g Hbuilt). }
  exists ru, rv. split_and!; [done|done|lia|lia].
Qed.

Lemma rankVertices_edge_increases_witness :
  let g := graphOf [mkEdge 0 0 1; mkEdge 1 0 2; mkEdge 2 1 3; mkEdge 3 2 3; mkEdge 4 0 3] in
  ∃ ranks, rankVertices g = Some ranks
    ∧ ∀ e, e ∈ edges g →
        ∃ ru rv, JsMap.get ranks (from e) = Some ru
                 ∧ JsMap.get ranks (to e) = Some rv
                 ∧ (rv >= ru + 1)%Z ∧ (rv > ru)%Z.
Proof.
  intros g. apply (rankVertices_edge_increases g).
  - apply built_graphOf.
  - apply (acyclic_of_order g (λ v, v)). intros e He.
    vm_compute in He. apply list_elem_of_In in He. simpl in He.
    repeat (destruct He as [<-|He]; [simpl; lia|]). done.
Defined.

(** C4, as amended.  An edge from u to v, u different from v, whose ends
    share a rank is fatal: handling it throws the sideways-edge error that
    names u and v, in whatever state it is reached, and [ranksToLevels]
    throws and returns no level structure.  [ranksToLevels] stops at the
    first edge, in iteration order, that cannot be placed: when every edge
    has ranked ends, the error names the ends of the first sideways edge;
    it names u and v when every edge before this one is placeable. *)
Theorem sideways_edge_fatal {V E : Type} `{EqDecision V, EqDecision E, Edge V E}
    (sortBy : (nat → option Q) → list nat → list nat)
    (ranks : list (V * Z)) (edges : list E) (e : E) (r : Z) :
  e ∈ edges → from e ≠ to e →
  JsMap.get ranks (from e) = Some r → JsMap.get ranks (to e) = Some r →
  (∀ v2n fuel s,
     handleEdge ranks v2n (S fuel) (from e) (to e) s
     = Throws (FoundSidewaysEdge (from e) (to e)))
  ∧ (∃ err, ranksToLevels sortBy ranks edges = Throws err)
  ∧ (NoDup (JsMap.keys ranks) →
     (∀ e', e' ∈ edges →
        is_Some (JsMap.get ranks (from e')) ∧ is_Some (JsMap.get ranks (to e'))) →
     ∃ pre e' post, edges = pre ++ e' :: post ∧ sideways ranks e'
       ∧ (∀ z, z ∈ pre → ¬ sideways ranks z)
       ∧ ranksToLevels sortBy ranks edges
         = Throws (FoundSidewaysEdge (from e') (to e')))
  ∧ (NoDup (JsMap.keys ranks) →
     ∀ pre post, edges = pre ++ e :: post →
       (∀ e', e' ∈ pre → placeable ranks (from e') (to e')) →
       ranksToLevels sortBy ranks edges
       = Throws (FoundSidewaysEdge (from e) (to e))).
Proof.
  intros He Hne Hru Hrv. split_and!.
  - intros v2n fuel s. by apply handleEdge_sideways with r.
  - destruct (handleEdges_sideways_throws ranks
      (vertexToLevelNode (foldl addRankedVertex initialBuilder ranks)) edges e r
      He Hne Hru Hrv
      (store (foldl addRankedVertex initialBuilder ranks)) []) as [err Herr].
    exists err. by apply ranksToLevels_throws.
  - intros Hnd Hranked. apply (ranksToLevels_first_sideways sortBy ranks edges e);
      [done|done|done|].
    split_and!; [done|by eexists|congruence].
  - intros Hnd pre post -> Hpre. apply ranksToLevels_throws.
    destruct (addRankedVertex_init ranks Hnd) as (Hok & _).
    by apply handleEdges_first_sideways with r.
Qed.

Lemma sideways_edge_fatal_witness :
  let ranks := [(0, 0%Z); (1, 1%Z); (2, 1%Z)] in
  let edges := [mkEdge 0 0 1; mkEdge 1 1 2; mkEdge 2 0 2] in
  let e := mkEdge 1 1 2 in
  (∀ v2n fuel s,
     handleEdge ranks v2n (S fuel) (from e) (to e) s
     = Throws (FoundSidewaysEdge (from e) (to e)))
  ∧ (∃ err, ranksToLevels stableSortBy ranks edges = Throws err)
  ∧ (NoDup (JsMap.keys ranks) →
     (∀ e', e' ∈ edges →
        is_Some (JsMap.get ranks (from e')) ∧ is_Some (JsMap.get ranks (to e'))) →
     ∃ pre e' post, edges = pre ++ e' :: post ∧ sideways ranks e'
       ∧ (∀ z, z ∈ pre → ¬ sideways ranks z)
       ∧ ranksToLevels stableSortBy ranks edges
         = Throws (FoundSidewaysEdge (from e') (to e')))
  ∧ (NoDup (JsMap.keys ranks) →
     ∀ pre post, edges = pre ++ e :: post →
       (∀ e', e' ∈ pre → placeable ranks (from e') (to e')) →
       ranksToLevels stableSortBy ranks edges
       = Throws (FoundSidewaysEdge (from e) (to e))).
Proof.
  intros ranks edges e.
  apply (sideways_edge_fatal stableSortBy ranks edges e 1).
  - compute_done.
  - simpl. lia.
  - reflexivity.
  - reflexivity.
Defined.

(** C4 as stated fails when an earlier edge is at fault: with the edges
    0 -> 1 and 1 -> 2 and all three vertices at rank 0, the edge 1 -> 2
    is a sideways edge, yet the error thrown names 0 and 1. *)
Lemma sideways_edge_other_named :
  let ranks := [(0, 0%Z); (1, 0%Z); (2, 0%Z)] in
  let edges := [mkEdge 0 0 1; mkEdge 1 1 2] in
  let e := mkEdge 1 1 2 in
  e ∈ edges ∧ from e ≠ to e
  ∧ JsMap.get ranks (from e) = Some 0%Z ∧ JsMap.get ranks (to e) = Some 0%Z
  ∧ ranksToLevels stableSortBy ranks edges = Throws (FoundSidewaysEdge 0 1)
  ∧ ranksToLevels stableSortBy ranks edges
    ≠ Throws (FoundSidewaysEdge (from e) (to e)).
Proof.
  intros ranks edges e. split_and!.
  - compute_done.
  - simpl. lia.
  - reflexivity.
  - reflexivity.
  - reflexivity.
  - vm_compute. intros [=].
Qed.

(** C5. For a back edge from u to v, rank(u) > rank(v), [handleEdge]
    returns the reverse of what it returns for the edge from v to u, in
    the same state.  So the reverse of the recorded chain is a chain from
    v down to u, and the recorded chain starts at the real node of u, ends
    at the real node of v, and has its virtual nodes in the rows strictly
    between rank(v) and rank(u). *)
Theorem back_edge_chain {V E : Type} `{EqDecision V, EqDecision E, Edge V E}
    (sortBy : (nat → option Q) → list nat → list nat)
    (ranks : list (V * Z)) (edges : list E) (res : LevelResult V E)
    (e : E) (ru rv : Z) :
  (∀ key l, sortBy key l ≡ₚ l) →
  NoDup (JsMap.keys ranks) →
  ranksToLevels sortBy ranks edges = Returns res →
  e ∈ edges →
  JsMap.get ranks (from e) = Some ru → JsMap.get ranks (to e) = Some rv →
  (rv < ru)%Z →
  (∀ v2n fuel s,
     handleEdge ranks v2n (S fuel) (from e) (to e) s
     = '(nodes, s') ← handleEdge ranks v2n fuel (to e) (from e) s;
       Returns (reverse nodes, s'))
  ∧ ∃ chain, JsMap.get (edgeToLevelNodes res) e = Some chain
      ∧ chainSpec (levelNodes res) (inLevel (levels res) (minRankOf ranks))
          (to e) rv (from e) ru (reverse chain)
      ∧ Z.of_nat (length chain) = (ru - rv + 1)%Z
      ∧ (∃ nu, head chain = Some nu ∧ isReal (levelNodes res) nu (from e)
               ∧ inLevel (levels res) (minRankOf ranks) ru nu)
      ∧ (∃ nv, last chain = Some nv ∧ isReal (levelNodes res) nv (to e)
               ∧ inLevel (levels res) (minRankOf ranks) rv nv)
      ∧ (∀ i n, 0 < i → S i < length chain → chain !! i = Some n →
           isVirtual (levelNodes res) n
           ∧ inLevel (levels res) (minRankOf ranks) (ru - Z.of_nat i)%Z n
           ∧ (rv < ru - Z.of_nat i < ru)%Z).
Proof.
  intros Hperm Hnd Hrun He Hru Hrv Hlt. split.
  { intros v2n fuel s. by apply handleEdge_back with ru rv. }
  destruct (ranksToLevels_chains sortBy Hperm ranks edges res Hnd Hrun e He)
    as (chain & Hchain & ru' & rv' & Hru' & Hrv' & Hspec).
  simplify_eq. rewrite decide_False in Hspec by lia.
  exists chain. split_and!; [done|done|..];
    destruct Hspec as (Hlen & Hhead & Hlast & Hmid & Hlink);
    rewrite length_reverse in Hlen.
  - done.
  - by rewrite last_reverse in Hlast.
  - by rewrite head_reverse in Hhead.
  - intros i n Hi Hi' Hn.
    destruct (Hmid (length chain - S i) n) as [Hvirt Hrow].
    + lia.
    + rewrite length_reverse. lia.
    + rewrite reverse_lookup by lia.
      by replace (length chain - S (length chain - S i)) with i by lia.
    + split_and!; [done| |lia|lia].
      by replace (ru - Z.of_nat i)%Z
        with (rv + Z.of_nat (length chain - S i))%Z by lia.
Qed.

Lemma back_edge_chain_witness :
  let ranks := [(1, 0%Z); (2, 1%Z); (3, 2%Z); (0, 3%Z)] in
  let edges := [mkEdge 0 0 1; mkEdge 1 1 2; mkEdge 2 2 3; mkEdge 3 3 0] in
  let e := mkEdge 0 0 1 in
  ∃ res, ranksToLevels stableSortBy ranks edges = Returns res
    ∧ (∀ v2n fuel s,
         handleEdge ranks v2n (S fuel) (from e) (to e) s
         = '(nodes, s') ← handleEdge ranks v2n fuel (to e) (from e) s;
           Returns (reverse nodes, s'))
    ∧ ∃ chain, JsMap.get (edgeToLevelNodes res) e = Some chain
        ∧ chainSpec (levelNodes res) (inLevel (levels res) (minRankOf ranks))
            (to e) 0 (from e) 3 (reverse chain)
        ∧ Z.of_nat (length chain) = (3 - 0 + 1)%Z
        ∧ (∃ nu, head chain = Some nu ∧ isReal (levelNodes res) nu (from e)
                 ∧ inLevel (levels res) (minRankOf ranks) 3 nu)
        ∧ (∃ nv, last chain = Some nv ∧ isReal (levelNodes res) nv (to e)
                 ∧ inLevel (levels res) (minRankOf ranks) 0 nv)
        ∧ (∀ i n, 0 < i → S i < length chain → chain !! i = Some n →
             isVirtual (levelNodes res) n
             ∧ inLevel (levels res) (minRankOf ranks) (3 - Z.of_nat i)%Z n
             ∧ (0 < 3 - Z.of_nat i < 3)%Z).
Proof.
  intros ranks edges e.
  eexists. split; [vm_compute; reflexivity|].
  apply (back_edge_chain stableSortBy ranks edges _ e 3 0).
  - apply stableSortBy_perm.
  - compute_done.
  - vm_compute. reflexivity.
  - compute_done.
  - reflexivity.
  - reflexivity.
  - lia.
Defined.




(** C7. The crossing-minimization passes change only the order inside
    each row and the index fields: afterwards there are as many rows as
    before, every row holds the same nodes as before, as many of them, and
    the node objects have the vertices, parents and children they had. *)
Theorem minimizeCrossings_keeps_rows {V : Type}
    (sortBy : (nat → option Q) → list nat → list nat)
    (ns : list (LevelNode V)) (levels : list (list nat)) :
  (∀ key l, sortBy key l ≡ₚ l) →
  length (minimizeCrossings sortBy (ns, levels)).2 = length levels
  ∧ (∀ i row, levels !! i = Some row →
       ∃ row', (minimizeCrossings sortBy (ns, levels)).2 !! i = Some row'
               ∧ row' ≡ₚ row ∧ length row' = length row
               ∧ ∀ n, n ∈ row' ↔ n ∈ row)
  ∧ (∀ i row', (minimizeCrossings sortBy (ns, levels)).2 !! i = Some row' →
       ∃ row, levels !! i = Some row ∧ row' ≡ₚ row)
  ∧ indexOnly ns (minimizeCrossings sortBy (ns, levels)).1.
Proof.
  intros Hperm.
  destruct (minimizeCrossings_rows sortBy Hperm (ns, levels)) as [Hio Hrows].
  change ((ns, levels).1) with ns in Hio. change ((ns, levels).2) with levels in Hrows.
  split_and!; [| | |done].
  - symmetry. by eapply Forall2_length.
  - intros i row Hrow.
    destruct (Forall2_lookup_l _ _ _ _ _ Hrows Hrow) as (row' & Hrow' & Hp).
    exists row'. split_and!; [done|done|by rewrite Hp|].
    intros n. by rewrite Hp.
  - intros i row' Hrow'.
    destruct (Forall2_lookup_r _ _ _ _ _ Hrows Hrow') as (row & Hrow & Hp).
    exists row. done.
Qed.

Lemma minimizeCrossings_keeps_rows_witness :
  let ns : list (LevelNode nat) :=
    [mkLevelNode [] [2; 3] (Some 0) 0; mkLevelNode [] [2] (Some 1) 1;
     mkLevelNode [0; 1] [] (Some 2) 0; mkLevelNode [0] [] None 1] in
  let levels := [[0; 1]; [3; 2]] in
  length (minimizeCrossings stableSortBy (ns, levels)).2 = length levels
  ∧ (∀ i row, levels !! i = Some row →
       ∃ row', (minimizeCrossings stableSortBy (ns, levels)).2 !! i = Some row'
               ∧ row' ≡ₚ row ∧ length row' = length row
               ∧ ∀ n, n ∈ row' ↔ n ∈ row)
  ∧ (∀ i row', (minimizeCrossings stableSortBy (ns, levels)).2 !! i = Some row' →
       ∃ row, levels !! i = Some row ∧ row' ≡ₚ row)
  ∧ indexOnly ns (minimizeCrossings stableSortBy (ns, levels)).1.
Proof.
  intros ns levels.
  apply (minimizeCrossings_keeps_rows stableSortBy ns levels).
  apply stableSortBy_perm.
Defined.

(** C8, as amended.  Every row is centred on its own: its occupied width
    counts [width] for a real node and the narrower [horizontalSpacing]
    for a virtual one, with one spacing between neighbours, and the row
    starts at half the difference between [totalWidth], the width that
    [maxCount] real nodes and their spacings take, [maxCount] being the
    greatest number of nodes in a row, and the row's own occupied width.
    No row is wider than [totalWidth], and every row is centred on the
    same axis, [totalWidth / 2]. *)
Theorem positionNodes_rows_centered {V : Type}
    (ns : list (LevelNode V)) (levels : list (list nat)) (i : nat) (row : list nat) :
  NoDup (concat levels) → levels !! i = Some row → row ≠ [] →
  (levelWidth ns row + horizontalSpacing == slotsWidth ns row)%Q
  ∧ (∀ n, nodeWidth ns n = if hasVertex ns n then width else horizontalSpacing)
  ∧ (horizontalSpacing < width)%Q
  ∧ (totalWidth levels
     == inject_Z (Z.of_nat (maxCount levels)) * width
        + inject_Z (Z.of_nat (maxCount levels) - 1) * horizontalSpacing)%Q
  ∧ (∀ j n, row !! j = Some n →
       ∃ rect, JsMap.get (positionNodes ns levels) n = Some rect
         ∧ slotRect ns n
             ((totalWidth levels - levelWidth ns row) / 2
              + slotsWidth ns (take j row))%Q rect)
  ∧ (levelWidth ns row <= totalWidth levels)%Q
  ∧ ((totalWidth levels - levelWidth ns row) / 2 + levelWidth ns row / 2
     == totalWidth levels / 2)%Q.
Proof.
  intros Hnd Hrow Hne. split_and!.
  - by apply levelWidth_slots.
  - done.
  - reflexivity.
  - reflexivity.
  - intros j n Hn. unfold positionNodes.
    destruct (placeLevel_fold ns (totalWidth levels) levels 0%Q [] Hnd) as [_ Hslots].
    destruct (Hslots i row j n Hrow Hn) as (rect & Hrect & Hslot).
    exists rect. split; [done|]. eapply slotRect_proper; [|done].
    unfold Qdiv. lra.
  - apply levelWidth_le_totalWidth; [|done]. by eapply list_elem_of_lookup_2.
  - unfold Qdiv. lra.
Qed.

Lemma positionNodes_rows_centered_witness :
  let ns : list (LevelNode nat) :=
    [mkLevelNode [] [1; 3] (Some 0) 0; mkLevelNode [0] [2] (Some 1) 0;
     mkLevelNode [1; 3] [] (Some 2) 0; mkLevelNode [0] [2] None 1] in
  let levels := [[0]; [1; 3]; [2]] in
  let row := [1; 3] in
  (levelWidth ns row + horizontalSpacing == slotsWidth ns row)%Q
  ∧ (∀ n, nodeWidth ns n = if hasVertex ns n then width else horizontalSpacing)
  ∧ (horizontalSpacing < width)%Q
  ∧ (totalWidth levels
     == inject_Z (Z.of_nat (maxCount levels)) * width
        + inject_Z (Z.of_nat (maxCount levels) - 1) * horizontalSpacing)%Q
  ∧ (∀ j n, row !! j = Some n →
       ∃ rect, JsMap.get (positionNodes ns levels) n = Some rect
         ∧ slotRect ns n
             ((totalWidth levels - levelWidth ns row) / 2
              + slotsWidth ns (take j row))%Q rect)
  ∧ (levelWidth ns row <= totalWidth levels)%Q
  ∧ ((totalWidth levels - levelWidth ns row) / 2 + levelWidth ns row / 2
     == totalWidth levels / 2)%Q.
Proof.
  intros ns levels row.
  apply (positionNodes_rows_centered ns levels 1 row).
  - compute_done.
  - reflexivity.
  - discriminate.
Defined.

(** C8 as stated fails on the layout of the graph 0 -> 1, 1 -> 2, 0 -> 2:
    the widest row, the real node 1 beside a virtual node, occupies 165,
    the first row occupies 115, so the claim puts the first row at 25;
    it starts at 70, half of 255 - 115. *)
Lemma widest_row_offset_counterexample :
  let g := graphOf [mkEdge 0 0 1; mkEdge 1 1 2; mkEdge 2 0 2] in
  ∃ layout row n rect,
    layoutGraph stableSortBy g = Returns layout
    ∧ levels (levelResult layout) !! 0 = Some row
    ∧ row = [n]
    ∧ hasVertex (levelNodes (levelResult layout)) n = true
    ∧ JsMap.get (nodePositions layout) n = Some rect
    ∧ (Rect.left rect == 70)%Q
    ∧ (widestLevelWidth (levelNodes (levelResult layout)) (levels (levelResult layout))
       == 165)%Q
    ∧ (levelWidth (levelNodes (levelResult layout)) row == 115)%Q
    ∧ ¬ (Rect.left rect
         == (widestLevelWidth (levelNodes (levelResult layout))
               (levels (levelResult layout))
             - levelWidth (levelNodes (levelResult layout)) row) / 2)%Q.
Proof.
  intros g. eexists _, _, _, _.
  split; [vm_compute; reflexivity|].
  split; [reflexivity|]. split; [reflexivity|]. split; [reflexivity|].
  split; [reflexivity|].
  split_and!; [vm_compute; reflexivity..|].
  vm_compute. intros [=].
Qed.

(** C9 fails at the move-to anchor of a back edge.  Whatever the chain,
    the path starts at the bottom centre of the first node's rectangle;
    when the second node of the chain lies above the first, as for a back
    edge, that is the face away from it, not the top edge. *)
Theorem move_anchor_on_bottom_edge {V : Type}
    (positions : list (nat * Rect.t)) (first second : nat) (rest : list nat)
    (path : list PathCommand) (firstRect secondRect : Rect.t) :
  edgePath (V:=V) positions (first :: second :: rest) = Returns path →
  JsMap.get positions first = Some firstRect →
  JsMap.get positions second = Some secondRect →
  (Rect.top secondRect < Rect.top firstRect)%Q →
  (0 < Rect.height firstRect)%Q →
  ∃ p tail, path = MoveTo p :: tail
    ∧ (Vec2.x p == Rect.left firstRect + Rect.width firstRect / 2)%Q
    ∧ (Vec2.y p == Rect.top firstRect + Rect.height firstRect)%Q
    ∧ ¬ (Vec2.y p == Rect.top firstRect)%Q.
Proof.
  intros Hpath Hfirst Hsecond Habove Hheight.
  unfold edgePath in Hpath. rewrite Hfirst in Hpath.
  apply extendPath_prefix in Hpath as [added ->].
  eexists _, added. split; [done|]. simpl. split_and!; [lra|lra|lra].
Qed.

Lemma move_anchor_on_bottom_edge_witness :
  let g := graphOf [mkEdge 0 0 1; mkEdge 1 1 0] in
  ∃ layout path firstRect secondRect,
    layoutGraph stableSortBy g = Returns layout
    ∧ JsMap.get (edgeToLevelNodes (levelResult layout)) (mkEdge 0 0 1) = Some [1; 0]
    ∧ JsMap.get (edgePaths layout) (mkEdge 0 0 1) = Some path
    ∧ JsMap.get (nodePositions layout) 1 = Some firstRect
    ∧ JsMap.get (nodePositions layout) 0 = Some secondRect
    ∧ (Rect.top secondRect < Rect.top firstRect)%Q
    ∧ ∃ p tail, path = MoveTo p :: tail
        ∧ (Vec2.x p == Rect.left firstRect + Rect.width firstRect / 2)%Q
        ∧ (Vec2.y p == Rect.top firstRect + Rect.height firstRect)%Q
        ∧ ¬ (Vec2.y p == Rect.top firstRect)%Q.
Proof.
  intros g.
  let l := eval vm_compute in (layoutGraph stableSortBy g) in
  lazymatch l with
  | Returns ?layout =>
      exists layout; eexists _, _, _;
      split; [vm_compute; reflexivity|];
      split; [reflexivity|]; split; [reflexivity|];
      split; [reflexivity|]; split; [reflexivity|];
      split; [vm_compute; reflexivity|];
      eapply (move_anchor_on_bottom_edge (V:=nat) (nodePositions layout) 1 0 []);
      [vm_compute; reflexivity|reflexivity|reflexivity
      |vm_compute; reflexivity|vm_compute; reflexivity]
  end.
Defined.

(** C10. On every graph a caller can build, cycles, self-loops and
    parallel edges included, the pipeline comes to an end.  Ranking
    returns within its budget of one nested call per vertex, since every
    nested call marks a vertex not visited before; the recursion of
    [handleEdge] for a back edge needs two nested calls at most; and every
    stage, hence the pipeline, returns its output or throws one of the
    fatal errors. *)
Theorem layoutGraph_terminates {V E : Type} `{EqDecision V, EqDecision E, Edge V E}
    (sortBy : (nat → option Q) → list nat → list nat) (g : Graph V E) :
  built g →
  (∃ ranks, rankVertices g = Some ranks)
  ∧ (∀ fuel v st, v ∈ vertices g → unvisitedCount g st < fuel →
       ∃ r st', getRank g fuel v st = Some (r, st'))
  ∧ (∀ (ranks : list (V * Z)) v2n fuel u v s,
       handleEdge ranks v2n (S (S fuel)) u v s ≠ OutOfFuel)
  ∧ (∀ (ranks : list (V * Z)) (edges : list E),
       ranksToLevels sortBy ranks edges ≠ OutOfFuel)
  ∧ (∀ (e2n : list (E * list nat)) positions,
       makeEdgePaths (V:=V) e2n positions ≠ OutOfFuel)
  ∧ ((∃ layout, layoutGraph sortBy g = Returns layout)
     ∨ (∃ err, layoutGraph sortBy g = Throws err)).
Proof.
  intros Hbuilt.
  destruct (rankVertices_terminates g Hbuilt) as [ranks Hranks].
  split_and!.
  - by exists ranks.
  - intros fuel v st Hv Hfuel.
    destruct (getRank_terminates g Hbuilt fuel v st Hv Hfuel) as (r & st' & ? & _).
    by exists r, st'.
  - intros. apply handleEdge_fuel.
  - intros. apply ranksToLevels_fuel.
  - intros. apply makeEdgePathsFrom_fuel.
  - unfold layoutGraph. rewrite Hranks.
    pose proof (ranksToLevels_fuel sortBy ranks (getEdges g)) as Hlevels.
    destruct (ranksToLevels sortBy ranks (getEdges g)) as [res|err|];
      cbn [mbind outcome_mbind outcome_bind]; [|by eauto|done].
    pose proof (makeEdgePathsFrom_fuel (V:=V)
      (positionNodes (levelNodes res) (levels res)) (edgeToLevelNodes res) [])
      as Hpaths.
    unfold makeEdgePaths.
    destruct (makeEdgePathsFrom _ _ _) as [paths|err|];
      cbn [mbind outcome_mbind outcome_bind]; [by eauto|by eauto|done].
Qed.

Lemma layoutGraph_terminates_witness :
  let g := graphOf [mkEdge 0 0 1; mkEdge 1 1 2; mkEdge 2 2 0; mkEdge 3 1 1;
                    mkEdge 4 0 1; mkEdge 5 2 3] in
  (∃ ranks, rankVertices g = Some ranks)
  ∧ (∀ fuel v st, v ∈ vertices g → unvisitedCount g st < fuel →
       ∃ r st', getRank g fuel v st = Some (r, st'))
  ∧ (∀ (ranks : list (nat * Z)) v2n fuel u v s,
       handleEdge ranks v2n (S (S fuel)) u v s ≠ OutOfFuel)
  ∧ (∀ (ranks : list (nat * Z)) (edges : list CallGraphEdge),
       ranksToLevels stableSortBy ranks edges ≠ OutOfFuel)
  ∧ (∀ (e2n : list (CallGraphEdge * list nat)) positions,
       makeEdgePaths (V:=nat) e2n positions ≠ OutOfFuel)
  ∧ ((∃ layout, layoutGraph stableSortBy g = Returns layout)
     ∨ (∃ err, layoutGraph stableSortBy g = Throws err)).
Proof.
  intros g. apply (layoutGraph_terminates stableSortBy g).
  apply built_graphOf.
Defined.

(** * Further properties of the code

    Lemmas on the parts of the code that the properties above leave out,
    and the properties of the code that follow from them. *)

(** ** Sets, maps and the graph container *)

Section set_more.
Context {K : Type} `{EqDecision K}.
Implicit Types (s : list K) (k : K).

Lemma JsSet_add_member s k : k ∈ s → JsSet.add s k = s.
Proof. intros Hk. unfold JsSet.add. by rewrite (proj2 (JsSet_has_true s k) Hk). Qed.

Lemma JsSet_add_fresh s k : k ∉ s → JsSet.add s k = s ++ [k].
Proof. intros Hk. unfold JsSet.add. by rewrite (proj2 (JsSet_has_false s k) Hk). Qed.

Lemma JsSet_add_add s k : JsSet.add (JsSet.add s k) k = JsSet.add s k.
Proof. apply JsSet_add_member, JsSet_elem_of_add. auto. Qed.

Lemma JsSet_add_NoDup s k : NoDup s → NoDup (JsSet.add s k).
Proof.
  intros Hnd. destruct (decide (k ∈ s)) as [Hk|Hk].
  - by rewrite JsSet_add_member.
  - rewrite JsSet_add_fresh by done. apply NoDup_app. split_and!; [done| |apply NoDup_singleton].
    intros x Hx ->%list_elem_of_singleton. done.
Qed.

Lemma filter_JsSet_add (P : K → Prop) `{!∀ x, Decision (P x)} s k :
  filter P (JsSet.add s k)
  = if decide (P k) then JsSet.add (filter P s) k else filter P s.
Proof.
  destruct (decide (k ∈ s)) as [Hk|Hk].
  - rewrite JsSet_add_member by done. case_decide; [|done].
    rewrite JsSet_add_member; [done|]. by apply list_elem_of_filter.
  - rewrite JsSet_add_fresh by done. rewrite filter_app, filter_cons, filter_nil.
    case_decide.
    + rewrite JsSet_add_fresh; [done|]. rewrite list_elem_of_filter. naive_solver.
    + by rewrite app_nil_r.
Qed.
Lemma filter_none (P : K → Prop) `{!∀ x, Decision (P x)} s :
  (∀ x, x ∈ s → ¬ P x) → filter P s = [].
Proof.
  induction s as [|x s IH]; intros Hall; [done|].
  rewrite filter_cons, decide_False by (apply Hall, elem_of_cons; auto).
  apply IH. intros y Hy. apply Hall, elem_of_cons. auto.
Qed.
End set_more.

Section map_more.
Context {K A : Type} `{EqDecision K}.
Implicit Types (m : list (K * A)) (k : K) (a : A).

Lemma JsMap_set_set m k a b : JsMap.set (JsMap.set m k a) k b = JsMap.set m k b.
Proof.
  induction m as [|[k0 a0] m IH]; simpl.
  - by rewrite decide_True.
  - destruct (decide (k0 = k)) as [->|Hne]; simpl.
    + by rewrite decide_True.
    + rewrite decide_False by done. by rewrite IH.
Qed.

Lemma JsMap_set_same m k a : JsMap.get m k = Some a → JsMap.set m k a = m.
Proof.
  induction m as [|[k0 a0] m IH]; simpl; [done|].
  destruct (decide (k0 = k)) as [->|Hne]; [by intros [= ->]|].
  intros Hk. by rewrite IH.
Qed.
End map_more.

Section graph_more.
Context {V E : Type} `{EqDecision V, EqDecision E, Edge V E}.
Implicit Types (g : Graph V E) (v : V) (e : E).

Lemma getEdgesLeaving_addEdge g e v :
  getEdgesLeaving (addEdge g e) v
  = if decide (from e = v) then JsSet.add (getEdgesLeaving g v) e
    else getEdgesLeaving g v.
Proof.
  unfold getEdgesLeaving, addEdge, getOrInsert; simpl.
  destruct (JsMap.get (edgesEnteringVertex g) (to e));
    destruct (JsMap.get (edgesLeavingVertex g) (from e)) as [es|] eqn:Hes; simpl;
    rewrite !JsMap_get_set; destruct (decide (from e = v)) as [<-|]; simpl;
    rewrite ?Hes; done.
Qed.

Lemma addEdge_addEdge g e : addEdge (addEdge g e) e = addEdge g e.
Proof.
  assert (∀ vs : list V,
    JsSet.add (JsSet.add (JsSet.add (JsSet.add vs (from e)) (to e)) (from e)) (to e)
    = JsSet.add (JsSet.add vs (from e)) (to e)) as Hvs.
  { intros vs. rewrite (JsSet_add_member (JsSet.add _ (to e)) (from e)).
    - apply JsSet_add_add.
    - rewrite !JsSet_elem_of_add. auto. }
  unfold addEdge, addVertex, getOrInsert; simpl.
  destruct (JsMap.get (edgesEnteringVertex g) (to e)) as [ins|] eqn:Hin;
    destruct (JsMap.get (edgesLeavingVertex g) (from e)) as [outs|] eqn:Hout; simpl;
    rewrite ?JsMap_get_set_eq; simpl;
    rewrite ?JsMap_get_set_eq; simpl;
    by rewrite !JsSet_add_add, !JsMap_set_set, Hvs.
Qed.
Lemma built_NoDup g : built g → NoDup (vertices g) ∧ NoDup (edges g).
Proof.
  induction 1 as [|g v' _ IH|g e' _ IH]; simpl.
  - split; apply NoDup_nil_2.
  - destruct IH. split; [by apply JsSet_add_NoDup|done].
  - destruct IH. rewrite edges_addEdge, vertices_addEdge.
    split; by repeat apply JsSet_add_NoDup.
Qed.
End graph_more.

Section graph_index.
Context {V E : Type} `{EqDecision V, EqDecision E, Edge V E}.
Implicit Types (g : Graph V E) (v : V) (e : E).

(** Each index holds the inserted edges of its vertex, in the order of
    insertion. *)
Lemma built_indices g :
  built g → ∀ v,
    getEdgesEntering g v = filter (λ e, to e = v) (edges g)
    ∧ getEdgesLeaving g v = filter (λ e, from e = v) (edges g).
Proof.
  induction 1 as [|g v' _ IH|g e' _ IH]; intros v.
  - done.
  - apply IH.
  - destruct (IH v) as [IHin IHout].
    rewrite getEdgesEntering_addEdge, getEdgesLeaving_addEdge, edges_addEdge.
    rewrite !filter_JsSet_add, IHin, IHout. done.
Qed.

Lemma addVertex_member g v : v ∈ vertices g → addVertex g v = g.
Proof.
  intros Hv. unfold addVertex. rewrite JsSet_add_member by done. by destruct g.
Qed.
End graph_index.

(** ** Ranking graphs with cycles *)

Section map_len.
Context {K A : Type} `{EqDecision K}.
Implicit Types (m : list (K * A)) (k : K) (a : A).

Lemma JsMap_set_fresh m k a : JsMap.get m k = None → JsMap.set m k a = m ++ [(k, a)].
Proof.
  induction m as [|[k0 a0] m IH]; simpl; [done|].
  destruct (decide (k0 = k)); [done|]. intros Hk. by rewrite IH.
Qed.

Lemma JsMap_get_is_Some_keys m k : is_Some (JsMap.get m k) ↔ k ∈ JsMap.keys m.
Proof.
  rewrite <- not_eq_None_Some, JsMap_get_None_keys.
  split; [apply dec_stable|naive_solver].
Qed.
End map_len.

Section rank_any.
Context {V E : Type} `{EqDecision V, EqDecision E, Edge V E}.
Variable g : Graph V E.
Hypothesis Hbuilt : built g.
Implicit Types (v w : V) (e : E) (st : RankState V).

Lemma rankStep_refl st r : rankStep st st r.
Proof. split_and!; auto. intros w rw Hw Hn. congruence. Qed.

Lemma rankStep_trans st1 st2 st3 r1 r2 r :
  (∀ v x, JsMap.get (ranks st1) v = Some x → v ∈ visited st1) →
  rankStep st1 st2 r1 → rankStep st2 st3 r2 → (r1 ≤ r)%Z → (r2 ≤ r)%Z →
  rankStep st1 st3 r.
Proof.
  intros Hrv (Hv1 & Hp1 & Hn1 & Hs1) (Hv2 & Hp2 & Hn2 & Hs2) Hr1 Hr2. split_and!.
  - auto.
  - auto.
  - intros w rw Hw3 Hw1. destruct (JsMap.get (ranks st2) w) as [rw2|] eqn:Hw2.
    + destruct (Hn1 w rw2 Hw2 Hw1) as [? ?]. rewrite (Hp2 _ _ Hw2) in Hw3.
      injection Hw3 as <-. split; [done|lia].
    + destruct (Hn2 w rw Hw3 Hw2) as [Hnv ?]. split; [|lia]. intros Hin. auto.
  - intros w Hw3 Hn3. apply Hs1; [by apply Hs2|].
    destruct (JsMap.get (ranks st2) w) as [rw2|] eqn:Hw2; [|done].
    rewrite (Hp2 _ _ Hw2) in Hn3. done.
Qed.

Lemma maxParentRankLoop_any rec es :
  (∀ e st r st', e ∈ es → rankInvAny g st → rec (from e) st = Some (r, st') →
     rankInvAny g st' ∧ rankStep st st' r ∧ from e ∈ visited st'
     ∧ (r = (-1)%Z ∧ JsMap.get (ranks st') (from e) = None
        ∨ JsMap.get (ranks st') (from e) = Some r)) →
  ∀ mx st mx' st',
    rankInvAny g st →
    maxParentRankLoop rec es mx st = Some (mx', st') →
    rankInvAny g st' ∧ rankStep st st' mx'
    ∧ (mx ≤ mx')%Z
    ∧ (mx' = mx ∨ mx' = (-1)%Z
       ∨ ∃ e, e ∈ es ∧ JsMap.get (ranks st') (from e) = Some mx')
    ∧ (∀ e, e ∈ es → from e ∈ visited st'
         ∧ ∀ r, JsMap.get (ranks st') (from e) = Some r → (r ≤ mx')%Z).
Proof.
  induction es as [|e es IH]; intros Hrec mx st mx' st' Hinv; simpl.
  - intros [= <- <-]. split_and!; auto using rankStep_refl; try lia.
    intros e He. by apply elem_of_nil in He.
  - destruct (rec (from e) st) as [[r st1]|] eqn:Hcall; [|done]. intros Hloop.
    destruct (Hrec e st r st1) as (Hinv1 & Hstep1 & Hvis1 & Hr);
      [apply elem_of_cons; auto|done|done|].
    destruct (IH (λ e' st r st' He', Hrec e' st r st' (list_elem_of_further _ _ _ He'))
                (Z.max r mx) st1 mx' st' Hinv1 Hloop)
      as (Hinv' & Hstep' & Hle & Hmax & Hall).
    split; [done|]. split_and!.
    + eapply (rankStep_trans st st1 st' r mx'); [apply Hinv|done|done|lia|lia].
    + lia.
    + destruct Hmax as [->|[->|(e' & He' & Hr')]].
      * destruct (Z.max_spec r mx) as [[_ ->]|[Hge ->]]; [by left|].
        destruct Hr as [[-> _]|Hr]; [by right; left|].
        right; right. exists e. split; [apply elem_of_cons; auto|]. by apply Hstep'.
      * by right; left.
      * right; right. exists e'. split; [apply elem_of_cons; auto|done].
    + intros e' [->|He']%elem_of_cons; [|by apply Hall].
      split; [by apply Hstep'|]. intros r' Hr'.
      destruct Hstep' as (_ & Hp' & Hn' & _).
      destruct (JsMap.get (ranks st1) (from e)) as [r1|] eqn:Hr1.
      * rewrite (Hp' _ _ Hr1) in Hr'. injection Hr' as <-.
        destruct Hr as [[_ ?]|Hr]; simplify_eq; lia.
      * destruct (Hn' _ _ Hr' Hr1) as [Hnv _]. done.
Qed.

Lemma getRank_any fuel : ∀ v st r st',
  v ∈ vertices g → rankInvAny g st →
  getRank g fuel v st = Some (r, st') →
  rankInvAny g st' ∧ rankStep st st' r ∧ v ∈ visited st'
  ∧ (r = (-1)%Z ∧ JsMap.get (ranks st') v = None
     ∨ JsMap.get (ranks st') v = Some r).
Proof.
  induction fuel as [|fuel IH]; intros v st r st' Hv Hinv; [done|].
  simpl. destruct (JsSet.has (visited st) v) eqn:Hvis.
  - apply JsSet_has_true in Hvis.
    destruct (JsMap.get (ranks st) v) as [r0|] eqn:Hr0; intros [= <- <-];
      split_and!; auto using rankStep_refl.
  - apply JsSet_has_false in Hvis.
    assert (JsMap.get (ranks st) v = None) as Hunranked.
    { destruct (JsMap.get (ranks st) v) eqn:Hr0; [|done].
      exfalso. eauto using any_ranked_visited. }
    set (st1 := mkRankState (ranks st) (JsSet.add (visited st) v)).
    destruct (maxParentRankLoop (getRank g fuel) (getEdgesEntering g v) (-1) st1)
      as [[mx' st2]|] eqn:Hloop; [|done].
    intros [= <- <-].
    assert (rankInvAny g st1) as Hinv1.
    { destruct Hinv as [Hrv Hvv Hnd Hb Ho He Ht]. split; simpl; [| |done|done| |done|done].
      - intros w rw Hw. apply JsSet_elem_of_add. eauto.
      - intros w [?| ->]%JsSet_elem_of_add; auto.
      - intros e He' Hto. apply JsSet_elem_of_add. auto. }
    assert (∀ e, e ∈ getEdgesEntering g v → e ∈ edges g ∧ to e = v) as Hentering.
    { intros e He. by apply (built_entering g Hbuilt). }
    destruct (maxParentRankLoop_any (getRank g fuel) (getEdgesEntering g v))
      with (mx := (-1)%Z) (st := st1) (mx' := mx') (st' := st2)
      as (Hinv2 & Hstep2 & Hle & Hmax & Hall); [|done|done|].
    { intros e s r s' He. apply IH.
      destruct (Hentering e He) as [He' _]. by apply (built_endpoints g Hbuilt). }
    destruct Hstep2 as (Hv2 & Hp2 & Hn2 & Hs2).
    assert (v ∈ visited st1) as Hv1 by (simpl; apply JsSet_elem_of_add; auto).
    assert (JsMap.get (ranks st2) v = None) as Hnone2.
    { destruct (JsMap.get (ranks st2) v) as [r2|] eqn:Hr2; [|done].
      destruct (Hn2 v r2 Hr2 Hunranked) as [Hnv _]. done. }
    assert (∀ w, w ∈ visited st → w ∈ visited st1) as Hv01.
    { intros w Hw. simpl. apply JsSet_elem_of_add. auto. }
    split_and!.
    + split; simpl.
      * intros w rw. rewrite JsMap_get_set. case_decide as Hw; [subst; auto|].
        apply (any_ranked_visited g st2 Hinv2).
      * apply (any_visited_vertex g st2 Hinv2).
      * rewrite JsMap_keys_set. unfold JsMap.has. rewrite Hnone2.
        apply NoDup_app. split_and!; [apply Hinv2| |apply NoDup_singleton].
        intros x Hx ->%list_elem_of_singleton.
        by apply JsMap_get_None_keys in Hnone2.
      * intros w rw. rewrite (JsMap_set_fresh _ _ _ Hnone2), length_app. simpl.
        rewrite <- (JsMap_set_fresh _ _ _ Hnone2), JsMap_get_set.
        case_decide as Hw.
        -- intros [= <-]. destruct Hmax as [->|[->|(e' & _ & Hw')]]; [lia|lia|].
           pose proof (any_bound g st2 Hinv2 _ _ Hw'). lia.
        -- intros Hrw. pose proof (any_bound g st2 Hinv2 _ _ Hrw). lia.
      * intros e He. rewrite JsMap_get_set. case_decide as Hto.
        -- intros _. apply Hall. by apply (built_entering g Hbuilt).
        -- by apply (any_origin_visited g st2 Hinv2).
      * intros e ru rv He Hne. rewrite !JsMap_get_set.
        case_decide as Hfrom; case_decide as Hto.
        -- congruence.
        -- intros [= <-] Hrv.
           destruct (JsMap.get (ranks st) (to e)) as [r0|] eqn:Hr0.
           ++ exfalso. apply Hvis. rewrite Hfrom.
              apply (any_origin_visited g st Hinv e He). by rewrite Hr0.
           ++ destruct (Hn2 _ _ Hrv Hr0) as [_ ?]. lia.
        -- intros Hru [= <-].
           destruct (Hall e) as [_ Hle']; [by apply (built_entering g Hbuilt)|].
           specialize (Hle' _ Hru). lia.
        -- by apply (any_edge g st2 Hinv2).
      * intros w rw. rewrite JsMap_get_set. case_decide as Hw.
        -- intros [= <-]. subst w.
           destruct Hmax as [->|[->|(e' & He' & Hr')]]; [by left|by left|right].
           destruct (Hentering e' He') as [? ?]. exists e'. split_and!; [done..|].
           rewrite JsMap_get_set_ne by congruence. rewrite Hr'. f_equal. lia.
        -- intros Hrw. destruct (any_tight g st2 Hinv2 w rw Hrw) as [?|(e' & ? & ? & Hr')];
             [by left|right].
           exists e'. split_and!; [done..|]. rewrite JsMap_get_set_ne; [done|congruence].
    + split_and!; simpl.
      * auto.
      * intros w rw Hw. rewrite JsMap_get_set_ne; [auto|congruence].
      * intros w rw. rewrite JsMap_get_set. case_decide as Hw.
        -- intros [= <-] _. subst w. split; [done|lia].
        -- intros Hrw Hnone. destruct (Hn2 _ _ Hrw Hnone) as [Hnv ?].
           split; [auto|lia].
      * intros w Hw. rewrite JsMap_get_set. case_decide as Hne; [done|].
        intros Hnone. specialize (Hs2 w Hw Hnone). simpl in Hs2.
        apply JsSet_elem_of_add in Hs2 as [?|?]; [done|congruence].
    + simpl. auto.
    + right. simpl. apply JsMap_get_set_eq.
Qed.

Lemma forEachVertex_any fuel vs :
  (∀ v, v ∈ vs → v ∈ vertices g) →
  ∀ st st', rankInvAny g st → (∀ w, w ∈ visited st → is_Some (JsMap.get (ranks st) w)) →
    forEachVertex (getRank g fuel) vs st = Some st' →
    rankInvAny g st' ∧ (∀ w, w ∈ visited st' → is_Some (JsMap.get (ranks st') w))
    ∧ (∀ w, w ∈ visited st → w ∈ visited st')
    ∧ ∀ v, v ∈ vs → v ∈ visited st'.
Proof.
  induction vs as [|v vs IH]; intros Hvs st st' Hinv Hstack; simpl.
  - intros [= <-]. split_and!; auto. intros v Hv. by apply elem_of_nil in Hv.
  - destruct (getRank g fuel v st) as [[r st1]|] eqn:Hcall; [|done]. intros Hrest.
    destruct (getRank_any fuel v st r st1) as (Hinv1 & Hstep1 & Hv1 & Hr);
      [apply Hvs, elem_of_cons; auto|done|done|].
    destruct Hstep1 as (Hmono & Hp & Hn & Hs).
    destruct (IH (λ v' Hv', Hvs v' (list_elem_of_further _ _ _ Hv')) st1 st' Hinv1)
      as (Hinv' & Hstack' & Hmono' & Hall); [|done|].
    { intros w Hw. destruct (JsMap.get (ranks st1) w) eqn:Hrw; [by eexists|].
      destruct (Hstack w (Hs w Hw Hrw)) as [rw Hrw'].
      rewrite (Hp _ _ Hrw') in Hrw. done. }
    split_and!; auto.
    intros v' [->|Hv']%elem_of_cons; auto.
Qed.

(** On any graph, cyclic or not, the ranking gives every vertex one
    rank. *)
Lemma rankVertices_any :
  ∃ m, rankVertices g = Some m
    ∧ NoDup (JsMap.keys m)
    ∧ JsMap.keys m ≡ₚ vertices g
    ∧ (∀ v r, JsMap.get m v = Some r → (0 ≤ r < Z.of_nat (length (vertices g)))%Z)
    ∧ (∀ e ru rv, e ∈ edges g → from e ≠ to e →
         JsMap.get m (from e) = Some ru → JsMap.get m (to e) = Some rv → ru ≠ rv)
    ∧ (∀ v r, JsMap.get m v = Some r →
         r = 0%Z
         ∨ ∃ e, e ∈ edges g ∧ to e = v ∧ JsMap.get m (from e) = Some (r - 1)%Z).
Proof.
  destruct (rankVertices_terminates g Hbuilt) as [m Hm]. exists m. split; [done|].
  unfold rankVertices, getVertices in Hm.
  destruct (forEachVertex _ _ _) as [st'|] eqn:Hrun; [|done].
  simpl in Hm. injection Hm as <-.
  apply forEachVertex_any in Hrun as (Hinv & Hstack & _ & Hall); [|done| |].
  - assert (JsMap.keys (ranks st') ≡ₚ vertices g) as Hperm.
    { apply NoDup_Permutation; [apply Hinv|by apply built_NoDup|].
      intros v. rewrite <- JsMap_get_is_Some_keys. split.
      - intros [r Hr]. apply (any_visited_vertex g st' Hinv).
        by apply (any_ranked_visited g st' Hinv v r).
      - auto. }
    split_and!; [apply Hinv|done| |apply Hinv|apply Hinv].
    intros v r Hr. pose proof (any_bound g st' Hinv v r Hr) as Hb.
    apply Permutation_length in Hperm. unfold JsMap.keys in Hperm.
    rewrite length_fmap in Hperm. lia.
  - split; simpl; try done; [|constructor].
    intros v Hv. by apply elem_of_nil in Hv.
  - intros w Hw. simpl in Hw. by apply elem_of_nil in Hw.
Qed.
End rank_any.

(** ** The outcome of level construction *)

Section map_keys.
Context {K A : Type} `{EqDecision K}.
Implicit Types (m : list (K * A)) (k : K) (a : A).

Lemma JsMap_keys_set_add m k a : JsMap.keys (JsMap.set m k a) = JsSet.add (JsMap.keys m) k.
Proof.
  rewrite JsMap_keys_set. unfold JsMap.has, JsSet.add.
  destruct (JsMap.get m k) eqn:Hk.
  - rewrite (proj2 (JsSet_has_true _ _)); [done|].
    apply JsMap_get_is_Some_keys. by rewrite Hk.
  - rewrite (proj2 (JsSet_has_false _ _)); [done|]. by apply JsMap_get_None_keys.
Qed.

Lemma JsMap_keys_set_NoDup m k a : NoDup (JsMap.keys m) → NoDup (JsMap.keys (JsMap.set m k a)).
Proof. rewrite JsMap_keys_set_add. apply JsSet_add_NoDup. Qed.

Lemma JsMap_elem_of_keys_set m k a k' :
  k' ∈ JsMap.keys (JsMap.set m k a) ↔ k' ∈ JsMap.keys m ∨ k' = k.
Proof. rewrite JsMap_keys_set_add. apply JsSet_elem_of_add. Qed.

Lemma foldl_JsSet_add_NoDup (l : list K) : ∀ s,
  NoDup (s ++ l) → foldl JsSet.add s l = s ++ l.
Proof.
  induction l as [|x l IH]; intros s Hnd; simpl; [by rewrite app_nil_r|].
  rewrite (cons_middle x s l), app_assoc in Hnd |- *.
  rewrite JsSet_add_fresh.
  - by apply IH.
  - apply NoDup_app in Hnd as (Hnd & _ & _). apply NoDup_app in Hnd as (_ & Hd & _).
    intros Hx. apply (Hd x Hx). by apply list_elem_of_singleton.
Qed.
End map_keys.

Section outcome_facts.
Context {V E : Type} `{EqDecision V, EqDecision E, Edge V E}.
Implicit Types (ns : list (LevelNode V)) (rtl : list (Z * list nat))
  (s : LevelStore V) (ranks : list (V * Z)) (v2n : list (V * nat)).

Lemma handleEdges_placeable ranks v2n (es : list E) : ∀ s (m : list (E * list nat)),
  v2nOK ranks v2n s → (∀ e, e ∈ es → placeable ranks (from e) (to e)) →
  ∃ s' m', handleEdges ranks v2n es s m = Returns (s', m').
Proof.
  induction es as [|e es IH]; intros s m Hok Hall; cbn [handleEdges]; [eauto|].
  destruct (handleEdge_placeable ranks v2n 0 (from e) (to e) s)
    as (chain & s' & -> & Hok'); [done|apply Hall, elem_of_cons; auto|].
  cbn [mbind outcome_mbind outcome_bind]. apply IH; [done|].
  intros e' He'. apply Hall, elem_of_cons. auto.
Qed.

Lemma handleEdge_unplaceable ranks v2n fuel u v s :
  v2nOK ranks v2n s → ¬ placeable ranks u v →
  handleEdge ranks v2n (S fuel) u v s = Throws (edgeError ranks u v).
Proof.
  intros [Hok1 Hok2] Hnot. unfold edgeError. cbn [handleEdge].
  destruct (decide (u = v)) as [<-|Hne].
  - destruct (JsMap.get v2n u) as [n|] eqn:Hn; [|done].
    destruct (Hok1 u n Hn) as (_ & r & Hr & _).
    exfalso. apply Hnot. exists r, r. auto.
  - destruct (JsMap.get ranks u) as [ru|] eqn:Hru; [|done].
    destruct (JsMap.get ranks v) as [rv|] eqn:Hrv; [|done].
    destruct (decide (rv = ru)) as [->|Hrne]; [done|].
    exfalso. apply Hnot. exists ru, rv. split_and!; [done..|]. right. congruence.
Qed.

Lemma handleEdges_unplaceable ranks v2n pre e post :
  (∀ e', e' ∈ pre → placeable ranks (from e') (to e')) →
  ¬ placeable ranks (from e) (to e) →
  ∀ s (m : list (E * list nat)), v2nOK ranks v2n s →
    handleEdges ranks v2n (pre ++ e :: post) s m
    = Throws (edgeError ranks (from e) (to e)).
Proof.
  intros Hpre Hnot. induction pre as [|e' pre IH]; intros s m Hok.
  - cbn [app handleEdges]. by rewrite handleEdge_unplaceable.
  - cbn [app handleEdges].
    destruct (handleEdge_placeable ranks v2n 0 (from e') (to e') s)
      as (chain & s' & -> & Hok'); [done|apply Hpre, elem_of_cons; auto|].
    cbn [mbind outcome_mbind outcome_bind]. apply IH; [|done].
    intros e'' He''. apply Hpre, elem_of_cons. auto.
Qed.

Lemma placeable_dec ranks (u v : V) : placeable ranks u v ∨ ¬ placeable ranks u v.
Proof.
  destruct (JsMap.get ranks u) as [ru|] eqn:Hru; [|right; intros (?&?&?&?&?); congruence].
  destruct (JsMap.get ranks v) as [rv|] eqn:Hrv; [|right; intros (?&?&?&?&?); congruence].
  destruct (decide (u = v)); [left; exists ru, rv; auto|].
  destruct (decide (ru = rv)); [|left; exists ru, rv; auto].
  right. intros (ru' & rv' & ? & ? & [?|?]); congruence.
Qed.

Lemma edges_split_placeable ranks (es : list E) :
  (∀ e, e ∈ es → placeable ranks (from e) (to e))
  ∨ ∃ pre e post, es = pre ++ e :: post
      ∧ (∀ e', e' ∈ pre → placeable ranks (from e') (to e'))
      ∧ ¬ placeable ranks (from e) (to e).
Proof.
  induction es as [|e es IH].
  - left. intros e He. by apply elem_of_nil in He.
  - destruct (placeable_dec ranks (from e) (to e)) as [Hp|Hn].
    + destruct IH as [Hall|(pre & e' & post & -> & Hpre & Hn)].
      * left. intros e' [->|?]%elem_of_cons; auto.
      * right. exists (e :: pre), e', post. split_and!; [done| |done].
        intros e'' [->|?]%elem_of_cons; auto.
    + right. exists [], e, es. split_and!; [done| |done].
      intros e' He'. by apply elem_of_nil in He'.
Qed.
End outcome_facts.

(** ** The rows hold every node once *)

Section store_facts.
Context {V E : Type} `{EqDecision V, EqDecision E, Edge V E}.
Implicit Types (ns : list (LevelNode V)) (rtl : list (Z * list nat))
  (s : LevelStore V) (ranks : list (V * Z)) (v2n : list (V * nat)).

Lemma rowNodes_set rtl r row row' :
  JsMap.get rtl r = Some row →
  rowNodes (JsMap.set rtl r (row ++ row')) ≡ₚ rowNodes rtl ++ row'.
Proof.
  unfold rowNodes. induction rtl as [|[k0 a0] rtl IH]; simpl; [done|].
  destruct (decide (k0 = r)) as [->|Hne].
  - intros [= ->]. simpl. rewrite <- !app_assoc. f_equiv. apply Permutation_app_comm.
  - intros Hr. simpl. rewrite IH by done. by rewrite app_assoc.
Qed.

Lemma rowNodes_pushToLevel rtl r n :
  rowNodes (pushToLevel r n rtl) ≡ₚ rowNodes rtl ++ [n].
Proof.
  unfold pushToLevel, getOrInsert.
  destruct (JsMap.get rtl r) as [row|] eqn:Hrow.
  - by apply rowNodes_set.
  - rewrite JsMap_set_set. rewrite (JsMap_set_fresh _ _ _ Hrow).
    unfold rowNodes. rewrite fmap_app, concat_app. simpl. done.
Qed.

Lemma keys_pushToLevel rtl r n :
  JsMap.keys (pushToLevel r n rtl) = JsSet.add (JsMap.keys rtl) r.
Proof.
  unfold pushToLevel, getOrInsert.
  destruct (JsMap.get rtl r) as [row|] eqn:Hrow.
  - apply JsMap_keys_set_add.
  - rewrite JsMap_set_set. apply JsMap_keys_set_add.
Qed.

Lemma storeInv_mono lo hi lo' hi' s :
  (lo' ≤ lo)%Z → (hi ≤ hi')%Z → storeInv lo hi s → storeInv lo' hi' s.
Proof.
  intros Hlo Hhi (Hp & Hnd & Hr). split_and!; [done..|].
  intros k Hk. specialize (Hr k Hk). lia.
Qed.

Lemma storeInv_push lo hi ns rtl nd r :
  storeInv lo hi (mkStore ns rtl) → (lo ≤ r ≤ hi)%Z →
  storeInv lo hi (mkStore (ns ++ [nd]) (pushToLevel r (length ns) rtl)).
Proof.
  intros (Hp & Hnd & Hr) Hrange. simpl in *. split_and!; simpl.
  - rewrite rowNodes_pushToLevel, Hp, length_app. simpl.
    by rewrite Nat.add_1_r, seq_S.
  - rewrite keys_pushToLevel. by apply JsSet_add_NoDup.
  - intros k. rewrite keys_pushToLevel. intros [?| ->]%JsSet_elem_of_add; auto.
Qed.

Lemma storeInv_nodes lo hi ns ns' rtl :
  length ns' = length ns → storeInv lo hi (mkStore ns rtl) →
  storeInv lo hi (mkStore ns' rtl).
Proof. intros Hlen (Hp & Hnd & Hr). split_and!; simpl in *; [by rewrite Hlen|done..]. Qed.

Lemma addRankedVertex_storeInv ranks : ∀ b : Builder V,
  storeInv (minRank b) (maxRank b) (store b) →
  storeInv (minRank (foldl addRankedVertex b ranks))
           (maxRank (foldl addRankedVertex b ranks))
           (store (foldl addRankedVertex b ranks)).
Proof.
  induction ranks as [|[v r] ranks IH]; intros b Hb; simpl; [done|].
  apply IH. simpl. destruct b as [[ns rtl] v2n lo hi]. simpl in *.
  apply storeInv_push; [|lia].
  eapply storeInv_mono; [| |done]; lia.
Qed.

Lemma insertVirtualNodes_storeInv lo hi count : ∀ rank parent acc s parent' acc' s',
  insertVirtualNodes count rank parent acc s = (parent', acc', s') →
  storeInv lo hi s → (lo ≤ rank)%Z → (rank + Z.of_nat count - 1 ≤ hi)%Z →
  storeInv lo hi s'.
Proof.
  induction count as [|count IH]; intros rank parent acc s parent' acc' s'; simpl.
  - by intros [= <- <- <-].
  - intros Hrun Hs Hlo Hhi. eapply IH; [done| |lia|lia].
    destruct s as [ns rtl]. simpl.
    eapply storeInv_nodes; [|apply storeInv_push; [done|lia]].
    unfold pushChild. by rewrite length_alter.
Qed.

Lemma handleEdge_storeInv ranks v2n fuel : ∀ u v s chain s',
  handleEdge ranks v2n fuel u v s = Returns (chain, s') →
  storeInv (minRankOf ranks) (maxRankOf ranks) s →
  storeInv (minRankOf ranks) (maxRankOf ranks) s'.
Proof.
  induction fuel as [|fuel IH]; intros u v s chain s'; [done|]. cbn [handleEdge].
  destruct (decide (u = v)) as [<-|Hne].
  { destruct (JsMap.get v2n u); [|done]. by intros [= <- <-]. }
  destruct (JsMap.get ranks u) as [ru|] eqn:Hru; [|done].
  destruct (JsMap.get ranks v) as [rv|] eqn:Hrv; [|done].
  destruct (decide (rv = ru)); [done|].
  destruct (decide (rv < ru)%Z).
  - destruct (handleEdge ranks v2n fuel v u s) as [[c1 s1]| |] eqn:Hrun;
      cbn [mbind outcome_mbind outcome_bind]; [|done..].
    intros [= <- <-]. by eapply IH.
  - destruct (JsMap.get v2n u) as [nu|]; [|done].
    destruct (JsMap.get v2n v) as [nv|]; [|done].
    destruct (insertVirtualNodes _ _ _ _ _) as [[parent' acc'] s1] eqn:Hrun.
    intros [= <- <-] Hs.
    destruct (rank_bounds ranks u ru Hru) as [? _].
    destruct (rank_bounds ranks v rv Hrv) as [? _].
    apply insertVirtualNodes_storeInv with (lo := minRankOf ranks) (hi := maxRankOf ranks)
      in Hrun; [|done|lia|lia].
    destruct s1 as [ns1 rtl1]. simpl. eapply storeInv_nodes; [|done].
    unfold pushChild, pushParent. by rewrite !length_alter.
Qed.

Lemma handleEdges_storeInv ranks v2n (es : list E) : ∀ s (m : list (E * list nat)) s' m',
  handleEdges ranks v2n es s m = Returns (s', m') →
  storeInv (minRankOf ranks) (maxRankOf ranks) s →
  storeInv (minRankOf ranks) (maxRankOf ranks) s'
  ∧ JsMap.keys m' = foldl JsSet.add (JsMap.keys m) es.
Proof.
  induction es as [|e es IH]; intros s m s' m'; cbn [handleEdges].
  - by intros [= <- <-].
  - destruct (handleEdge ranks v2n 2 (from e) (to e) s) as [[chain s1]| |] eqn:Hrun;
      cbn [mbind outcome_mbind outcome_bind]; [|done..].
    intros Hrest Hs. apply IH in Hrest as [Hs' Hkeys].
    + split; [done|]. simpl. by rewrite Hkeys, JsMap_keys_set_add.
    + by eapply handleEdge_storeInv.
Qed.

(** Reading the rows off by rank, over a range that holds every key,
    yields every node once. *)
Lemma concat_insert_nil (l : list (list nat)) i row :
  l !! i = Some [] → concat (<[i := row]> l) ≡ₚ row ++ concat l.
Proof.
  revert i. induction l as [|x l IH]; intros [|i] Hi; simpl in *; try done.
  - by injection Hi as ->.
  - rewrite IH by done. rewrite !app_assoc. f_equiv. apply Permutation_app_comm.
Qed.

Lemma collect_rows rtl lo count :
  NoDup (JsMap.keys rtl) →
  (∀ k, k ∈ JsMap.keys rtl → (lo ≤ k < lo + Z.of_nat count)%Z) →
  concat ((λ i, getOrElse rtl (lo + Z.of_nat i)%Z []) <$> seq 0 count) ≡ₚ rowNodes rtl.
Proof.
  unfold rowNodes, JsMap.keys. induction rtl as [|[k row] rtl IH]; intros Hnd Hr.
  - simpl. induction (seq 0 count) as [|i l IHl]; simpl; [done|]. done.
  - simpl in *. apply NoDup_cons in Hnd as [Hk Hnd].
    assert (lo ≤ k < lo + Z.of_nat count)%Z as Hkr by (apply Hr, elem_of_cons; auto).
    rewrite <- IH; [|done|intros k' Hk'; apply Hr, elem_of_cons; auto].
    set (f' := λ i, getOrElse rtl (lo + Z.of_nat i)%Z []).
    set (i0 := Z.to_nat (k - lo)).
    assert ((λ i, getOrElse ((k, row) :: rtl) (lo + Z.of_nat i)%Z []) <$> seq 0 count
            = <[i0 := row]> (f' <$> seq 0 count)) as ->.
    { apply list_eq. intros i. rewrite list_lookup_fmap.
      destruct (decide (i = i0)) as [->|Hi].
      - rewrite list_lookup_insert_eq by (rewrite length_fmap, length_seq; lia).
        rewrite lookup_seq_lt by lia. simpl. unfold getOrElse. simpl.
        rewrite decide_True by lia. done.
      - rewrite list_lookup_insert_ne by done. rewrite list_lookup_fmap.
        destruct (seq 0 count !! i) as [j|] eqn:Hj; simpl; [|done].
        apply lookup_seq in Hj as [-> ?]. simpl in *. unfold f', getOrElse. simpl.
        rewrite decide_False by lia. done. }
    apply concat_insert_nil. rewrite list_lookup_fmap, lookup_seq_lt by lia. simpl.
    unfold f', getOrElse.
    replace (lo + Z.of_nat i0)%Z with k by lia.
    assert (JsMap.get rtl k = None) as ->; [|done].
    by apply JsMap_get_None_keys.
Qed.

Lemma Forall2_perm_concat (l l' : list (list nat)) :
  Forall2 (≡ₚ) l l' → concat l ≡ₚ concat l'.
Proof. induction 1 as [|x y l l' Hxy _ IH]; simpl; [done|]. by rewrite Hxy, IH. Qed.
End store_facts.

(** ** Indices after the passes *)

Section builder_facts.
Context {V E : Type} `{EqDecision V, EqDecision E, Edge V E}.

Lemma builder_bounds (ranks : list (V * Z)) : ∀ b : Builder V,
  minRank (foldl addRankedVertex b ranks) = foldl Z.min (minRank b) (ranks.*2)
  ∧ maxRank (foldl addRankedVertex b ranks) = foldl Z.max (maxRank b) (ranks.*2).
Proof.
  induction ranks as [|[v r] ranks IH]; intros b; [done|].
  change (foldl addRankedVertex b ((v, r) :: ranks))
    with (foldl addRankedVertex (addRankedVertex b (v, r)) ranks).
  destruct (IH (addRankedVertex b (v, r))) as [-> ->]. done.
Qed.

Lemma builder_v2n_keys (ranks : list (V * Z)) : ∀ b : Builder V,
  JsMap.keys (vertexToLevelNode (foldl addRankedVertex b ranks))
  = foldl JsSet.add (JsMap.keys (vertexToLevelNode b)) (JsMap.keys ranks).
Proof.
  induction ranks as [|[v r] ranks IH]; intros b; [done|].
  change (foldl addRankedVertex b ((v, r) :: ranks))
    with (foldl addRankedVertex (addRankedVertex b (v, r)) ranks).
  rewrite IH. simpl. by rewrite JsMap_keys_set_add.
Qed.
End builder_facts.

Section sweep_facts.
Context {V : Type}.
Variable sortBy : (nat → option Q) → list nat → list nat.
Hypothesis sortBy_perm : ∀ key l, sortBy key l ≡ₚ l.
Implicit Types (ns : list (LevelNode V)) (row : list nat) (rows : list (list nat))
  (weight : list (LevelNode V) → nat → option Q).

Lemma length_reindexFrom row : ∀ i ns, length (reindexFrom i row ns) = length ns.
Proof.
  induction row as [|n row IH]; intros i ns; simpl; [done|].
  rewrite IH. unfold setIndex. by rewrite length_alter.
Qed.

Lemma sweep_rows weight rows : ∀ ns,
  Forall2 (≡ₚ) rows (sweep sortBy weight ns rows).2
  ∧ length (sweep sortBy weight ns rows).1 = length ns.
Proof.
  induction rows as [|row rows IH]; intros ns; simpl; [done|].
  specialize (IH (reindexLevel (sortBy (weight ns) row) ns)).
  destruct (sweep sortBy weight _ rows) as [ns2 rows2]. simpl in *.
  destruct IH as [Hrows Hlen]. split.
  - constructor; [by symmetry|done].
  - rewrite Hlen. apply length_reindexFrom.
Qed.

Lemma sweep_index_other weight rows : ∀ ns n,
  n ∉ concat rows → indexOf (sweep sortBy weight ns rows).1 n = indexOf ns n.
Proof.
  induction rows as [|row rows IH]; intros ns n Hn; simpl; [done|].
  simpl in Hn. apply not_elem_of_app in Hn as [Hn Hn'].
  specialize (IH (reindexLevel (sortBy (weight ns) row) ns) n Hn').
  destruct (sweep sortBy weight _ rows) as [ns2 rows2]. simpl in *.
  rewrite IH. apply indexOf_reindexFrom_other. by rewrite sortBy_perm.
Qed.

(** After a sweep every node's index is its column. *)
Lemma sweep_index weight rows : ∀ ns i row j n,
  NoDup (concat rows) → (∀ m, m ∈ concat rows → m < length ns) →
  (sweep sortBy weight ns rows).2 !! i = Some row → row !! j = Some n →
  indexOf (sweep sortBy weight ns rows).1 n = j.
Proof.
  induction rows as [|row0 rows IH]; intros ns i row j n Hnd Hvalid; simpl; [done|].
  simpl in Hnd, Hvalid. apply NoDup_app in Hnd as (Hnd0 & Hdisj & Hnd).
  set (row' := sortBy (weight ns) row0). set (ns1 := reindexLevel row' ns).
  pose proof (sweep_index_other weight rows ns1) as Hother.
  specialize (IH ns1).
  destruct (sweep sortBy weight ns1 rows) as [ns2 rows2]. simpl in *.
  destruct i as [|i]; simpl.
  - intros [= <-] Hn. rewrite Hother.
    + apply (indexOf_reindexFrom row' 0 ns j n); [|  |done].
      * unfold row'. by rewrite (sortBy_perm _ row0).
      * intros m Hm. apply Hvalid, elem_of_app. left.
        by rewrite <- (sortBy_perm (weight ns) row0).
    + apply Hdisj. rewrite <- (sortBy_perm (weight ns) row0).
      by eapply list_elem_of_lookup_2.
  - intros Hrow Hn. eapply IH; [done| |done|done].
    intros m Hm. unfold ns1, reindexLevel. rewrite length_reindexFrom.
    apply Hvalid, elem_of_app. auto.
Qed.

Lemma concat_reverse_perm rows : concat (reverse rows) ≡ₚ concat rows.
Proof.
  induction rows as [|row rows IH]; simpl; [done|].
  rewrite reverse_cons, concat_app, IH. simpl. rewrite app_nil_r.
  apply Permutation_app_comm.
Qed.

Lemma fullPass_rows (st : list (LevelNode V) * list (list nat)) :
  concat (fullPass sortBy st).2 ≡ₚ concat st.2
  ∧ length (fullPass sortBy st).1 = length st.1.
Proof.
  destruct st as [ns rows]. unfold fullPass, sweepTopToBottom, sweepBottomToTop.
  cbn [fst snd].
  destruct (sweep_rows levelNodeParentWeight rows ns) as [Hr1 Hl1].
  destruct (sweep sortBy levelNodeParentWeight ns rows) as [ns1 rows1]. cbn [fst snd] in *.
  destruct (sweep_rows levelNodeChildWeight (reverse rows1) ns1) as [Hr2 Hl2].
  destruct (sweep sortBy levelNodeChildWeight ns1 (reverse rows1)) as [ns2 rows2].
  cbn [fst snd] in *. split; [|congruence].
  rewrite concat_reverse_perm. rewrite <- (Forall2_perm_concat _ _ Hr2).
  rewrite concat_reverse_perm. symmetry. by apply Forall2_perm_concat.
Qed.

Lemma fullPass_index (st : list (LevelNode V) * list (list nat)) i row j n :
  NoDup (concat st.2) → (∀ m, m ∈ concat st.2 → m < length st.1) →
  (fullPass sortBy st).2 !! i = Some row → row !! j = Some n →
  indexOf (fullPass sortBy st).1 n = j.
Proof.
  destruct st as [ns rows]. unfold fullPass, sweepTopToBottom, sweepBottomToTop.
  cbn [fst snd]. intros Hnd Hvalid.
  destruct (sweep_rows levelNodeParentWeight rows ns) as [Hr1 Hl1].
  destruct (sweep sortBy levelNodeParentWeight ns rows) as [ns1 rows1]. cbn [fst snd] in *.
  pose proof (sweep_index levelNodeChildWeight (reverse rows1) ns1) as Hidx.
  pose proof (sweep_length sortBy levelNodeChildWeight (reverse rows1) ns1) as Hlen.
  destruct (sweep sortBy levelNodeChildWeight ns1 (reverse rows1)) as [ns2 rows2].
  cbn [fst snd] in *. intros Hrow Hn.
  pose proof (lookup_lt_Some _ _ _ Hrow) as Hi. rewrite length_reverse in Hi.
  rewrite reverse_lookup in Hrow by done.
  assert (concat (reverse rows1) ≡ₚ concat rows) as Hperm.
  { rewrite concat_reverse_perm. symmetry. by apply Forall2_perm_concat. }
  eapply Hidx; [by rewrite Hperm| |done|done].
  intros m Hm. rewrite Hl1. apply Hvalid. by rewrite <- Hperm.
Qed.
End sweep_facts.

Section levels_partition.
Context {V E : Type} `{EqDecision V, EqDecision E, Edge V E}.
Variable sortBy : (nat → option Q) → list nat → list nat.
Hypothesis sortBy_perm : ∀ key l, sortBy key l ≡ₚ l.

Lemma ranksToLevels_partition (ranks : list (V * Z)) (edges : list E) res :
  ranksToLevels sortBy ranks edges = Returns res →
  concat (levels res) ≡ₚ seq 0 (length (levelNodes res))
  ∧ length (levels res) = Z.to_nat (maxRankOf ranks - minRankOf ranks + 1)
  ∧ JsMap.keys (edgeToLevelNodes res) = foldl JsSet.add [] edges
  ∧ ∀ i row j n, levels res !! i = Some row → row !! j = Some n →
      indexOf (levelNodes res) n = j.
Proof.
  unfold ranksToLevels.
  destruct (builder_bounds ranks initialBuilder) as [Hmin Hmax].
  pose proof (addRankedVertex_storeInv ranks initialBuilder) as Hinv.
  set (b := foldl addRankedVertex initialBuilder ranks) in *.
  change (minRank b = minRankOf ranks) in Hmin.
  change (maxRank b = maxRankOf ranks) in Hmax.
  rewrite Hmin, Hmax in *.
  destruct (handleEdges ranks (vertexToLevelNode b) edges (store b) [])
    as [[s m]| |] eqn:Hedges; cbn [mbind outcome_mbind outcome_bind]; [|done..].
  apply handleEdges_storeInv in Hedges as [(Hp & Hnd & Hr) Hkeys].
  2:{ apply Hinv. split_and!; simpl; [done|constructor|].
      intros k Hk. by apply elem_of_nil in Hk. }
  destruct (collectLevels _ _ _ _ _) as [ns1 levels1] eqn:Hcollect.
  apply collectLevels_spec in Hcollect as [[Hlen1 _] Hlevels1]. simpl in Hlevels1.
  assert (concat levels1 ≡ₚ seq 0 (length ns1)) as Hp1.
  { rewrite Hlevels1, Hlen1, <- Hp. apply collect_rows; [done|].
    intros k Hk. specialize (Hr k Hk). lia. }
  assert (length levels1 = Z.to_nat (maxRankOf ranks - minRankOf ranks + 1)) as Hl1.
  { by rewrite Hlevels1, length_fmap, length_seq. }
  rewrite minimizeCrossings_fullPass.
  set (st3 := fullPass sortBy (fullPass sortBy (fullPass sortBy (ns1, levels1)))).
  assert (concat st3.2 ≡ₚ concat levels1 ∧ length st3.1 = length ns1) as [Hp3 Hl3].
  { unfold st3.
    destruct (fullPass_rows sortBy sortBy_perm (ns1, levels1)) as [Ha1 Hb1].
    destruct (fullPass_rows sortBy sortBy_perm (fullPass sortBy (ns1, levels1)))
      as [Ha2 Hb2].
    destruct (fullPass_rows sortBy sortBy_perm
                (fullPass sortBy (fullPass sortBy (ns1, levels1)))) as [Ha3 Hb3].
    cbn [fst snd] in *. split; [by rewrite Ha3, Ha2|congruence]. }
  destruct (fullPass_rows sortBy sortBy_perm st3) as [Hp4 Hl4].
  pose proof (fullPass_index sortBy sortBy_perm st3) as Hidx.
  pose proof (minimizeCrossings_rows sortBy sortBy_perm (ns1, levels1)) as [_ Hrows].
  rewrite minimizeCrossings_fullPass in Hrows. fold st3 in Hrows.
  destruct (fullPass sortBy st3) as [ns4 levels4]. cbn [fst snd] in *.
  intros [= <-]. cbn [levels levelNodes edgeToLevelNodes]. split_and!.
  - rewrite Hp4, Hp3, Hp1. by rewrite Hl4, Hl3.
  - apply Forall2_length in Hrows. congruence.
  - done.
  - intros i row j n Hrow Hn. eapply Hidx; [| |done|done].
    + rewrite Hp3, Hp1. apply NoDup_seq.
    + intros k. rewrite Hp3, Hp1, Hl3. intros Hk%elem_of_seq. lia.
Qed.
End levels_partition.

(** ** The structure handed to the passes *)

Section passes_start.
Context {V E : Type} `{EqDecision V, EqDecision E, Edge V E}.
Implicit Types (ns : list (LevelNode V)) (levels : list (list nat)).

(** The loop that collects the rows numbers the nodes of each row by
    column. *)
Lemma collectLevels_columns count : ∀ rank rtl ns levels ns' levels',
  collectLevels count rank rtl ns levels = (ns', levels') →
  NoDup (concat levels') → (∀ n, n ∈ concat levels' → n < length ns) →
  (∀ i row j n, levels !! i = Some row → row !! j = Some n → indexOf ns n = j) →
  ∀ i row j n, levels' !! i = Some row → row !! j = Some n → indexOf ns' n = j.
Proof.
  induction count as [|count IH]; intros rank rtl ns levels ns' levels'.
  - simpl. intros [= <- <-] _ _ Hcols. done.
  - cbn [collectLevels]. set (level := getOrElse rtl rank []).
    intros Hrun Hnd Hvalid Hcols.
    pose proof (collectLevels_spec _ _ _ _ _ _ _ Hrun) as [_ Hlevels'].
    assert (levels' !! length levels = Some level) as Hlevel.
    { rewrite Hlevels', <- app_assoc. cbn [app]. by apply list_lookup_middle. }
    apply (IH _ _ _ _ _ _ Hrun); [done| |].
    + intros n Hn. unfold reindexLevel. rewrite length_reindexFrom. by apply Hvalid.
    + intros i row j n Hrow Hn.
      apply lookup_app_Some in Hrow as [Hrow|[Hge Hrow]].
      * unfold reindexLevel. rewrite indexOf_reindexFrom_other; [by eapply Hcols|].
        intros Hin. pose proof (lookup_lt_Some _ _ _ Hrow) as Hlt.
        apply (NoDup_concat_disjoint levels' i (length levels) row level n);
          [done| |done|lia| |done].
        -- rewrite Hlevels', <- app_assoc. by apply lookup_app_l_Some.
        -- by eapply list_elem_of_lookup_2.
      * destruct (i - length levels) as [|k] eqn:Hk; simpl in Hrow; [|done].
        injection Hrow as <-. unfold reindexLevel.
        rewrite (indexOf_reindexFrom level 0 ns j n); [done| | |done].
        -- by eapply NoDup_concat_row.
        -- intros m Hm. apply Hvalid. by eapply elem_of_concat_row.
Qed.

Variable sortBy : (nat → option Q) → list nat → list nat.

(** The passes of [ranksToLevels] start from a structure in which every
    node is in one place of the rows and has its column for index. *)
Lemma ranksToLevels_passes_start (ranks : list (V * Z)) (edges : list E) res :
  ranksToLevels sortBy ranks edges = Returns res →
  ∃ ns rows,
    columnsOK (ns, rows)
    ∧ minimizeCrossings sortBy (ns, rows) = (levelNodes res, levels res).
Proof.
  unfold ranksToLevels.
  destruct (builder_bounds ranks initialBuilder) as [Hmin Hmax].
  pose proof (addRankedVertex_storeInv ranks initialBuilder) as Hinv.
  set (b := foldl addRankedVertex initialBuilder ranks) in *.
  change (minRank b = minRankOf ranks) in Hmin.
  change (maxRank b = maxRankOf ranks) in Hmax.
  rewrite Hmin, Hmax in *.
  destruct (handleEdges ranks (vertexToLevelNode b) edges (store b) [])
    as [[s m]| |] eqn:Hedges; cbn [mbind outcome_mbind outcome_bind]; [|done..].
  apply handleEdges_storeInv in Hedges as [(Hp & Hnd & Hr) Hkeys].
  2:{ apply Hinv. split_and!; simpl; [done|constructor|].
      intros k Hk. by apply elem_of_nil in Hk. }
  destruct (collectLevels _ _ _ _ _) as [ns1 levels1] eqn:Hcollect.
  pose proof (collectLevels_spec _ _ _ _ _ _ _ Hcollect) as [[Hlen1 _] Hlevels1].
  simpl in Hlevels1.
  assert (concat levels1 ≡ₚ seq 0 (length (nodes s))) as Hp1.
  { rewrite Hlevels1, <- Hp. apply collect_rows; [done|].
    intros k Hk. specialize (Hr k Hk). lia. }
  destruct (minimizeCrossings sortBy (ns1, levels1)) as [ns2 levels2] eqn:Hpasses.
  intros [= <-]. exists ns1, levels1. split; [|done]. split_and!; cbn [fst snd].
  - rewrite Hp1. apply NoDup_seq.
  - intros n. rewrite Hp1, Hlen1. intros Hn%elem_of_seq. lia.
  - apply (collectLevels_columns _ _ _ _ _ _ _ Hcollect).
    + rewrite Hp1. apply NoDup_seq.
    + intros n. rewrite Hp1. intros Hn%elem_of_seq. lia.
    + intros i row j n Hrow. done.
Qed.
End passes_start.

(** ** Rectangles *)

Section positions_more.
Context {V : Type}.
Implicit Types (ns : list (LevelNode V)) (row : list nat)
  (levels : list (list nat)) (pos : list (nat * Rect.t)).
Local Open Scope Q_scope.

Ltac qunfold :=
  unfold nodeWidth, width, height, horizontalSpacing, verticalSpacing, Qdiv in *;
  change (/ 2) with (1 # 2) in *.

Lemma placeNode_keys ns y row : ∀ x pos,
  JsMap.keys (foldl (placeNode ns y) (x, pos) row).2
  = foldl JsSet.add (JsMap.keys pos) row.
Proof.
  induction row as [|n row IH]; intros x pos; [done|]. cbn [foldl].
  unfold placeNode at 2. destruct (hasVertex ns n); rewrite IH, JsMap_keys_set_add; done.
Qed.

Lemma placeLevel_keys ns total levels : ∀ y pos,
  JsMap.keys (foldl (placeLevel ns total) (y, pos) levels).2
  = foldl JsSet.add (JsMap.keys pos) (concat levels).
Proof.
  induction levels as [|row levels IH]; intros y pos; [done|]. cbn [foldl concat].
  unfold placeLevel at 2.
  pose proof (placeNode_keys ns y row (total / 2 - levelWidth ns row / 2) pos) as Hk.
  destruct (foldl (placeNode ns y) _ row) as [x1 pos1]. cbn [snd] in Hk.
  rewrite IH, Hk. by rewrite foldl_app.
Qed.

Lemma rowRect_proper ns n y y' rect : y == y' → rowRect ns n y rect → rowRect ns n y' rect.
Proof.
  unfold rowRect. intros Heq. destruct (hasVertex ns n); intros (? & ? & ?); split_and!; lra.
Qed.

Lemma placeNode_fold_row ns y row : ∀ x pos n,
  n ∈ row →
  ∃ rect, JsMap.get (foldl (placeNode ns y) (x, pos) row).2 n = Some rect
          ∧ rowRect ns n y rect.
Proof.
  induction row as [|n0 row IH] using rev_ind; intros x pos n Hn.
  { by apply elem_of_nil in Hn. }
  rewrite foldl_app. cbn [foldl].
  specialize (IH x pos n).
  destruct (foldl (placeNode ns y) (x, pos) row) as [x1 pos1]. cbn [snd] in IH.
  destruct (decide (n = n0)) as [->|Hne].
  - unfold placeNode, rowRect. destruct (hasVertex ns n0); cbn [snd];
      rewrite JsMap_get_set_eq; eexists; (split; [done|]);
      unfold Rect.top, Rect.width, Rect.height; cbn; split_and!; lra.
  - destruct IH as (rect & Hrect & Hrow).
    { apply elem_of_app in Hn as [?|?%list_elem_of_singleton]; done. }
    exists rect. split; [|done].
    unfold placeNode. destruct (hasVertex ns n0); cbn [snd];
      by rewrite JsMap_get_set_ne.
Qed.

Lemma placeLevel_fold_row ns total levels : ∀ y pos,
  NoDup (concat levels) →
  ∀ i row n, levels !! i = Some row → n ∈ row →
    ∃ rect, JsMap.get (foldl (placeLevel ns total) (y, pos) levels).2 n = Some rect
            ∧ rowRect ns n (y + inject_Z (Z.of_nat i) * (height + verticalSpacing)) rect.
Proof.
  induction levels as [|row0 levels IH]; intros y pos Hnd i row n Hrow Hn; [done|].
  cbn [concat] in Hnd. apply NoDup_app in Hnd as (Hnd0 & Hdisj & Hnd).
  cbn [foldl]. unfold placeLevel at 2.
  pose proof (placeNode_fold_row ns y row0 (total / 2 - levelWidth ns row0 / 2) pos n) as H0.
  destruct (foldl (placeNode ns y) _ row0) as [x1 pos1]. cbn [snd] in H0.
  destruct (placeLevel_fold ns total levels (y + (height + verticalSpacing)) pos1 Hnd)
    as [Hother _].
  destruct i as [|i]; simpl in Hrow.
  - injection Hrow as <-. destruct (H0 Hn) as (rect & Hrect & Hr).
    exists rect. split.
    + rewrite Hother; [done|]. by apply Hdisj.
    + apply (rowRect_proper ns n y); [|done]. change (inject_Z (Z.of_nat 0)) with 0. lra.
  - destruct (IH (y + (height + verticalSpacing)) pos1 Hnd i row n Hrow Hn)
      as (rect & Hrect & Hr).
    exists rect. split; [done|].
    apply (rowRect_proper ns n
             (y + (height + verticalSpacing)
              + inject_Z (Z.of_nat i) * (height + verticalSpacing))); [|done].
    rewrite Nat2Z.inj_succ. unfold Z.succ. rewrite inject_Z_plus.
    change (inject_Z 1) with 1. lra.
Qed.

Lemma slotsWidth_app ns l1 l2 :
  slotsWidth ns (l1 ++ l2) == slotsWidth ns l1 + slotsWidth ns l2.
Proof.
  induction l1 as [|n l1 IH].
  - change (slotsWidth ns l2 == 0 + slotsWidth ns l2). lra.
  - cbn [app]. rewrite !slotsWidth_cons. lra.
Qed.

(** The slot of column [k] starts after the slot of an earlier column
    [j], the width of its node and one spacing. *)
Lemma slotsWidth_take_lt ns row j k n :
  row !! j = Some n → (j < k)%nat → (k ≤ length row)%nat →
  slotsWidth ns (take j row) + nodeWidth ns n + horizontalSpacing
  <= slotsWidth ns (take k row).
Proof.
  intros Hn Hjk Hk.
  assert (take k row = take j row ++ n :: take (k - S j) (drop (S j) row)) as ->.
  { rewrite <- (take_drop_middle row j n Hn) at 1.
    rewrite take_app. rewrite length_take, Nat.min_l by lia.
    rewrite take_take, Nat.min_r by lia. f_equal.
    replace (k - j)%nat with (S (k - S j)) by lia. done. }
  rewrite slotsWidth_app, slotsWidth_cons.
  pose proof (slotsWidth_nonneg ns (take (k - S j) (drop (S j) row))). lra.
Qed.
End positions_more.

(** ** Paths *)

Section paths_more.
Context {V E : Type} `{EqDecision V, EqDecision E, Edge V E}.
Implicit Types (positions : list (nat * Rect.t)) (path : list PathCommand)
  (chain rest : list nat).
Local Open Scope Q_scope.

Lemma extendPath_returns positions rest : ∀ from path,
  (∀ n, n ∈ from :: rest → is_Some (JsMap.get positions n)) →
  ∃ path', extendPath (V:=V) positions from rest path = Returns path'.
Proof.
  induction rest as [|to rest IH]; intros from path Hpos; simpl; [eauto|].
  destruct (Hpos from) as [fromRect ->]; [apply elem_of_cons; auto|].
  destruct (Hpos to) as [toRect ->]; [apply elem_of_cons; right; apply elem_of_cons; auto|].
  destruct (segmentAnchors fromRect toRect) as [fromAnchor toAnchor].
  apply IH. intros n Hn. apply Hpos, elem_of_cons. auto.
Qed.

Lemma edgePath_returns positions chain :
  chain ≠ [] → (∀ n, n ∈ chain → is_Some (JsMap.get positions n)) →
  ∃ path, edgePath (V:=V) positions chain = Returns path.
Proof.
  destruct chain as [|from rest]; [done|]. intros _ Hpos. simpl.
  destruct (Hpos from) as [fromRect ->]; [apply elem_of_cons; auto|].
  by apply extendPath_returns.
Qed.

(** The loop stops at the first node of the chain that has no position. *)
Lemma extendPath_missing positions pre : ∀ from path n post,
  is_Some (JsMap.get positions from) →
  (∀ m, m ∈ pre → is_Some (JsMap.get positions m)) →
  JsMap.get positions n = None →
  extendPath (V:=V) positions from (pre ++ n :: post) path
  = Throws (FailedToFindPosition (Some n)).
Proof.
  induction pre as [|to pre IH]; intros from path n post [fromRect Hfrom] Hpre Hn; simpl.
  - by rewrite Hfrom, Hn.
  - rewrite Hfrom. destruct (Hpre to) as [toRect Hto]; [apply elem_of_cons; auto|].
    rewrite Hto. destruct (segmentAnchors fromRect toRect) as [fromAnchor toAnchor].
    apply IH; [by eexists| |done]. intros m Hm. apply Hpre, elem_of_cons. auto.
Qed.

Lemma extendPath_shape positions rest : ∀ from path path',
  extendPath (V:=V) positions from rest path = Returns path' →
  ∃ added, path' = path ++ added ∧ length added = length rest
    ∧ ∀ i a b ra rb, (from :: rest) !! i = Some a → rest !! i = Some b →
        JsMap.get positions a = Some ra → JsMap.get positions b = Some rb →
        added !! i
        = Some (SmoothTo
                  (Vec2.times (Vec2.plus (segmentAnchors ra rb).1 (segmentAnchors ra rb).2)
                              (1 / 2))
                  (segmentAnchors ra rb).2).
Proof.
  induction rest as [|to rest IH]; intros from path path'; simpl.
  - intros [= <-]. exists []. rewrite app_nil_r. split_and!; [done..|].
    intros i a b ra rb _ Hb. done.
  - destruct (JsMap.get positions from) as [fromRect|] eqn:Hfrom; [|done].
    destruct (JsMap.get positions to) as [toRect|] eqn:Hto; [|done].
    destruct (segmentAnchors fromRect toRect) as [fromAnchor toAnchor] eqn:Hseg.
    intros (added & -> & Hlen & Hshape)%IH.
    eexists (_ :: added). rewrite <- app_assoc. split_and!; [done|simpl; lia|].
    intros [|i] a b ra rb Ha Hb Hra Hrb; simpl in *.
    + simplify_eq. by rewrite Hseg.
    + by eapply Hshape.
Qed.

Lemma makeEdgePathsFrom_keys positions (e2n : list (E * list nat)) :
  ∀ paths paths',
    makeEdgePathsFrom (V:=V) positions e2n paths = Returns paths' →
    JsMap.keys paths' = foldl JsSet.add (JsMap.keys paths) (JsMap.keys e2n).
Proof.
  induction e2n as [|[e nodeList] e2n IH]; intros paths paths'; simpl.
  - by intros [= <-].
  - destruct (edgePath positions nodeList) as [path| |]; simpl; [|done..].
    intros ->%IH. by rewrite JsMap_keys_set_add.
Qed.

Lemma makeEdgePathsFrom_returns positions (e2n : list (E * list nat)) :
  (∀ e chain, (e, chain) ∈ e2n →
     chain ≠ [] ∧ ∀ n, n ∈ chain → is_Some (JsMap.get positions n)) →
  ∀ paths, ∃ paths', makeEdgePathsFrom (V:=V) positions e2n paths = Returns paths'.
Proof.
  induction e2n as [|[e nodeList] e2n IH]; intros Hall paths; simpl; [eauto|].
  destruct (Hall e nodeList) as [Hne Hpos]; [apply elem_of_cons; auto|].
  destruct (edgePath_returns positions nodeList Hne Hpos) as [path ->]. simpl.
  apply IH. intros e' chain Hin. apply (Hall e' chain), elem_of_cons. auto.
Qed.

Lemma makeEdgePathsFrom_lookup positions (e2n : list (E * list nat)) :
  ∀ paths paths',
    makeEdgePathsFrom (V:=V) positions e2n paths = Returns paths' →
    NoDup (JsMap.keys e2n) →
    ∀ e chain, (e, chain) ∈ e2n →
      ∃ path, JsMap.get paths' e = Some path ∧ edgePath (V:=V) positions chain = Returns path.
Proof.
  induction e2n as [|[e0 chain0] e2n IH]; intros paths paths'; simpl.
  - intros _ _ e chain Hin. by apply elem_of_nil in Hin.
  - destruct (edgePath positions chain0) as [path0| |] eqn:Hpath0; simpl; [|done..].
    intros Hrun [Hfresh Hnd]%NoDup_cons e chain [[= -> ->]|Hin]%elem_of_cons.
    + exists path0. split; [|done].
      assert (∀ (l : list (E * list nat)) ps ps',
                makeEdgePathsFrom (V:=V) positions l ps = Returns ps' →
                e0 ∉ JsMap.keys l → JsMap.get ps' e0 = JsMap.get ps e0) as Hkeep.
      { clear. induction l as [|[e1 c1] l IHl]; intros ps ps'; simpl.
        - by intros [= <-].
        - destruct (edgePath positions c1); simpl; [|done..].
          intros Hrun [Hne Hl]%not_elem_of_cons. rewrite (IHl _ _ Hrun Hl).
          by rewrite JsMap_get_set_ne. }
      rewrite (Hkeep _ _ _ Hrun Hfresh). apply JsMap_get_set_eq.
    + by eapply IH.
Qed.

Lemma segmentAnchors_spec (fromRect toRect : Rect.t) :
  let '(fromAnchor, toAnchor) := segmentAnchors fromRect toRect in
  Vec2.x fromAnchor == Rect.left fromRect + Rect.width fromRect / 2
  ∧ Vec2.x toAnchor == Rect.left toRect + Rect.width toRect / 2
  ∧ (Rect.top fromRect < Rect.top toRect →
       Vec2.y fromAnchor == Rect.top fromRect + Rect.height fromRect
       ∧ Vec2.y toAnchor == Rect.top toRect)
  ∧ (Rect.top toRect <= Rect.top fromRect →
       Vec2.y fromAnchor == Rect.top fromRect
       ∧ Vec2.y toAnchor == Rect.top toRect + Rect.height toRect).
Proof.
  unfold segmentAnchors, topCenter.
  destruct (Qlt_le_dec (Rect.top fromRect) (Rect.top toRect)); cbn;
    split_and!; try lra; intros; split; lra.
Qed.
End paths_more.

(** ** The pipeline *)

Section set_fold.
Context {K : Type} `{EqDecision K}.

Lemma elem_of_foldl_JsSet_add (l : list K) : ∀ s x,
  x ∈ foldl JsSet.add s l ↔ x ∈ s ∨ x ∈ l.
Proof.
  induction l as [|y l IH]; intros s x; simpl.
  - rewrite elem_of_nil. naive_solver.
  - rewrite IH, JsSet_elem_of_add, elem_of_cons. naive_solver.
Qed.

Lemma foldl_JsSet_add_keeps_NoDup (l : list K) : ∀ s,
  NoDup s → NoDup (foldl JsSet.add s l).
Proof.
  induction l as [|y l IH]; intros s Hs; simpl; [done|].
  by apply IH, JsSet_add_NoDup.
Qed.
End set_fold.

Section pipeline.
Context {V E : Type} `{EqDecision V, EqDecision E, Edge V E}.
Variable sortBy : (nat → option Q) → list nat → list nat.
Hypothesis sortBy_perm : ∀ key l, sortBy key l ≡ₚ l.

Lemma chainSpec_rows (ns : list (LevelNode V)) (rowOf : Z → nat → Prop)
    u ru v rv (chain : list nat) :
  chainSpec ns rowOf u ru v rv chain →
  chain ≠ [] ∧ ∀ n, n ∈ chain → ∃ r, (ru ≤ r ≤ rv)%Z ∧ rowOf r n.
Proof.
  intros (Hlen & (nu & Hhd & _ & Hru) & (nv & Hlast & _ & Hrv) & Hmid & _).
  split; [by destruct chain|].
  intros x [i Hi]%list_elem_of_lookup_1.
  pose proof (lookup_lt_Some _ _ _ Hi) as Hlt.
  destruct (decide (i = 0)) as [->|Hi0].
  { rewrite <- head_lookup, Hhd in Hi. injection Hi as <-. exists ru. split; [lia|done]. }
  destruct (decide (S i = length chain)) as [Hil|Hil].
  { rewrite last_lookup, <- Hil in Hlast. simpl in Hlast.
    rewrite Hi in Hlast. injection Hlast as <-. exists rv. split; [lia|done]. }
  destruct (Hmid i x) as [_ Hrow]; [lia|lia|done|].
  exists (ru + Z.of_nat i)%Z. split; [lia|done].
Qed.

Lemma chainBetween_rows (ns : list (LevelNode V)) (rowOf : Z → nat → Prop)
    (ranks : list (V * Z)) u v (chain : list nat) :
  chainBetween ns rowOf ranks u v chain →
  chain ≠ [] ∧ ∀ n, n ∈ chain → ∃ r, rowOf r n.
Proof.
  intros (ru & rv & _ & _ & Hspec). destruct (decide (ru ≤ rv)%Z) as [Hle|Hnle].
  - apply chainSpec_rows in Hspec as [Hne Hall]. split; [done|].
    intros n Hn. destruct (Hall n Hn) as (r & _ & ?). eauto.
  - apply chainSpec_rows in Hspec as [Hne Hall]. split.
    + intros ->. done.
    + intros n Hn. destruct (Hall n) as (r & _ & ?); [by apply elem_of_reverse|]. eauto.
Qed.

Lemma ranksToLevels_entries (ranks : list (V * Z)) (edges : list E) res :
  NoDup (JsMap.keys ranks) →
  ranksToLevels sortBy ranks edges = Returns res →
  ∀ e chain, JsMap.get (edgeToLevelNodes res) e = Some chain →
    chainBetween (levelNodes res) (inLevel (levels res) (minRankOf ranks))
      ranks (from e) (to e) chain.
Proof.
  intros Hnd. unfold ranksToLevels.
  destruct (addRankedVertex_init ranks Hnd) as (Hok & Hmin & Hmax).
  set (b := foldl addRankedVertex initialBuilder ranks) in *.
  destruct (handleEdges ranks (vertexToLevelNode b) edges (store b) [])
    as [[s m]| |] eqn:Hedges; cbn [mbind outcome_mbind outcome_bind]; [|done..].
  apply handleEdges_returns in Hedges as (Hext & Hrows & Hm & Hdom); [|done|done].
  destruct (collectLevels _ _ _ _ _) as [ns1 levels1] eqn:Hcollect.
  pose proof (minimizeCrossings_rows sortBy sortBy_perm (ns1, levels1)) as [Hio Hperm].
  destruct (minimizeCrossings sortBy (ns1, levels1)) as [ns2 levels2].
  simpl in Hio, Hperm. intros [= <-] e chain Hchain. simpl in *.
  apply (chainBetween_mono (nodes s) _ (inRow (rankToLevel s))); [| |by apply Hm].
  - apply collectLevels_spec in Hcollect as [Hio1 _].
    apply indexOnly_nodeExt. by eapply indexOnly_trans.
  - intros r n Hr Hrow. eapply inLevel_perm; [done|].
    rewrite Hmin, Hmax in Hcollect.
    by eapply collectLevels_inLevel.
Qed.

Lemma elem_of_concat (rows : list (list nat)) n :
  n ∈ concat rows ↔ ∃ row, row ∈ rows ∧ n ∈ row.
Proof.
  induction rows as [|row0 rows IH]; simpl.
  - rewrite elem_of_nil. split; [done|]. intros (row & Hrow & _).
    by apply elem_of_nil in Hrow.
  - rewrite elem_of_app, IH. setoid_rewrite elem_of_cons. naive_solver.
Qed.

Lemma inLevel_concat (levels : list (list nat)) least r n :
  inLevel levels least r n → n ∈ concat levels.
Proof.
  intros [_ (row & Hrow & Hn)]. apply elem_of_concat. exists row.
  split; [|done]. by eapply list_elem_of_lookup_2.
Qed.

Lemma positionNodes_keys (ns : list (LevelNode V)) (levels : list (list nat)) :
  JsMap.keys (positionNodes ns levels) = foldl JsSet.add [] (concat levels).
Proof. unfold positionNodes. apply placeLevel_keys. Qed.

Lemma positionNodes_defined (ns : list (LevelNode V)) (levels : list (list nat)) n :
  is_Some (JsMap.get (positionNodes ns levels) n) ↔ n ∈ concat levels.
Proof.
  rewrite JsMap_get_is_Some_keys, positionNodes_keys, elem_of_foldl_JsSet_add.
  rewrite elem_of_nil. naive_solver.
Qed.

(** The ranks that [rankVertices] computes make every edge placeable. *)
Lemma rankVertices_placeable (g : Graph V E) :
  built g →
  ∃ ranks, rankVertices g = Some ranks ∧ NoDup (JsMap.keys ranks)
    ∧ JsMap.keys ranks ≡ₚ vertices g
    ∧ ∀ e, e ∈ edges g → placeable ranks (from e) (to e).
Proof.
  intros Hbuilt.
  destruct (rankVertices_any g Hbuilt) as (ranks & Hrun & Hnd & Hperm & _ & Hedge & _).
  exists ranks. split_and!; [done..|]. intros e He.
  destruct (built_endpoints g Hbuilt e He) as [Hfrom Hto].
  rewrite <- Hperm in Hfrom, Hto.
  apply JsMap_get_is_Some_keys in Hfrom as [ru Hru].
  apply JsMap_get_is_Some_keys in Hto as [rv Hrv].
  exists ru, rv. split_and!; [done..|].
  destruct (decide (from e = to e)); [by left|right]. by eapply Hedge.
Qed.

Lemma ranksToLevels_returns (ranks : list (V * Z)) (edges : list E) :
  NoDup (JsMap.keys ranks) →
  (∀ e, e ∈ edges → placeable ranks (from e) (to e)) →
  ∃ res, ranksToLevels sortBy ranks edges = Returns res.
Proof.
  intros Hnd Hall. unfold ranksToLevels.
  destruct (addRankedVertex_init ranks Hnd) as (Hok & _).
  destruct (handleEdges_placeable ranks _ edges _ [] Hok Hall) as (s & m & ->).
  cbn [mbind outcome_mbind outcome_bind].
  destruct (collectLevels _ _ _ _ _) as [ns1 levels1].
  destruct (minimizeCrossings sortBy (ns1, levels1)) as [ns2 levels2]. eauto.
Qed.

Lemma makeEdgePaths_returns (ranks : list (V * Z)) (edges : list E) res :
  NoDup (JsMap.keys ranks) →
  ranksToLevels sortBy ranks edges = Returns res →
  ∃ paths, makeEdgePaths (V:=V) (edgeToLevelNodes res)
             (positionNodes (levelNodes res) (levels res)) = Returns paths.
Proof.
  intros Hnd Hres. apply makeEdgePathsFrom_returns. intros e chain Hin.
  destruct (ranksToLevels_partition sortBy sortBy_perm ranks edges res Hres)
    as (_ & _ & Hkeys & _).
  assert (JsMap.get (edgeToLevelNodes res) e = Some chain) as Hget.
  { apply JsMap_elem_get; [|done]. rewrite Hkeys.
    apply foldl_JsSet_add_keeps_NoDup. constructor. }
  apply (ranksToLevels_entries ranks edges res Hnd Hres) in Hget.
  apply chainBetween_rows in Hget as [Hne Hrows]. split; [done|].
  intros n Hn. destruct (Hrows n Hn) as [r Hr].
  apply positionNodes_defined. by eapply inLevel_concat.
Qed.

Lemma layoutGraph_built (g : Graph V E) :
  built g →
  ∃ layout, layoutGraph sortBy g = Returns layout
    ∧ rankVertices g = Some (layoutRanks layout)
    ∧ ranksToLevels sortBy (layoutRanks layout) (getEdges g)
      = Returns (levelResult layout)
    ∧ nodePositions layout
      = positionNodes (levelNodes (levelResult layout)) (levels (levelResult layout))
    ∧ makeEdgePaths (V:=V) (edgeToLevelNodes (levelResult layout)) (nodePositions layout)
      = Returns (edgePaths layout).
Proof.
  intros Hbuilt.
  destruct (rankVertices_placeable g Hbuilt) as (ranks & Hranks & Hnd & _ & Hall).
  destruct (ranksToLevels_returns ranks (getEdges g) Hnd Hall) as [res Hres].
  destruct (makeEdgePaths_returns ranks (getEdges g) res Hnd Hres) as [paths Hpaths].
  exists (mkLayout ranks res (positionNodes (levelNodes res) (levels res)) paths).
  unfold layoutGraph. rewrite Hranks, Hres. cbn [mbind outcome_mbind outcome_bind].
  rewrite Hpaths. done.
Qed.
End pipeline.

(** ** Links between the nodes *)

Section link_facts.
Context {V E : Type} `{EqDecision V, EqDecision E, Edge V E}.
Implicit Types (ns : list (LevelNode V)) (rtl : list (Z * list nat))
  (s : LevelStore V) (ranks : list (V * Z)) (v2n : list (V * nat)).

Lemma linkedTo_push ns p c : linkedTo ns (pushChild p c (pushParent c p ns)) p c.
Proof.
  intros n. unfold pushChild, pushParent. rewrite !list_lookup_alter.
  destruct (decide (p = n)) as [->|Hp], (decide (c = n)) as [->|Hc];
    rewrite ?list_lookup_alter_eq, ?list_lookup_alter_ne by done;
    destruct (ns !! n) as [nd|] eqn:Hn; rewrite ?Hn; simpl;
    repeat case_decide; try done; try congruence; by destruct nd.
Qed.

Lemma linkedTo_virtual ns p :
  p < length ns →
  linkedTo (ns ++ [mkLevelNode [] [] None 0])
           (pushChild p (length ns) (ns ++ [mkLevelNode [p] [] None 0])) p (length ns).
Proof.
  intros Hp n. unfold pushChild. rewrite list_lookup_alter.
  destruct (decide (p = n)) as [->|Hpn].
  - rewrite !lookup_app_l by done. destruct (ns !! n) as [nd|]; simpl; [|done].
    rewrite decide_False by lia. rewrite decide_True by done. by destruct nd.
  - destruct (decide (n < length ns)) as [Hlt|Hge].
    + rewrite !lookup_app_l by done. destruct (ns !! n) as [nd|]; simpl; [|done].
      rewrite decide_False by lia. rewrite decide_False by done. by destruct nd.
    + rewrite !lookup_app_r by lia.
      destruct (n - length ns) as [|k] eqn:Hk; simpl; [|done].
      rewrite decide_True by lia. rewrite decide_False by done. done.
Qed.

Lemma linkedTo_length ns ns' p c : linkedTo ns ns' p c → length ns' = length ns.
Proof.
  intros Hl. apply Nat.le_antisymm.
  - destruct (decide (length ns' ≤ length ns)) as [|Hgt]; [done|].
    assert (is_Some (ns' !! length ns)) as [nd Hnd] by (apply lookup_lt_is_Some; lia).
    rewrite Hl in Hnd. rewrite (lookup_ge_None_2 ns (length ns)) in Hnd by lia. done.
  - destruct (decide (length ns ≤ length ns')) as [|Hgt]; [done|].
    assert (is_Some (ns !! length ns')) as [nd Hnd] by (apply lookup_lt_is_Some; lia).
    specialize (Hl (length ns')). rewrite Hnd in Hl. simpl in Hl.
    rewrite (lookup_ge_None_2 ns' (length ns')) in Hl by lia. done.
Qed.

Lemma linksOK_link ns ns' rtl p c r :
  linksOK (mkStore ns rtl) → linkedTo ns ns' p c →
  p < length ns → c < length ns → p ≠ c →
  inRow rtl r p → inRow rtl (r + 1) c →
  linksOK (mkStore ns' rtl).
Proof.
  intros (Hsym & Hch & Hpa) Hl Hp Hc Hpc Hrp Hrc. simpl in *.
  pose proof (linkedTo_length _ _ _ _ Hl) as Hlen.
  split_and!; simpl.
  - intros a b na nb. rewrite !Hl.
    destruct (ns !! a) as [na0|] eqn:Ha0; [|done].
    destruct (ns !! b) as [nb0|] eqn:Hb0; [|done]. simpl.
    intros [= <-] [= <-]. simpl. specialize (Hsym a b na0 nb0 Ha0 Hb0).
    destruct (decide (a = p)) as [->|Hap], (decide (b = c)) as [->|Hbc];
      rewrite ?elem_of_app, ?list_elem_of_singleton; naive_solver.
  - intros a na b. rewrite Hl. destruct (ns !! a) as [na0|] eqn:Ha0; [|done]. simpl.
    intros [= <-]. simpl. rewrite Hlen.
    destruct (decide (a = p)) as [->|Hap].
    + intros [Hb| ->%list_elem_of_singleton]%elem_of_app; [by eapply Hch|].
      split; [done|]. eauto.
    + intros Hb. by eapply Hch.
  - intros b nb a. rewrite Hl. destruct (ns !! b) as [nb0|] eqn:Hb0; [|done]. simpl.
    intros [= <-]. simpl. rewrite Hlen.
    destruct (decide (b = c)) as [->|Hbc].
    + intros [Ha| ->%list_elem_of_singleton]%elem_of_app; [by eapply Hpa|].
      split; [done|]. eauto.
    + intros Ha. by eapply Hpa.
Qed.

Lemma linksOK_app ns rtl rtl' nd :
  linksOK (mkStore ns rtl) → parents nd = [] → children nd = [] →
  (∀ r n, inRow rtl r n → inRow rtl' r n) →
  linksOK (mkStore (ns ++ [nd]) rtl').
Proof.
  intros (Hsym & Hch & Hpa) Hp0 Hc0 Hrows. simpl in *.
  assert (∀ n x, (ns ++ [nd]) !! n = Some x →
            ns !! n = Some x ∨ (n = length ns ∧ x = nd)) as Hlook.
  { intros n x Hx. destruct (decide (n < length ns)).
    - left. by rewrite lookup_app_l in Hx.
    - right. rewrite lookup_app_r in Hx by lia.
      destruct (n - length ns) as [|k] eqn:Hk; simpl in Hx; [|done].
      split; [lia|congruence]. }
  split_and!; simpl.
  - intros a b na nb [Ha|[-> ->]]%Hlook [Hb|[-> ->]]%Hlook.
    + by apply Hsym.
    + rewrite Hp0. split; [|by intros ?%elem_of_nil].
      intros Hin. destruct (Hch a na _ Ha Hin) as [? _]. lia.
    + rewrite Hc0. split; [by intros ?%elem_of_nil|].
      intros Hin. destruct (Hpa b nb _ Hb Hin) as [? _]. lia.
    + rewrite Hp0, Hc0. done.
  - intros a na b [Ha|[-> ->]]%Hlook Hb.
    + destruct (Hch a na b Ha Hb) as (? & r & ? & ?). rewrite length_app. simpl.
      split; [lia|]. eauto.
    + rewrite Hc0 in Hb. by apply elem_of_nil in Hb.
  - intros b nb a [Hb|[-> ->]]%Hlook Ha.
    + destruct (Hpa b nb a Hb Ha) as (? & r & ? & ?). rewrite length_app. simpl.
      split; [lia|]. eauto.
    + rewrite Hp0 in Ha. by apply elem_of_nil in Ha.
Qed.

Lemma linksOK_rows ns rtl rtl' :
  linksOK (mkStore ns rtl) → (∀ r n, inRow rtl r n → inRow rtl' r n) →
  linksOK (mkStore ns rtl').
Proof.
  intros (Hsym & Hch & Hpa) Hrows. split_and!; simpl in *; [done| |].
  - intros a na b Ha Hb. destruct (Hch a na b Ha Hb) as (? & r & ? & ?). eauto 10.
  - intros b nb a Hb Ha. destruct (Hpa b nb a Hb Ha) as (? & r & ? & ?). eauto 10.
Qed.
End link_facts.

Section degree_facts.
Context {V E : Type} `{EqDecision V, EqDecision E, Edge V E}.
Implicit Types (ns : list (LevelNode V)) (rtl : list (Z * list nat))
  (s : LevelStore V) (ranks : list (V * Z)) (v2n : list (V * nat)).

Lemma linkedTo_vertex ns ns' p c : linkedTo ns ns' p c → vertex <$> ns' = vertex <$> ns.
Proof.
  intros Hl. apply list_eq. intros n. rewrite !list_lookup_fmap, Hl.
  by destruct (ns !! n).
Qed.

Lemma degOK_open ns p :
  degOK None ns → (∀ nd, ns !! p = Some nd → vertex nd ≠ None) → degOK (Some p) ns.
Proof.
  intros Hdeg Hp n nd Hn Hv. destruct (Hdeg n nd Hn Hv) as [? Hc]. split; [done|].
  rewrite decide_False in Hc by done. rewrite decide_False; [done|].
  intros [= ->]. by eapply Hp.
Qed.

Lemma degOK_close ns ns' p c :
  degOK (Some p) ns → linkedTo ns ns' p c →
  (∀ nd, ns !! c = Some nd → vertex nd ≠ None) → degOK None ns'.
Proof.
  intros Hdeg Hl Hc n nd'. rewrite Hl.
  destruct (ns !! n) as [nd|] eqn:Hn; [|done]. simpl. intros [= <-]. simpl. intros Hv.
  destruct (Hdeg n nd Hn Hv) as [Hp Hch].
  rewrite (decide_False (P := n = c)) by (intros ->; by eapply Hc).
  split; [done|].
  destruct (decide (n = p)) as [->|Hnp].
  - rewrite decide_True in Hch by done. rewrite length_app. simpl. lia.
  - rewrite decide_False in Hch by congruence. done.
Qed.

Lemma degOK_virtual ns p :
  degOK (Some p) ns → p < length ns →
  degOK (Some (length ns)) (pushChild p (length ns) (ns ++ [mkLevelNode [p] [] None 0])).
Proof.
  intros Hdeg Hp n nd'. rewrite (linkedTo_virtual ns p Hp n).
  destruct (decide (n < length ns)) as [Hlt|Hge].
  - rewrite lookup_app_l by done. destruct (ns !! n) as [nd|] eqn:Hn; [|done]. simpl.
    intros [= <-]. simpl. intros Hv. destruct (Hdeg n nd Hn Hv) as [Hpa Hch].
    rewrite (decide_False (P := n = length ns)) by lia. split; [done|].
    rewrite (decide_False (P := Some (length ns) = Some n)) by (intros [=]; lia).
    destruct (decide (n = p)) as [->|Hnp].
    + rewrite decide_True in Hch by done. rewrite length_app. simpl. lia.
    + rewrite decide_False in Hch by congruence. done.
  - rewrite lookup_app_r by lia.
    destruct (n - length ns) as [|k] eqn:Hk; simpl; [|done].
    intros [= <-]. simpl. intros _. assert (n = length ns) as -> by lia.
    rewrite (decide_True (P := length ns = length ns)) by done.
    rewrite (decide_True (P := Some (length ns) = Some (length ns))) by done.
    rewrite decide_False by lia. done.
Qed.

Lemma realOK_ext v2n ns ns' k :
  realOK v2n ns → vertex <$> ns' = (vertex <$> ns) ++ replicate k None → realOK v2n ns'.
Proof.
  intros Hreal Hv n nd v Hn Hvn.
  assert ((vertex <$> ns') !! n = Some (Some v)) as Hlook.
  { by rewrite list_lookup_fmap, Hn; simpl; rewrite Hvn. }
  rewrite Hv in Hlook. apply lookup_app_Some in Hlook as [Hlook|[_ Hlook]].
  - rewrite list_lookup_fmap in Hlook.
    destruct (ns !! n) as [nd0|] eqn:Hn0; [|done]. simpl in Hlook.
    injection Hlook as Hv0. by eapply Hreal.
  - apply lookup_replicate in Hlook as [? _]. done.
Qed.

Lemma insertVirtualNodes_links count : ∀ rank parent acc s parent' acc' s',
  insertVirtualNodes count rank parent acc s = (parent', acc', s') →
  parent < length (nodes s) →
  linksOK s → degOK (Some parent) (nodes s) →
  inRow (rankToLevel s) (rank - 1) parent →
  linksOK s' ∧ degOK (Some parent') (nodes s')
  ∧ inRow (rankToLevel s') (rank + Z.of_nat count - 1) parent'
  ∧ parent' < length (nodes s')
  ∧ (parent' = parent ∨ length (nodes s) ≤ parent')
  ∧ vertex <$> nodes s' = (vertex <$> nodes s) ++ replicate count None.
Proof.
  induction count as [|count IH]; intros rank parent acc s parent' acc' s'; simpl.
  - intros [= <- <- <-] Hp Hlinks Hdeg Hrow. rewrite app_nil_r.
    split_and!; auto. by replace (rank + Z.of_nat 0 - 1)%Z with (rank - 1)%Z by lia.
  - intros Hrun Hp Hlinks Hdeg Hrow. destruct s as [ns rtl]. simpl in *.
    set (n0 := length ns) in *.
    set (ns1 := pushChild parent n0 (ns ++ [mkLevelNode [parent] [] None 0])) in *.
    set (rtl1 := pushToLevel rank n0 rtl) in *.
    assert (∀ r n, inRow rtl r n → inRow rtl1 r n) as Hrows.
    { intros r n Hr. apply inRow_pushToLevel. auto. }
    assert (inRow rtl1 rank n0) as Hn0 by (apply inRow_pushToLevel; auto).
    pose proof (linkedTo_virtual ns parent Hp) as Hl. fold n0 ns1 in Hl.
    assert (length ns1 = S (length ns)) as Hlen1.
    { rewrite (linkedTo_length _ _ _ _ Hl), length_app. simpl. lia. }
    apply IH in Hrun as (Hlinks' & Hdeg' & Hrow' & Hp' & Hor & Hvs); simpl.
    + simpl in *. split_and!; [done|done| |done| |].
      * by replace (rank + Z.of_nat (S count) - 1)%Z
          with (rank + 1 + Z.of_nat count - 1)%Z by lia.
      * right. destruct Hor as [->|?]; [unfold n0|]; lia.
      * rewrite Hvs, (linkedTo_vertex _ _ _ _ Hl), fmap_app. simpl.
        by rewrite <- app_assoc.
    + lia.
    + apply (linksOK_link (ns ++ [mkLevelNode [] [] None 0]) ns1 rtl1 parent n0
               (rank - 1)).
      * eapply linksOK_app; [exact Hlinks|done|done|done].
      * done.
      * rewrite length_app. simpl. lia.
      * rewrite length_app. simpl. unfold n0. lia.
      * unfold n0. lia.
      * auto.
      * by replace (rank - 1 + 1)%Z with rank by lia.
    + by apply degOK_virtual.
    + by replace (rank + 1 - 1)%Z with rank by lia.
Qed.
End degree_facts.

Section link_build.
Context {V E : Type} `{EqDecision V, EqDecision E, Edge V E}.
Implicit Types (ns : list (LevelNode V)) (rtl : list (Z * list nat))
  (s : LevelStore V) (ranks : list (V * Z)) (v2n : list (V * nat)).

Lemma handleEdge_links ranks v2n fuel : ∀ u v s chain s',
  handleEdge ranks v2n fuel u v s = Returns (chain, s') →
  v2nOK ranks v2n s → linksOK s → degOK None (nodes s) →
  linksOK s' ∧ degOK None (nodes s')
  ∧ ∃ k, vertex <$> nodes s' = (vertex <$> nodes s) ++ replicate k None.
Proof.
  induction fuel as [|fuel IH]; intros u v s chain s'; [done|]. cbn [handleEdge].
  destruct (decide (u = v)) as [<-|Hne].
  { destruct (JsMap.get v2n u); [|done]. intros [= <- <-] _ ? ?.
    split_and!; [done..|]. exists 0. by rewrite app_nil_r. }
  destruct (JsMap.get ranks u) as [ru|] eqn:Hru; [|done].
  destruct (JsMap.get ranks v) as [rv|] eqn:Hrv; [|done].
  destruct (decide (rv = ru)); [done|].
  destruct (decide (rv < ru)%Z).
  - destruct (handleEdge ranks v2n fuel v u s) as [[c1 s1]| |] eqn:Hrun;
      cbn [mbind outcome_mbind outcome_bind]; [|done..].
    intros [= <- <-]. by eapply IH.
  - destruct (JsMap.get v2n u) as [nu|] eqn:Hnu; [|done].
    destruct (JsMap.get v2n v) as [nv|] eqn:Hnv; [|done].
    destruct (insertVirtualNodes _ _ _ _ _) as [[parent' acc'] s1] eqn:Hrun.
    intros [= <- <-] [Hok1 Hok2] Hlinks Hdeg.
    destruct (Hok1 u nu Hnu) as (Hrealu & ru' & Hru' & Hrowu).
    destruct (Hok1 v nv Hnv) as (Hrealv & rv' & Hrv' & Hrowv).
    simplify_eq.
    pose proof (isReal_lt _ _ _ Hrealu) as Hltu.
    pose proof (isReal_lt _ _ _ Hrealv) as Hltv.
    pose proof Hrun as Hspec.
    apply insertVirtualNodes_spec in Hspec
      as (vs & _ & _ & _ & _ & _ & _ & Hext & Hrows); [|done].
    apply insertVirtualNodes_links in Hrun
      as (Hlinks1 & Hdeg1 & Hrow1 & Hp1 & Hor & Hvs); [|done|done| |].
    2:{ apply degOK_open; [done|]. intros nd Hnd. destruct Hrealu as (nd' & ? & ?).
        congruence. }
    2:{ by replace (ru + 1 - 1)%Z with ru by lia. }
    replace (ru + 1 + Z.of_nat (Z.to_nat (rv - (ru + 1))) - 1)%Z
      with (rv - 1)%Z in Hrow1 by lia.
    destruct s1 as [ns1 rtl1]. simpl in *.
    pose proof (linkedTo_push ns1 parent' nv) as Hl.
    assert (length (nodes s) ≤ length ns1) as Hlen by (by apply nodeExt_length).
    assert (isReal ns1 nv v) as Hrealv1 by (by eapply isReal_ext).
    split_and!.
    + apply (linksOK_link ns1 _ rtl1 parent' nv (rv - 1)); [done|done|done|lia| |done|].
      * destruct Hor as [->|?]; [|lia]. intros ->.
        destruct Hrealu as (nd1 & ? & ?), Hrealv as (nd2 & ? & ?). congruence.
      * replace (rv - 1 + 1)%Z with rv by lia. auto.
    + eapply degOK_close; [done|done|]. intros nd Hnd.
      destruct Hrealv1 as (nd' & ? & ?). congruence.
    + eexists. by rewrite (linkedTo_vertex _ _ _ _ Hl).
Qed.

Lemma handleEdges_links ranks v2n (es : list E) : ∀ s (m : list (E * list nat)) s' m',
  handleEdges ranks v2n es s m = Returns (s', m') →
  v2nOK ranks v2n s → linksOK s → degOK None (nodes s) →
  linksOK s' ∧ degOK None (nodes s')
  ∧ ∃ k, vertex <$> nodes s' = (vertex <$> nodes s) ++ replicate k None.
Proof.
  induction es as [|e es IH]; intros s m s' m'; cbn [handleEdges].
  - intros [= <- <-] _ ? ?. split_and!; [done..|]. exists 0. by rewrite app_nil_r.
  - destruct (handleEdge ranks v2n 2 (from e) (to e) s) as [[chain s1]| |] eqn:Hrun;
      cbn [mbind outcome_mbind outcome_bind]; [|done..].
    intros Hrest Hok Hlinks Hdeg.
    destruct (handleEdge_returns _ _ _ _ _ _ _ _ Hok Hrun) as (_ & Hext & Hrows).
    apply handleEdge_links in Hrun as (Hlinks1 & Hdeg1 & k1 & Hv1); [|done..].
    apply IH in Hrest as (Hlinks' & Hdeg' & k2 & Hv2); [|by eapply v2nOK_mono|done..].
    split_and!; [done..|]. exists (k1 + k2).
    by rewrite Hv2, Hv1, <- app_assoc, replicate_add.
Qed.

Lemma addRankedVertex_nodes ranks :
  NoDup (JsMap.keys ranks) →
  let b := foldl addRankedVertex initialBuilder ranks in
  ∀ n nd, nodes (store b) !! n = Some nd →
    parents nd = [] ∧ children nd = []
    ∧ ∃ v, vertex nd = Some v ∧ JsMap.get (vertexToLevelNode b) v = Some n.
Proof.
  induction ranks as [|[v0 r0] l IH] using rev_ind; intros Hnd; simpl.
  - intros n nd Hn. done.
  - unfold JsMap.keys in Hnd. rewrite fmap_app in Hnd.
    apply NoDup_app in Hnd as (Hnd & Hfresh & _).
    destruct (addRankedVertex_init l Hnd) as ([Hok1 _] & _).
    specialize (IH Hnd). simpl in IH.
    rewrite foldl_app. simpl.
    set (b := foldl addRankedVertex initialBuilder l) in *.
    intros n nd Hn. apply lookup_app_Some in Hn as [Hn|[Hge Hn]].
    + destruct (IH n nd Hn) as (Hp & Hc & v & Hv & Hget). split_and!; [done..|].
      exists v. split; [done|]. rewrite JsMap_get_set_ne; [done|].
      intros <-. destruct (Hok1 v0 n Hget) as (_ & r & Hr & _).
      apply (Hfresh v0).
      * apply JsMap_get_is_Some_keys. by rewrite Hr.
      * simpl. by apply list_elem_of_singleton.
    + destruct (n - length (nodes (store b))) as [|k] eqn:Hk; simpl in Hn; [|done].
      injection Hn as <-. simpl. split_and!; [done..|]. exists v0. split; [done|].
      rewrite JsMap_get_set_eq. f_equal. lia.
Qed.
End link_build.

Section links_result.
Context {V E : Type} `{EqDecision V, EqDecision E, Edge V E}.
Variable sortBy : (nat → option Q) → list nat → list nat.
Hypothesis sortBy_perm : ∀ key l, sortBy key l ≡ₚ l.

Lemma indexOnly_inv (ns ns' : list (LevelNode V)) n nd' :
  indexOnly ns ns' → ns' !! n = Some nd' →
  ∃ nd, ns !! n = Some nd ∧ vertex nd' = vertex nd
        ∧ parents nd' = parents nd ∧ children nd' = children nd.
Proof.
  intros [Hlen Hio] Hn'. pose proof (lookup_lt_Some _ _ _ Hn') as Hlt.
  rewrite Hlen in Hlt. destruct (lookup_lt_is_Some_2 _ _ Hlt) as [nd Hn].
  destruct (Hio n nd Hn) as (nd'' & Hn'' & ? & ? & ?). exists nd. by simplify_eq.
Qed.

Lemma inRow_key (rtl : list (Z * list nat)) r n :
  inRow rtl r n → r ∈ JsMap.keys rtl.
Proof. intros (row & Hrow & _). apply JsMap_get_is_Some_keys. by rewrite Hrow. Qed.

Lemma ranksToLevels_links (ranks : list (V * Z)) (edges : list E) res :
  NoDup (JsMap.keys ranks) →
  ranksToLevels sortBy ranks edges = Returns res →
  (∀ a b na nb, levelNodes res !! a = Some na → levelNodes res !! b = Some nb →
     (b ∈ children na ↔ a ∈ parents nb))
  ∧ (∀ a na b, levelNodes res !! a = Some na → b ∈ children na →
       ∃ r, inLevel (levels res) (minRankOf ranks) r a
            ∧ inLevel (levels res) (minRankOf ranks) (r + 1) b)
  ∧ (∀ n nd, levelNodes res !! n = Some nd → vertex nd = None →
       length (parents nd) = 1 ∧ length (children nd) = 1)
  ∧ (∀ n nd v, levelNodes res !! n = Some nd → vertex nd = Some v →
       ∃ r, JsMap.get ranks v = Some r
            ∧ inLevel (levels res) (minRankOf ranks) r n
            ∧ ∀ n', isReal (levelNodes res) n' v → n' = n)
  ∧ (∀ v r, JsMap.get ranks v = Some r →
       ∃ n, isReal (levelNodes res) n v ∧ inLevel (levels res) (minRankOf ranks) r n).
Proof.
  intros Hnd. unfold ranksToLevels.
  destruct (addRankedVertex_init ranks Hnd) as (Hok & Hmin & Hmax).
  pose proof (addRankedVertex_nodes ranks Hnd) as Hinit. simpl in Hinit.
  pose proof (addRankedVertex_storeInv ranks initialBuilder) as Hinv.
  set (b := foldl addRankedVertex initialBuilder ranks) in *.
  rewrite Hmin, Hmax in *.
  destruct (handleEdges ranks (vertexToLevelNode b) edges (store b) [])
    as [[s m]| |] eqn:Hedges; cbn [mbind outcome_mbind outcome_bind]; [|done..].
  pose proof Hedges as Hret.
  apply handleEdges_returns in Hret as (Hext & Hrows & _ & _); [|done|done].
  pose proof Hedges as Hsto.
  apply handleEdges_storeInv in Hsto as [(_ & _ & Hrange) _].
  2:{ apply Hinv. split_and!; simpl; [done|constructor|].
      intros k Hk. by apply elem_of_nil in Hk. }
  assert (v2nOK ranks (vertexToLevelNode b) s) as Hok' by (by eapply v2nOK_mono).
  apply handleEdges_links in Hedges as (Hlinks & Hdeg & k & Hvs); [|done| |].
  2:{ split_and!.
      - intros a0 b0 na nb Ha Hb. destruct (Hinit a0 na Ha) as (_ & -> & _).
        destruct (Hinit b0 nb Hb) as (-> & _). by rewrite !elem_of_nil.
      - intros a0 na b0 Ha Hin. destruct (Hinit a0 na Ha) as (_ & Hc & _).
        rewrite Hc in Hin. by apply elem_of_nil in Hin.
      - intros b0 nb a0 Hb Hin. destruct (Hinit b0 nb Hb) as (Hp & _).
        rewrite Hp in Hin. by apply elem_of_nil in Hin. }
  2:{ intros n nd Hn Hv. destruct (Hinit n nd Hn) as (_ & _ & v & ? & _). congruence. }
  assert (realOK (vertexToLevelNode b) (nodes s)) as Hreal.
  { eapply realOK_ext; [|done]. intros n nd v Hn Hv.
    destruct (Hinit n nd Hn) as (_ & _ & v' & ? & ?). congruence. }
  destruct (collectLevels _ _ _ _ _) as [ns1 levels1] eqn:Hcollect.
  pose proof (minimizeCrossings_rows sortBy sortBy_perm (ns1, levels1)) as [Hio Hperm].
  destruct (minimizeCrossings sortBy (ns1, levels1)) as [ns2 levels2].
  simpl in Hio, Hperm. intros [= <-]. cbn [levelNodes levels edgeToLevelNodes].
  pose proof Hcollect as Hio1. apply collectLevels_spec in Hio1 as [Hio1 _].
  assert (indexOnly (nodes s) ns2) as Hio2 by (by eapply indexOnly_trans).
  assert (∀ r n, inRow (rankToLevel s) r n → inLevel levels2 (minRankOf ranks) r n)
    as Hlevel.
  { intros r n Hr. eapply inLevel_perm; [done|].
    eapply collectLevels_inLevel; [done| |done].
    apply Hrange. by eapply inRow_key. }
  destruct Hlinks as (Hsym & Hch & Hpa). destruct Hok' as [Hok1 Hok2].
  split_and!.
  - intros a0 b0 na nb Ha Hb.
    destruct (indexOnly_inv _ _ _ _ Hio2 Ha) as (na0 & Ha0 & _ & _ & ->).
    destruct (indexOnly_inv _ _ _ _ Hio2 Hb) as (nb0 & Hb0 & _ & -> & _).
    by apply Hsym.
  - intros a0 na b0 Ha Hin.
    destruct (indexOnly_inv _ _ _ _ Hio2 Ha) as (na0 & Ha0 & _ & _ & Hc).
    rewrite Hc in Hin. destruct (Hch a0 na0 b0 Ha0 Hin) as (_ & r & ? & ?).
    exists r. auto.
  - intros n nd Hn Hv.
    destruct (indexOnly_inv _ _ _ _ Hio2 Hn) as (nd0 & Hn0 & Hv0 & -> & ->).
    rewrite Hv0 in Hv. by destruct (Hdeg n nd0 Hn0 Hv).
  - intros n nd v Hn Hv.
    destruct (indexOnly_inv _ _ _ _ Hio2 Hn) as (nd0 & Hn0 & Hv0 & _ & _).
    rewrite Hv0 in Hv. pose proof (Hreal n nd0 v Hn0 Hv) as Hget.
    destruct (Hok1 v n Hget) as (_ & r & Hr & Hrow).
    exists r. split_and!; [done|auto|].
    intros n' (nd' & Hn' & Hv').
    destruct (indexOnly_inv _ _ _ _ Hio2 Hn') as (nd0' & Hn0' & Hv0' & _ & _).
    rewrite Hv0' in Hv'. pose proof (Hreal n' nd0' v Hn0' Hv'). congruence.
  - intros v r Hr. destruct (Hok2 v r Hr) as [n Hn].
    destruct (Hok1 v n Hn) as (Hisreal & r' & Hr' & Hrow). simplify_eq.
    exists n. split; [|auto].
    eapply isReal_ext; [|done]. by apply indexOnly_nodeExt.
Qed.
End links_result.

(** ** The view *)

Section render_facts.
Context {V E : Type} `{EqDecision V, EqDecision E, Edge V E}.
Implicit Types (ns : list (LevelNode V)) (positions : list (nat * Rect.t)).

Lemma renderLevel_returns ns positions (level : list nat) :
  (∀ n, n ∈ level → is_Some (JsMap.get positions n)) →
  ∃ group, renderLevel ns positions level = inr group
    ∧ Forall2 (λ n el, renderNode ns positions n = inr el) level group.
Proof.
  induction level as [|n level IH]; intros Hpos; simpl; [eauto|].
  destruct (Hpos n) as [pos Hn]; [apply elem_of_cons; auto|].
  destruct IH as (group & -> & Hall).
  { intros m Hm. apply Hpos, elem_of_cons. auto. }
  unfold renderNode at 1. rewrite Hn.
  destruct (ns !! n ≫= vertex) as [v|] eqn:Hv; eexists; (split; [done|]);
    constructor; try done; unfold renderNode; by rewrite Hv, ?Hn.
Qed.

Lemma renderLevels_returns ns positions (levels : list (list nat)) :
  (∀ n, n ∈ concat levels → is_Some (JsMap.get positions n)) →
  ∃ groups, renderLevels ns positions levels = inr groups
    ∧ Forall2 (Forall2 (λ n el, renderNode ns positions n = inr el)) levels groups.
Proof.
  induction levels as [|level levels IH]; intros Hpos; simpl; [eauto|].
  destruct (renderLevel_returns ns positions level) as (group & -> & Hgroup).
  { intros n Hn. apply Hpos. simpl. apply elem_of_app. auto. }
  destruct IH as (groups & -> & Hall).
  { intros n Hn. apply Hpos. simpl. apply elem_of_app. auto. }
  eauto.
Qed.

Lemma Forall2_concat {A B} (P : A → B → Prop) (ls : list (list A)) (ks : list (list B)) :
  Forall2 (Forall2 P) ls ks → Forall2 P (concat ls) (concat ks).
Proof. induction 1; simpl; [done|]. by apply Forall2_app. Qed.

Lemma omap_cons {A B} (f : A → option B) (x : A) (l : list A) :
  omap f (x :: l) = match f x with Some y => y :: omap f l | None => omap f l end.
Proof. done. Qed.

Lemma drawn_labels ns positions (l : list nat) (els : list (option (NodeElement V))) :
  Forall2 (λ n el, renderNode ns positions n = inr el) l els →
  label <$> omap id els = omap (λ n, ns !! n ≫= vertex) l.
Proof.
  induction 1 as [|n el l els Hn _ IH]; [done|].
  rewrite !omap_cons. unfold renderNode in Hn.
  destruct (ns !! n ≫= vertex) as [v|] eqn:Hv.
  - destruct (JsMap.get positions n); [|done]. injection Hn as <-.
    cbn [id]. rewrite fmap_cons, IH. done.
  - injection Hn as <-. cbn [id]. done.
Qed.

Lemma NoDup_omap_inj {A B} (f : A → option B) (l : list A) :
  NoDup l →
  (∀ x y b, x ∈ l → y ∈ l → f x = Some b → f y = Some b → x = y) →
  NoDup (omap f l).
Proof.
  induction 1 as [|x l Hx Hnd IH]; intros Hinj; [constructor|].
  rewrite omap_cons. destruct (f x) as [b|] eqn:Hfx.
  - constructor.
    + intros (y & Hy & Hfy)%list_elem_of_omap.
      apply Hx. rewrite (Hinj x y b); [done|apply elem_of_cons; auto| |done|done].
      apply elem_of_cons. auto.
    + apply IH. intros y z c Hy Hz. apply Hinj; apply elem_of_cons; auto.
  - apply IH. intros y z c Hy Hz. apply Hinj; apply elem_of_cons; auto.
Qed.
End render_facts.

Section render_pipeline.
Context {V E : Type} `{EqDecision V, EqDecision E, Edge V E}.
Variable sortBy : (nat → option Q) → list nat → list nat.
Hypothesis sortBy_perm : ∀ key l, sortBy key l ≡ₚ l.

Lemma vertex_isReal (ns : list (LevelNode V)) n v :
  ns !! n ≫= vertex = Some v ↔ isReal ns n v.
Proof.
  unfold isReal. destruct (ns !! n) as [nd|]; simpl.
  - split; [eauto|]. by intros (nd' & [= <-] & ?).
  - split; [done|]. by intros (nd' & ? & ?).
Qed.

Lemma edgePath_starts positions (chain : list nat) path :
  edgePath (V:=V) positions chain = Returns path → ∃ p rest, path = MoveTo p :: rest.
Proof.
  destruct chain as [|from rest]; [done|]. simpl.
  destruct (JsMap.get positions from); [|done].
  intros (added & ->)%extendPath_prefix. simpl. eauto.
Qed.

Lemma render_built (g : Graph V E) :
  built g →
  ∃ layout view, layoutGraph sortBy g = Returns layout
    ∧ render g layout = inr view
    ∧ Forall2 (λ row group, length group = length row)
        (levels (levelResult layout)) (groups view)
    ∧ drawnVertices (groups view) ≡ₚ getVertices g
    ∧ (∀ el, Some el ∈ concat (groups view) →
         (rectWidth el == width)%Q ∧ (rectHeight el == height)%Q)
    ∧ length (paths view) = length (getEdges g)
    ∧ ∀ path, path ∈ paths view → ∃ p rest, path = MoveTo p :: rest.
Proof.
  intros Hbuilt.
  destruct (layoutGraph_built sortBy sortBy_perm g Hbuilt)
    as (layout & Hrun & Hranks & Hres & Hpos & Hpaths).
  destruct (rankVertices_any g Hbuilt) as (ranks & Hranks' & Hnd & Hkeys & _).
  rewrite Hranks in Hranks'. injection Hranks' as <-.
  destruct (ranksToLevels_partition sortBy sortBy_perm _ _ _ Hres)
    as (Hp & _ & Hchains & _).
  destruct (ranksToLevels_links sortBy sortBy_perm _ _ _ Hnd Hres)
    as (_ & _ & _ & Hreal & Hranked).
  destruct (built_NoDup g Hbuilt) as [Hvs Hedges].
  set (ns := levelNodes (levelResult layout)) in *.
  set (rows := levels (levelResult layout)) in *.
  assert (NoDup (concat rows)) as Hndrows by (rewrite Hp; apply NoDup_seq).
  destruct (renderLevels_returns ns (nodePositions layout) rows) as (gs & Hgs & Hall).
  { intros n Hn. rewrite Hpos. by apply positionNodes_defined. }
  exists layout, (mkView gs (renderPaths (getEdges g) (edgePaths layout))).
  split; [done|]. split; [unfold render; fold ns rows; by rewrite Hgs|].
  cbn [groups paths]. split_and!.
  - eapply Forall2_impl; [exact Hall|]. intros row group Hrg.
    symmetry. by eapply Forall2_length.
  - unfold drawnVertices.
    rewrite (drawn_labels ns (nodePositions layout) (concat rows) (concat gs))
      by (by apply Forall2_concat).
    apply NoDup_Permutation; [|done|].
    + apply NoDup_omap_inj; [done|]. intros x y v _ _ Hx%vertex_isReal Hy%vertex_isReal.
      destruct Hx as (nd & Hx & Hv).
      destruct (Hreal x nd v Hx Hv) as (_ & _ & _ & Huniq). symmetry. by apply Huniq.
    + intros v. rewrite list_elem_of_omap. unfold getVertices. rewrite <- Hkeys. split.
      * intros (n & _ & (nd & Hn & Hv)%vertex_isReal).
        destruct (Hreal n nd v Hn Hv) as (r & Hr & _).
        apply JsMap_get_is_Some_keys. by rewrite Hr.
      * intros [r Hr]%JsMap_get_is_Some_keys.
        destruct (Hranked v r Hr) as (n & Hn & Hlevel).
        exists n. split; [by eapply inLevel_concat|by apply vertex_isReal].
  - intros el [j Hj]%list_elem_of_lookup_1.
    destruct (Forall2_lookup_r _ _ _ _ _ (Forall2_concat _ _ _ Hall) Hj)
      as (n & Hn & Hrender).
    unfold renderNode in Hrender.
    destruct (ns !! n ≫= vertex) as [v|] eqn:Hv; [|done].
    destruct (JsMap.get (nodePositions layout) n) as [pos|] eqn:Hposn; [|done].
    injection Hrender as <-. cbn [rectWidth rectHeight].
    apply list_elem_of_lookup_2, elem_of_concat in Hn as (row & Hrow & Hin).
    apply list_elem_of_lookup_1 in Hrow as [i Hrow].
    rewrite Hpos in Hposn. unfold positionNodes in Hposn.
    destruct (placeLevel_fold_row ns (totalWidth rows) rows 0%Q [] Hndrows i row n Hrow Hin)
      as (rect & Hrect & Hrr).
    rewrite Hposn in Hrect. injection Hrect as <-.
    unfold rowRect, hasVertex in Hrr.
    apply vertex_isReal in Hv as (nd & Hn' & Hv). rewrite Hn', Hv in Hrr.
    by destruct Hrr as (_ & ? & ?).
  - unfold renderPaths. by rewrite length_fmap.
  - unfold renderPaths. intros path (e & -> & He)%list_elem_of_fmap.
    rewrite (foldl_JsSet_add_NoDup (getEdges g) []) in Hchains by done.
    simpl in Hchains.
    assert (∃ chain, (e, chain) ∈ edgeToLevelNodes (levelResult layout)) as [chain Hin].
    { rewrite <- Hchains in He.
      apply list_elem_of_fmap in He as ([e' chain] & -> & Hin). eauto. }
    destruct (makeEdgePathsFrom_lookup _ _ _ _ Hpaths) with (e := e) (chain := chain)
      as (path & Hget & Hpath); [by rewrite Hchains|done|].
    rewrite Hget. simpl. by eapply edgePath_starts.
Qed.
End render_pipeline.

(** ** The earlier variant of the geometry *)

Section part001_facts.
Context {V : Type}.
Implicit Types (ns : list (LevelNode V)) (row : list nat)
  (levels : list (list nat)) (pos : list (nat * Rect.t)).
Local Open Scope Q_scope.

Lemma maxCount_attained levels :
  levels ≠ [] → ∃ row, row ∈ levels ∧ length row = maxCount levels.
Proof.
  unfold maxCount. intros Hne.
  assert (∀ acc, foldl (λ max cur, Nat.max max (length cur)) acc levels = acc
                 ∨ ∃ row, row ∈ levels
                     ∧ length row = foldl (λ max cur, Nat.max max (length cur)) acc levels)
    as Hgen.
  { clear Hne. induction levels as [|row0 levels IH]; intros acc; simpl; [by left|].
    destruct (IH (Nat.max acc (length row0))) as [Heq|(row & Hin & Hlen)].
    - rewrite Heq. destruct (Nat.max_spec acc (length row0)) as [[_ ->]|[_ ->]].
      + right. exists row0. split; [apply elem_of_cons; auto|done].
      + by left.
    - right. exists row. split; [apply elem_of_cons; auto|done]. }
  destruct (Hgen 0%nat) as [Heq|?]; [|done].
  destruct levels as [|row0 levels]; [done|].
  exists row0. split; [apply elem_of_cons; auto|].
  pose proof (maxCount_ge (row0 :: levels) row0) as Hge. unfold maxCount in Hge.
  rewrite Heq in *. specialize (Hge ltac:(apply elem_of_cons; auto)). lia.
Qed.

Lemma part001_placeNode_fold ns y row : ∀ x pos,
  NoDup row →
  (∀ m, m ∉ row →
     JsMap.get (foldl (Part001.placeNode ns y) (x, pos) row).2 m = JsMap.get pos m)
  ∧ (∀ j n, row !! j = Some n →
       ∃ rect, JsMap.get (foldl (Part001.placeNode ns y) (x, pos) row).2 n = Some rect
         ∧ Rect.top rect == (if hasVertex ns n then y else y + height / 2)
         ∧ Rect.left rect
           == x + inject_Z (Z.of_nat j) * (width + horizontalSpacing)
              + (if hasVertex ns n then 0 else width / 2)
         ∧ Rect.width rect == (if hasVertex ns n then width else 0)
         ∧ Rect.height rect == (if hasVertex ns n then height else 0)).
Proof.
  induction row as [|n row IH]; intros x pos Hnd.
  - split; [done|]. intros j n Hn. done.
  - apply NoDup_cons in Hnd as [Hn Hnd]. cbn [foldl].
    destruct (Part001.placeNode ns y (x, pos) n) as [x1 pos1] eqn:Hplace.
    destruct (IH x1 pos1 Hnd) as (Hother & Hslots).
    unfold Part001.placeNode in Hplace. injection Hplace as <- <-.
    split.
    + intros m [Hm Hm']%not_elem_of_cons. rewrite Hother by done.
      destruct (hasVertex ns n); by rewrite JsMap_get_set_ne.
    + intros [|j] n' Hn'; cbn [lookup list_lookup] in Hn'.
      * injection Hn' as <-. rewrite Hother by done.
        destruct (hasVertex ns n); rewrite JsMap_get_set_eq; eexists; (split; [done|]);
          unfold Rect.top, Rect.left, Rect.width, Rect.height; cbn;
          split_and!; try reflexivity; ring.
      * destruct (Hslots j n' Hn') as (rect & Hrect & Ht & Hl & Hw & Hh).
        exists rect. split_and!; [done|done| |done|done].
        rewrite Hl. rewrite Nat2Z.inj_succ. unfold Z.succ. rewrite inject_Z_plus.
        change (inject_Z 1) with 1. ring.
Qed.

Lemma part001_placeLevel_fold ns total levels : ∀ y pos,
  NoDup (concat levels) →
  (∀ m, m ∉ concat levels →
     JsMap.get (foldl (Part001.placeLevel ns total) (y, pos) levels).2 m
     = JsMap.get pos m)
  ∧ (∀ i row j n, levels !! i = Some row → row !! j = Some n →
       ∃ rect, JsMap.get (foldl (Part001.placeLevel ns total) (y, pos) levels).2 n
               = Some rect
         ∧ Rect.top rect
           == y + inject_Z (Z.of_nat i) * (height + verticalSpacing)
              + (if hasVertex ns n then 0 else height / 2)
         ∧ Rect.left rect
           == (total - Part001.levelWidth row) / 2
              + inject_Z (Z.of_nat j) * (width + horizontalSpacing)
              + (if hasVertex ns n then 0 else width / 2)
         ∧ Rect.width rect == (if hasVertex ns n then width else 0)
         ∧ Rect.height rect == (if hasVertex ns n then height else 0)).
Proof.
  induction levels as [|row0 levels IH]; intros y pos Hnd; simpl.
  - split; [done|]. intros i row j n Hi. done.
  - apply NoDup_app in Hnd as (Hnd0 & Hdisj & Hnd).
    destruct (part001_placeNode_fold ns y row0
                (total / 2 - Part001.levelWidth row0 / 2) pos Hnd0)
      as (Hother0 & Hslots0).
    unfold Part001.placeLevel at 2.
    destruct (foldl (Part001.placeNode ns y) _ row0) as [x1 pos1].
    destruct (IH (y + (height + verticalSpacing)) pos1 Hnd) as (Hother & Hslots).
    simpl in Hother0, Hslots0. split.
    + intros m [Hm0 Hm]%not_elem_of_app. rewrite Hother by done. by apply Hother0.
    + intros [|i] row j n Hrow Hn; simpl in Hrow.
      * injection Hrow as <-.
        destruct (Hslots0 j n Hn) as (rect & Hrect & Ht & Hl & Hw & Hh).
        exists rect. split.
        { rewrite Hother; [done|]. apply Hdisj. by eapply list_elem_of_lookup_2. }
        split_and!; [|rewrite Hl|done|done].
        -- rewrite Ht. change (inject_Z (Z.of_nat 0)) with 0.
           destruct (hasVertex ns n); ring.
        -- unfold Qdiv. ring.
      * destruct (Hslots i row j n Hrow Hn) as (rect & Hrect & Ht & Hl & Hw & Hh).
        exists rect. split_and!; [done| |done|done|done].
        rewrite Ht. rewrite Nat2Z.inj_succ. unfold Z.succ. rewrite inject_Z_plus.
        change (inject_Z 1) with 1. ring.
Qed.

Lemma part001_levelWidth_le levels row :
  row ∈ levels → Part001.levelWidth row <= totalWidth levels.
Proof.
  intros Hin. pose proof (maxCount_ge levels row Hin) as Hmax.
  unfold totalWidth, Part001.levelWidth, Z.sub.
  rewrite !inject_Z_plus, !inject_Z_opp.
  assert (inject_Z (Z.of_nat (length row)) <= inject_Z (Z.of_nat (maxCount levels))) as Hc.
  { rewrite <- Zle_Qle. lia. }
  unfold width, horizontalSpacing, Qdiv. change (/ 2) with (1 # 2).
  change (inject_Z 1) with 1. nra.
Qed.

Lemma part001_extendPath_shape (defaultRect : Rect.t) positions (rest : list nat) :
  ∀ from path,
  ∃ added, Part001.extendPath defaultRect positions from rest path = path ++ added
    ∧ length added = length rest
    ∧ ∀ i a b, (from :: rest) !! i = Some a → rest !! i = Some b →
        added !! i
        = Some (Part001.MoveLine
                  (segmentAnchors (default defaultRect (JsMap.get positions a))
                                  (default defaultRect (JsMap.get positions b))).1
                  (segmentAnchors (default defaultRect (JsMap.get positions a))
                                  (default defaultRect (JsMap.get positions b))).2).
Proof.
  induction rest as [|to rest IH]; intros from path; simpl.
  - exists []. rewrite app_nil_r. split_and!; [done..|]. intros i a b _ Hb. done.
  - destruct (segmentAnchors _ _) as [fromAnchor toAnchor] eqn:Hseg.
    destruct (IH to (path ++ [Part001.MoveLine fromAnchor toAnchor]))
      as (added & -> & Hlen & Hshape).
    eexists (_ :: added). rewrite <- app_assoc. split_and!; [done|simpl; lia|].
    intros [|i] a b Ha Hb; simpl in *.
    + simplify_eq. by rewrite Hseg.
    + by apply Hshape.
Qed.
End part001_facts.

(** ** Chains and their paths *)

Section chain_geometry.
Context {V E : Type} `{EqDecision V, EqDecision E, Edge V E}.
Implicit Types (ns : list (LevelNode V)) (levels : list (list nat)) (chain : list nat).
Local Open Scope Q_scope.

Lemma chainSpec_row_of ns (rowOf : Z → nat → Prop) u ru v rv chain i n :
  chainSpec ns rowOf u ru v rv chain → chain !! i = Some n →
  rowOf (ru + Z.of_nat i)%Z n.
Proof.
  intros (Hlen & (nu & Hhd & _ & Hru) & (nv & Hlast & _ & Hrv) & Hmid & _) Hi.
  pose proof (lookup_lt_Some _ _ _ Hi) as Hlt.
  destruct (decide (i = 0%nat)) as [->|Hi0].
  { rewrite <- head_lookup, Hhd in Hi. injection Hi as <-.
    by replace (ru + Z.of_nat 0)%Z with ru by lia. }
  destruct (decide (S i = length chain)) as [Hil|Hil].
  { rewrite last_lookup, <- Hil in Hlast. simpl in Hlast.
    rewrite Hi in Hlast. injection Hlast as <-.
    by replace (ru + Z.of_nat i)%Z with rv by lia. }
  destruct (Hmid i n) as [_ Hrow]; [lia|lia|done|done].
Qed.

(** A node of row [k] has its rectangle in the band of that row. *)
Lemma inLevel_top ns levels least r n :
  NoDup (concat levels) → inLevel levels least r n →
  ∃ rect, JsMap.get (positionNodes ns levels) n = Some rect
    ∧ inject_Z (r - least) * (height + verticalSpacing) <= Rect.top rect
    ∧ Rect.top rect <= inject_Z (r - least) * (height + verticalSpacing) + height / 2.
Proof.
  intros Hnd [Hr (row & Hrow & Hin)]. unfold positionNodes.
  destruct (placeLevel_fold_row ns (totalWidth levels) levels 0 [] Hnd _ row n Hrow Hin)
    as (rect & Hrect & Hrr).
  exists rect. split; [done|]. rewrite Z2Nat.id in Hrr by lia.
  unfold rowRect in Hrr. unfold height, verticalSpacing, Qdiv in *.
  change (/ 2) with (1 # 2) in *.
  destruct (hasVertex ns n); destruct Hrr as (Ht & _ & _); split; lra.
Qed.

(** Down a chain, every node lies below the one before. *)
Lemma chainSpec_tops ns levels least u ru v rv chain i a b :
  NoDup (concat levels) →
  chainSpec ns (inLevel levels least) u ru v rv chain →
  chain !! i = Some a → chain !! S i = Some b →
  ∃ ra rb, JsMap.get (positionNodes ns levels) a = Some ra
    ∧ JsMap.get (positionNodes ns levels) b = Some rb
    ∧ Rect.top ra < Rect.top rb.
Proof.
  intros Hnd Hspec Ha Hb.
  pose proof (chainSpec_row_of _ _ _ _ _ _ _ _ _ Hspec Ha) as Hrowa.
  pose proof (chainSpec_row_of _ _ _ _ _ _ _ _ _ Hspec Hb) as Hrowb.
  destruct (inLevel_top ns levels least _ a Hnd Hrowa) as (ra & Hra & Hlo & Hhi).
  destruct (inLevel_top ns levels least _ b Hnd Hrowb) as (rb & Hrb & Hlo' & Hhi').
  exists ra, rb. split_and!; [done..|].
  replace (ru + Z.of_nat (S i) - least)%Z with (ru + Z.of_nat i - least + 1)%Z in Hlo'
    by lia.
  rewrite inject_Z_plus in Hlo'. change (inject_Z 1) with 1 in Hlo'.
  unfold height, verticalSpacing, Qdiv in *. change (/ 2) with (1 # 2) in *. lra.
Qed.
End chain_geometry.

Section chain_paths.
Context {V E : Type} `{EqDecision V, EqDecision E, Edge V E}.
Variable sortBy : (nat → option Q) → list nat → list nat.
Hypothesis sortBy_perm : ∀ key l, sortBy key l ≡ₚ l.
Local Open Scope Q_scope.

(** The path of a recorded chain, and the rectangles along it. *)
Lemma recorded_chain_path (ranks : list (V * Z)) (edges : list E) res e chain :
  NoDup (JsMap.keys ranks) →
  ranksToLevels sortBy ranks edges = Returns res →
  JsMap.get (edgeToLevelNodes res) e = Some chain →
  NoDup (concat (levels res))
  ∧ chainBetween (levelNodes res) (inLevel (levels res) (minRankOf ranks))
      ranks (from e) (to e) chain
  ∧ ∃ first firstRect rest added,
      chain = first :: rest
      ∧ JsMap.get (positionNodes (levelNodes res) (levels res)) first = Some firstRect
      ∧ edgePath (V:=V) (positionNodes (levelNodes res) (levels res)) chain
        = Returns (MoveTo (Vec2.plus (topCenter firstRect)
                                     (Vec2.mk 0 (Rect.height firstRect))) :: added)
      ∧ ∀ i a b ra rb, chain !! i = Some a → chain !! S i = Some b →
          JsMap.get (positionNodes (levelNodes res) (levels res)) a = Some ra →
          JsMap.get (positionNodes (levelNodes res) (levels res)) b = Some rb →
          added !! i
          = Some (SmoothTo
                    (Vec2.times (Vec2.plus (segmentAnchors ra rb).1 (segmentAnchors ra rb).2)
                                (1 / 2))
                    (segmentAnchors ra rb).2).
Proof.
  intros Hnd Hres Hget.
  destruct (ranksToLevels_partition sortBy sortBy_perm ranks edges res Hres)
    as (Hp & _ & _ & _).
  pose proof (ranksToLevels_entries sortBy sortBy_perm ranks edges res Hnd Hres e chain Hget)
    as Hchain.
  split; [rewrite Hp; apply NoDup_seq|]. split; [done|].
  destruct (chainBetween_rows _ _ _ _ _ _ Hchain) as [Hne Hrows].
  destruct chain as [|first rest]; [done|].
  destruct (proj2 (positionNodes_defined (levelNodes res) (levels res) first))
    as [firstRect Hfirst].
  { destruct (Hrows first) as [r Hr]; [apply elem_of_cons; auto|].
    by eapply inLevel_concat. }
  destruct (extendPath_returns (V:=V)
              (positionNodes (levelNodes res) (levels res)) rest first
              [MoveTo (Vec2.plus (topCenter firstRect) (Vec2.mk 0 (Rect.height firstRect)))])
    as [path Hpath].
  { intros n Hn. apply positionNodes_defined.
    destruct (Hrows n Hn) as [r Hr]. by eapply inLevel_concat. }
  pose proof Hpath as Hshape.
  apply extendPath_shape in Hshape as (added & -> & _ & Hshape).
  exists first, firstRect, rest, added. split_and!; [done|done| |done].
  simpl. by rewrite Hfirst, Hpath.
Qed.
End chain_paths.

Section chain_faces.
Context {V E : Type} `{EqDecision V, EqDecision E, Edge V E}.
Variable sortBy : (nat → option Q) → list nat → list nat.
Hypothesis sortBy_perm : ∀ key l, sortBy key l ≡ₚ l.

(** Down the chain of a forward edge the path leaves and enters every
    rectangle by the facing edge. *)
Lemma forward_chain_faces (ranks : list (V * Z)) (edges : list E) (res : LevelResult V E)
    (e : E) (ru rv : Z) (chain : list nat) :
  NoDup (JsMap.keys ranks) →
  ranksToLevels sortBy ranks edges = Returns res →
  JsMap.get ranks (from e) = Some ru → JsMap.get ranks (to e) = Some rv →
  (ru < rv)%Z →
  JsMap.get (edgeToLevelNodes res) e = Some chain →
  ∃ path first firstRect p,
    edgePath (V:=V) (positionNodes (levelNodes res) (levels res)) chain = Returns path
    ∧ head chain = Some first
    ∧ JsMap.get (positionNodes (levelNodes res) (levels res)) first = Some firstRect
    ∧ path !! 0 = Some (MoveTo p)
    ∧ (Vec2.x p == Rect.left firstRect + Rect.width firstRect / 2)%Q
    ∧ (Vec2.y p == Rect.top firstRect + Rect.height firstRect)%Q
    ∧ ∀ i a b, chain !! i = Some a → chain !! S i = Some b →
        ∃ ra rb mid q,
          JsMap.get (positionNodes (levelNodes res) (levels res)) a = Some ra
          ∧ JsMap.get (positionNodes (levelNodes res) (levels res)) b = Some rb
          ∧ (Rect.top ra < Rect.top rb)%Q
          ∧ path !! S i = Some (SmoothTo mid q)
          ∧ (Vec2.x q == Rect.left rb + Rect.width rb / 2)%Q
          ∧ (Vec2.y q == Rect.top rb)%Q.
Proof.
  intros Hnd Hres Hru Hrv Hlt Hget.
  destruct (recorded_chain_path sortBy sortBy_perm ranks edges res e chain Hnd Hres Hget)
    as (Hnd' & (ru' & rv' & Hru' & Hrv' & Hspec)
        & first & firstRect & rest & added & -> & Hfirst & Hpath & Hshape).
  simplify_eq. rewrite decide_True in Hspec by lia.
  eexists _, first, firstRect, _. split_and!; [done|done|done|done| | |].
  - cbn [Vec2.x Vec2.y Vec2.plus topCenter]. unfold Qdiv. ring.
  - cbn [Vec2.x Vec2.y Vec2.plus topCenter]. reflexivity.
  - intros i a b Ha Hb.
    destruct (chainSpec_tops _ _ _ _ _ _ _ _ i a b Hnd' Hspec Ha Hb)
      as (ra & rb & Hra & Hrb & Htop).
    specialize (Hshape i a b ra rb Ha Hb Hra Hrb).
    pose proof (segmentAnchors_spec ra rb) as Hanchors.
    destruct (segmentAnchors ra rb) as [fromAnchor toAnchor].
    destruct Hanchors as (_ & Htx & Hdown & _). destruct (Hdown Htop) as [_ Hty].
    eexists ra, rb, _, _. split_and!; [done|done|done|exact Hshape|done|done].
Qed.
End chain_faces.

(** ** Rows and ranks *)

Lemma foldl_max_attained (l : list Z) (z : Z) :
  foldl Z.max z l = z ∨ foldl Z.max z l ∈ l.
Proof.
  revert z. induction l as [|x l IH]; intros z; simpl; [by left|].
  destruct (IH (Z.max z x)) as [->|Hin].
  - destruct (Z.max_spec z x) as [[_ ->]|[_ ->]]; [right; apply elem_of_cons; auto|by left].
  - right. apply elem_of_cons; auto.
Qed.

Lemma foldl_min_nonneg (l : list Z) :
  (∀ x, x ∈ l → (0 ≤ x)%Z) → foldl Z.min 0%Z l = 0%Z.
Proof.
  induction l as [|x l IH]; intros Hall; simpl; [done|].
  rewrite Z.min_l by (apply Hall, elem_of_cons; auto).
  apply IH. intros y Hy. apply Hall, elem_of_cons; auto.
Qed.

Section rows_and_ranks.
Context {V E : Type} `{EqDecision V, EqDecision E, Edge V E}.

(** When every ranked vertex is at rank 0 or has an entering edge from
    the rank just below, every rank from 0 up to the rank of a vertex is
    the rank of some vertex. *)
Lemma ranks_inhabited (g : Graph V E) (m : list (V * Z)) :
  (∀ v r, JsMap.get m v = Some r →
     r = 0%Z ∨ ∃ e, e ∈ edges g ∧ to e = v ∧ JsMap.get m (from e) = Some (r - 1)%Z) →
  ∀ v r k, JsMap.get m v = Some r → (0 ≤ k ≤ r)%Z → ∃ w, JsMap.get m w = Some k.
Proof.
  intros Htight v r k Hr Hk.
  remember (Z.to_nat (r - k)) as n eqn:Hn. revert v r Hr Hk Hn.
  induction n as [|n IH]; intros v r Hr Hk Hn.
  - exists v. rewrite Hr. f_equal. lia.
  - destruct (Htight v r Hr) as [->|(e & _ & _ & He)]; [lia|].
    apply (IH (from e) (r - 1)%Z); [done|lia|lia].
Qed.

Lemma maxRankOf_attained (m : list (V * Z)) :
  NoDup (JsMap.keys m) →
  maxRankOf m = 0%Z ∨ ∃ v, JsMap.get m v = Some (maxRankOf m).
Proof.
  intros Hnd. unfold maxRankOf.
  destruct (foldl_max_attained (m.*2) 0%Z) as [->|Hin]; [by left|right].
  apply list_elem_of_fmap in Hin as ([v r] & Hr & Hin). simpl in Hr.
  exists v. rewrite Hr. by apply JsMap_elem_get.
Qed.
End rows_and_ranks.

(** ** The earlier variant of level construction *)

Section part001_levels.
Context {V E : Type} `{EqDecision V, EqDecision E, Edge V E}.
Implicit Types (ns : list (LevelNode V)) (s : LevelStore V).

Lemma part001_insertVirtualNodes_nodes count :
  ∀ rank chain s chain' s',
    Part001.insertVirtualNodes count rank chain s = (chain', s') →
    nodes s' = nodes s ++ replicate count (mkLevelNode [] [] None 0).
Proof.
  induction count as [|count IH]; intros rank chain s chain' s'; simpl.
  - intros [= _ <-]. by rewrite app_nil_r.
  - intros Hrun. apply IH in Hrun. simpl in Hrun. by rewrite Hrun, <- app_assoc.
Qed.

Lemma nodeExt_replicate ns (nd : LevelNode V) k : nodeExt ns (ns ++ replicate k nd).
Proof. intros n nd' Hn. exists nd'. by rewrite (lookup_app_l_Some _ _ _ _ Hn). Qed.

Lemma parentsOK_indexOnly ranks (edges : list E) ns ns' :
  indexOnly ns ns' → Part001.parentsOK ranks edges ns → Part001.parentsOK ranks edges ns'.
Proof.
  intros Hio Hok n nd' Hn'.
  destruct (indexOnly_inv ns ns' n nd' Hio Hn') as (nd & Hn & Hv & Hp & _).
  destruct (Hok n nd Hn) as [Hvirt Hpar]. rewrite Hv, Hp. split; [done|].
  intros p Hin. destruct (Hpar p Hin) as (u & v & ru & rv & e & Hreal & Hrest).
  exists u, v, ru, rv, e. split; [|done].
  eapply isReal_ext; [by apply indexOnly_nodeExt|done].
Qed.

Section one_edge.
Variable ranks : list (V * Z).
Variable v2n : list (V * nat).
Variable edges : list E.

Lemma part001_handleEdge_parents fuel :
  ∀ u v s chain s',
    (∀ w n, JsMap.get v2n w = Some n → isReal (nodes s) n w) →
    Part001.parentsOK ranks edges (nodes s) →
    (∃ e, e ∈ edges ∧ (from e = u ∧ to e = v ∨ from e = v ∧ to e = u)) →
    Part001.handleEdge ranks v2n fuel u v s = Returns (chain, s') →
    (∀ w n, JsMap.get v2n w = Some n → isReal (nodes s') n w)
    ∧ Part001.parentsOK ranks edges (nodes s').
Proof.
  induction fuel as [|fuel IH]; intros u v s chain s' Hreal Hok Hedge; simpl; [done|].
  case_decide as Huv.
  { destruct (JsMap.get v2n u); [|done]. by intros [= _ <-]. }
  destruct (JsMap.get ranks u) as [ru|] eqn:Hru; [|done].
  destruct (JsMap.get ranks v) as [rv|] eqn:Hrv; [|done].
  case_decide as Heq; [done|]. case_decide as Hlt.
  { destruct (Part001.handleEdge ranks v2n fuel v u s) as [[chain0 s0]| |] eqn:Hrun;
      cbn [mbind outcome_mbind outcome_bind]; [|done..].
    intros [= _ <-]. apply (IH v u s chain0 s0); [done|done| |done].
    destruct Hedge as (e & He & Hends). exists e. split; [done|tauto]. }
  destruct (JsMap.get v2n u) as [nu|] eqn:Hnu; [|done].
  destruct (JsMap.get v2n v) as [nv|] eqn:Hnv; [|done].
  destruct (Part001.insertVirtualNodes _ _ _ _) as [chain1 s1] eqn:Hins.
  apply part001_insertVirtualNodes_nodes in Hins.
  intros [= _ <-]. simpl. rewrite Hins.
  set (k := Z.to_nat (rv - (ru + 1))) in *.
  set (virt := mkLevelNode (V:=V) [] [] None 0) in *.
  assert (nodeExt (nodes s) (pushParent nv nu (nodes s ++ replicate k virt))) as Hext.
  { eapply nodeExt_trans; [apply nodeExt_replicate|apply nodeExt_pushParent]. }
  split.
  { intros w n Hn. eapply isReal_ext; [done|]. by apply Hreal. }
  intros n nd Hn. unfold pushParent in Hn.
  destruct (decide (n = nv)) as [->|Hne].
  - rewrite list_lookup_alter_eq in Hn.
    destruct (Hreal v nv Hnv) as (nd0 & Hnd0 & Hv0).
    rewrite (lookup_app_l_Some _ _ _ _ Hnd0) in Hn. simpl in Hn. injection Hn as <-.
    simpl. destruct (Hok nv nd0 Hnd0) as [_ Hpar]. split; [congruence|].
    intros p [Hin|Hin]%elem_of_app; [|apply list_elem_of_singleton in Hin as ->].
    + destruct (Hpar p Hin) as (u' & v' & ru' & rv' & e & Hreal' & Hrest).
      exists u', v', ru', rv', e. split; [|done]. by eapply isReal_ext.
    + destruct Hedge as (e & He & Hends).
      exists u, v, ru, rv, e.
      split_and!; [|done|done|done|lia|done|done].
      eapply isReal_ext; [done|]. by apply Hreal.
  - rewrite list_lookup_alter_ne in Hn by done.
    apply lookup_app_Some in Hn as [Hn|[_ Hn]].
    + destruct (Hok n nd Hn) as [Hvirt Hpar]. split; [done|].
      intros p Hin. destruct (Hpar p Hin) as (u' & v' & ru' & rv' & e & Hreal' & Hrest).
      exists u', v', ru', rv', e. split; [|done]. by eapply isReal_ext.
    + apply lookup_replicate in Hn as [-> _]. simpl. split; [done|].
      intros p Hin. by apply elem_of_nil in Hin.
Qed.

Lemma part001_handleEdges_parents (es : list E) :
  ∀ s m s' m',
    (∀ e, e ∈ es → e ∈ edges) →
    (∀ w n, JsMap.get v2n w = Some n → isReal (nodes s) n w) →
    Part001.parentsOK ranks edges (nodes s) →
    Part001.handleEdges ranks v2n es s m = Returns (s', m') →
    Part001.parentsOK ranks edges (nodes s').
Proof.
  induction es as [|e es IH]; intros s m s' m' Hsub Hreal Hok;
    cbn [Part001.handleEdges].
  - by intros [= <- _].
  - destruct (Part001.handleEdge ranks v2n 2 (from e) (to e) s) as [[chain s1]| |] eqn:Hrun;
      cbn [mbind outcome_mbind outcome_bind]; [|done..].
    destruct (part001_handleEdge_parents 2 (from e) (to e) s chain s1 Hreal Hok)
      as [Hreal1 Hok1]; [|done|].
    { exists e. split; [apply Hsub, elem_of_cons; auto|by left]. }
    apply IH; [|done|done]. intros e' He'. apply Hsub, elem_of_cons; auto.
Qed.
End one_edge.

Variable sortBy : (nat → option Q) → list nat → list nat.

Lemma foldl_sortLevel_indexOnly weight (idxs : list nat) :
  ∀ st : list (LevelNode V) * list (list nat),
    indexOnly st.1 (foldl (sortLevel sortBy weight) st idxs).1.
Proof.
  induction idxs as [|i idxs IH]; intros st; simpl; [apply indexOnly_refl|].
  eapply indexOnly_trans; [|apply IH].
  destruct st as [ns levels]. unfold sortLevel.
  destruct (levels !! i); simpl; [apply indexOnly_reindexFrom|apply indexOnly_refl].
Qed.

Lemma part001_ranksToLevels_parents (ranks : list (V * Z)) (edges : list E) res :
  NoDup (JsMap.keys ranks) →
  Part001.ranksToLevels sortBy ranks edges = Returns res →
  Part001.parentsOK ranks edges (levelNodes res).
Proof.
  intros Hnd. unfold Part001.ranksToLevels.
  destruct (addRankedVertex_init ranks Hnd) as ([Hok _] & _).
  pose proof (addRankedVertex_nodes ranks Hnd) as Hinit. simpl in Hinit.
  set (b := foldl addRankedVertex initialBuilder ranks) in *.
  destruct (Part001.handleEdges ranks (vertexToLevelNode b) edges (store b) [])
    as [[s m]| |] eqn:Hedges; cbn [mbind outcome_mbind outcome_bind]; [|done..].
  apply (part001_handleEdges_parents ranks _ edges) in Hedges; [|done| |].
  2:{ intros w n Hn. by destruct (Hok w n Hn). }
  2:{ intros n nd Hn. destruct (Hinit n nd Hn) as (Hp & _ & v & Hv & _).
      rewrite Hp, Hv. split; [done|]. intros p Hin. by apply elem_of_nil in Hin. }
  destruct (collectLevels _ _ _ _ _) as [ns1 levels1] eqn:Hcollect.
  apply collectLevels_spec in Hcollect as [Hio1 _].
  pose proof (foldl_sortLevel_indexOnly levelNodeParentWeight
                (seq 0 (length levels1)) (ns1, levels1)) as Hio2.
  destruct (foldl (sortLevel sortBy levelNodeParentWeight) _ _) as [ns2 levels2]. simpl in Hio2.
  intros [= <-]. simpl.
  eapply parentsOK_indexOnly; [|done]. by eapply indexOnly_trans.
Qed.
End part001_levels.

(** ** The properties *)

(** X1. The two indices of a graph built through [addVertex] and
    [addEdge] agree with its edge set: the edges entering (leaving) a
    vertex are exactly the inserted edges whose target (origin) it is, in
    the order of their insertion. *)
Theorem graph_edge_indices {V E : Type} `{EqDecision V, EqDecision E, Edge V E}
    (g : Graph V E) (v : V) :
  built g →
  getEdgesEntering g v = filter (λ e, to e = v) (getEdges g)
  ∧ getEdgesLeaving g v = filter (λ e, from e = v) (getEdges g).
Proof. intros Hbuilt. by apply built_indices. Qed.

Lemma graph_edge_indices_witness :
  let g := graphOf [mkEdge 0 0 1; mkEdge 1 0 2; mkEdge 2 1 2; mkEdge 3 1 2; mkEdge 1 0 2] in
  getEdgesEntering g 2 = filter (λ e, to e = 2) (getEdges g)
  ∧ getEdgesLeaving g 2 = filter (λ e, from e = 2) (getEdges g).
Proof. intros g. apply (graph_edge_indices g 2), built_graphOf. Defined.

(** X2. [addEdge] registers both ends of the edge: in a graph built
    through [addVertex] and [addEdge] every edge runs between vertices of
    the graph, and a vertex that was never added has no entering and no
    leaving edges ([getEdgesEntering] and [getEdgesLeaving] fall back to
    the empty set). *)
Theorem graph_endpoints_registered {V E : Type} `{EqDecision V, EqDecision E, Edge V E}
    (g : Graph V E) :
  built g →
  (∀ e, e ∈ getEdges g → from e ∈ getVertices g ∧ to e ∈ getVertices g)
  ∧ (∀ v, v ∉ getVertices g → getEdgesEntering g v = [] ∧ getEdgesLeaving g v = []).
Proof.
  intros Hbuilt. split; [by apply built_endpoints|].
  intros v Hv. destruct (built_indices g Hbuilt v) as [-> ->].
  split; apply filter_none; intros e He Hend;
    apply Hv; destruct (built_endpoints g Hbuilt e He) as [? ?]; unfold getVertices;
    congruence.
Qed.

Lemma graph_endpoints_registered_witness :
  let g := addVertex (graphOf [mkEdge 0 0 1; mkEdge 1 1 2; mkEdge 2 2 0]) 7 in
  (∀ e, e ∈ getEdges g → from e ∈ getVertices g ∧ to e ∈ getVertices g)
  ∧ (∀ v, v ∉ getVertices g → getEdgesEntering g v = [] ∧ getEdgesLeaving g v = []).
Proof.
  intros g. apply (graph_endpoints_registered g).
  apply built_addVertex, built_graphOf.
Defined.

(** X3. Adding an edge object a second time changes nothing, and neither
    does adding one of its ends as a vertex afterwards. *)
Theorem addEdge_idempotent {V E : Type} `{EqDecision V, EqDecision E, Edge V E}
    (g : Graph V E) (e : E) :
  addEdge (addEdge g e) e = addEdge g e
  ∧ addVertex (addEdge g e) (from e) = addEdge g e
  ∧ addVertex (addEdge g e) (to e) = addEdge g e.
Proof.
  split_and!; [apply addEdge_addEdge|..];
    apply addVertex_member; rewrite vertices_addEdge, !JsSet_elem_of_add; auto.
Qed.

(** X4. On every graph built through [addVertex] and [addEdge], cyclic
    or not, [rankVertices] returns a map that ranks every vertex of the
    graph exactly once and nothing else, and every rank is a row number
    between 0 and the number of vertices less one. *)
Theorem rankVertices_ranks_every_vertex {V E : Type} `{EqDecision V, EqDecision E, Edge V E}
    (g : Graph V E) :
  built g →
  ∃ ranks, rankVertices g = Some ranks
    ∧ NoDup (JsMap.keys ranks)
    ∧ JsMap.keys ranks ≡ₚ getVertices g
    ∧ (∀ v, v ∈ getVertices g ↔ is_Some (JsMap.get ranks v))
    ∧ ∀ v r, JsMap.get ranks v = Some r →
        (0 ≤ r < Z.of_nat (length (getVertices g)))%Z.
Proof.
  intros Hbuilt.
  destruct (rankVertices_any g Hbuilt) as (ranks & Hrun & Hnd & Hperm & Hbound & _).
  exists ranks. split_and!; [done..| |done].
  intros v. unfold getVertices. by rewrite <- Hperm, JsMap_get_is_Some_keys.
Qed.

Lemma rankVertices_ranks_every_vertex_witness :
  let g := addVertex (graphOf [mkEdge 0 0 1; mkEdge 1 1 2; mkEdge 2 2 0; mkEdge 3 2 2;
                               mkEdge 4 2 3]) 9 in
  ∃ ranks, rankVertices g = Some ranks
    ∧ NoDup (JsMap.keys ranks)
    ∧ JsMap.keys ranks ≡ₚ getVertices g
    ∧ (∀ v, v ∈ getVertices g ↔ is_Some (JsMap.get ranks v))
    ∧ ∀ v r, JsMap.get ranks v = Some r →
        (0 ≤ r < Z.of_nat (length (getVertices g)))%Z.
Proof.
  intros g. apply (rankVertices_ranks_every_vertex g).
  apply built_addVertex, built_graphOf.
Defined.

(** X5. [rankVertices] never ranks the two ends of an edge alike: on
    every graph built through [addVertex] and [addEdge], cycles
    included, the ends of every edge that is not a self-loop get
    different ranks, so that no edge of the graph is a sideways edge. *)
Theorem rankVertices_no_sideways_edge {V E : Type} `{EqDecision V, EqDecision E, Edge V E}
    (g : Graph V E) :
  built g →
  ∃ ranks, rankVertices g = Some ranks
    ∧ ∀ e, e ∈ getEdges g →
        (from e ≠ to e →
         ∃ ru rv, JsMap.get ranks (from e) = Some ru
                  ∧ JsMap.get ranks (to e) = Some rv ∧ ru ≠ rv)
        ∧ placeable ranks (from e) (to e) ∧ ¬ sideways ranks e.
Proof.
  intros Hbuilt.
  destruct (rankVertices_placeable g Hbuilt) as (ranks & Hrun & Hnd & Hperm & Hall).
  exists ranks. split; [done|]. intros e He.
  destruct (Hall e He) as (ru & rv & Hru & Hrv & Hplace). split_and!.
  - intros Hne. exists ru, rv. split_and!; [done..|]. by destruct Hplace.
  - by exists ru, rv.
  - intros (Hne & _ & Heq). destruct Hplace as [?|?]; [done|congruence].
Qed.

Lemma rankVertices_no_sideways_edge_witness :
  let g := graphOf [mkEdge 0 0 1; mkEdge 1 1 2; mkEdge 2 2 0; mkEdge 3 2 2;
                    mkEdge 4 2 3; mkEdge 5 3 1] in
  ∃ ranks, rankVertices g = Some ranks
    ∧ ∀ e, e ∈ getEdges g →
        (from e ≠ to e →
         ∃ ru rv, JsMap.get ranks (from e) = Some ru
                  ∧ JsMap.get ranks (to e) = Some rv ∧ ru ≠ rv)
        ∧ placeable ranks (from e) (to e) ∧ ¬ sideways ranks e.
Proof. intros g. apply (rankVertices_no_sideways_edge g), built_graphOf. Defined.

(** X6. What [ranksToLevels] answers is decided by the first edge, in
    iteration order, that cannot be placed.  If every edge has ranked
    ends and is a self-loop or joins different ranks, it returns a level
    structure.  Otherwise it throws the error of the first edge that is
    not so: "Missing level node or self cycle" for a self-loop on a
    vertex without rank, "Vertex with no rank" when an end has no rank,
    and the sideways-edge error when both ends have the same rank.  It
    never throws "Missing level node". *)
Theorem ranksToLevels_outcome {V E : Type} `{EqDecision V, EqDecision E, Edge V E}
    (sortBy : (nat → option Q) → list nat → list nat)
    (ranks : list (V * Z)) (edges : list E) :
  NoDup (JsMap.keys ranks) →
  ((∀ e, e ∈ edges → placeable ranks (from e) (to e))
   ∧ ∃ res, ranksToLevels sortBy ranks edges = Returns res)
  ∨ (∃ pre e post, edges = pre ++ e :: post
       ∧ (∀ e', e' ∈ pre → placeable ranks (from e') (to e'))
       ∧ ¬ placeable ranks (from e) (to e)
       ∧ ranksToLevels sortBy ranks edges = Throws (edgeError ranks (from e) (to e))
       ∧ ranksToLevels sortBy ranks edges ≠ Throws MissingLevelNode).
Proof.
  intros Hnd. destruct (edges_split_placeable ranks edges)
    as [Hall|(pre & e & post & -> & Hpre & Hnot)].
  - left. split; [done|]. by apply ranksToLevels_returns.
  - right. exists pre, e, post. split_and!; [done..| |].
    + apply ranksToLevels_throws.
      destruct (addRankedVertex_init ranks Hnd) as (Hok & _).
      by apply handleEdges_unplaceable.
    + erewrite ranksToLevels_throws.
      2:{ destruct (addRankedVertex_init ranks Hnd) as (Hok & _).
          by apply handleEdges_unplaceable. }
      unfold edgeError. destruct (decide (from e = to e)); [done|].
      destruct (JsMap.get ranks (from e)), (JsMap.get ranks (to e)); done.
Qed.

Lemma ranksToLevels_outcome_witness :
  let ranks := [(0, 0%Z); (1, 1%Z); (2, 1%Z)] in
  let edges := [mkEdge 0 0 1; mkEdge 1 3 3; mkEdge 2 1 2; mkEdge 3 0 4] in
  ((∀ e, e ∈ edges → placeable ranks (from e) (to e))
   ∧ ∃ res, ranksToLevels stableSortBy ranks edges = Returns res)
  ∨ (∃ pre e post, edges = pre ++ e :: post
       ∧ (∀ e', e' ∈ pre → placeable ranks (from e') (to e'))
       ∧ ¬ placeable ranks (from e) (to e)
       ∧ ranksToLevels stableSortBy ranks edges
         = Throws (edgeError ranks (from e) (to e))
       ∧ ranksToLevels stableSortBy ranks edges ≠ Throws MissingLevelNode).
Proof.
  intros ranks edges. apply (ranksToLevels_outcome stableSortBy ranks edges).
  compute_done.
Defined.

(** X7. In the level structure that [ranksToLevels] returns, the rows
    hold every node object exactly once: no node is in two rows or twice
    in a row, and none is left out.  There is one row for every rank from
    the least to the greatest, both reckoned from 0, so there is always
    at least one row, also when no vertex is ranked. *)
Theorem ranksToLevels_rows_partition {V E : Type} `{EqDecision V, EqDecision E, Edge V E}
    (sortBy : (nat → option Q) → list nat → list nat)
    (ranks : list (V * Z)) (edges : list E) (res : LevelResult V E) :
  (∀ key l, sortBy key l ≡ₚ l) →
  ranksToLevels sortBy ranks edges = Returns res →
  concat (levels res) ≡ₚ seq 0 (length (levelNodes res))
  ∧ NoDup (concat (levels res))
  ∧ (∀ n, n < length (levelNodes res) ↔ ∃ row, row ∈ levels res ∧ n ∈ row)
  ∧ Z.of_nat (length (levels res)) = (maxRankOf ranks - minRankOf ranks + 1)%Z
  ∧ (minRankOf ranks ≤ 0 ≤ maxRankOf ranks)%Z
  ∧ 1 ≤ length (levels res).
Proof.
  intros Hperm Hres.
  destruct (ranksToLevels_partition sortBy Hperm ranks edges res Hres)
    as (Hp & Hlen & _ & _).
  assert (minRankOf ranks ≤ 0 ≤ maxRankOf ranks)%Z as Hb.
  { unfold minRankOf, maxRankOf.
    destruct (foldl_min_le (ranks.*2) 0%Z) as [? _].
    destruct (foldl_max_ge (ranks.*2) 0%Z) as [? _]. lia. }
  split_and!; [done| | |lia..].
  - rewrite Hp. apply NoDup_seq.
  - intros n. rewrite <- elem_of_concat, Hp, elem_of_seq. lia.
Qed.

Lemma ranksToLevels_rows_partition_witness :
  let ranks := [(0, 0%Z); (1, 1%Z); (2, 2%Z); (3, 3%Z)] in
  let edges := [mkEdge 0 0 1; mkEdge 1 1 2; mkEdge 2 2 3; mkEdge 3 0 3; mkEdge 4 3 1] in
  ∃ res, ranksToLevels stableSortBy ranks edges = Returns res
    ∧ concat (levels res) ≡ₚ seq 0 (length (levelNodes res))
    ∧ NoDup (concat (levels res))
    ∧ (∀ n, n < length (levelNodes res) ↔ ∃ row, row ∈ levels res ∧ n ∈ row)
    ∧ Z.of_nat (length (levels res)) = (maxRankOf ranks - minRankOf ranks + 1)%Z
    ∧ (minRankOf ranks ≤ 0 ≤ maxRankOf ranks)%Z
    ∧ 1 ≤ length (levels res).
Proof.
  intros ranks edges. eexists. split; [vm_compute; reflexivity|].
  apply (ranksToLevels_rows_partition stableSortBy ranks edges).
  - apply stableSortBy_perm.
  - vm_compute. reflexivity.
Defined.

(** X8. In the level structure that [ranksToLevels] returns, the [index]
    field of every node is its column: the node at position [j] of a row
    has index [j]. *)
Theorem ranksToLevels_index_is_column {V E : Type} `{EqDecision V, EqDecision E, Edge V E}
    (sortBy : (nat → option Q) → list nat → list nat)
    (ranks : list (V * Z)) (edges : list E) (res : LevelResult V E)
    (i j : nat) (row : list nat) (n : nat) :
  (∀ key l, sortBy key l ≡ₚ l) →
  ranksToLevels sortBy ranks edges = Returns res →
  levels res !! i = Some row → row !! j = Some n →
  ∃ nd, levelNodes res !! n = Some nd ∧ index nd = j.
Proof.
  intros Hperm Hres Hrow Hn.
  destruct (ranksToLevels_partition sortBy Hperm ranks edges res Hres)
    as (Hp & _ & _ & Hidx).
  assert (n < length (levelNodes res)) as Hlt.
  { assert (n ∈ seq 0 (length (levelNodes res))) as Hin; [|apply elem_of_seq in Hin; lia].
    rewrite <- Hp. apply elem_of_concat. exists row.
    split; by eapply list_elem_of_lookup_2. }
  destruct (lookup_lt_is_Some_2 _ _ Hlt) as [nd Hnd]. exists nd. split; [done|].
  specialize (Hidx i row j n Hrow Hn). unfold indexOf in Hidx. by rewrite Hnd in Hidx.
Qed.

Lemma ranksToLevels_index_is_column_witness :
  let ranks := [(0, 0%Z); (1, 1%Z); (2, 1%Z); (3, 2%Z)] in
  let edges := [mkEdge 0 0 2; mkEdge 1 0 1; mkEdge 2 2 3; mkEdge 3 0 3; mkEdge 4 1 3] in
  ∃ res row, ranksToLevels stableSortBy ranks edges = Returns res
    ∧ levels res !! 1 = Some row
    ∧ ∃ n, row !! 2 = Some n
        ∧ ∃ nd, levelNodes res !! n = Some nd ∧ index nd = 2.
Proof.
  intros ranks edges.
  let r := eval vm_compute in (ranksToLevels stableSortBy ranks edges) in
  lazymatch r with
  | Returns ?res =>
      let row := eval vm_compute in (levels res !! 1) in
      lazymatch row with
      | Some ?row =>
          let n := eval vm_compute in (row !! 2) in
          lazymatch n with
          | Some ?n =>
              exists res, row; split; [vm_compute; reflexivity|];
              split; [reflexivity|]; exists n; split; [reflexivity|];
              apply (ranksToLevels_index_is_column stableSortBy ranks edges res 1 2 row n);
              [apply stableSortBy_perm|vm_compute; reflexivity|reflexivity|reflexivity]
          end
      end
  end.
Defined.

(** X9. [ranksToLevels] records one chain for every edge, in the
    order in which the edges are iterated, and nothing else; every chain
    is non-empty and all of its nodes are in the rows. *)
Theorem ranksToLevels_chain_per_edge {V E : Type} `{EqDecision V, EqDecision E, Edge V E}
    (sortBy : (nat → option Q) → list nat → list nat)
    (ranks : list (V * Z)) (edges : list E) (res : LevelResult V E) :
  (∀ key l, sortBy key l ≡ₚ l) →
  NoDup (JsMap.keys ranks) → NoDup edges →
  ranksToLevels sortBy ranks edges = Returns res →
  JsMap.keys (edgeToLevelNodes res) = edges
  ∧ ∀ e chain, (e, chain) ∈ edgeToLevelNodes res →
      e ∈ edges ∧ chain ≠ []
      ∧ ∀ n, n ∈ chain → ∃ row, row ∈ levels res ∧ n ∈ row.
Proof.
  intros Hperm Hnd Hedges Hres.
  destruct (ranksToLevels_partition sortBy Hperm ranks edges res Hres)
    as (_ & _ & Hkeys & _).
  rewrite (foldl_JsSet_add_NoDup edges []) in Hkeys by done. simpl in Hkeys.
  split; [done|]. intros e chain Hin.
  assert (e ∈ edges) as He.
  { rewrite <- Hkeys. apply list_elem_of_fmap. by exists (e, chain). }
  split; [done|].
  assert (JsMap.get (edgeToLevelNodes res) e = Some chain) as Hget.
  { apply JsMap_elem_get; [by rewrite Hkeys|done]. }
  apply (ranksToLevels_entries sortBy Hperm ranks edges res Hnd Hres) in Hget.
  apply chainBetween_rows in Hget as [Hne Hrows]. split; [done|].
  intros n Hn. destruct (Hrows n Hn) as [r Hr].
  apply elem_of_concat. by eapply inLevel_concat.
Qed.

Lemma ranksToLevels_chain_per_edge_witness :
  let ranks := [(0, 0%Z); (1, 1%Z); (2, 2%Z); (3, 3%Z)] in
  let edges := [mkEdge 0 0 1; mkEdge 1 1 2; mkEdge 2 2 3; mkEdge 3 0 3; mkEdge 4 3 1;
                mkEdge 5 2 2] in
  ∃ res, ranksToLevels stableSortBy ranks edges = Returns res
    ∧ JsMap.keys (edgeToLevelNodes res) = edges
    ∧ ∀ e chain, (e, chain) ∈ edgeToLevelNodes res →
        e ∈ edges ∧ chain ≠ []
        ∧ ∀ n, n ∈ chain → ∃ row, row ∈ levels res ∧ n ∈ row.
Proof.
  intros ranks edges. eexists. split; [vm_compute; reflexivity|].
  apply (ranksToLevels_chain_per_edge stableSortBy ranks edges).
  - apply stableSortBy_perm.
  - compute_done.
  - compute_done.
  - vm_compute. reflexivity.
Defined.

(** X10. [positionNodes] stacks the rows: the rectangles of row [i] are
    placed [i] times the row height plus the vertical spacing (70) below
    the first row.  A real node gets a rectangle of the node width and
    height with its top at that line; a virtual node gets an empty
    rectangle half a node height below it. *)
Theorem positionNodes_rows_stacked {V : Type}
    (ns : list (LevelNode V)) (levels : list (list nat)) (i : nat) (row : list nat)
    (n : nat) :
  NoDup (concat levels) → levels !! i = Some row → n ∈ row →
  ∃ rect, JsMap.get (positionNodes ns levels) n = Some rect
    ∧ (height + verticalSpacing == 70)%Q
    ∧ if hasVertex ns n then
        (Rect.top rect == inject_Z (Z.of_nat i) * (height + verticalSpacing))%Q
        ∧ (Rect.width rect == width)%Q ∧ (Rect.height rect == height)%Q
      else
        (Rect.top rect
         == inject_Z (Z.of_nat i) * (height + verticalSpacing) + height / 2)%Q
        ∧ (Rect.width rect == 0)%Q ∧ (Rect.height rect == 0)%Q.
Proof.
  intros Hnd Hrow Hn. unfold positionNodes.
  destruct (placeLevel_fold_row ns (totalWidth levels) levels 0%Q [] Hnd i row n Hrow Hn)
    as (rect & Hrect & Hr).
  exists rect. split; [done|]. split; [reflexivity|].
  unfold rowRect in Hr. destruct (hasVertex ns n);
    destruct Hr as (Ht & Hw & Hh); split_and!; try done; rewrite Ht; ring.
Qed.

Lemma positionNodes_rows_stacked_witness :
  let ns : list (LevelNode nat) :=
    [mkLevelNode [] [1; 3] (Some 0) 0; mkLevelNode [0] [2] (Some 1) 0;
     mkLevelNode [1; 3] [] (Some 2) 0; mkLevelNode [0] [2] None 1] in
  let levels := [[0]; [1; 3]; [2]] in
  ∃ rect, JsMap.get (positionNodes ns levels) 3 = Some rect
    ∧ (height + verticalSpacing == 70)%Q
    ∧ if hasVertex ns 3 then
        (Rect.top rect == inject_Z (Z.of_nat 1) * (height + verticalSpacing))%Q
        ∧ (Rect.width rect == width)%Q ∧ (Rect.height rect == height)%Q
      else
        (Rect.top rect
         == inject_Z (Z.of_nat 1) * (height + verticalSpacing) + height / 2)%Q
        ∧ (Rect.width rect == 0)%Q ∧ (Rect.height rect == 0)%Q.
Proof.
  intros ns levels.
  apply (positionNodes_rows_stacked ns levels 1 [1; 3] 3).
  - compute_done.
  - reflexivity.
  - compute_done.
Defined.

(** X11. No rectangle sticks out of the layout: the rectangle of every
    node of a row starts at or after 0 and ends at or before
    [totalWidth]. *)
Theorem positionNodes_within_total_width {V : Type}
    (ns : list (LevelNode V)) (levels : list (list nat)) (i j : nat) (row : list nat)
    (n : nat) :
  NoDup (concat levels) → levels !! i = Some row → row !! j = Some n →
  ∃ rect, JsMap.get (positionNodes ns levels) n = Some rect
    ∧ (0 <= Rect.left rect)%Q
    ∧ (Rect.left rect + Rect.width rect <= totalWidth levels)%Q.
Proof.
  intros Hnd Hrow Hn. unfold positionNodes.
  destruct (placeLevel_fold ns (totalWidth levels) levels 0%Q [] Hnd) as [_ Hslots].
  destruct (Hslots i row j n Hrow Hn) as (rect & Hrect & Hslot).
  exists rect. split; [done|].
  assert (row ≠ []) as Hne by (intros ->; done).
  pose proof (levelWidth_slots ns row Hne) as Hw.
  pose proof (levelWidth_le_totalWidth ns levels row
                (list_elem_of_lookup_2 _ _ _ Hrow) Hne) as Hle.
  pose proof (slotsWidth_nonneg ns (take j row)) as Hnn.
  pose proof (slotsWidth_take_lt ns row j (length row) n Hn
                (lookup_lt_Some _ _ _ Hn) (le_n _)) as Hlt.
  rewrite firstn_all in Hlt.
  unfold slotRect, nodeWidth in *.
  destruct (hasVertex ns n); destruct Hslot as [Hl Hwd];
    unfold width, horizontalSpacing, Qdiv in *; change (/ 2)%Q with (1 # 2)%Q in *;
    split; lra.
Qed.

Lemma positionNodes_within_total_width_witness :
  let ns : list (LevelNode nat) :=
    [mkLevelNode [] [1; 3] (Some 0) 0; mkLevelNode [0] [2] (Some 1) 0;
     mkLevelNode [1; 3] [] (Some 2) 0; mkLevelNode [0] [2] None 1] in
  let levels := [[0]; [1; 3]; [2]] in
  ∃ rect, JsMap.get (positionNodes ns levels) 3 = Some rect
    ∧ (0 <= Rect.left rect)%Q
    ∧ (Rect.left rect + Rect.width rect <= totalWidth levels)%Q.
Proof.
  intros ns levels.
  apply (positionNodes_within_total_width ns levels 1 1 [1; 3] 3).
  - compute_done.
  - reflexivity.
  - reflexivity.
Defined.

(** X12. The rectangles of a row do not overlap: of two nodes of a row,
    the rectangle of the later one starts at least one horizontal
    spacing after the end of the rectangle of the earlier one. *)
Theorem positionNodes_no_overlap {V : Type}
    (ns : list (LevelNode V)) (levels : list (list nat)) (i j k : nat) (row : list nat)
    (a b : nat) :
  NoDup (concat levels) → levels !! i = Some row →
  row !! j = Some a → row !! k = Some b → j < k →
  ∃ ra rb, JsMap.get (positionNodes ns levels) a = Some ra
    ∧ JsMap.get (positionNodes ns levels) b = Some rb
    ∧ (Rect.left ra + Rect.width ra + horizontalSpacing <= Rect.left rb)%Q.
Proof.
  intros Hnd Hrow Ha Hb Hjk. unfold positionNodes.
  destruct (placeLevel_fold ns (totalWidth levels) levels 0%Q [] Hnd) as [_ Hslots].
  destruct (Hslots i row j a Hrow Ha) as (ra & Hra & Hsa).
  destruct (Hslots i row k b Hrow Hb) as (rb & Hrb & Hsb).
  exists ra, rb. split_and!; [done..|].
  pose proof (slotsWidth_take_lt ns row j k a Ha Hjk
                (Nat.lt_le_incl _ _ (lookup_lt_Some _ _ _ Hb))) as Hlt.
  unfold slotRect, nodeWidth in *.
  destruct (hasVertex ns a), (hasVertex ns b);
    destruct Hsa as [Hla Hwa]; destruct Hsb as [Hlb Hwb];
    unfold width, horizontalSpacing, Qdiv in *; change (/ 2)%Q with (1 # 2)%Q in *;
    lra.
Qed.

Lemma positionNodes_no_overlap_witness :
  let ns : list (LevelNode nat) :=
    [mkLevelNode [] [1; 3] (Some 0) 0; mkLevelNode [0] [2] (Some 1) 0;
     mkLevelNode [1; 3] [] (Some 2) 0; mkLevelNode [0] [2] None 1] in
  let levels := [[0]; [3; 1]; [2]] in
  ∃ ra rb, JsMap.get (positionNodes ns levels) 3 = Some ra
    ∧ JsMap.get (positionNodes ns levels) 1 = Some rb
    ∧ (Rect.left ra + Rect.width ra + horizontalSpacing <= Rect.left rb)%Q.
Proof.
  intros ns levels.
  apply (positionNodes_no_overlap ns levels 1 0 1 [3; 1] 3 1).
  - compute_done.
  - reflexivity.
  - reflexivity.
  - reflexivity.
  - lia.
Defined.

(** X13. [positionNodes] positions the nodes of the rows and nothing
    else: a node has a rectangle exactly when it is in a row, and the
    position map lists the nodes row after row, from left to right. *)
Theorem positionNodes_positions_every_node {V : Type}
    (ns : list (LevelNode V)) (levels : list (list nat)) :
  NoDup (concat levels) →
  JsMap.keys (positionNodes ns levels) = concat levels
  ∧ ∀ n, is_Some (JsMap.get (positionNodes ns levels) n)
         ↔ ∃ row, row ∈ levels ∧ n ∈ row.
Proof.
  intros Hnd. split.
  - rewrite positionNodes_keys. by apply (foldl_JsSet_add_NoDup (concat levels) []).
  - intros n. by rewrite positionNodes_defined, elem_of_concat.
Qed.

Lemma positionNodes_positions_every_node_witness :
  let ns : list (LevelNode nat) :=
    [mkLevelNode [] [1; 3] (Some 0) 0; mkLevelNode [0] [2] (Some 1) 0;
     mkLevelNode [1; 3] [] (Some 2) 0; mkLevelNode [0] [2] None 1] in
  let levels := [[0]; [3; 1]; [2]] in
  JsMap.keys (positionNodes ns levels) = concat levels
  ∧ ∀ n, is_Some (JsMap.get (positionNodes ns levels) n)
         ↔ ∃ row, row ∈ levels ∧ n ∈ row.
Proof.
  intros ns levels. apply (positionNodes_positions_every_node ns levels). compute_done.
Defined.

(** X14. The path of a chain is one move-to followed by one curve for
    every further node of the chain.  The curve from a node to the next
    ends at the horizontal centre of the next node's rectangle, on its
    top edge when the node it comes from lies above and on its bottom
    edge otherwise, and its control point is midway between that anchor
    and the anchor on the facing edge of the node it comes from. *)
Theorem edgePath_curves {V : Type}
    (positions : list (nat * Rect.t)) (chain : list nat) (path : list PathCommand)
    (i : nat) (a b : nat) (ra rb : Rect.t) :
  edgePath (V:=V) positions chain = Returns path →
  chain !! i = Some a → chain !! S i = Some b →
  JsMap.get positions a = Some ra → JsMap.get positions b = Some rb →
  length path = length chain
  ∧ (∃ p, path !! 0 = Some (MoveTo p))
  ∧ ∃ mid p, path !! S i = Some (SmoothTo mid p)
      ∧ (Vec2.x p == Rect.left rb + Rect.width rb / 2)%Q
      ∧ (Rect.top ra < Rect.top rb →
           Vec2.y p == Rect.top rb
           ∧ Vec2.y mid == (Rect.top ra + Rect.height ra + Rect.top rb) / 2)%Q
      ∧ (Rect.top rb <= Rect.top ra →
           Vec2.y p == Rect.top rb + Rect.height rb
           ∧ Vec2.y mid == (Rect.top ra + (Rect.top rb + Rect.height rb)) / 2)%Q
      ∧ (Vec2.x mid
         == (Rect.left ra + Rect.width ra / 2 + (Rect.left rb + Rect.width rb / 2)) / 2)%Q.
Proof.
  intros Hpath Ha Hb Hra Hrb. destruct chain as [|from rest]; [done|].
  simpl in Hpath. destruct (JsMap.get positions from) as [fromRect|]; [|done].
  apply extendPath_shape in Hpath as (added & -> & Hlen & Hshape).
  split; [simpl; lia|]. split; [by eexists|].
  specialize (Hshape i a b ra rb Ha Hb Hra Hrb). simpl. rewrite Hshape.
  pose proof (segmentAnchors_spec ra rb) as Hspec.
  destruct (segmentAnchors ra rb) as [fromAnchor toAnchor].
  destruct Hspec as (Hfx & Htx & Hdown & Hup).
  eexists _, _. split; [done|]. cbn [fst snd Vec2.times Vec2.plus Vec2.x Vec2.y].
  unfold Qdiv in *. change (/ 2)%Q with (1 # 2)%Q in *.
  split_and!; [done| | |lra].
  - intros Hlt. destruct (Hdown Hlt). split; lra.
  - intros Hle. destruct (Hup Hle). split; lra.
Qed.

Lemma edgePath_curves_witness :
  let positions :=
    [(0, Rect.mk (Vec2.mk 0 0) (Vec2.mk 115 25));
     (1, Rect.mk (Vec2.mk 20 70) (Vec2.mk 0 0));
     (2, Rect.mk (Vec2.mk 70 140) (Vec2.mk 115 25))] in
  let chain := [2; 1; 0] in
  let ra := Rect.mk (Vec2.mk 20 70) (Vec2.mk 0 0) in
  let rb := Rect.mk (Vec2.mk 0 0) (Vec2.mk 115 25) in
  ∃ path, edgePath (V:=nat) positions chain = Returns path
    ∧ length path = length chain
    ∧ (∃ p, path !! 0 = Some (MoveTo p))
    ∧ ∃ mid p, path !! 2 = Some (SmoothTo mid p)
        ∧ (Vec2.x p == Rect.left rb + Rect.width rb / 2)%Q
        ∧ (Rect.top ra < Rect.top rb →
             Vec2.y p == Rect.top rb
             ∧ Vec2.y mid == (Rect.top ra + Rect.height ra + Rect.top rb) / 2)%Q
        ∧ (Rect.top rb <= Rect.top ra →
             Vec2.y p == Rect.top rb + Rect.height rb
             ∧ Vec2.y mid == (Rect.top ra + (Rect.top rb + Rect.height rb)) / 2)%Q
        ∧ (Vec2.x mid
           == (Rect.left ra + Rect.width ra / 2 + (Rect.left rb + Rect.width rb / 2)) / 2)%Q.
Proof.
  intros positions chain ra rb. eexists. split; [vm_compute; reflexivity|].
  apply (edgePath_curves (V:=nat) positions chain _ 1 1 0 ra rb).
  - vm_compute. reflexivity.
  - reflexivity.
  - reflexivity.
  - reflexivity.
  - reflexivity.
Defined.

(** X15. [makeEdgePaths] fails on a chain with a node that has no
    position: the path of such a chain throws "Failed to find position
    for endpoint", naming the first node of the chain without one; an
    empty chain throws it for an undefined endpoint. *)
Theorem edgePath_missing_position {V E : Type} `{EqDecision E}
    (positions : list (nat * Rect.t)) (pre : list nat) (n : nat) (post : list nat)
    (e : E) (rest : list (E * list nat)) (edgePaths : list (E * list PathCommand)) :
  (∀ m, m ∈ pre → is_Some (JsMap.get positions m)) →
  JsMap.get positions n = None →
  edgePath (V:=V) positions (pre ++ n :: post) = Throws (FailedToFindPosition (Some n))
  ∧ edgePath (V:=V) positions [] = Throws (FailedToFindPosition None)
  ∧ makeEdgePathsFrom (V:=V) positions ((e, pre ++ n :: post) :: rest) edgePaths
    = Throws (FailedToFindPosition (Some n)).
Proof.
  intros Hpre Hn.
  assert (edgePath (V:=V) positions (pre ++ n :: post)
          = Throws (FailedToFindPosition (Some n))) as Hpath.
  { destruct pre as [|from pre]; simpl.
    - by rewrite Hn.
    - destruct (Hpre from) as [fromRect Hfrom]; [apply elem_of_cons; auto|].
      rewrite Hfrom. apply extendPath_missing; [by eexists| |done].
      intros m Hm. apply Hpre, elem_of_cons. auto. }
  split_and!; [done|done|]. cbn [makeEdgePathsFrom]. by rewrite Hpath.
Qed.

Lemma edgePath_missing_position_witness :
  let positions :=
    [(0, Rect.mk (Vec2.mk 0 0) (Vec2.mk 115 25));
     (1, Rect.mk (Vec2.mk 20 70) (Vec2.mk 0 0))] in
  let e := mkEdge 0 0 6 in
  edgePath (V:=nat) positions ([0; 1] ++ 5 :: [6])
  = Throws (FailedToFindPosition (Some 5))
  ∧ edgePath (V:=nat) positions [] = Throws (FailedToFindPosition None)
  ∧ makeEdgePathsFrom (V:=nat) positions ((e, [0; 1] ++ 5 :: [6]) :: []) []
    = Throws (FailedToFindPosition (Some 5)).
Proof.
  intros positions e.
  apply (edgePath_missing_position (V:=nat) positions [0; 1] 5 [6] e [] []).
  - intros m Hm. apply list_elem_of_In in Hm. simpl in Hm.
    destruct Hm as [<-|[<-|[]]]; by eexists.
  - reflexivity.
Defined.

(** X16. When [makeEdgePaths] returns, it has drawn one path for every
    edge that has a chain, in the order of the chains, each from the
    chain of its edge. *)
Theorem makeEdgePaths_path_per_edge {V E : Type} `{EqDecision E}
    (edgeToLevelNodes : list (E * list nat)) (positions : list (nat * Rect.t))
    (edgePaths : list (E * list PathCommand)) :
  NoDup (JsMap.keys edgeToLevelNodes) →
  makeEdgePaths (V:=V) edgeToLevelNodes positions = Returns edgePaths →
  JsMap.keys edgePaths = JsMap.keys edgeToLevelNodes
  ∧ ∀ e chain, (e, chain) ∈ edgeToLevelNodes →
      ∃ path, JsMap.get edgePaths e = Some path
              ∧ edgePath (V:=V) positions chain = Returns path
              ∧ length path = length chain.
Proof.
  intros Hnd Hrun. unfold makeEdgePaths in Hrun. split.
  - apply makeEdgePathsFrom_keys in Hrun. rewrite Hrun.
    by apply (foldl_JsSet_add_NoDup (JsMap.keys edgeToLevelNodes) []).
  - intros e chain Hin.
    destruct (makeEdgePathsFrom_lookup positions _ _ _ Hrun Hnd e chain Hin)
      as (path & Hget & Hpath).
    exists path. split_and!; [done..|].
    destruct chain as [|from rest]; [done|]. simpl in Hpath.
    destruct (JsMap.get positions from); [|done].
    apply extendPath_shape in Hpath as (added & -> & Hlen & _). simpl. lia.
Qed.

Lemma makeEdgePaths_path_per_edge_witness :
  let positions :=
    [(0, Rect.mk (Vec2.mk 0 0) (Vec2.mk 115 25));
     (1, Rect.mk (Vec2.mk 20 70) (Vec2.mk 0 0));
     (2, Rect.mk (Vec2.mk 70 140) (Vec2.mk 115 25))] in
  let e2n := [(mkEdge 0 0 2, [0; 1; 2]); (mkEdge 1 2 0, [2; 1; 0]); (mkEdge 2 2 2, [2])] in
  ∃ paths, makeEdgePaths (V:=nat) e2n positions = Returns paths
    ∧ JsMap.keys paths = JsMap.keys e2n
    ∧ ∀ e chain, (e, chain) ∈ e2n →
        ∃ path, JsMap.get paths e = Some path
                ∧ edgePath (V:=nat) positions chain = Returns path
                ∧ length path = length chain.
Proof.
  intros positions e2n. eexists. split; [vm_compute; reflexivity|].
  apply (makeEdgePaths_path_per_edge (V:=nat) e2n positions).
  - compute_done.
  - vm_compute. reflexivity.
Defined.

(** X17. The pipeline never throws on a graph built through [addVertex]
    and [addEdge]: whatever its cycles, self-loops and parallel edges,
    the ranks are such that every edge can be placed and every node of
    every chain has a position, so a layout is returned. *)
Theorem layoutGraph_returns {V E : Type} `{EqDecision V, EqDecision E, Edge V E}
    (sortBy : (nat → option Q) → list nat → list nat) (g : Graph V E) :
  (∀ key l, sortBy key l ≡ₚ l) → built g →
  ∃ layout, layoutGraph sortBy g = Returns layout.
Proof.
  intros Hperm Hbuilt.
  destruct (layoutGraph_built sortBy Hperm g Hbuilt) as (layout & Hrun & _). eauto.
Qed.

Lemma layoutGraph_returns_witness :
  let g := graphOf [mkEdge 0 0 1; mkEdge 1 1 2; mkEdge 2 2 0; mkEdge 3 1 1;
                    mkEdge 4 0 1; mkEdge 5 2 3; mkEdge 6 3 0] in
  ∃ layout, layoutGraph stableSortBy g = Returns layout.
Proof.
  intros g. apply (layoutGraph_returns stableSortBy g).
  - apply stableSortBy_perm.
  - apply built_graphOf.
Defined.

(** X18. The layout of a graph is complete: the vertices of the graph
    are the ranked vertices, the edges of the graph are the edges with a
    chain and the edges with a path, in the order of the graph's edge
    set, every node object is in a row, and the nodes with a rectangle
    are those of the rows, row after row. *)
Theorem layoutGraph_complete {V E : Type} `{EqDecision V, EqDecision E, Edge V E}
    (sortBy : (nat → option Q) → list nat → list nat) (g : Graph V E) :
  (∀ key l, sortBy key l ≡ₚ l) → built g →
  ∃ layout, layoutGraph sortBy g = Returns layout
    ∧ JsMap.keys (layoutRanks layout) ≡ₚ getVertices g
    ∧ JsMap.keys (edgeToLevelNodes (levelResult layout)) = getEdges g
    ∧ JsMap.keys (edgePaths layout) = getEdges g
    ∧ JsMap.keys (nodePositions layout) = concat (levels (levelResult layout))
    ∧ concat (levels (levelResult layout))
      ≡ₚ seq 0 (length (levelNodes (levelResult layout))).
Proof.
  intros Hperm Hbuilt.
  destruct (layoutGraph_built sortBy Hperm g Hbuilt)
    as (layout & Hrun & Hranks & Hres & Hpos & Hpaths).
  exists layout. split; [done|].
  destruct (rankVertices_any g Hbuilt) as (ranks & Hranks' & Hnd & Hkeys & _).
  rewrite Hranks in Hranks'. injection Hranks' as <-.
  destruct (ranksToLevels_partition sortBy Hperm _ _ _ Hres) as (Hp & _ & Hchains & _).
  destruct (built_NoDup g Hbuilt) as [_ Hedges].
  rewrite (foldl_JsSet_add_NoDup (getEdges g) []) in Hchains by done.
  simpl in Hchains. split_and!; [done|done| | |done].
  - unfold makeEdgePaths in Hpaths. apply makeEdgePathsFrom_keys in Hpaths.
    rewrite Hpaths, Hchains. by apply (foldl_JsSet_add_NoDup (getEdges g) []).
  - rewrite Hpos, positionNodes_keys.
    apply (foldl_JsSet_add_NoDup (concat _) []). simpl. rewrite Hp. apply NoDup_seq.
Qed.

Lemma layoutGraph_complete_witness :
  let g := graphOf [mkEdge 0 0 1; mkEdge 1 1 2; mkEdge 2 2 0; mkEdge 3 1 1;
                    mkEdge 4 0 1; mkEdge 5 2 3; mkEdge 6 3 0] in
  ∃ layout, layoutGraph stableSortBy g = Returns layout
    ∧ JsMap.keys (layoutRanks layout) ≡ₚ getVertices g
    ∧ JsMap.keys (edgeToLevelNodes (levelResult layout)) = getEdges g
    ∧ JsMap.keys (edgePaths layout) = getEdges g
    ∧ JsMap.keys (nodePositions layout) = concat (levels (levelResult layout))
    ∧ concat (levels (levelResult layout))
      ≡ₚ seq 0 (length (levelNodes (levelResult layout))).
Proof.
  intros g. apply (layoutGraph_complete stableSortBy g).
  - apply stableSortBy_perm.
  - apply built_graphOf.
Defined.

(** X19. In the level structure that [ranksToLevels] returns, the
    [parents] and [children] fields mirror each other, and every link
    joins adjacent rows: [b] is among the children of [a] exactly when
    [a] is among the parents of [b], and then [a] sits in the row just
    above the row of [b]. *)
Theorem ranksToLevels_links_adjacent_rows {V E : Type} `{EqDecision V, EqDecision E, Edge V E}
    (sortBy : (nat → option Q) → list nat → list nat)
    (ranks : list (V * Z)) (edges : list E) (res : LevelResult V E)
    (a b : nat) (na nb : LevelNode V) :
  (∀ key l, sortBy key l ≡ₚ l) →
  NoDup (JsMap.keys ranks) →
  ranksToLevels sortBy ranks edges = Returns res →
  levelNodes res !! a = Some na → levelNodes res !! b = Some nb →
  (b ∈ children na ↔ a ∈ parents nb)
  ∧ (b ∈ children na →
     ∃ i rowa rowb, levels res !! i = Some rowa ∧ a ∈ rowa
                    ∧ levels res !! S i = Some rowb ∧ b ∈ rowb).
Proof.
  intros Hperm Hnd Hres Ha Hb.
  destruct (ranksToLevels_links sortBy Hperm ranks edges res Hnd Hres)
    as (Hsym & Hch & _).
  split; [by apply Hsym|]. intros Hin.
  destruct (Hch a na b Ha Hin) as (r & [Hr (rowa & Hrowa & Hina)] & [_ (rowb & Hrowb & Hinb)]).
  exists (Z.to_nat (r - minRankOf ranks)), rowa, rowb. split_and!; [done..| |done].
  by replace (S (Z.to_nat (r - minRankOf ranks)))
    with (Z.to_nat (r + 1 - minRankOf ranks)) by lia.
Qed.

Lemma ranksToLevels_links_adjacent_rows_witness :
  let ranks := [(0, 0%Z); (1, 1%Z); (2, 2%Z); (3, 3%Z)] in
  let edges := [mkEdge 0 0 1; mkEdge 1 1 2; mkEdge 2 2 3; mkEdge 3 0 3; mkEdge 4 3 1] in
  ∃ res na nb, ranksToLevels stableSortBy ranks edges = Returns res
    ∧ levelNodes res !! 0 = Some na ∧ levelNodes res !! 4 = Some nb
    ∧ (4 ∈ children na ↔ 0 ∈ parents nb)
    ∧ (4 ∈ children na →
       ∃ i rowa rowb, levels res !! i = Some rowa ∧ 0 ∈ rowa
                      ∧ levels res !! S i = Some rowb ∧ 4 ∈ rowb).
Proof.
  intros ranks edges. eexists _, _, _.
  split; [vm_compute; reflexivity|]. split; [reflexivity|]. split; [reflexivity|].
  apply (ranksToLevels_links_adjacent_rows stableSortBy ranks edges _ 0 4).
  - apply stableSortBy_perm.
  - compute_done.
  - vm_compute. reflexivity.
  - reflexivity.
  - reflexivity.
Defined.

(** X20. In the level structure that [ranksToLevels] returns, every
    virtual node has exactly one parent and exactly one child: it stands
    on one edge only. *)
Theorem ranksToLevels_virtual_degree {V E : Type} `{EqDecision V, EqDecision E, Edge V E}
    (sortBy : (nat → option Q) → list nat → list nat)
    (ranks : list (V * Z)) (edges : list E) (res : LevelResult V E)
    (n : nat) (nd : LevelNode V) :
  (∀ key l, sortBy key l ≡ₚ l) →
  NoDup (JsMap.keys ranks) →
  ranksToLevels sortBy ranks edges = Returns res →
  levelNodes res !! n = Some nd → vertex nd = None →
  length (parents nd) = 1 ∧ length (children nd) = 1.
Proof.
  intros Hperm Hnd Hres Hn Hv.
  destruct (ranksToLevels_links sortBy Hperm ranks edges res Hnd Hres)
    as (_ & _ & Hdeg & _).
  by apply (Hdeg n).
Qed.

Lemma ranksToLevels_virtual_degree_witness :
  let ranks := [(0, 0%Z); (1, 1%Z); (2, 2%Z); (3, 3%Z)] in
  let edges := [mkEdge 0 0 1; mkEdge 1 1 2; mkEdge 2 2 3; mkEdge 3 0 3; mkEdge 4 3 1;
                mkEdge 5 0 3] in
  ∃ res nd, ranksToLevels stableSortBy ranks edges = Returns res
    ∧ levelNodes res !! 5 = Some nd ∧ vertex nd = None
    ∧ length (parents nd) = 1 ∧ length (children nd) = 1.
Proof.
  intros ranks edges. eexists _, _.
  split; [vm_compute; reflexivity|]. split; [reflexivity|]. split; [reflexivity|].
  eapply (ranksToLevels_virtual_degree stableSortBy ranks edges _ 5).
  - apply stableSortBy_perm.
  - compute_done.
  - vm_compute. reflexivity.
  - reflexivity.
  - reflexivity.
Defined.

(** X21. In the level structure that [ranksToLevels] returns, the real
    nodes are the ranked vertices: every ranked vertex has exactly one
    real node, which sits in the row of its rank, counted from the least
    rank, and every real node wraps a ranked vertex. *)
Theorem ranksToLevels_real_nodes {V E : Type} `{EqDecision V, EqDecision E, Edge V E}
    (sortBy : (nat → option Q) → list nat → list nat)
    (ranks : list (V * Z)) (edges : list E) (res : LevelResult V E) :
  (∀ key l, sortBy key l ≡ₚ l) →
  NoDup (JsMap.keys ranks) →
  ranksToLevels sortBy ranks edges = Returns res →
  (∀ v r, JsMap.get ranks v = Some r →
     ∃ n row, isReal (levelNodes res) n v
       ∧ levels res !! Z.to_nat (r - minRankOf ranks) = Some row ∧ n ∈ row
       ∧ ∀ n', isReal (levelNodes res) n' v → n' = n)
  ∧ (∀ n v, isReal (levelNodes res) n v → is_Some (JsMap.get ranks v)).
Proof.
  intros Hperm Hnd Hres.
  destruct (ranksToLevels_links sortBy Hperm ranks edges res Hnd Hres)
    as (_ & _ & _ & Hreal & Hranked).
  split.
  - intros v r Hr. destruct (Hranked v r Hr) as (n & Hn & _ & row & Hrow & Hin).
    exists n, row. split_and!; [done..|].
    destruct Hn as (nd & Hnd' & Hv).
    destruct (Hreal n nd v Hnd' Hv) as (_ & _ & _ & Huniq). done.
  - intros n v (nd & Hnd' & Hv). destruct (Hreal n nd v Hnd' Hv) as (r & Hr & _).
    by rewrite Hr.
Qed.

Lemma ranksToLevels_real_nodes_witness :
  let ranks := [(0, 0%Z); (1, 1%Z); (2, 2%Z); (3, 3%Z)] in
  let edges := [mkEdge 0 0 1; mkEdge 1 1 2; mkEdge 2 2 3; mkEdge 3 0 3; mkEdge 4 3 1] in
  ∃ res, ranksToLevels stableSortBy ranks edges = Returns res
    ∧ (∀ v r, JsMap.get ranks v = Some r →
         ∃ n row, isReal (levelNodes res) n v
           ∧ levels res !! Z.to_nat (r - minRankOf ranks) = Some row ∧ n ∈ row
           ∧ ∀ n', isReal (levelNodes res) n' v → n' = n)
    ∧ (∀ n v, isReal (levelNodes res) n v → is_Some (JsMap.get ranks v)).
Proof.
  intros ranks edges. eexists. split; [vm_compute; reflexivity|].
  apply (ranksToLevels_real_nodes stableSortBy ranks edges).
  - apply stableSortBy_perm.
  - compute_done.
  - vm_compute. reflexivity.
Defined.

(** X22. The view of a graph built through [addVertex] and [addEdge]
    never fails to retrieve a position, and it draws every vertex of the
    graph exactly once: one group per row with one place per node of the
    row, an element for each real node, labelled with its vertex and
    holding a rectangle of the node width and height, and nothing for a
    virtual node. *)
Theorem render_draws_every_vertex_once {V E : Type} `{EqDecision V, EqDecision E, Edge V E}
    (sortBy : (nat → option Q) → list nat → list nat) (g : Graph V E) :
  (∀ key l, sortBy key l ≡ₚ l) → built g →
  ∃ layout view, layoutGraph sortBy g = Returns layout
    ∧ render g layout = inr view
    ∧ Forall2 (λ row group, length group = length row)
        (levels (levelResult layout)) (groups view)
    ∧ drawnVertices (groups view) ≡ₚ getVertices g
    ∧ NoDup (drawnVertices (groups view))
    ∧ ∀ el, Some el ∈ concat (groups view) →
        (rectWidth el == width)%Q ∧ (rectHeight el == height)%Q.
Proof.
  intros Hperm Hbuilt.
  destruct (render_built sortBy Hperm g Hbuilt)
    as (layout & view & Hrun & Hview & Hgroups & Hdrawn & Hsize & _).
  exists layout, view. split_and!; [done..| |done].
  rewrite Hdrawn. by apply built_NoDup.
Qed.

Lemma render_draws_every_vertex_once_witness :
  let g := graphOf [mkEdge 0 0 1; mkEdge 1 1 2; mkEdge 2 2 0; mkEdge 3 1 1;
                    mkEdge 4 0 1; mkEdge 5 2 3; mkEdge 6 0 3] in
  ∃ layout view, layoutGraph stableSortBy g = Returns layout
    ∧ render g layout = inr view
    ∧ Forall2 (λ row group, length group = length row)
        (levels (levelResult layout)) (groups view)
    ∧ drawnVertices (groups view) ≡ₚ getVertices g
    ∧ NoDup (drawnVertices (groups view))
    ∧ ∀ el, Some el ∈ concat (groups view) →
        (rectWidth el == width)%Q ∧ (rectHeight el == height)%Q.
Proof.
  intros g. apply (render_draws_every_vertex_once stableSortBy g).
  - apply stableSortBy_perm.
  - apply built_graphOf.
Defined.

(** X23. The view of a graph built through [addVertex] and [addEdge]
    draws every edge: one path element for each edge of the graph, in
    the order of the graph's edge set, and none of them falls back to
    the empty path, each starts with a move-to. *)
Theorem render_draws_every_edge {V E : Type} `{EqDecision V, EqDecision E, Edge V E}
    (sortBy : (nat → option Q) → list nat → list nat) (g : Graph V E) :
  (∀ key l, sortBy key l ≡ₚ l) → built g →
  ∃ layout view, layoutGraph sortBy g = Returns layout
    ∧ render g layout = inr view
    ∧ paths view = (λ e, default [] (JsMap.get (edgePaths layout) e)) <$> getEdges g
    ∧ length (paths view) = length (getEdges g)
    ∧ ∀ path, path ∈ paths view → ∃ p rest, path = MoveTo p :: rest.
Proof.
  intros Hperm Hbuilt.
  destruct (render_built sortBy Hperm g Hbuilt)
    as (layout & view & Hrun & Hview & _ & _ & _ & Hlen & Hpaths).
  exists layout, view. split_and!; [done|done| |done|done].
  unfold render in Hview. destruct (renderLevels _ _ _); [done|].
  by injection Hview as <-.
Qed.

Lemma render_draws_every_edge_witness :
  let g := graphOf [mkEdge 0 0 1; mkEdge 1 1 2; mkEdge 2 2 0; mkEdge 3 1 1;
                    mkEdge 4 0 1; mkEdge 5 2 3; mkEdge 6 0 3] in
  ∃ layout view, layoutGraph stableSortBy g = Returns layout
    ∧ render g layout = inr view
    ∧ paths view = (λ e, default [] (JsMap.get (edgePaths layout) e)) <$> getEdges g
    ∧ length (paths view) = length (getEdges g)
    ∧ ∀ path, path ∈ paths view → ∃ p rest, path = MoveTo p :: rest.
Proof.
  intros g. apply (render_draws_every_edge stableSortBy g).
  - apply stableSortBy_perm.
  - apply built_graphOf.
Defined.

(** X24. The earlier [positionNodes], which gives every node of a row a
    slot of the node width, centres each row under the widest row:
    [totalWidth] is the occupied width of a row with the most nodes, no
    row is wider, and the rectangle of the node in column [j] of row [i]
    starts half the difference between [totalWidth] and the row's own
    width plus [j] slots from the left, [i] rows down; a virtual node is
    an empty rectangle in the middle of its slot. *)
Theorem part001_rows_centered_under_widest {V : Type}
    (ns : list (LevelNode V)) (levels : list (list nat)) (i j : nat) (row : list nat)
    (n : nat) :
  NoDup (concat levels) → levels !! i = Some row → row !! j = Some n →
  (∃ widest, widest ∈ levels
     ∧ (totalWidth levels == Part001.levelWidth widest)%Q
     ∧ ∀ row', row' ∈ levels →
         (Part001.levelWidth row' <= Part001.levelWidth widest)%Q)
  ∧ ∃ rect, JsMap.get (Part001.positionNodes ns levels) n = Some rect
      ∧ (Rect.left rect
         == (totalWidth levels - Part001.levelWidth row) / 2
            + inject_Z (Z.of_nat j) * (width + horizontalSpacing)
            + (if hasVertex ns n then 0 else width / 2))%Q
      ∧ (Rect.top rect
         == inject_Z (Z.of_nat i) * (height + verticalSpacing)
            + (if hasVertex ns n then 0 else height / 2))%Q
      ∧ (Rect.width rect == if hasVertex ns n then width else 0)%Q
      ∧ (Rect.height rect == if hasVertex ns n then height else 0)%Q.
Proof.
  intros Hnd Hrow Hn. split.
  - destruct (maxCount_attained levels) as (widest & Hin & Hlen).
    { intros ->. done. }
    assert (totalWidth levels == Part001.levelWidth widest)%Q as Heq.
    { unfold totalWidth, Part001.levelWidth. by rewrite Hlen. }
    exists widest. split_and!; [done|done|].
    intros row' Hrow'. rewrite <- Heq. by apply part001_levelWidth_le.
  - unfold Part001.positionNodes.
    destruct (part001_placeLevel_fold ns (totalWidth levels) levels 0%Q [] Hnd)
      as [_ Hslots].
    destruct (Hslots i row j n Hrow Hn) as (rect & Hrect & Ht & Hl & Hw & Hh).
    exists rect. split_and!; [done|done| |done|done].
    rewrite Ht. ring.
Qed.

Lemma part001_rows_centered_under_widest_witness :
  let ns : list (LevelNode nat) :=
    [mkLevelNode [] [] (Some 0) 0; mkLevelNode [0] [] (Some 1) 0;
     mkLevelNode [0; 1] [] (Some 2) 0; mkLevelNode [] [] None 1] in
  let levels := [[0]; [1; 3]; [2]] in
  let row := [1; 3] in
  (∃ widest, widest ∈ levels
     ∧ (totalWidth levels == Part001.levelWidth widest)%Q
     ∧ ∀ row', row' ∈ levels →
         (Part001.levelWidth row' <= Part001.levelWidth widest)%Q)
  ∧ ∃ rect, JsMap.get (Part001.positionNodes ns levels) 3 = Some rect
      ∧ (Rect.left rect
         == (totalWidth levels - Part001.levelWidth row) / 2
            + inject_Z (Z.of_nat 1) * (width + horizontalSpacing)
            + (if hasVertex ns 3 then 0 else width / 2))%Q
      ∧ (Rect.top rect
         == inject_Z (Z.of_nat 1) * (height + verticalSpacing)
            + (if hasVertex ns 3 then 0 else height / 2))%Q
      ∧ (Rect.width rect == if hasVertex ns 3 then width else 0)%Q
      ∧ (Rect.height rect == if hasVertex ns 3 then height else 0)%Q.
Proof.
  intros ns levels row.
  apply (part001_rows_centered_under_widest ns levels 1 1 row 3).
  - compute_done.
  - reflexivity.
  - reflexivity.
Defined.

(** X25. The earlier [makeEdgePaths] never fails and draws a chain as
    one straight segment for every pair of consecutive nodes.  Each
    segment runs between the horizontal centres of the two rectangles,
    from the bottom edge of the first to the top edge of the second when
    the first lies above, and from the top edge of the first to the
    bottom edge of the second otherwise; a node without position counts
    as the default rectangle. *)
Theorem part001_segments_on_facing_edges
    (defaultRect : Rect.t) (positions : list (nat * Rect.t)) (chain : list nat)
    (i : nat) (a b : nat) :
  chain !! i = Some a → chain !! S i = Some b →
  let ra := default defaultRect (JsMap.get positions a) in
  let rb := default defaultRect (JsMap.get positions b) in
  S (length (Part001.edgePath defaultRect positions chain)) = length chain
  ∧ ∃ fromAnchor toAnchor,
      Part001.edgePath defaultRect positions chain !! i
      = Some (Part001.MoveLine fromAnchor toAnchor)
      ∧ (Vec2.x fromAnchor == Rect.left ra + Rect.width ra / 2)%Q
      ∧ (Vec2.x toAnchor == Rect.left rb + Rect.width rb / 2)%Q
      ∧ (Rect.top ra < Rect.top rb →
           Vec2.y fromAnchor == Rect.top ra + Rect.height ra
           ∧ Vec2.y toAnchor == Rect.top rb)%Q
      ∧ (Rect.top rb <= Rect.top ra →
           Vec2.y fromAnchor == Rect.top ra
           ∧ Vec2.y toAnchor == Rect.top rb + Rect.height rb)%Q.
Proof.
  intros Ha Hb ra rb. destruct chain as [|from rest]; [done|].
  unfold Part001.edgePath.
  destruct (part001_extendPath_shape defaultRect positions rest from [])
    as (added & -> & Hlen & Hshape).
  simpl. split; [lia|]. rewrite (Hshape i a b Ha Hb). fold ra rb.
  pose proof (segmentAnchors_spec ra rb) as Hspec.
  destruct (segmentAnchors ra rb) as [fromAnchor toAnchor].
  destruct Hspec as (Hfx & Htx & Hdown & Hup).
  exists fromAnchor, toAnchor. split_and!; done.
Qed.

Lemma part001_segments_on_facing_edges_witness :
  let defaultRect := Rect.mk (Vec2.mk 0 0) (Vec2.mk 0 0) in
  let positions :=
    [(0, Rect.mk (Vec2.mk 0 0) (Vec2.mk 115 25));
     (1, Rect.mk (Vec2.mk 20 70) (Vec2.mk 0 0));
     (2, Rect.mk (Vec2.mk 70 140) (Vec2.mk 115 25))] in
  let chain := [2; 1; 0] in
  let ra := default defaultRect (JsMap.get positions 2) in
  let rb := default defaultRect (JsMap.get positions 1) in
  S (length (Part001.edgePath defaultRect positions chain)) = length chain
  ∧ ∃ fromAnchor toAnchor,
      Part001.edgePath defaultRect positions chain !! 0
      = Some (Part001.MoveLine fromAnchor toAnchor)
      ∧ (Vec2.x fromAnchor == Rect.left ra + Rect.width ra / 2)%Q
      ∧ (Vec2.x toAnchor == Rect.left rb + Rect.width rb / 2)%Q
      ∧ (Rect.top ra < Rect.top rb →
           Vec2.y fromAnchor == Rect.top ra + Rect.height ra
           ∧ Vec2.y toAnchor == Rect.top rb)%Q
      ∧ (Rect.top rb <= Rect.top ra →
           Vec2.y fromAnchor == Rect.top ra
           ∧ Vec2.y toAnchor == Rect.top rb + Rect.height rb)%Q.
Proof.
  intros defaultRect positions chain.
  apply (part001_segments_on_facing_edges defaultRect positions chain 0 2 1).
  - reflexivity.
  - reflexivity.
Defined.

(** X26. The path of a forward edge leaves and enters every rectangle
    by the facing edge.  For an edge from [u] to [v] with rank(u) <
    rank(v), every node of the recorded chain lies below the node before
    it; the path starts at the bottom centre of the rectangle of [u],
    and the curve into each further node of the chain ends at the top
    centre of that node's rectangle. *)
Theorem forward_edge_path_faces {V E : Type} `{EqDecision V, EqDecision E, Edge V E}
    (sortBy : (nat → option Q) → list nat → list nat)
    (ranks : list (V * Z)) (edges : list E) (res : LevelResult V E)
    (e : E) (ru rv : Z) (chain : list nat) :
  (∀ key l, sortBy key l ≡ₚ l) →
  NoDup (JsMap.keys ranks) →
  ranksToLevels sortBy ranks edges = Returns res →
  JsMap.get ranks (from e) = Some ru → JsMap.get ranks (to e) = Some rv →
  (ru < rv)%Z →
  JsMap.get (edgeToLevelNodes res) e = Some chain →
  ∃ path first firstRect p,
    edgePath (V:=V) (positionNodes (levelNodes res) (levels res)) chain = Returns path
    ∧ head chain = Some first
    ∧ JsMap.get (positionNodes (levelNodes res) (levels res)) first = Some firstRect
    ∧ path !! 0 = Some (MoveTo p)
    ∧ (Vec2.x p == Rect.left firstRect + Rect.width firstRect / 2)%Q
    ∧ (Vec2.y p == Rect.top firstRect + Rect.height firstRect)%Q
    ∧ ∀ i a b, chain !! i = Some a → chain !! S i = Some b →
        ∃ ra rb mid q,
          JsMap.get (positionNodes (levelNodes res) (levels res)) a = Some ra
          ∧ JsMap.get (positionNodes (levelNodes res) (levels res)) b = Some rb
          ∧ (Rect.top ra < Rect.top rb)%Q
          ∧ path !! S i = Some (SmoothTo mid q)
          ∧ (Vec2.x q == Rect.left rb + Rect.width rb / 2)%Q
          ∧ (Vec2.y q == Rect.top rb)%Q.
Proof.
  intros Hperm Hnd Hres Hru Hrv Hlt Hget.
  by apply (forward_chain_faces sortBy Hperm ranks edges res e ru rv chain).
Qed.

Lemma forward_edge_path_faces_witness :
  let ranks := [(0, 0%Z); (1, 1%Z); (2, 2%Z); (3, 3%Z)] in
  let edges := [mkEdge 0 0 1; mkEdge 1 1 2; mkEdge 2 2 3; mkEdge 3 0 3; mkEdge 4 3 1] in
  let e := mkEdge 3 0 3 in
  ∃ res chain, ranksToLevels stableSortBy ranks edges = Returns res
    ∧ JsMap.get (edgeToLevelNodes res) e = Some chain
    ∧ ∃ path first firstRect p,
        edgePath (V:=nat) (positionNodes (levelNodes res) (levels res)) chain
        = Returns path
        ∧ head chain = Some first
        ∧ JsMap.get (positionNodes (levelNodes res) (levels res)) first = Some firstRect
        ∧ path !! 0 = Some (MoveTo p)
        ∧ (Vec2.x p == Rect.left firstRect + Rect.width firstRect / 2)%Q
        ∧ (Vec2.y p == Rect.top firstRect + Rect.height firstRect)%Q
        ∧ ∀ i a b, chain !! i = Some a → chain !! S i = Some b →
            ∃ ra rb mid q,
              JsMap.get (positionNodes (levelNodes res) (levels res)) a = Some ra
              ∧ JsMap.get (positionNodes (levelNodes res) (levels res)) b = Some rb
              ∧ (Rect.top ra < Rect.top rb)%Q
              ∧ path !! S i = Some (SmoothTo mid q)
              ∧ (Vec2.x q == Rect.left rb + Rect.width rb / 2)%Q
              ∧ (Vec2.y q == Rect.top rb)%Q.
Proof.
  intros ranks edges e. eexists _, _.
  split; [vm_compute; reflexivity|]. split; [reflexivity|].
  eapply (forward_edge_path_faces stableSortBy ranks edges _ e 0 3).
  - apply stableSortBy_perm.
  - compute_done.
  - vm_compute. reflexivity.
  - reflexivity.
  - reflexivity.
  - lia.
  - reflexivity.
Defined.

(** X27. Along the path of a back edge every curve enters by the facing
    edge.  For an edge from [u] to [v] with rank(u) > rank(v), every
    node of the recorded chain lies above the node before it, and the
    curve into each further node of the chain ends at the bottom centre
    of that node's rectangle. *)
Theorem back_edge_path_curves {V E : Type} `{EqDecision V, EqDecision E, Edge V E}
    (sortBy : (nat → option Q) → list nat → list nat)
    (ranks : list (V * Z)) (edges : list E) (res : LevelResult V E)
    (e : E) (ru rv : Z) (chain : list nat) :
  (∀ key l, sortBy key l ≡ₚ l) →
  NoDup (JsMap.keys ranks) →
  ranksToLevels sortBy ranks edges = Returns res →
  JsMap.get ranks (from e) = Some ru → JsMap.get ranks (to e) = Some rv →
  (rv < ru)%Z →
  JsMap.get (edgeToLevelNodes res) e = Some chain →
  ∃ path,
    edgePath (V:=V) (positionNodes (levelNodes res) (levels res)) chain = Returns path
    ∧ ∀ i a b, chain !! i = Some a → chain !! S i = Some b →
        ∃ ra rb mid q,
          JsMap.get (positionNodes (levelNodes res) (levels res)) a = Some ra
          ∧ JsMap.get (positionNodes (levelNodes res) (levels res)) b = Some rb
          ∧ (Rect.top rb < Rect.top ra)%Q
          ∧ path !! S i = Some (SmoothTo mid q)
          ∧ (Vec2.x q == Rect.left rb + Rect.width rb / 2)%Q
          ∧ (Vec2.y q == Rect.top rb + Rect.height rb)%Q.
Proof.
  intros Hperm Hnd Hres Hru Hrv Hlt Hget.
  destruct (recorded_chain_path sortBy Hperm ranks edges res e chain Hnd Hres Hget)
    as (Hnd' & (ru' & rv' & Hru' & Hrv' & Hspec)
        & first & firstRect & rest & added & Hchain & Hfirst & Hpath & Hshape).
  simplify_eq. rewrite decide_False in Hspec by lia.
  eexists. split; [done|]. intros i a b Ha Hb.
  pose proof (lookup_lt_Some _ _ _ Hb) as Hlen.
  destruct (chainSpec_tops _ _ _ _ _ _ _ _ (length (first :: rest) - S (S i)) b a
              Hnd' Hspec) as (rb & ra & Hrb & Hra & Htop).
  { rewrite reverse_lookup by lia. rewrite <- Hb. f_equal. lia. }
  { rewrite reverse_lookup by lia. rewrite <- Ha. f_equal. lia. }
  specialize (Hshape i a b ra rb Ha Hb Hra Hrb).
  pose proof (segmentAnchors_spec ra rb) as Hanchors.
  destruct (segmentAnchors ra rb) as [fromAnchor toAnchor].
  destruct Hanchors as (_ & Htx & _ & Hup).
  destruct (Hup (Qlt_le_weak _ _ Htop)) as [_ Hty].
  eexists ra, rb, _, _. split_and!; [done|done|done|exact Hshape|done|done].
Qed.

Lemma back_edge_path_curves_witness :
  let ranks := [(0, 0%Z); (1, 1%Z); (2, 2%Z); (3, 3%Z)] in
  let edges := [mkEdge 0 0 1; mkEdge 1 1 2; mkEdge 2 2 3; mkEdge 3 0 3; mkEdge 4 3 1] in
  let e := mkEdge 4 3 1 in
  ∃ res chain, ranksToLevels stableSortBy ranks edges = Returns res
    ∧ JsMap.get (edgeToLevelNodes res) e = Some chain
    ∧ ∃ path,
        edgePath (V:=nat) (positionNodes (levelNodes res) (levels res)) chain
        = Returns path
        ∧ ∀ i a b, chain !! i = Some a → chain !! S i = Some b →
            ∃ ra rb mid q,
              JsMap.get (positionNodes (levelNodes res) (levels res)) a = Some ra
              ∧ JsMap.get (positionNodes (levelNodes res) (levels res)) b = Some rb
              ∧ (Rect.top rb < Rect.top ra)%Q
              ∧ path !! S i = Some (SmoothTo mid q)
              ∧ (Vec2.x q == Rect.left rb + Rect.width rb / 2)%Q
              ∧ (Vec2.y q == Rect.top rb + Rect.height rb)%Q.
Proof.
  intros ranks edges e. eexists _, _.
  split; [vm_compute; reflexivity|]. split; [reflexivity|].
  eapply (back_edge_path_curves stableSortBy ranks edges _ e 3 1).
  - apply stableSortBy_perm.
  - compute_done.
  - vm_compute. reflexivity.
  - reflexivity.
  - reflexivity.
  - lia.
  - reflexivity.
Defined.

(** X28. In the layout of an acyclic graph every edge is drawn downward:
    each edge of the graph has a chain and a path, every node of the
    chain lies below the node before it, and the curve into it ends at
    the top centre of its rectangle. *)
Theorem acyclic_layout_paths_downward {V E : Type} `{EqDecision V, EqDecision E, Edge V E}
    (sortBy : (nat → option Q) → list nat → list nat) (g : Graph V E) :
  (∀ key l, sortBy key l ≡ₚ l) → built g → acyclic g →
  ∃ layout, layoutGraph sortBy g = Returns layout
    ∧ ∀ e, e ∈ getEdges g →
        ∃ chain path,
          JsMap.get (edgeToLevelNodes (levelResult layout)) e = Some chain
          ∧ JsMap.get (edgePaths layout) e = Some path
          ∧ ∀ i a b, chain !! i = Some a → chain !! S i = Some b →
              ∃ ra rb mid q,
                JsMap.get (nodePositions layout) a = Some ra
                ∧ JsMap.get (nodePositions layout) b = Some rb
                ∧ (Rect.top ra < Rect.top rb)%Q
                ∧ path !! S i = Some (SmoothTo mid q)
                ∧ (Vec2.x q == Rect.left rb + Rect.width rb / 2)%Q
                ∧ (Vec2.y q == Rect.top rb)%Q.
Proof.
  intros Hperm Hbuilt Hacyclic.
  destruct (layoutGraph_built sortBy Hperm g Hbuilt)
    as (layout & Hrun & Hranks & Hres & Hpos & Hpaths).
  exists layout. split; [done|]. intros e He.
  destruct (rankVertices_any g Hbuilt) as (ranks & Hranks' & Hnd & _).
  rewrite Hranks in Hranks'. injection Hranks' as <-.
  destruct (rankVertices_equation g Hbuilt Hacyclic) as (m & Hm & Hall & Heq).
  rewrite Hranks in Hm. injection Hm as <-.
  destruct (built_endpoints g Hbuilt e He) as [_ Hto].
  destruct (Hall _ Hto) as [rv Hrv]. destruct (Heq _ _ Hrv) as [_ [Hpred _]].
  destruct (Hpred e) as (ru & Hru & Hlt).
  { by apply (built_entering g Hbuilt). }
  destruct (ranksToLevels_partition sortBy Hperm _ _ _ Hres) as (_ & _ & Hchains & _).
  destruct (built_NoDup g Hbuilt) as [_ Hedges].
  rewrite (foldl_JsSet_add_NoDup (getEdges g) []) in Hchains by done.
  simpl in Hchains.
  assert (is_Some (JsMap.get (edgeToLevelNodes (levelResult layout)) e)) as [chain Hchain].
  { apply JsMap_get_is_Some_keys. by rewrite Hchains. }
  destruct (forward_chain_faces sortBy Hperm _ _ _ e ru rv chain Hnd Hres Hru Hrv)
    as (path & _ & _ & _ & Hpath & _ & _ & _ & _ & _ & Hcurves); [lia|done|].
  unfold makeEdgePaths in Hpaths.
  destruct (makeEdgePathsFrom_lookup _ _ _ _ Hpaths) with (e := e) (chain := chain)
    as (path' & Hget & Hpath').
  { rewrite Hchains. done. }
  { by apply JsMap_get_Some_elem. }
  rewrite <- Hpos in Hpath, Hcurves.
  rewrite Hpath in Hpath'. injection Hpath' as <-.
  exists chain, path. split_and!; [done|done|]. apply Hcurves.
Qed.

Lemma acyclic_layout_paths_downward_witness :
  let g := graphOf [mkEdge 0 0 1; mkEdge 1 0 2; mkEdge 2 1 3; mkEdge 3 2 3; mkEdge 4 0 3] in
  ∃ layout, layoutGraph stableSortBy g = Returns layout
    ∧ ∀ e, e ∈ getEdges g →
        ∃ chain path,
          JsMap.get (edgeToLevelNodes (levelResult layout)) e = Some chain
          ∧ JsMap.get (edgePaths layout) e = Some path
          ∧ ∀ i a b, chain !! i = Some a → chain !! S i = Some b →
              ∃ ra rb mid q,
                JsMap.get (nodePositions layout) a = Some ra
                ∧ JsMap.get (nodePositions layout) b = Some rb
                ∧ (Rect.top ra < Rect.top rb)%Q
                ∧ path !! S i = Some (SmoothTo mid q)
                ∧ (Vec2.x q == Rect.left rb + Rect.width rb / 2)%Q
                ∧ (Vec2.y q == Rect.top rb)%Q.
Proof.
  intros g. apply (acyclic_layout_paths_downward stableSortBy g).
  - apply stableSortBy_perm.
  - apply built_graphOf.
  - apply (acyclic_of_order g (λ v, v)). intros e He.
    vm_compute in He. apply list_elem_of_In in He. simpl in He.
    repeat (destruct He as [<-|He]; [simpl; lia|]). done.
Defined.

(** X29. The layout of a graph with a vertex has no empty row: row [i]
    holds the node of a vertex of rank [i].  (The layout of the graph
    without vertices has the single row of rank 0, which is empty.) *)
Theorem layoutGraph_rows_inhabited {V E : Type} `{EqDecision V, EqDecision E, Edge V E}
    (sortBy : (nat → option Q) → list nat → list nat) (g : Graph V E) :
  (∀ key l, sortBy key l ≡ₚ l) → built g → getVertices g ≠ [] →
  ∃ layout, layoutGraph sortBy g = Returns layout
    ∧ ∀ i row, levels (levelResult layout) !! i = Some row →
        ∃ n v, n ∈ row
               ∧ isReal (levelNodes (levelResult layout)) n v
               ∧ JsMap.get (layoutRanks layout) v = Some (Z.of_nat i).
Proof.
  intros Hperm Hbuilt Hne.
  destruct (layoutGraph_built sortBy Hperm g Hbuilt)
    as (layout & Hrun & Hranks & Hres & Hpos & Hpaths).
  exists layout. split; [done|]. intros i row Hrow.
  destruct (rankVertices_any g Hbuilt)
    as (ranks & Hranks' & Hnd & Hkeys & Hbound & _ & Htight).
  rewrite Hranks in Hranks'. injection Hranks' as <-.
  set (ranks := layoutRanks layout) in *.
  assert (minRankOf ranks = 0%Z) as Hmin.
  { apply foldl_min_nonneg. intros r Hr.
    apply list_elem_of_fmap in Hr as ([v r'] & -> & Hin). simpl.
    apply (JsMap_elem_get _ _ _ Hnd) in Hin. by apply Hbound in Hin as [? _]. }
  destruct (ranksToLevels_partition sortBy Hperm _ _ _ Hres) as (_ & Hlen & _).
  rewrite Hmin in Hlen. apply lookup_lt_Some in Hrow as Hi.
  assert (∃ w rw, JsMap.get ranks w = Some rw ∧ (Z.of_nat i ≤ rw)%Z) as (w & rw & Hrw & Hle).
  { destruct (maxRankOf_attained ranks Hnd) as [Hz|[w Hw]].
    - destruct (getVertices g) as [|v vs] eqn:Hvs; [done|].
      assert (v ∈ JsMap.keys ranks) as Hv.
      { rewrite Hkeys. change (vertices g) with (getVertices g).
        rewrite Hvs. apply elem_of_cons; auto. }
      apply JsMap_get_is_Some_keys in Hv as [rv Hrv].
      exists v, rv. split; [done|]. apply Hbound in Hrv. lia.
    - exists w, (maxRankOf ranks). split; [done|]. lia. }
  destruct (ranks_inhabited g ranks Htight w rw (Z.of_nat i) Hrw) as [v Hv]; [lia|].
  destruct (ranksToLevels_links sortBy Hperm _ _ _ Hnd Hres) as (_ & _ & _ & _ & Hreal).
  destruct (Hreal v _ Hv) as (n & Hn & _ & row' & Hrow' & Hin).
  rewrite Hmin in Hrow'.
  replace (Z.to_nat (Z.of_nat i - 0)) with i in Hrow' by lia.
  rewrite Hrow in Hrow'. injection Hrow' as <-.
  by exists n, v.
Qed.

Lemma layoutGraph_rows_inhabited_witness :
  let g := graphOf [mkEdge 0 0 1; mkEdge 1 1 2; mkEdge 2 2 0; mkEdge 3 1 1;
                    mkEdge 4 0 1; mkEdge 5 2 3; mkEdge 6 3 0] in
  ∃ layout, layoutGraph stableSortBy g = Returns layout
    ∧ ∀ i row, levels (levelResult layout) !! i = Some row →
        ∃ n v, n ∈ row
               ∧ isReal (levelNodes (levelResult layout)) n v
               ∧ JsMap.get (layoutRanks layout) v = Some (Z.of_nat i).
Proof.
  intros g. apply (layoutGraph_rows_inhabited stableSortBy g).
  - apply stableSortBy_perm.
  - apply built_graphOf.
  - vm_compute. discriminate.
Defined.

(** X30. In the level structure of the earlier [ranksToLevels], a
    virtual node has no parent, so that its weight in the sort is the
    quotient 0/0; and a parent of a node is always the node of a vertex:
    the end of smaller rank of an edge whose other end is the vertex of
    the node, however many rows the edge spans. *)
Theorem part001_parents_are_vertices {V E : Type} `{EqDecision V, EqDecision E, Edge V E}
    (sortBy : (nat → option Q) → list nat → list nat)
    (ranks : list (V * Z)) (edges : list E) (res : LevelResult V E)
    (n : nat) (nd : LevelNode V) :
  NoDup (JsMap.keys ranks) →
  Part001.ranksToLevels sortBy ranks edges = Returns res →
  levelNodes res !! n = Some nd →
  (vertex nd = None →
   parents nd = [] ∧ levelNodeParentWeight (levelNodes res) n = None)
  ∧ ∀ p, p ∈ parents nd →
      ∃ u v ru rv e,
        isReal (levelNodes res) p u ∧ vertex nd = Some v
        ∧ JsMap.get ranks u = Some ru ∧ JsMap.get ranks v = Some rv
        ∧ (ru < rv)%Z
        ∧ e ∈ edges
        ∧ (from e = u ∧ to e = v ∨ from e = v ∧ to e = u).
Proof.
  intros Hnd Hres Hn.
  destruct (part001_ranksToLevels_parents sortBy ranks edges res Hnd Hres n nd Hn)
    as [Hvirt Hpar].
  split; [|done]. intros Hv. specialize (Hvirt Hv). split; [done|].
  unfold levelNodeParentWeight. by rewrite Hn, Hvirt.
Qed.

Lemma part001_parents_are_vertices_witness :
  let ranks := [(0, 0%Z); (1, 1%Z); (2, 2%Z); (3, 3%Z)] in
  let edges := [mkEdge 0 0 1; mkEdge 1 1 2; mkEdge 2 2 3; mkEdge 3 0 3; mkEdge 4 3 1] in
  ∃ res nd, Part001.ranksToLevels stableSortBy ranks edges = Returns res
    ∧ levelNodes res !! 3 = Some nd
    ∧ (vertex nd = None →
       parents nd = [] ∧ levelNodeParentWeight (levelNodes res) 3 = None)
    ∧ ∀ p, p ∈ parents nd →
        ∃ u v ru rv e,
          isReal (levelNodes res) p u ∧ vertex nd = Some v
          ∧ JsMap.get ranks u = Some ru ∧ JsMap.get ranks v = Some rv
          ∧ (ru < rv)%Z
          ∧ e ∈ edges
          ∧ (from e = u ∧ to e = v ∨ from e = v ∧ to e = u).
Proof.
  intros ranks edges. eexists _, _.
  split; [vm_compute; reflexivity|]. split; [reflexivity|].
  eapply (part001_parents_are_vertices stableSortBy ranks edges _ 3).
  - compute_done.
  - vm_compute. reflexivity.
  - reflexivity.
Defined.
